(** * Connect Four decision engine: state model, evaluator, minimax and
      alpha-beta search.

    A shallow embedding of [connect4/game.py], [connect4/evaluation.py] and
    [connect4/search.py].  Python integers are unbounded, so every integer is
    a [Z].  A Python exception is a value of [exn]; a method that mutates its
    object takes the object and returns the outcome together with the object
    as the call left it. *)

From Stdlib Require Import String.
From Stdlib Require Import ZArith List Bool Lia Sorted.
Import ListNotations.
Open Scope Z_scope.

(** ** Exceptions and fallible results *)

Inductive exn : Type :=
| ValueError (msg : string)
| RuntimeError (msg : string)
| IndexError
| TypeError
| Diverges.   (* a [while] loop that never leaves its body *)

Inductive result (A : Type) : Type :=
| Ok (a : A)
| Raise (e : exn).
Arguments Ok {A} a.
Arguments Raise {A} e.

Definition rbind {A B} (r : result A) (k : A -> result B) : result B :=
  match r with
  | Ok a => k a
  | Raise e => Raise e
  end.

Notation "'let?' x ':=' c 'in' k" := (rbind c (fun x => k))
  (at level 10, x name, c at level 100, k at level 200).

(** ** Python sequences *)

(** [range(n)], [range(a, b)] and [range(n - 1, -1, -1)]. *)
Definition range (n : Z) : list Z := map Z.of_nat (seq 0 (Z.to_nat n)).
Definition range_from (a b : Z) : list Z :=
  map (fun k => a + Z.of_nat k) (seq 0 (Z.to_nat (b - a))).
Definition range_down (n : Z) : list Z := rev (range n).

(** [l[i]]: a negative index counts from the end, anything outside
    [-len, len) raises [IndexError]. *)
Definition py_norm (len : nat) (i : Z) : option nat :=
  let j := if i <? 0 then i + Z.of_nat len else i in
  if (0 <=? j) && (j <? Z.of_nat len) then Some (Z.to_nat j) else None.

Definition py_getitem {A} (l : list A) (i : Z) : result A :=
  match py_norm (length l) i with
  | Some n => match nth_error l n with Some x => Ok x | None => Raise IndexError end
  | None => Raise IndexError
  end.

Fixpoint update {A} (l : list A) (n : nat) (x : A) : list A :=
  match l, n with
  | [], _ => []
  | _ :: t, O => x :: t
  | h :: t, S n' => h :: update t n' x
  end.

(** [l[i] = x]. *)
Definition py_setitem {A} (l : list A) (i : Z) (x : A) : result (list A) :=
  match py_norm (length l) i with
  | Some n => Ok (update l n x)
  | None => Raise IndexError
  end.

(** [window.count(x)]. *)
Definition count (x : Z) (l : list Z) : Z :=
  Z.of_nat (length (filter (Z.eqb x) l)).

(** A [for] loop that threads an accumulator and stops at the first
    exception. *)
Fixpoint for_acc {A B} (l : list A) (acc : B) (body : A -> B -> result B)
  : result B :=
  match l with
  | [] => Ok acc
  | x :: l' => let? acc' := body x acc in for_acc l' acc' body
  end.

(** A list comprehension [[f(i) for i in l]] whose element expression may
    raise. *)
Fixpoint comprehension {A B} (f : A -> result B) (l : list A) : result (list B) :=
  match l with
  | [] => Ok []
  | x :: l' => let? y := f x in let? ys := comprehension f l' in Ok (y :: ys)
  end.

(** ** game.py *)

Record MoveResult : Type := mkMove {
  row : Z;
  col : Z;
  player : Z
}.

Record ConnectFour : Type := mkGame {
  rows : Z;
  cols : Z;
  connect : Z;
  board : list (list Z);
  current_player : Z;
  last_move : option MoveResult
}.

Definition with_board (g : ConnectFour) (b : list (list Z)) : ConnectFour :=
  mkGame (rows g) (cols g) (connect g) b (current_player g) (last_move g).
Definition with_current_player (g : ConnectFour) (p : Z) : ConnectFour :=
  mkGame (rows g) (cols g) (connect g) (board g) p (last_move g).
Definition with_last_move (g : ConnectFour) (m : option MoveResult) : ConnectFour :=
  mkGame (rows g) (cols g) (connect g) (board g) (current_player g) m.

(** [ConnectFour.__init__] *)
Definition new_game (rows cols connect : Z) : result ConnectFour :=
  if (rows <=? 0) || (cols <=? 0)
  then Raise (ValueError "rows and cols must be positive.")
  else if connect <? 3
  then Raise (ValueError "connect should be >= 3.")
  else Ok (mkGame rows cols connect
             (map (fun _ => map (fun _ => 0) (range cols)) (range rows))
             1 None).

(** [self.board[r][c]] and [self.board[r][c] = v]. *)
Definition get_cell (b : list (list Z)) (r c : Z) : result Z :=
  let? line := py_getitem b r in py_getitem line c.

Definition set_cell (b : list (list Z)) (r c v : Z) : result (list (list Z)) :=
  let? line := py_getitem b r in
  let? line' := py_setitem line c v in
  py_setitem b r line'.

(** [actions]: the columns whose top cell is empty, in ascending order. *)
Definition actions (g : ConnectFour) : result (list Z) :=
  let? keep := comprehension
                 (fun c => let? v := get_cell (board g) 0 c in Ok (c, v =? 0))
                 (range (cols g)) in
  Ok (map fst (filter snd keep)).

(** [is_full]: [all] over a generator stops at the first empty top cell. *)
Fixpoint all_tops_taken (b : list (list Z)) (cs : list Z) : result bool :=
  match cs with
  | [] => Ok true
  | c :: cs' =>
      let? v := get_cell b 0 c in
      if v =? 0 then Ok false else all_tops_taken b cs'
  end.

Definition is_full (g : ConnectFour) : result bool :=
  all_tops_taken (board g) (range (cols g)).

(** The loop of [drop_disc], from the bottom row upwards: the first empty
    cell of column [c]. *)
Fixpoint lowest_empty (b : list (list Z)) (c : Z) (rs : list Z) : result (option Z) :=
  match rs with
  | [] => Ok None
  | r :: rs' =>
      let? v := get_cell b r c in
      if v =? 0 then Ok (Some r) else lowest_empty b c rs'
  end.

(** [drop_disc(col, player=None)].  Every [raise] comes before the first
    assignment, so a failed call hands the object back as it was. *)
Definition drop_disc (g : ConnectFour) (col : Z) (player : option Z)
  : result MoveResult * ConnectFour :=
  let player := match player with Some p => p | None => current_player g end in
  if negb ((0 <=? col) && (col <? cols g))
  then (Raise (ValueError "Column out of bounds."), g)
  else
    match get_cell (board g) 0 col with
    | Raise e => (Raise e, g)
    | Ok top =>
        if negb (top =? 0)
        then (Raise (ValueError "Column is full."), g)
        else
          match lowest_empty (board g) col (range_down (rows g)) with
          | Raise e => (Raise e, g)
          | Ok None => (Raise (RuntimeError "Failed to drop disc."), g)
          | Ok (Some r) =>
              match set_cell (board g) r col player with
              | Raise e => (Raise e, g)
              | Ok b' =>
                  let mv := mkMove r col player in
                  let g1 := with_last_move (with_board g b') (Some mv) in
                  let g2 := if player =? current_player g1
                            then with_current_player g1 (- current_player g1)
                            else g1 in
                  (Ok mv, g2)
              end
          end
    end.

(** [undo_disc(move)] *)
Definition undo_disc (g : ConnectFour) (move : MoveResult)
  : result unit * ConnectFour :=
  let r := row move in
  let c := col move in
  let p := player move in
  match get_cell (board g) r c with
  | Raise e => (Raise e, g)
  | Ok v =>
      if negb (v =? p)
      then (Raise (ValueError "Undo mismatch: board cell does not match the move."), g)
      else
        match set_cell (board g) r c 0 with
        | Raise e => (Raise e, g)
        | Ok b' =>
            (Ok tt, with_current_player (with_last_move (with_board g b') None) p)
        end
  end.

(** [_count_dir]: the [while] loop, unrolled at most [fuel] times. *)
Fixpoint count_dir_loop (fuel : nat) (g : ConnectFour) (rr cc p dr dc cnt : Z)
  : result Z :=
  match fuel with
  | O => Raise Diverges
  | S fuel' =>
      if (0 <=? rr) && (rr <? rows g) && (0 <=? cc) && (cc <? cols g)
      then
        let? v := get_cell (board g) rr cc in
        if v =? p
        then count_dir_loop fuel' g (rr + dr) (cc + dc) p dr dc (cnt + 1)
        else Ok cnt
      else Ok cnt
  end.

(** Every step moves the cursor by [(dr, dc)], so for a direction other than
    [(0, 0)] the loop leaves a [rows] by [cols] grid within
    [max rows cols] iterations; one more evaluates the failing test. *)
Definition count_dir_fuel (g : ConnectFour) : nat :=
  S (Z.to_nat (Z.max (rows g) (cols g))).

Definition _count_dir (g : ConnectFour) (r c p dr dc : Z) : result Z :=
  count_dir_loop (count_dir_fuel g) g (r + dr) (c + dc) p dr dc 0.

Definition directions : list (Z * Z) := [(0, 1); (1, 0); (1, 1); (-1, 1)].

Fixpoint winning_in (g : ConnectFour) (r c p : Z) (ds : list (Z * Z)) : result bool :=
  match ds with
  | [] => Ok false
  | (dr, dc) :: ds' =>
      let count := 1 in
      let? fwd := _count_dir g r c p dr dc in
      let count := count + fwd in
      let? bwd := _count_dir g r c p (- dr) (- dc) in
      let count := count + bwd in
      if count >=? connect g then Ok true else winning_in g r c p ds'
  end.

Definition _is_winning_move (g : ConnectFour) (r c p : Z) : result bool :=
  winning_in g r c p directions.

(** [winner] *)
Definition winner (g : ConnectFour) : result Z :=
  match last_move g with
  | None => Ok 0
  | Some m =>
      let? won := _is_winning_move g (row m) (col m) (player m) in
      Ok (if won then player m else 0)
  end.

(** [terminal]: [or] evaluates [is_full] only when there is no winner. *)
Definition terminal (g : ConnectFour) : result bool :=
  let? w := winner g in
  if negb (w =? 0) then Ok true else is_full g.

(** ** evaluation.py *)

Definition WIN_SCORE : Z := 10 ^ 9.

(** [score_window], the closure inside [evaluate]. *)
Definition score_window (player : Z) (window : list Z) : Z :=
  let p_count := count player window in
  let o_count := count (- player) window in
  let e_count := count 0 window in
  if (p_count >? 0) && (o_count >? 0) then 0
  else if p_count =? 4 then 100000
  else if (p_count =? 3) && (e_count =? 1) then 200
  else if (p_count =? 2) && (e_count =? 2) then 30
  else if o_count =? 4 then -100000
  else if (o_count =? 3) && (e_count =? 1) then -220
  else if (o_count =? 2) && (e_count =? 2) then -35
  else 0.

(** One pass of the centre-column loop.  The [if] and the [elif] read the
    same cell, nothing is written in between. *)
Definition center_step (b : list (list Z)) (center_col player r center_delta : Z)
  : result Z :=
  let? v := get_cell b r center_col in
  if v =? player then Ok (center_delta + 1)
  else if v =? - player then Ok (center_delta - 1)
  else Ok center_delta.

(** The four window loops of [evaluate] have one shape:
    [for x in outer: for y in inner: score += score_window([board[..] for i in range(4)])];
    [at x y i] is the cell the comprehension reads. *)
Definition window_at (b : list (list Z)) (at_ : Z -> Z -> Z -> Z * Z) (x y : Z)
  : result (list Z) :=
  comprehension (fun i => get_cell b (fst (at_ x y i)) (snd (at_ x y i))) (range 4).

Definition sweep (b : list (list Z)) (player : Z) (outer inner : list Z)
    (at_ : Z -> Z -> Z -> Z * Z) (score : Z) : result Z :=
  for_acc outer score (fun x score =>
    for_acc inner score (fun y score =>
      let? window := window_at b at_ x y in
      Ok (score + score_window player window))).

Definition horizontal (r c i : Z) : Z * Z := (r, c + i).
Definition vertical (c r i : Z) : Z * Z := (r + i, c).
Definition diag_down_right (r c i : Z) : Z * Z := (r + i, c + i).
Definition diag_up_right (r c i : Z) : Z * Z := (r - i, c + i).

Definition evaluate (game : ConnectFour) (player : Z) : result Z :=
  let? w := winner game in
  if w =? player then Ok WIN_SCORE
  else if w =? - player then Ok (- WIN_SCORE)
  else
    let? full := is_full game in
    if full then Ok 0
    else
      let board := board game in
      let rows := rows game in
      let cols := cols game in
      let score := 0 in
      let center_col := cols / 2 in
      let? center_delta := for_acc (range rows) 0 (center_step board center_col player) in
      let score := score + 6 * center_delta in
      let? score := sweep board player (range rows) (range (cols - 3)) horizontal score in
      let? score := sweep board player (range cols) (range (rows - 3)) vertical score in
      let? score := sweep board player (range (rows - 3)) (range (cols - 3))
                      diag_down_right score in
      let? score := sweep board player (range_from 3 rows) (range (cols - 3))
                      diag_up_right score in
      Ok score.

(** ** search.py: metrics and tracer *)

(** [time_sec] is wall-clock time and is left out. *)
Record SearchMetrics : Type := mkMetrics {
  nodes_expanded : Z;
  max_depth_reached : Z
}.

Inductive node_kind : Type := MAX | MIN | PRUNED.

Record TraceNode : Type := mkNode {
  n_id : Z;
  n_parent : option Z;
  n_move : option Z;
  n_depth : Z;
  n_turn_player : Z;
  n_kind : node_kind;
  n_alpha : option Z;
  n_beta : option Z;
  n_value : option Z;
  n_pruned : bool
}.

Record SearchTracer : Type := mkTracer {
  trace_depth : Z;
  nodes : list TraceNode;
  _next_id : Z
}.

(** [SearchTracer.new_node] *)
Definition new_node (t : SearchTracer) (parent move : option Z) (depth turn_player : Z)
    (kind : node_kind) (alpha beta : option Z) (pruned : bool) : Z * SearchTracer :=
  let node_id := _next_id t in
  (node_id,
   mkTracer (trace_depth t)
     (nodes t ++ [mkNode node_id parent move depth turn_player kind alpha beta None pruned])
     (_next_id t + 1)).

(** [SearchTracer.set_value]: only the first node with the id is touched. *)
Fixpoint set_value_in (ns : list TraceNode) (node_id value : Z) (alpha beta : option Z)
  : list TraceNode :=
  match ns with
  | [] => []
  | n :: ns' =>
      if n_id n =? node_id
      then mkNode (n_id n) (n_parent n) (n_move n) (n_depth n) (n_turn_player n)
             (n_kind n)
             (match alpha with Some a => Some a | None => n_alpha n end)
             (match beta with Some b => Some b | None => n_beta n end)
             (Some value) (n_pruned n) :: ns'
      else n :: set_value_in ns' node_id value alpha beta
  end.

Definition set_value (t : SearchTracer) (node_id value : Z) (alpha beta : option Z)
  : SearchTracer :=
  mkTracer (trace_depth t) (set_value_in (nodes t) node_id value alpha beta) (_next_id t).

(** ** search.py: the objects a search works on *)

Record world : Type := mkWorld {
  game : ConnectFour;
  metrics : SearchMetrics;
  tracer : option SearchTracer
}.

(** A computation reads and writes the three objects and may raise; the
    objects stay as the exception found them. *)
Definition M (A : Type) : Type := world -> result A * world.

Definition ret {A} (a : A) : M A := fun w => (Ok a, w).

Definition bind {A B} (m : M A) (k : A -> M B) : M B :=
  fun w =>
    match m w with
    | (Ok a, w') => k a w'
    | (Raise e, w') => (Raise e, w')
    end.

Notation "x <- c ;; k" := (bind c (fun x => k))
  (at level 61, c at next level, right associativity).
Notation "c ;;; k" := (bind c (fun _ => k))
  (at level 61, right associativity).

(** A call of a method of [game] that only reads. *)
Definition ask {A} (f : ConnectFour -> result A) : M A :=
  fun w => (f (game w), w).

(** [game.drop_disc(a)] and [game.undo_disc(mv)]. *)
Definition do_drop (a : Z) : M MoveResult :=
  fun w => let (r, g') := drop_disc (game w) a None in
           (r, mkWorld g' (metrics w) (tracer w)).

Definition do_undo (mv : MoveResult) : M unit :=
  fun w => let (r, g') := undo_disc (game w) mv in
           (r, mkWorld g' (metrics w) (tracer w)).

(** [metrics.nodes_expanded += 1;
     metrics.max_depth_reached = max(metrics.max_depth_reached, d)] *)
Definition count_node (d : Z) : M unit :=
  fun w => (Ok tt,
            mkWorld (game w)
              (mkMetrics (nodes_expanded (metrics w) + 1)
                         (Z.max (max_depth_reached (metrics w)) d))
              (tracer w)).

Definition kind_of (current_player ai_player : Z) : node_kind :=
  if current_player =? ai_player then MAX else MIN.

(** [child_id = None
     if tracer is not None and <within>:
         kind = ...; child_id = tracer.new_node(node_id, a, depth, game.current_player, kind, alpha, beta)] *)
Definition trace_child (within : SearchTracer -> bool) (ai_player : Z)
    (node_id : option Z) (a depth : Z) (alpha beta : option Z) : M (option Z) :=
  fun w =>
    match tracer w with
    | Some t =>
        if within t
        then
          let kind := kind_of (current_player (game w)) ai_player in
          let (child_id, t') :=
            new_node t node_id (Some a) depth (current_player (game w)) kind
                     alpha beta false in
          (Ok (Some child_id), mkWorld (game w) (metrics w) (Some t'))
        else (Ok None, w)
    | None => (Ok None, w)
    end.

(** [if tracer is not None and <within>:
         for pruned_a in acts[i+1:]:
             tracer.new_node(node_id, pruned_a, depth, game.current_player, "PRUNED",
                             alpha=alpha, beta=beta, pruned=True)] *)
Definition trace_pruned (within : SearchTracer -> bool) (node_id : option Z)
    (rest : list Z) (depth alpha beta : Z) : M unit :=
  fun w =>
    match tracer w with
    | Some t =>
        if within t
        then
          let t' := fold_left
                      (fun t pruned_a =>
                         snd (new_node t node_id (Some pruned_a) depth
                                (current_player (game w)) PRUNED
                                (Some alpha) (Some beta) true))
                      rest t in
          (Ok tt, mkWorld (game w) (metrics w) (Some t'))
        else (Ok tt, w)
    | None => (Ok tt, w)
    end.

(** [if tracer is not None and node_id is not None and <within>:
         tracer.set_value(node_id, v, alpha, beta)] *)
Definition trace_value (within : SearchTracer -> bool) (node_id : option Z) (v : Z)
    (alpha beta : option Z) : M unit :=
  fun w =>
    match tracer w, node_id with
    | Some t, Some i =>
        if within t
        then (Ok tt, mkWorld (game w) (metrics w) (Some (set_value t i v alpha beta)))
        else (Ok tt, w)
    | _, _ => (Ok tt, w)
    end.

(** [root_id = None
     if tracer is not None:
         root_kind = ...; root_id = tracer.new_node(None, None, 0, game.current_player, root_kind, ...)] *)
Definition trace_root (ai_player : Z) (alpha beta : option Z) : M (option Z) :=
  fun w =>
    match tracer w with
    | Some t =>
        let root_kind := kind_of (current_player (game w)) ai_player in
        let (root_id, t') :=
          new_node t None None 0 (current_player (game w)) root_kind alpha beta false in
        (Ok (Some root_id), mkWorld (game w) (metrics w) (Some t'))
    | None => (Ok None, w)
    end.

(** [for a in acts: acc = body(a, acc)] *)
Fixpoint for_each {A} (acts : list Z) (acc : A) (body : Z -> A -> M A) : M A :=
  match acts with
  | [] => ret acc
  | a :: rest => acc' <- body a acc ;; for_each rest acc' body
  end.

(** [for i, a in enumerate(acts): ...; if <cut>: ...; break].  The body gets
    [a] and [acts[i+1:]] and says whether it left through [break]. *)
Fixpoint for_break {A} (acts : list Z) (acc : A)
    (body : Z -> list Z -> A -> M (A * bool)) : M A :=
  match acts with
  | [] => ret acc
  | a :: rest =>
      r <- body a rest acc ;;
      if snd r then ret (fst r) else for_break rest (fst r) body
  end.

(** [int(best_move)]: [int(None)] is a [TypeError]. *)
Definition int_of (best_move : option Z) : M Z :=
  fun w => match best_move with
           | Some a => (Ok a, w)
           | None => (Raise TypeError, w)
           end.

Definition INF : Z := 10 ^ 18.

(** [terminal_value], the same closure in both searches. *)
Definition terminal_value (ai_player : Z) (g : ConnectFour) : result Z :=
  let? w := winner g in
  if w =? ai_player then Ok WIN_SCORE
  else if w =? - ai_player then Ok (- WIN_SCORE)
  else Ok 0.

Definition below (d : Z) (t : SearchTracer) : bool := d <? trace_depth t.
Definition upto (d : Z) (t : SearchTracer) : bool := d <=? trace_depth t.
Definition at_root (t : SearchTracer) : bool := trace_depth t >=? 1.
Definition always (t : SearchTracer) : bool := true.

(** ** search.py: [minimax_decision]

    The closures recurse on the depth [d], which grows by one per call from
    1 and stops the recursion at [depth_limit].  Here they recurse on
    [fuel], the number of plies the depth limit leaves: a call at depth [d]
    is given [plies_left depth_limit d].  With that much fuel the branch
    for no fuel is dead, the test on [d] comes first. *)

Definition plies_left (depth_limit d : Z) : nat := Z.to_nat (depth_limit - d).

Definition out_of_fuel {A} : M A := fun w => (Raise Diverges, w).

Module Minimax.
Section Closures.
Variable heuristic : ConnectFour -> Z -> result Z.   (* [evaluate] *)
Variable ai_player : Z.
Variable depth_limit : Z.

Fixpoint max_value (fuel : nat) (d : Z) (node_id : option Z) {struct fuel} : M Z :=
  count_node d ;;;
  t <- ask terminal ;;
  if t then ask (terminal_value ai_player)
  else if d >=? depth_limit then ask (fun g => heuristic g ai_player)
  else
    match fuel with
    | O => out_of_fuel
    | S fuel' =>
        acts <- ask actions ;;
        v <- for_each acts (- 10 ^ 18) (fun a v =>
               mv <- do_drop a ;;
               child_id <- trace_child (below d) ai_player node_id a (d + 1) None None ;;
               val <- min_value fuel' (d + 1) child_id ;;
               do_undo mv ;;;
               ret (if val >? v then val else v)) ;;
        trace_value (upto d) node_id v None None ;;;
        ret v
    end

with min_value (fuel : nat) (d : Z) (node_id : option Z) {struct fuel} : M Z :=
  count_node d ;;;
  t <- ask terminal ;;
  if t then ask (terminal_value ai_player)
  else if d >=? depth_limit then ask (fun g => heuristic g ai_player)
  else
    match fuel with
    | O => out_of_fuel
    | S fuel' =>
        acts <- ask actions ;;
        v <- for_each acts (10 ^ 18) (fun a v =>
               mv <- do_drop a ;;
               child_id <- trace_child (below d) ai_player node_id a (d + 1) None None ;;
               val <- max_value fuel' (d + 1) child_id ;;
               do_undo mv ;;;
               ret (if val <? v then val else v)) ;;
        trace_value (upto d) node_id v None None ;;;
        ret v
    end.

(** The body of [minimax_decision] up to its [return]: the pair
    [(best_val, best_move)]. *)
Definition search : M (Z * option Z) :=
  root_id <- trace_root ai_player None None ;;
  cp <- ask (fun g => Ok (current_player g)) ;;
  if cp =? ai_player
  then
    acts <- ask actions ;;
    best <- for_each acts (- 10 ^ 18, None) (fun a best =>
              mv <- do_drop a ;;
              child_id <- trace_child at_root ai_player root_id a 1 None None ;;
              val <- min_value (plies_left depth_limit 1) 1 child_id ;;
              do_undo mv ;;;
              ret (if val >? fst best then (val, Some a) else best)) ;;
    trace_value always root_id (fst best) None None ;;;
    ret best
  else
    acts <- ask actions ;;
    best <- for_each acts (10 ^ 18, None) (fun a best =>
              mv <- do_drop a ;;
              child_id <- trace_child at_root ai_player root_id a 1 None None ;;
              val <- max_value (plies_left depth_limit 1) 1 child_id ;;
              do_undo mv ;;;
              ret (if val <? fst best then (val, Some a) else best)) ;;
    trace_value always root_id (fst best) None None ;;;
    ret best.

Definition decision : M Z :=
  best <- search ;;
  int_of (snd best).
End Closures.
End Minimax.

(** ** search.py: [alphabeta_decision] *)

Module AlphaBeta.
Section Closures.
Variable heuristic : ConnectFour -> Z -> result Z.   (* [evaluate] *)
Variable ai_player : Z.
Variable depth_limit : Z.

(** The loop state of [max_value] is [(v, alpha)], of [min_value]
    [(v, beta)]. *)
Fixpoint max_value (fuel : nat) (d alpha beta : Z) (node_id : option Z)
    {struct fuel} : M Z :=
  count_node d ;;;
  t <- ask terminal ;;
  if t then ask (terminal_value ai_player)
  else if d >=? depth_limit then ask (fun g => heuristic g ai_player)
  else
    match fuel with
    | O => out_of_fuel
    | S fuel' =>
        acts <- ask actions ;;
        va <- for_break acts (- INF, alpha) (fun a rest va =>
                let alpha := snd va in
                mv <- do_drop a ;;
                child_id <- trace_child (below d) ai_player node_id a (d + 1)
                              (Some alpha) (Some beta) ;;
                val <- min_value fuel' (d + 1) alpha beta child_id ;;
                do_undo mv ;;;
                let v := if val >? fst va then val else fst va in
                let alpha := if v >? alpha then v else alpha in
                if alpha >=? beta
                then trace_pruned (below d) node_id rest (d + 1) alpha beta ;;;
                     ret ((v, alpha), true)
                else ret ((v, alpha), false)) ;;
        trace_value (upto d) node_id (fst va) (Some (snd va)) (Some beta) ;;;
        ret (fst va)
    end

with min_value (fuel : nat) (d alpha beta : Z) (node_id : option Z)
    {struct fuel} : M Z :=
  count_node d ;;;
  t <- ask terminal ;;
  if t then ask (terminal_value ai_player)
  else if d >=? depth_limit then ask (fun g => heuristic g ai_player)
  else
    match fuel with
    | O => out_of_fuel
    | S fuel' =>
        acts <- ask actions ;;
        vb <- for_break acts (INF, beta) (fun a rest vb =>
                let beta := snd vb in
                mv <- do_drop a ;;
                child_id <- trace_child (below d) ai_player node_id a (d + 1)
                              (Some alpha) (Some beta) ;;
                val <- max_value fuel' (d + 1) alpha beta child_id ;;
                do_undo mv ;;;
                let v := if val <? fst vb then val else fst vb in
                let beta := if v <? beta then v else beta in
                if alpha >=? beta
                then trace_pruned (below d) node_id rest (d + 1) alpha beta ;;;
                     ret ((v, beta), true)
                else ret ((v, beta), false)) ;;
        trace_value (upto d) node_id (fst vb) (Some alpha) (Some (snd vb)) ;;;
        ret (fst vb)
    end.

(** The body of [alphabeta_decision] up to its [return].  The loop state
    is [((best_val, best_move), bound)], the bound being [alpha] in the
    first branch and [beta] in the second. *)
Definition search : M (Z * option Z) :=
  root_id <- trace_root ai_player (Some (- INF)) (Some INF) ;;
  let alpha := - INF in
  let beta := INF in
  cp <- ask (fun g => Ok (current_player g)) ;;
  if cp =? ai_player
  then
    acts <- ask actions ;;
    st <- for_break acts ((- INF, None), alpha) (fun a rest st =>
            let best := fst st in
            let alpha := snd st in
            mv <- do_drop a ;;
            child_id <- trace_child at_root ai_player root_id a 1
                          (Some alpha) (Some beta) ;;
            val <- min_value (plies_left depth_limit 1) 1 alpha beta child_id ;;
            do_undo mv ;;;
            let best := if val >? fst best then (val, Some a) else best in
            let alpha := if fst best >? alpha then fst best else alpha in
            if alpha >=? beta
            then trace_pruned at_root root_id rest 1 alpha beta ;;;
                 ret ((best, alpha), true)
            else ret ((best, alpha), false)) ;;
    trace_value always root_id (fst (fst st)) (Some (snd st)) (Some beta) ;;;
    ret (fst st)
  else
    acts <- ask actions ;;
    st <- for_break acts ((INF, None), beta) (fun a rest st =>
            let best := fst st in
            let beta := snd st in
            mv <- do_drop a ;;
            child_id <- trace_child at_root ai_player root_id a 1
                          (Some alpha) (Some beta) ;;
            val <- max_value (plies_left depth_limit 1) 1 alpha beta child_id ;;
            do_undo mv ;;;
            let best := if val <? fst best then (val, Some a) else best in
            let beta := if fst best <? beta then fst best else beta in
            if alpha >=? beta
            then trace_pruned at_root root_id rest 1 alpha beta ;;;
                 ret ((best, beta), true)
            else ret ((best, beta), false)) ;;
    trace_value always root_id (fst (fst st)) (Some alpha) (Some (snd st)) ;;;
    ret (fst st).

Definition decision : M Z :=
  best <- search ;;
  int_of (snd best).
End Closures.
End AlphaBeta.

(** The two entry points: the search runs on [game], fresh metrics and the
    caller's tracer; the Python tuple [(int(best_move), metrics, tracer)] is the
    outcome together with the metrics and the tracer of the final [world]. *)
Definition start (game : ConnectFour) (tracer : option SearchTracer) : world :=
  mkWorld game (mkMetrics 0 0) tracer.

Definition minimax_search (game : ConnectFour) (ai_player depth_limit : Z)
    (tracer : option SearchTracer) : result (Z * option Z) * world :=
  Minimax.search evaluate ai_player depth_limit (start game tracer).

Definition minimax_decision (game : ConnectFour) (ai_player depth_limit : Z)
    (tracer : option SearchTracer) : result Z * world :=
  Minimax.decision evaluate ai_player depth_limit (start game tracer).

Definition alphabeta_search (game : ConnectFour) (ai_player depth_limit : Z)
    (tracer : option SearchTracer) : result (Z * option Z) * world :=
  AlphaBeta.search evaluate ai_player depth_limit (start game tracer).

Definition alphabeta_decision (game : ConnectFour) (ai_player depth_limit : Z)
    (tracer : option SearchTracer) : result Z * world :=
  AlphaBeta.decision evaluate ai_player depth_limit (start game tracer).

(** ** Positions by moves *)

(** The empty default board, and the state after a sequence of default-player
    drops. *)

Definition empty67 : ConnectFour :=
  mkGame 6 7 4 (map (fun _ => map (fun _ => 0) (range 7)) (range 6)) 1 None.

Definition play_all (g : ConnectFour) (cs : list Z) : ConnectFour :=
  fold_left (fun g c => snd (drop_disc g c None)) cs g.


(** ** game.py: [reset] and [serialize] *)

(** The cells [reset] clears, in the order of its two loops. *)
Definition grid_cells (rows cols : Z) : list (Z * Z) :=
  flat_map (fun r => map (fun c => (r, c)) (range cols)) (range rows).

(** [self.board[r][c] = 0] cell after cell; an exception leaves the cells
    cleared so far cleared. *)
Fixpoint clear_cells (b : list (list Z)) (cells : list (Z * Z))
  : result unit * list (list Z) :=
  match cells with
  | [] => (Ok tt, b)
  | (r, c) :: cells' =>
      match set_cell b r c 0 with
      | Ok b' => clear_cells b' cells'
      | Raise e => (Raise e, b)
      end
  end.

(** [reset] *)
Definition reset (g : ConnectFour) : result unit * ConnectFour :=
  match clear_cells (board g) (grid_cells (rows g) (cols g)) with
  | (Ok _, b') => (Ok tt, mkGame (rows g) (cols g) (connect g) b' 1 None)
  | (Raise e, b') => (Raise e, with_board g b')
  end.

(** [serialize]: the rows of the board one after the other, and the turn
    owner. *)
Definition serialize (g : ConnectFour) : result (list Z * Z) :=
  let? flat := for_acc (range (rows g)) []
                 (fun r flat => let? line := py_getitem (board g) r in Ok (flat ++ line)) in
  Ok (flat, current_player g).

(** [SearchTracer(trace_depth)] *)
Definition new_tracer (trace_depth : Z) : SearchTracer := mkTracer trace_depth [] 0.
(** * Well-formed states

    The constructor builds [rows] lists of [cols] cells with both counts
    positive, and no method changes the shape. *)

Definition shape (nr nc : Z) (b : list (list Z)) : Prop :=
  length b = Z.to_nat nr /\ Forall (fun line => length line = Z.to_nat nc) b.

Definition wf (g : ConnectFour) : Prop :=
  0 < rows g /\ 0 < cols g /\ shape (rows g) (cols g) (board g).

(** The cell at row [r], column [c] of a board, for indices inside it. *)
Definition cell_at (b : list (list Z)) (r c : Z) : Z :=
  nth (Z.to_nat c) (nth (Z.to_nat r) b []) 0.

(** The state with the last-move anchor cleared, as [undo_disc] leaves it. *)
Definition forget (g : ConnectFour) : ConnectFour := with_last_move g None.

(** Two states that differ at most in the last-move anchor. *)
Definition same_position (g g' : ConnectFour) : Prop :=
  rows g' = rows g /\ cols g' = cols g /\ connect g' = connect g /\
  board g' = board g /\ current_player g' = current_player g.

(** The board with cell [(r, c)] overwritten, for indices inside it. *)
Definition put (b : list (list Z)) (r c v : Z) : list (list Z) :=
  update b (Z.to_nat r) (update (nth (Z.to_nat r) b []) (Z.to_nat c) v).

(** What the methods compute on a well-formed state, written without the
    exceptions that cannot occur there. *)
Definition open_cols (g : ConnectFour) : list Z :=
  filter (fun c => cell_at (board g) 0 c =? 0) (range (cols g)).

Definition top_row_taken (g : ConnectFour) : bool :=
  forallb (fun c => negb (cell_at (board g) 0 c =? 0)) (range (cols g)).

Definition landing_row (g : ConnectFour) (c : Z) : option Z :=
  find (fun r => cell_at (board g) r c =? 0) (range_down (rows g)).

(** The state a successful [drop_disc] of [p] into [(r, c)] leaves. *)
Definition dropped (g : ConnectFour) (r c p : Z) : ConnectFour :=
  mkGame (rows g) (cols g) (connect g) (put (board g) r c p)
    (if p =? current_player g then - current_player g else current_player g)
    (Some (mkMove r c p)).

(** The acting player of [drop_disc(col, player)]. *)
Definition acting (g : ConnectFour) (player : option Z) : Z :=
  match player with Some p => p | None => current_player g end.

(** The directions [_is_winning_move] scans: the four of [directions] and
    their opposites. *)
Definition scanned (dr dc : Z) : Prop :=
  (dc = 1 \/ dc = -1 \/ dc = 0) /\ (dr = 1 \/ dr = -1 \/ dr = 0) /\ (dr, dc) <> (0, 0).

(** An upper bound on the iterations [_count_dir] has left at [(rr, cc)]. *)
Definition steps_left (g : ConnectFour) (rr cc dr dc : Z) : Z :=
  if dc =? 1 then cols g - cc
  else if dc =? -1 then cc + 1
  else if dr =? 1 then rows g - rr
  else rr + 1.

(** ** The game tree, without the objects

    What the two searches compute, as functions of the position alone: the
    value of a node, the number of calls below it, and the value alpha-beta
    returns for a window.  [maxing] tells a [max_value] call from a
    [min_value] call. *)

Definition is_terminal (g : ConnectFour) : bool :=
  match terminal g with Ok t => t | Raise _ => true end.

Definition leaf_value (ai_player : Z) (g : ConnectFour) : Z :=
  match terminal_value ai_player g with Ok v => v | Raise _ => 0 end.

Definition play (g : ConnectFour) (a : Z) : ConnectFour := snd (drop_disc g a None).

Definition raise_to (val v : Z) : Z := if val >? v then val else v.
Definition lower_to (val v : Z) : Z := if val <? v then val else v.

Fixpoint sum_over {A} (l : list A) (f : A -> Z) : Z :=
  match l with
  | [] => 0
  | x :: l' => f x + sum_over l' f
  end.

(** The loop of alpha-beta's [max_value], without the objects: [f a alpha]
    is the value of the call on the child. *)
Fixpoint max_loop (f : Z -> Z -> Z) (beta : Z) (acts : list Z) (v alpha : Z) : Z :=
  match acts with
  | [] => v
  | a :: rest =>
      let v' := raise_to (f a alpha) v in
      let alpha' := raise_to v' alpha in
      if alpha' >=? beta then v' else max_loop f beta rest v' alpha'
  end.

Fixpoint min_loop (f : Z -> Z -> Z) (alpha : Z) (acts : list Z) (v beta : Z) : Z :=
  match acts with
  | [] => v
  | a :: rest =>
      let v' := lower_to (f a beta) v in
      let beta' := lower_to v' beta in
      if alpha >=? beta' then v' else min_loop f alpha rest v' beta'
  end.

Definition pick_max (a val : Z) (best : Z * option Z) : Z * option Z :=
  if val >? fst best then (val, Some a) else best.
Definition pick_min (a val : Z) (best : Z * option Z) : Z * option Z :=
  if val <? fst best then (val, Some a) else best.

(** The root loops of [alphabeta_decision], without the objects. *)
Fixpoint root_max_loop (f : Z -> Z -> Z) (beta : Z) (acts : list Z)
    (best : Z * option Z) (alpha : Z) : Z * option Z :=
  match acts with
  | [] => best
  | a :: rest =>
      let best' := pick_max a (f a alpha) best in
      let alpha' := raise_to (fst best') alpha in
      if alpha' >=? beta then best' else root_max_loop f beta rest best' alpha'
  end.

Fixpoint root_min_loop (f : Z -> Z -> Z) (alpha : Z) (acts : list Z)
    (best : Z * option Z) (beta : Z) : Z * option Z :=
  match acts with
  | [] => best
  | a :: rest =>
      let best' := pick_min a (f a beta) best in
      let beta' := lower_to (fst best') beta in
      if alpha >=? beta' then best' else root_min_loop f alpha rest best' beta'
  end.

Section Tree.
Variable heuristic : ConnectFour -> Z -> result Z.
Variable ai_player : Z.

Definition static (g : ConnectFour) : Z :=
  match heuristic g ai_player with Ok v => v | Raise _ => 0 end.

Fixpoint mm (left : nat) (maxing : bool) (g : ConnectFour) : Z :=
  if is_terminal g then leaf_value ai_player g
  else
    match left with
    | O => static g
    | S left' =>
        if maxing
        then fold_left (fun v a => raise_to (mm left' false (play g a)) v)
               (open_cols g) (- INF)
        else fold_left (fun v a => lower_to (mm left' true (play g a)) v)
               (open_cols g) INF
    end.

Fixpoint mm_count (left : nat) (g : ConnectFour) : Z :=
  1 + (if is_terminal g then 0
       else match left with
            | O => 0
            | S left' => sum_over (open_cols g) (fun a => mm_count left' (play g a))
            end).

Fixpoint ab (left : nat) (maxing : bool) (alpha beta : Z) (g : ConnectFour) : Z :=
  if is_terminal g then leaf_value ai_player g
  else
    match left with
    | O => static g
    | S left' =>
        if maxing
        then max_loop (fun a alpha => ab left' false alpha beta (play g a))
               beta (open_cols g) (- INF) alpha
        else min_loop (fun a beta => ab left' true alpha beta (play g a))
               alpha (open_cols g) INF beta
    end.

(** The pair [(best_val, best_move)] of the two root loops. *)
Definition mm_root (depth_limit : Z) (g : ConnectFour) : Z * option Z :=
  if current_player g =? ai_player
  then fold_left (fun best a =>
                    pick_max a (mm (plies_left depth_limit 1) false (play g a)) best)
         (open_cols g) (- INF, None)
  else fold_left (fun best a =>
                    pick_min a (mm (plies_left depth_limit 1) true (play g a)) best)
         (open_cols g) (INF, None).

Definition ab_root (depth_limit : Z) (g : ConnectFour) : Z * option Z :=
  if current_player g =? ai_player
  then root_max_loop
         (fun a alpha => ab (plies_left depth_limit 1) false alpha INF (play g a))
         INF (open_cols g) (- INF, None) (- INF)
  else root_min_loop
         (fun a beta => ab (plies_left depth_limit 1) true (- INF) beta (play g a))
         (- INF) (open_cols g) (INF, None) INF.
End Tree.

(** The calls below the root: one tree per legal move. *)
Definition below_root (depth_limit : Z) (g : ConnectFour) : Z :=
  sum_over (open_cols g) (fun a => mm_count (plies_left depth_limit 1) (play g a)).

(** The value of the call on the child after move [a] when a cutting loop
    carries the bound [b]. *)
Definition on_child (window : Z -> Z * Z) (cv : Z -> Z -> ConnectFour -> Z)
    (g : ConnectFour) (a b : Z) : Z :=
  cv (fst (window b)) (snd (window b)) (play g a).

(** Alpha-beta's answer [a] for a node of value [m] searched with the
    window [(alpha, beta)]: exact inside the window, on the right side of
    the bound outside it. *)
Definition agrees (alpha beta m a : Z) : Prop :=
  (m <= alpha -> a <= alpha) /\ (alpha < m < beta -> a = m) /\ (beta <= m -> beta <= a).

(** The number of pruning placeholders in a trace. *)
Definition is_pruned (n : TraceNode) : bool :=
  match n_kind n with PRUNED => true | _ => false end.

Definition pruned_count (t : option SearchTracer) : Z :=
  match t with
  | Some t => Z.of_nat (length (filter is_pruned (nodes t)))
  | None => 0
  end.

(** A board small enough for every heuristic score to stay inside
    [(-INF, INF)]: the column term is at most [6 * rows], and there are at
    most [4 * rows * cols] windows of at most [100000] each. *)
Definition small (g : ConnectFour) : Prop :=
  6 * rows g + 400000 * (rows g * cols g) < INF.

(** ** The loops of the searches, by shape

    The four loops of [minimax_decision] differ in the tracing condition,
    the depth of the child, the call on the child and the way the value is
    folded into the loop state; the four loops of [alphabeta_decision] also
    in the side of the window the loop state carries. *)

Definition plain_body {A} (ai_player : Z) (within : SearchTracer -> bool)
    (node_id : option Z) (depth : Z) (child : option Z -> M Z)
    (combine : Z -> Z -> A -> A) : Z -> A -> M A :=
  fun a acc =>
    mv <- do_drop a ;;
    child_id <- trace_child within ai_player node_id a depth None None ;;
    val <- child child_id ;;
    do_undo mv ;;;
    ret (combine a val acc).

Definition cut_body {A} (ai_player : Z) (within : SearchTracer -> bool)
    (node_id : option Z) (depth : Z) (child : Z -> Z -> option Z -> M Z)
    (window : Z -> Z * Z) (combine : Z -> Z -> A -> A) (key : A -> Z)
    (tighten : Z -> Z -> Z) : Z -> list Z -> A * Z -> M ((A * Z) * bool) :=
  fun a rest st =>
    mv <- do_drop a ;;
    child_id <- trace_child within ai_player node_id a depth
                  (Some (fst (window (snd st)))) (Some (snd (window (snd st)))) ;;
    val <- child (fst (window (snd st))) (snd (window (snd st))) child_id ;;
    do_undo mv ;;;
    let x := combine a val (fst st) in
    let b := tighten (key x) (snd st) in
    if fst (window b) >=? snd (window b)
    then trace_pruned within node_id rest depth (fst (window b)) (snd (window b)) ;;;
         ret ((x, b), true)
    else ret ((x, b), false).

(** The result of a [cut_body] loop, without the objects. *)
Fixpoint cut_loop {A} (f : Z -> Z -> Z) (window : Z -> Z * Z)
    (combine : Z -> Z -> A -> A) (key : A -> Z) (tighten : Z -> Z -> Z)
    (acts : list Z) (x : A) (b : Z) : A * Z :=
  match acts with
  | [] => (x, b)
  | a :: rest =>
      let x' := combine a (f a b) x in
      let b' := tighten (key x') b in
      if fst (window b') >=? snd (window b') then (x', b')
      else cut_loop f window combine key tighten rest x' b'
  end.

Definition nodes_of (w : world) : Z := nodes_expanded (metrics w).
Definition pruned_of (w : world) : Z := pruned_count (tracer w).

(** A step that touches the trace only, and adds no placeholder. *)
Definition keeps (w w' : world) : Prop :=
  game w' = game w /\ metrics w' = metrics w /\ pruned_of w' = pruned_of w.

(** What a call on a child has to deliver for the loop lemmas: its value
    [cv], the position back, and [cc] more calls counted ([plain_child]) or
    at most [cc] calls and placeholders ([cut_child]). *)
Definition plain_child (child : option Z -> M Z) (cv cc : ConnectFour -> Z) : Prop :=
  forall child_id w, wf (game w) ->
    exists w', child child_id w = (Ok (cv (game w)), w') /\
               same_position (game w) (game w') /\
               nodes_of w' = nodes_of w + cc (game w).

Definition cut_child (child : Z -> Z -> option Z -> M Z)
    (cv : Z -> Z -> ConnectFour -> Z) (cc : ConnectFour -> Z) : Prop :=
  forall alpha beta child_id w, wf (game w) ->
    exists w', child alpha beta child_id w = (Ok (cv alpha beta (game w)), w') /\
               same_position (game w) (game w') /\
               nodes_of w' + pruned_of w' <= nodes_of w + pruned_of w + cc (game w) /\
               pruned_of w <= pruned_of w'.

(** ** The evaluator, without the exceptions *)

(** What one pass of the centre-column loop adds for a cell holding [v]. *)
Definition center_vote (player v : Z) : Z :=
  if v =? player then 1 else if v =? - player then -1 else 0.

Definition center_delta (g : ConnectFour) (player : Z) : Z :=
  sum_over (range (rows g)) (fun r => center_vote player (cell_at (board g) r (cols g / 2))).

(** The list a window comprehension builds at [(x, y)]. *)
Definition window_cells (b : list (list Z)) (at_ : Z -> Z -> Z -> Z * Z) (x y : Z)
  : list Z :=
  map (fun i => cell_at b (fst (at_ x y i)) (snd (at_ x y i))) (range 4).

(** The windows one [sweep] hands to [score_window], in order. *)
Definition swept (b : list (list Z)) (outer inner : list Z)
    (at_ : Z -> Z -> Z -> Z * Z) : list (list Z) :=
  flat_map (fun x => map (fun y => window_cells b at_ x y) inner) outer.

(** The windows [evaluate] hands to [score_window], in order. *)
Definition scored_windows (g : ConnectFour) : list (list Z) :=
  swept (board g) (range (rows g)) (range (cols g - 3)) horizontal
  ++ swept (board g) (range (cols g)) (range (rows g - 3)) vertical
  ++ swept (board g) (range (rows g - 3)) (range (cols g - 3)) diag_down_right
  ++ swept (board g) (range_from 3 (rows g)) (range (cols g - 3)) diag_up_right.

(** The heuristic part of [evaluate]. *)
Definition heuristic_score (g : ConnectFour) (player : Z) : Z :=
  6 * center_delta g player + sum_over (scored_windows g) (score_window player).

(** ** The evaluator as the specification words it

    The score is the sum of a middle-column term, 6 per disc of the
    perspective player and -6 per disc of the opponent, and of the points of
    every window of four cells in the four directions, by the weighting
    table. *)

Definition middle_column (g : ConnectFour) : list Z :=
  map (fun r => cell_at (board g) r (cols g / 2)) (range (rows g)).

Definition inside (g : ConnectFour) (r c : Z) : bool :=
  (0 <=? r) && (r <? rows g) && (0 <=? c) && (c <? cols g).

(** The four cells from [(r, c)] in direction [(dr, dc)]. *)
Definition four_from (g : ConnectFour) (d : Z * Z) (r c : Z) : list Z :=
  map (fun i => cell_at (board g) (r + i * fst d) (c + i * snd d)) (range 4).

(** Every window of four cells that lies on the board: a start cell, a
    direction, and the fourth cell still on the board. *)
Definition all_windows (g : ConnectFour) : list (list Z) :=
  flat_map (fun d =>
    flat_map (fun r =>
      flat_map (fun c =>
        if inside g (r + 3 * fst d) (c + 3 * snd d) then [four_from g d r c] else [])
        (range (cols g)))
      (range (rows g)))
    directions.

(** The weighting table, on (own discs, opposing discs, empty cells). *)
Definition window_points (player : Z) (window : list Z) : Z :=
  match count player window, count (- player) window, count 0 window with
  | 4, 0, 0 => 100000
  | 3, 0, 1 => 200
  | 2, 0, 2 => 30
  | 0, 4, 0 => -100000
  | 0, 3, 1 => -220
  | 0, 2, 2 => -35
  | _, _, _ => 0
  end.

Definition evaluate_spec (g : ConnectFour) (player : Z) : Z :=
  6 * count player (middle_column g) - 6 * count (- player) (middle_column g)
  + sum_over (all_windows g) (window_points player).

(** ** Window length as the win length

    Reading "window length equals the win-length constant": the windows of
    [connect] cells in the four directions, scored by the same table. *)

Definition run_from (g : ConnectFour) (d : Z * Z) (k r c : Z) : list Z :=
  map (fun i => cell_at (board g) (r + i * fst d) (c + i * snd d)) (range k).

Definition windows_of_length (k : Z) (g : ConnectFour) : list (list Z) :=
  flat_map (fun d =>
    flat_map (fun r =>
      flat_map (fun c =>
        if inside g (r + (k - 1) * fst d) (c + (k - 1) * snd d)
        then [run_from g d k r c] else [])
        (range (cols g)))
      (range (rows g)))
    directions.

Definition connect_window_score (g : ConnectFour) (player : Z) : Z :=
  6 * count player (middle_column g) - 6 * count (- player) (middle_column g)
  + sum_over (windows_of_length (connect g) g) (window_points player).

(** ** Positions used in the examples *)

(** After [3,3,2,4,2,4,1,5]: player 1 to move, three in a row at the
    bottom. *)
Definition midgame : ConnectFour := play_all empty67 [3; 3; 2; 4; 2; 4; 1; 5].

(** Player 1 has just completed the bottom row from column 0 to 3. *)
Definition won_game : ConnectFour := play_all empty67 [0; 0; 1; 1; 2; 2; 3].

(** A disc dropped on top of the winning row. *)
Definition past_win : ConnectFour := play_all won_game [3].

(** One disc in the middle column, player -1 to move. *)
Definition one_disc : ConnectFour := play_all empty67 [3].

(** A board with win length 5: two discs of player 1 at the bottom left, two
    of player -1 stacked in the last column. *)
Definition connect5 : ConnectFour :=
  play_all (mkGame 6 7 5 (map (fun _ => map (fun _ => 0) (range 7)) (range 6)) 1 None)
    [0; 6; 1; 6].

(** ** The root node of a trace *)

(** The id and the value of the first node of the trace: the root node when
    the search was given a fresh tracer. *)
Definition head_id (t : option SearchTracer) : option Z :=
  match t with
  | Some t => match nodes t with n :: _ => Some (n_id n) | [] => None end
  | None => None
  end.

Definition head_value (t : option SearchTracer) : option Z :=
  match t with
  | Some t => match nodes t with n :: _ => n_value n | [] => None end
  | None => None
  end.

(** From [w] to [w'] the first node of the trace, if there is one, stays
    first and keeps its id. *)
Definition rooted (w w' : world) : Prop :=
  forall i, head_id (tracer w) = Some i -> head_id (tracer w') = Some i.

(** A computation that leaves the first node of the trace in place, however
    it ends. *)
Definition steady {A} (m : M A) : Prop := forall w, rooted w (snd (m w)).


(** ** Notions for the further properties *)

(** The index Python reads for [i] in a sequence of [n] elements. *)
Definition wrap (n i : Z) : Z := if i <? 0 then i + n else i.

(** No disc floats: below a taken cell every cell is taken. *)
Definition gravity (g : ConnectFour) : Prop :=
  forall r c r', 0 <= r < rows g -> 0 <= c < cols g -> r < r' < rows g ->
    cell_at (board g) r c <> 0 -> cell_at (board g) r' c <> 0.

(** The cell [i] steps from [(r, c)] in direction [(dr, dc)] is on the board
    and holds [p]. *)
Definition holds (g : ConnectFour) (p r c dr dc i : Z) : Prop :=
  inside g (r + i * dr) (c + i * dc) = true /\
  cell_at (board g) (r + i * dr) (c + i * dc) = p.

(** [k] cells of [p] in a row from [(r, c)] in direction [(dr, dc)]. *)
Definition run_at (g : ConnectFour) (p k r c dr dc : Z) : Prop :=
  forall i, 0 <= i < k -> holds g p r c dr dc i.

(** Some line of [connect] cells of [p] lies on the board. *)
Definition has_run (g : ConnectFour) (p : Z) : Prop :=
  exists dr dc r c, In (dr, dc) directions /\ run_at g p (connect g) r c dr dc.

(** The fields of a trace node that are written once, at its creation. *)
Definition frozen (n : TraceNode)
  : Z * option Z * option Z * Z * Z * node_kind * bool :=
  (n_id n, n_parent n, n_move n, n_depth n, n_turn_player n, n_kind n, n_pruned n).

(** The ids of a trace are the integers below [_next_id], in order. *)
Definition ids_in_order (t : SearchTracer) : Prop :=
  map n_id (nodes t)
  = range_from (_next_id t - Z.of_nat (length (nodes t))) (_next_id t).

(** [gravity], checked cell by cell. *)
Definition gravity_check (g : ConnectFour) : bool :=
  forallb (fun r => forallb (fun c => forallb (fun r' =>
      implb ((r <? r') && negb (cell_at (board g) r c =? 0))
            (negb (cell_at (board g) r' c =? 0)))
    (range (rows g))) (range (cols g))) (range (rows g)).

(** [run_at] for the win length and [has_run], checked cell by cell. *)
Definition line_check (g : ConnectFour) (p r c : Z) (d : Z * Z) : bool :=
  forallb (fun i => inside g (r + i * fst d) (c + i * snd d)
                    && (cell_at (board g) (r + i * fst d) (c + i * snd d) =? p))
          (range (connect g)).

Definition has_run_check (g : ConnectFour) (p : Z) : bool :=
  existsb (fun d => existsb (fun r => existsb (fun c => line_check g p r c d)
                                              (range (cols g)))
                            (range (rows g)))
          directions.

(** A drawn position: a 2 by 2 board with win length 3, all four cells
    taken. *)
Definition drawn_board : ConnectFour :=
  play_all (mkGame 2 2 3 [[0; 0]; [0; 0]] 1 None) [0; 1; 0; 1].

(** The drawn position after [undo_disc(MoveResult(1, 0, 1))]: the disc
    taken back is the bottom disc of column 0, under the disc of the top
    row. *)
Definition undermined_board : ConnectFour :=
  snd (undo_disc drawn_board (mkMove 1 0 1)).

(** What [max_value] and [min_value] return for a position at the depth
    limit: [if game.terminal(): return terminal_value()] and then
    [return evaluate(game, ai_player)]. *)
Definition leaf_of (ai_player : Z) (g : ConnectFour) : result Z :=
  let? t := terminal g in
  if t then terminal_value ai_player g else evaluate g ai_player.

(** The nodes of a full tree: one root and [branching] subtrees, [depth]
    levels below the root. *)
Fixpoint tree_size (branching : Z) (depth : nat) : Z :=
  match depth with
  | O => 1
  | S depth' => 1 + branching * tree_size branching depth'
  end.

(** Player 1 to move, one disc short of the bottom row from column 0 to 3. *)
Definition open_three : ConnectFour := play_all empty67 [0; 0; 1; 1; 2; 2].

(** ** Two runs side by side *)

(** Two states of a run that differ at most in the tracer. *)
Definition same_run (w1 w2 : world) : Prop :=
  game w1 = game w2 /\ metrics w1 = metrics w2.

(** Two outcomes: both exceptions, the same one, or both results, related by
    [rel]. *)
Definition same_outcome {A B} (rel : A -> B -> Prop) (r1 : result A) (r2 : result B)
  : Prop :=
  match r1, r2 with
  | Ok a, Ok b => rel a b
  | Raise e1, Raise e2 => e1 = e2
  | _, _ => False
  end.

(** Two computations that, started on states with the same game and
    metrics, end alike and on states with the same game and metrics. *)
Definition alike {A B} (rel : A -> B -> Prop) (m1 : M A) (m2 : M B) : Prop :=
  forall w1 w2, same_run w1 w2 ->
    same_outcome rel (fst (m1 w1)) (fst (m2 w2)) /\
    same_run (snd (m1 w1)) (snd (m2 w2)).

Definition any {A B} : A -> B -> Prop := fun _ _ => True.

(** ** The trace as a tree *)

(** The node [n] hangs in the list [ns]: a root has depth 0 and no move; any
    other node carries a move and names as its parent an earlier node of
    [ns], one level up, that is not a pruning placeholder. *)
Definition hangs_in (ns : list TraceNode) (n : TraceNode) : Prop :=
  match n_parent n with
  | None => n_depth n = 0 /\ n_move n = None
  | Some i =>
      n_move n <> None /\
      exists p, In p ns /\ n_id p = i /\ i < n_id n /\
                n_depth n = n_depth p + 1 /\ n_kind p <> PRUNED
  end.

Definition node_ok (depth : Z) (ns : list TraceNode) (n : TraceNode) : Prop :=
  hangs_in ns n /\ 0 <= n_depth n <= Z.max 0 depth /\
  (n_pruned n = true <-> n_kind n = PRUNED).

(** The ids count up in the order of the list, every node hangs in the list
    and lies at most [trace_depth] levels below a root, and the [pruned]
    flag marks the placeholders. *)
Definition tree_ok (t : SearchTracer) : Prop :=
  ids_in_order t /\ Forall (node_ok (trace_depth t) (nodes t)) (nodes t).

(** From one state of the tracer to a later one: nodes are only added, at
    the end, and the fields written at creation never change. *)
Definition extends (t t' : option SearchTracer) : Prop :=
  match t, t' with
  | None, None => True
  | Some t, Some t' =>
      trace_depth t' = trace_depth t /\
      _next_id t' - Z.of_nat (length (nodes t'))
      = _next_id t - Z.of_nat (length (nodes t)) /\
      exists more, map frozen (nodes t') = map frozen (nodes t) ++ more
  | _, _ => False
  end.

(** The [node_id] handed to a call at depth [d]: when there is a tracer it
    is the id of a node of depth [d] that is no placeholder, and it is
    there whenever [d] is within the trace depth. *)
Definition linked (d : Z) (node_id : option Z) (w : world) : Prop :=
  forall t, tracer w = Some t ->
    (d <= trace_depth t -> node_id <> None) /\
    (forall i, node_id = Some i ->
       exists p, In p (nodes t) /\ n_id p = i /\ n_depth p = d /\ n_kind p <> PRUNED).

(** The state of a run whose metrics are in range and whose trace is a
    tree. *)
Definition sound (bound : Z) (w : world) : Prop :=
  0 <= nodes_expanded (metrics w) /\
  0 <= max_depth_reached (metrics w) <= bound /\
  match tracer w with Some t => tree_ok t | None => True end.

(** A condition on the state that a growing trace cannot break. *)
Definition stable (pre : world -> Prop) : Prop :=
  forall w w', pre w -> extends (tracer w) (tracer w') -> pre w'.

(** From a sound state satisfying [pre] the computation ends, normally or
    not, in a sound state whose trace extends the one before; a result
    satisfies [post]. *)
Definition triple {A} (bound : Z) (pre : world -> Prop) (m : M A)
    (post : A -> world -> Prop) : Prop :=
  forall w, sound bound w -> pre w ->
    sound bound (snd (m w)) /\ extends (tracer w) (tracer (snd (m w))) /\
    forall a, fst (m w) = Ok a -> post a (snd (m w)).

Definition anyhow {A} : A -> world -> Prop := fun _ _ => True.

(** The number of discs of [p] on the board. *)
Definition discs (g : ConnectFour) (p : Z) : Z :=
  sum_over (range (rows g)) (fun r =>
    sum_over (range (cols g)) (fun c => if cell_at (board g) r c =? p then 1 else 0)).

(** What a run of default-player drops keeps true of a game. *)
Definition in_play (g : ConnectFour) : Prop :=
  wf g /\ gravity g /\
  (current_player g = 1 \/ current_player g = -1) /\
  (forall r c, 0 <= r < rows g -> 0 <= c < cols g ->
     cell_at (board g) r c = 0 \/ cell_at (board g) r c = 1 \/
     cell_at (board g) r c = -1) /\
  discs g 1 = discs g (-1) + (if current_player g =? 1 then 0 else 1).

(** ** The trace against the metrics *)

(** The nodes of a trace that stand for a call: all but the pruning
    placeholders. *)
Definition traced_calls (t : option SearchTracer) : Z :=
  match t with
  | Some t => Z.of_nat (length (nodes t)) - pruned_count (Some t)
  | None => 0
  end.

(** How far the trace is ahead of the call counter. *)
Definition tally (w : world) : Z := traced_calls (tracer w) - nodes_expanded (metrics w).

(** There is a tracer, and it traces at least [depth] levels. *)
Definition deep (depth : Z) (w : world) : Prop :=
  exists t, tracer w = Some t /\ depth <= trace_depth t.

(** However the computation ends, the tally has moved by at most [k], and by
    exactly [k] under a tracer that traces [depth] levels, which stays in
    place. *)
Definition shifts {A} (depth k : Z) (m : M A) : Prop :=
  forall w,
    tally (snd (m w)) <= tally w + k /\
    (deep depth w -> deep depth (snd (m w)) /\ tally (snd (m w)) = tally w + k).

Definition never_raises {A} (m : M A) : Prop := forall w, exists a, fst (m w) = Ok a.

(** No player has a line of [connect] cells. *)
Definition no_line (g : ConnectFour) : Prop := forall p, p <> 0 -> ~ has_run g p.

(** The node [set_value] leaves in place of [n]. *)
Definition valued (n : TraceNode) (value : Z) (alpha beta : option Z) : TraceNode :=
  mkNode (n_id n) (n_parent n) (n_move n) (n_depth n) (n_turn_player n) (n_kind n)
    (match alpha with Some a => Some a | None => n_alpha n end)
    (match beta with Some b => Some b | None => n_beta n end)
    (Some value) (n_pruned n).
(** ** Constants *)

Lemma INF_value : INF = 1000000000000000000.
Proof. reflexivity. Qed.

Lemma WIN_SCORE_value : WIN_SCORE = 1000000000.
Proof. reflexivity. Qed.

(** ** Sequences *)

Lemma in_range (n i : Z) : In i (range n) <-> 0 <= i < n.
Proof.
  unfold range. rewrite in_map_iff. split.
  - intros [k [<- Hk]]. apply in_seq in Hk. lia.
  - intros H. exists (Z.to_nat i). split; [lia | apply in_seq; lia].
Qed.

Lemma in_range_from (a b i : Z) : In i (range_from a b) <-> a <= i < b.
Proof.
  unfold range_from. rewrite in_map_iff. split.
  - intros [k [<- Hk]]. apply in_seq in Hk. lia.
  - intros H. exists (Z.to_nat (i - a)). split; [lia | apply in_seq; lia].
Qed.

Lemma in_range_down (n i : Z) : In i (range_down n) <-> 0 <= i < n.
Proof. unfold range_down. rewrite <- in_rev. apply in_range. Qed.

Lemma range_succ (n : Z) : 0 <= n -> range (n + 1) = range n ++ [n].
Proof.
  intros H. unfold range.
  replace (Z.to_nat (n + 1)) with (Z.to_nat n + 1)%nat by lia.
  rewrite seq_app, map_app. simpl. f_equal. f_equal. lia.
Qed.

Lemma range_nonpos (n : Z) : n <= 0 -> range n = [].
Proof. intros H. unfold range. replace (Z.to_nat n) with O by lia. reflexivity. Qed.

Lemma length_range (n : Z) : Z.of_nat (length (range n)) = Z.max 0 n.
Proof. unfold range. rewrite length_map, length_seq. lia. Qed.

Lemma length_range_from (a b : Z) : Z.of_nat (length (range_from a b)) = Z.max 0 (b - a).
Proof. unfold range_from. rewrite length_map, length_seq. lia. Qed.

Lemma py_norm_inside (len : nat) (i : Z) :
  0 <= i < Z.of_nat len -> py_norm len i = Some (Z.to_nat i).
Proof.
  intros H. unfold py_norm.
  destruct (i <? 0) eqn:E; [lia |].
  replace (0 <=? i) with true by lia. replace (i <? Z.of_nat len) with true by lia.
  reflexivity.
Qed.

Lemma py_getitem_inside {A} (l : list A) (i : Z) (d : A) :
  0 <= i < Z.of_nat (length l) -> py_getitem l i = Ok (nth (Z.to_nat i) l d).
Proof.
  intros H. unfold py_getitem. rewrite py_norm_inside by assumption.
  destruct (nth_error l (Z.to_nat i)) eqn:E.
  - f_equal. symmetry. apply nth_error_nth. assumption.
  - apply nth_error_None in E. lia.
Qed.

Lemma py_setitem_inside {A} (l : list A) (i : Z) (x : A) :
  0 <= i < Z.of_nat (length l) -> py_setitem l i x = Ok (update l (Z.to_nat i) x).
Proof. intros H. unfold py_setitem. rewrite py_norm_inside by assumption. reflexivity. Qed.

Lemma length_update {A} (l : list A) (n : nat) (x : A) : length (update l n x) = length l.
Proof.
  revert n. induction l as [|h t IH]; intros [|n]; simpl; auto.
Qed.

Lemma nth_update_same {A} (l : list A) (n : nat) (x d : A) :
  (n < length l)%nat -> nth n (update l n x) d = x.
Proof.
  revert n. induction l as [|h t IH]; intros [|n] H; simpl in *; try lia; auto.
  apply IH. lia.
Qed.

Lemma nth_update_other {A} (l : list A) (n m : nat) (x d : A) :
  n <> m -> nth m (update l n x) d = nth m l d.
Proof.
  revert n m. induction l as [|h t IH]; intros [|n] [|m] H; simpl; auto; try lia.
Qed.

Lemma update_update {A} (l : list A) (n : nat) (x y : A) :
  update (update l n x) n y = update l n y.
Proof.
  revert n. induction l as [|h t IH]; intros [|n]; simpl; auto. f_equal. apply IH.
Qed.

Lemma update_nth {A} (l : list A) (n : nat) (d : A) :
  update l n (nth n l d) = l.
Proof.
  revert n. induction l as [|h t IH]; intros [|n]; simpl; auto. f_equal. apply IH.
Qed.

Lemma Forall_update {A} (P : A -> Prop) (l : list A) (n : nat) (x : A) :
  Forall P l -> P x -> Forall P (update l n x).
Proof.
  intros Hl Hx. revert n. induction Hl; intros [|n]; simpl; auto.
Qed.

(** ** Cells of a board of known shape *)

Section Board.
Variables (nr nc : Z) (b : list (list Z)).
Hypothesis Hshape : shape nr nc b.

Lemma shape_line (r : Z) : 0 <= r < nr -> length (nth (Z.to_nat r) b []) = Z.to_nat nc.
Proof.
  intros Hr. destruct Hshape as [Hlen Hall].
  rewrite Forall_forall in Hall. apply Hall. apply nth_In. lia.
Qed.

Lemma get_cell_inside (r c : Z) :
  0 <= r < nr -> 0 <= c < nc -> get_cell b r c = Ok (cell_at b r c).
Proof.
  intros Hr Hc. unfold get_cell, cell_at.
  rewrite (py_getitem_inside b r []) by (destruct Hshape; lia). simpl.
  apply py_getitem_inside. rewrite shape_line by assumption. lia.
Qed.

Lemma set_cell_inside (r c v : Z) :
  0 <= r < nr -> 0 <= c < nc -> set_cell b r c v = Ok (put b r c v).
Proof.
  intros Hr Hc. unfold set_cell.
  rewrite (py_getitem_inside b r []) by (destruct Hshape; lia). simpl.
  rewrite py_setitem_inside by (rewrite shape_line by assumption; lia). simpl.
  apply py_setitem_inside. destruct Hshape; lia.
Qed.

Lemma shape_put (r c v : Z) : 0 <= r < nr -> shape nr nc (put b r c v).
Proof.
  intros Hr. pose proof (shape_line r Hr) as Hline.
  destruct Hshape as [Hlen Hall]. unfold put. split.
  - rewrite length_update. assumption.
  - apply Forall_update; [assumption |]. rewrite length_update. assumption.
Qed.

Lemma cell_at_put_same (r c v : Z) :
  0 <= r < nr -> 0 <= c < nc -> cell_at (put b r c v) r c = v.
Proof.
  intros Hr Hc. pose proof (shape_line r Hr) as Hline.
  unfold cell_at, put.
  rewrite nth_update_same by (destruct Hshape; lia).
  apply nth_update_same. lia.
Qed.

Lemma cell_at_put_other (r c v r' c' : Z) :
  0 <= r -> 0 <= c -> 0 <= r' -> 0 <= c' -> (r', c') <> (r, c) ->
  cell_at (put b r c v) r' c' = cell_at b r' c'.
Proof.
  intros Hr Hc Hr' Hc' Hne. unfold cell_at, put.
  destruct (Z.eq_dec r' r) as [-> | Hrr].
  - destruct (Nat.lt_ge_cases (Z.to_nat r) (length b)) as [Hin | Hout].
    + rewrite nth_update_same by assumption.
      apply nth_update_other. intros E. apply Hne. f_equal. lia.
    + rewrite (nth_overflow (update _ _ _)) by (rewrite length_update; assumption).
      rewrite (nth_overflow b) by assumption. reflexivity.
  - rewrite nth_update_other by lia. reflexivity.
Qed.

Lemma put_back (r c : Z) : put b r c (cell_at b r c) = b.
Proof.
  unfold put, cell_at. rewrite update_nth. apply update_nth.
Qed.
End Board.

(** ** The state model on well-formed states *)

Lemma put_put (nr nc : Z) (b : list (list Z)) (r c v v' : Z) :
  shape nr nc b -> 0 <= r < nr -> put (put b r c v) r c v' = put b r c v'.
Proof.
  intros [Hlen _] Hr. unfold put.
  rewrite nth_update_same by lia.
  rewrite !update_update. reflexivity.
Qed.

Lemma comprehension_total {A B} (f : A -> result B) (h : A -> B) (l : list A) :
  (forall x, In x l -> f x = Ok (h x)) -> comprehension f l = Ok (map h l).
Proof.
  induction l as [|x l IH]; intros H; simpl; [reflexivity |].
  rewrite H by (left; reflexivity). simpl.
  rewrite IH by (intros y Hy; apply H; right; assumption). reflexivity.
Qed.

Lemma filter_tagged {A} (p : A -> bool) (l : list A) :
  map fst (filter snd (map (fun x => (x, p x)) l)) = filter p l.
Proof.
  induction l as [|x l IH]; simpl; [reflexivity |].
  destruct (p x); simpl; rewrite IH; reflexivity.
Qed.

Lemma find_range_down_lowest (f : Z -> bool) (n : nat) (r : Z) :
  find f (range_down (Z.of_nat n)) = Some r ->
  0 <= r < Z.of_nat n /\ f r = true /\ forall r', r < r' < Z.of_nat n -> f r' = false.
Proof.
  induction n as [|n IH]; intros H.
  - discriminate H.
  - unfold range_down in *. rewrite Nat2Z.inj_succ, <- Z.add_1_r in *.
    rewrite range_succ, rev_app_distr in H by lia. simpl in H.
    destruct (f (Z.of_nat n)) eqn:E.
    + injection H as <-. split; [lia | split; [assumption |]]. intros r' Hr'. lia.
    + destruct (IH H) as [Hr [Hf Hlow]]. split; [lia | split; [assumption |]].
      intros r' Hr'. destruct (Z.eq_dec r' (Z.of_nat n)) as [-> | Hne]; [assumption |].
      apply Hlow. lia.
Qed.

Lemma find_range_down_exists (f : Z -> bool) (n r : Z) :
  0 <= r < n -> f r = true -> exists r', find f (range_down n) = Some r'.
Proof.
  intros Hr Hf. destruct (find f (range_down n)) eqn:E; [eauto |].
  exfalso. pose proof (find_none _ _ E r) as H.
  rewrite H in Hf; [discriminate |]. apply in_range_down. assumption.
Qed.

Section Game.
Variable g : ConnectFour.
Hypothesis Hwf : wf g.

Lemma cell_total (r c : Z) :
  0 <= r < rows g -> 0 <= c < cols g ->
  get_cell (board g) r c = Ok (cell_at (board g) r c).
Proof. destruct Hwf as (_ & _ & Hs). apply (get_cell_inside _ _ _ Hs). Qed.

Lemma actions_total : actions g = Ok (open_cols g).
Proof.
  destruct Hwf as (Hr & Hc & Hs). unfold actions, open_cols.
  rewrite (comprehension_total _ (fun c => (c, cell_at (board g) 0 c =? 0))).
  - simpl. rewrite filter_tagged. reflexivity.
  - intros c Hin. apply in_range in Hin. rewrite cell_total by lia. reflexivity.
Qed.

Lemma all_tops_taken_total (cs : list Z) :
  (forall c, In c cs -> 0 <= c < cols g) ->
  all_tops_taken (board g) cs
  = Ok (forallb (fun c => negb (cell_at (board g) 0 c =? 0)) cs).
Proof.
  destruct Hwf as (Hr & Hc & Hs).
  induction cs as [|c cs IH]; intros Hin; simpl; [reflexivity |].
  rewrite cell_total by (try apply Hin; simpl; auto; lia). simpl.
  destruct (cell_at (board g) 0 c =? 0); simpl; [reflexivity |].
  apply IH. intros c' Hc'. apply Hin. right. assumption.
Qed.

Lemma is_full_total : is_full g = Ok (top_row_taken g).
Proof.
  unfold is_full, top_row_taken. apply all_tops_taken_total.
  intros c Hin. apply in_range. assumption.
Qed.

Lemma lowest_empty_total (c : Z) (rs : list Z) :
  0 <= c < cols g -> (forall r, In r rs -> 0 <= r < rows g) ->
  lowest_empty (board g) c rs = Ok (find (fun r => cell_at (board g) r c =? 0) rs).
Proof.
  intros Hc. induction rs as [|r rs IH]; intros Hin; simpl; [reflexivity |].
  rewrite cell_total by (try apply Hin; simpl; auto). simpl.
  destruct (cell_at (board g) r c =? 0); [reflexivity |].
  apply IH. intros r' Hr'. apply Hin. right. assumption.
Qed.

(** The top cell of a column is empty exactly when the column is a legal
    move. *)
Lemma in_open_cols (c : Z) :
  In c (open_cols g) <-> 0 <= c < cols g /\ cell_at (board g) 0 c = 0.
Proof.
  unfold open_cols. rewrite filter_In, in_range, Z.eqb_eq. reflexivity.
Qed.

Lemma top_row_taken_false : top_row_taken g = false -> open_cols g <> [].
Proof.
  unfold top_row_taken, open_cols. intros H Hnil.
  assert (forallb (fun c => negb (cell_at (board g) 0 c =? 0)) (range (cols g)) = true)
    as Hall; [| congruence].
  apply forallb_forall. intros c Hin.
  destruct (cell_at (board g) 0 c =? 0) eqn:E; [| reflexivity].
  assert (In c (filter (fun c => cell_at (board g) 0 c =? 0) (range (cols g)))) as Hc
    by (apply filter_In; auto).
  rewrite Hnil in Hc. destruct Hc.
Qed.

Lemma landing_row_spec (c r : Z) :
  landing_row g c = Some r ->
  0 <= r < rows g /\ cell_at (board g) r c = 0 /\
  forall r', r < r' < rows g -> cell_at (board g) r' c <> 0.
Proof.
  destruct Hwf as (Hr & _). unfold landing_row. intros H.
  replace (rows g) with (Z.of_nat (Z.to_nat (rows g))) in * by lia.
  apply find_range_down_lowest in H. destruct H as (H1 & H2 & H3).
  split; [lia | split].
  - apply Z.eqb_eq. assumption.
  - intros r' Hr' E. apply H3 in Hr'. apply Z.eqb_neq in Hr'. contradiction.
Qed.

Lemma landing_row_exists (c : Z) :
  cell_at (board g) 0 c = 0 -> exists r, landing_row g c = Some r.
Proof.
  destruct Hwf as (Hr & _). intros H.
  apply (find_range_down_exists _ _ 0); [lia | apply Z.eqb_eq; assumption].
Qed.

(** [drop_disc] on a legal column. *)
Lemma drop_disc_legal (c : Z) (player : option Z) :
  0 <= c < cols g -> cell_at (board g) 0 c = 0 ->
  exists r, landing_row g c = Some r /\
            drop_disc g c player
            = (Ok (mkMove r c (acting g player)), dropped g r c (acting g player)).
Proof.
  intros Hc Htop. destruct (landing_row_exists c Htop) as [r Hland].
  exists r. split; [assumption |].
  destruct (landing_row_spec c r Hland) as (Hr & _).
  unfold drop_disc.
  replace ((0 <=? c) && (c <? cols g)) with true by lia. simpl.
  rewrite cell_total by (destruct Hwf; lia). rewrite Htop. simpl.
  rewrite lowest_empty_total
    by (try assumption; intros r' Hr'; apply in_range_down; assumption).
  fold (landing_row g c). rewrite Hland.
  destruct Hwf as (_ & _ & Hs).
  rewrite (set_cell_inside _ _ _ Hs) by assumption.
  unfold dropped, with_current_player, with_last_move, with_board, acting. simpl.
  destruct player as [p|]; simpl.
  - destruct (p =? current_player g); reflexivity.
  - rewrite Z.eqb_refl. reflexivity.
Qed.

(** [drop_disc] off the board or on a full column. *)
Lemma drop_disc_illegal (c : Z) (player : option Z) :
  ~ (0 <= c < cols g /\ cell_at (board g) 0 c = 0) ->
  exists msg, drop_disc g c player = (Raise (ValueError msg), g).
Proof.
  intros H. unfold drop_disc.
  destruct ((0 <=? c) && (c <? cols g)) eqn:E; simpl; [| eauto].
  rewrite cell_total by (destruct Hwf; lia).
  destruct (cell_at (board g) 0 c =? 0) eqn:E0; simpl; [| eauto].
  exfalso. apply H. split; [lia | apply Z.eqb_eq; assumption].
Qed.

Lemma wf_dropped (r c p : Z) : 0 <= r < rows g -> wf (dropped g r c p).
Proof.
  intros Hr. destruct Hwf as (H1 & H2 & Hs). repeat split; simpl; try assumption.
  - apply (shape_put _ _ _ Hs). assumption.
  - apply (shape_put _ _ _ Hs). assumption.
Qed.

(** [undo_disc] of the move a [drop_disc] returned, on a state that shares
    the position the drop left. *)
Lemma undo_disc_dropped (r c p : Z) (g' : ConnectFour) :
  0 <= r < rows g -> 0 <= c < cols g -> cell_at (board g) r c = 0 ->
  same_position (dropped g r c p) g' ->
  undo_disc g' (mkMove r c p)
  = (Ok tt, mkGame (rows g) (cols g) (connect g) (board g) p None).
Proof.
  intros Hr Hc Hcell (E1 & E2 & E3 & E4 & E5). simpl in *.
  destruct Hwf as (_ & _ & Hs).
  pose proof (shape_put _ _ _ Hs r c p Hr) as Hs'.
  unfold undo_disc. simpl. rewrite E4.
  rewrite (get_cell_inside _ _ _ Hs') by assumption.
  rewrite (cell_at_put_same _ _ _ Hs) by assumption.
  rewrite Z.eqb_refl. simpl.
  rewrite (set_cell_inside _ _ _ Hs') by assumption.
  rewrite (put_put _ _ _ _ _ _ _ Hs) by assumption.
  rewrite <- Hcell at 1. rewrite put_back.
  unfold with_current_player, with_last_move, with_board. simpl.
  rewrite E1, E2, E3. reflexivity.
Qed.
End Game.

(** ** Terminal detection never fails on a well-formed state *)

Section Scan.
Variable g : ConnectFour.
Hypothesis Hwf : wf g.

Lemma count_dir_loop_total (p dr dc : Z) (fuel : nat) :
  scanned dr dc ->
  forall rr cc cnt,
    (1 <= fuel)%nat ->
    (0 <= rr < rows g -> 0 <= cc < cols g ->
     steps_left g rr cc dr dc < Z.of_nat fuel) ->
    exists n, count_dir_loop fuel g rr cc p dr dc cnt = Ok n.
Proof.
  intros Hdir. induction fuel as [|fuel IH]; intros rr cc cnt Hpos Hfuel; [lia |].
  simpl.
  destruct ((0 <=? rr) && (rr <? rows g) && (0 <=? cc) && (cc <? cols g)) eqn:Ein;
    [| eauto].
  assert (0 <= rr < rows g /\ 0 <= cc < cols g) as [Hr Hc] by lia.
  rewrite (cell_total g Hwf) by assumption. simpl.
  destruct (cell_at (board g) rr cc =? p); [| eauto].
  specialize (Hfuel Hr Hc).
  assert (steps_left g (rr + dr) (cc + dc) dr dc = steps_left g rr cc dr dc - 1
          /\ 1 <= steps_left g rr cc dr dc) as [Hstep Hone].
  { unfold steps_left, scanned in *.
    destruct Hdir as (Hdc & Hdr & Hne).
    destruct (dc =? 1) eqn:E1; [lia |].
    destruct (dc =? -1) eqn:E2; [lia |].
    destruct (dr =? 1) eqn:E3; [lia |].
    assert (dc = 0) by lia. subst dc.
    assert (dr = -1) by (destruct Hdr as [? | [? | ?]]; try lia; subst dr; congruence).
    lia. }
  apply IH; [lia |]. intros _ _. lia.
Qed.

Lemma count_dir_total (r c p dr dc : Z) :
  scanned dr dc -> exists n, _count_dir g r c p dr dc = Ok n.
Proof.
  intros Hdir. unfold _count_dir, count_dir_fuel.
  apply count_dir_loop_total; [assumption | lia |].
  intros Hr Hc. unfold steps_left.
  destruct (dc =? 1); [lia |]. destruct (dc =? -1); [lia |].
  destruct (dr =? 1); lia.
Qed.

Lemma winning_in_total (r c p : Z) (ds : list (Z * Z)) :
  (forall dr dc, In (dr, dc) ds -> scanned dr dc /\ scanned (- dr) (- dc)) ->
  exists won, winning_in g r c p ds = Ok won.
Proof.
  induction ds as [|[dr dc] ds IH]; intros Hds; [simpl; eauto |].
  cbn [winning_in]. cbv zeta.
  destruct (Hds dr dc (or_introl eq_refl)) as [H1 H2].
  destruct (count_dir_total r c p dr dc H1) as [n1 ->].
  destruct (count_dir_total r c p (- dr) (- dc) H2) as [n2 ->]. cbn [rbind].
  destruct (1 + n1 + n2 >=? connect g); [eauto |].
  apply IH. intros dr' dc' Hin. apply Hds. right. assumption.
Qed.

Lemma directions_scanned (dr dc : Z) :
  In (dr, dc) directions -> scanned dr dc /\ scanned (- dr) (- dc).
Proof.
  unfold directions, scanned. simpl.
  intros [E | [E | [E | [E | []]]]]; injection E as <- <-;
    repeat split; try lia; intros E'; discriminate E'.
Qed.

Lemma winner_total : exists w, winner g = Ok w.
Proof.
  unfold winner. destruct (last_move g) as [mv|]; [| eauto].
  unfold _is_winning_move.
  destruct (winning_in_total (row mv) (col mv) (player mv) directions
              directions_scanned) as [won ->].
  simpl. eauto.
Qed.

Lemma terminal_total : terminal g = Ok (is_terminal g).
Proof.
  unfold is_terminal, terminal. destruct winner_total as [w ->]. simpl.
  destruct (negb (w =? 0)); [reflexivity |].
  rewrite (is_full_total g Hwf). reflexivity.
Qed.

Lemma terminal_value_total (ai_player : Z) :
  terminal_value ai_player g = Ok (leaf_value ai_player g).
Proof.
  unfold leaf_value, terminal_value. destruct winner_total as [w ->]. simpl.
  destruct (w =? ai_player); [reflexivity |].
  destruct (w =? - ai_player); reflexivity.
Qed.

(** A state that is not terminal has a legal move. *)
Lemma not_terminal_open : is_terminal g = false -> open_cols g <> [].
Proof.
  unfold is_terminal, terminal. destruct winner_total as [w ->]. simpl.
  destruct (negb (w =? 0)); [discriminate |].
  rewrite (is_full_total g Hwf). apply (top_row_taken_false g).
Qed.
End Scan.

Lemma leaf_value_cases (ai_player : Z) (g : ConnectFour) :
  leaf_value ai_player g = WIN_SCORE \/ leaf_value ai_player g = - WIN_SCORE \/
  leaf_value ai_player g = 0.
Proof.
  unfold leaf_value, terminal_value. destruct (winner g) as [w|e]; simpl; [| auto].
  destruct (w =? ai_player); [auto |]. destruct (w =? - ai_player); auto.
Qed.

(** ** Moves on positions *)

Lemma same_position_refl (g : ConnectFour) : same_position g g.
Proof. unfold same_position. auto. Qed.

Lemma same_position_trans (g1 g2 g3 : ConnectFour) :
  same_position g1 g2 -> same_position g2 g3 -> same_position g1 g3.
Proof. unfold same_position. intuition congruence. Qed.

Lemma same_position_wf (g g' : ConnectFour) : same_position g g' -> wf g -> wf g'.
Proof.
  intros (E1 & E2 & E3 & E4 & E5) (H1 & H2 & H3). unfold wf. rewrite E1, E2, E4. auto.
Qed.

Lemma same_position_open_cols (g g' : ConnectFour) :
  same_position g g' -> open_cols g' = open_cols g.
Proof. intros (E1 & E2 & E3 & E4 & E5). unfold open_cols. rewrite E2, E4. reflexivity. Qed.

Lemma same_position_dropped (g g' : ConnectFour) (r c p : Z) :
  same_position g g' -> dropped g' r c p = dropped g r c p.
Proof.
  intros (E1 & E2 & E3 & E4 & E5). unfold dropped. rewrite E1, E2, E3, E4, E5. reflexivity.
Qed.

Lemma same_position_landing (g g' : ConnectFour) (c : Z) :
  same_position g g' -> landing_row g' c = landing_row g c.
Proof. intros (E1 & E2 & E3 & E4 & E5). unfold landing_row. rewrite E1, E4. reflexivity. Qed.

(** A default-player drop on a legal column, from any state sharing the
    position of [g]. *)
Lemma drop_from_position (g g' : ConnectFour) (a : Z) :
  wf g -> same_position g g' -> In a (open_cols g) ->
  exists r,
    0 <= r < rows g /\ 0 <= a < cols g /\ cell_at (board g) r a = 0 /\
    (forall r', r < r' < rows g -> cell_at (board g) r' a <> 0) /\
    drop_disc g' a None
    = (Ok (mkMove r a (current_player g)), dropped g r a (current_player g)) /\
    play g a = dropped g r a (current_player g).
Proof.
  intros Hwf Hsame Hin.
  pose proof (same_position_wf _ _ Hsame Hwf) as Hwf'.
  apply (in_open_cols g) in Hin. destruct Hin as [Ha Htop].
  destruct (drop_disc_legal g Hwf a None Ha Htop) as (r & Hland & Hdrop).
  destruct (landing_row_spec g Hwf a r Hland) as (Hr & Hcell & Hlow).
  exists r. repeat split; try assumption; try lia.
  - destruct Hsame as (E1 & E2 & E3 & E4 & E5).
    assert (0 <= a < cols g' /\ cell_at (board g') 0 a = 0) as [Ha' Htop']
      by (rewrite E2, E4; auto).
    destruct (drop_disc_legal g' Hwf' a None Ha' Htop') as (r' & Hland' & Hdrop').
    rewrite (same_position_landing g g') in Hland' by (unfold same_position; auto).
    assert (r' = r) by congruence. subst r'.
    rewrite Hdrop'. simpl. rewrite E5.
    rewrite (same_position_dropped g g') by (unfold same_position; auto). reflexivity.
  - unfold play. rewrite Hdrop. reflexivity.
Qed.

Lemma small_dropped (g : ConnectFour) (r c p : Z) : small g -> small (dropped g r c p).
Proof. unfold small. simpl. auto. Qed.

(** ** Well-formedness is an invariant of the state model *)

Lemma wf_new_game (nr nc k : Z) (g : ConnectFour) : new_game nr nc k = Ok g -> wf g.
Proof.
  unfold new_game. destruct ((nr <=? 0) || (nc <=? 0)) eqn:E; [discriminate |].
  destruct (k <? 3); [discriminate |]. intros H. injection H as <-.
  unfold wf, shape. cbn [rows cols board].
  split; [lia |]. split; [lia |]. split.
  - rewrite length_map. pose proof (length_range nr). lia.
  - apply Forall_forall. intros line Hin. apply in_map_iff in Hin.
    destruct Hin as (r & <- & _). rewrite length_map.
    pose proof (length_range nc). lia.
Qed.

Lemma set_cell_shape (nr nc : Z) (b b' : list (list Z)) (r c v : Z) :
  shape nr nc b -> set_cell b r c v = Ok b' -> shape nr nc b'.
Proof.
  intros [Hlen Hall]. unfold set_cell, py_getitem, py_setitem.
  destruct (py_norm (length b) r) as [n|]; [| discriminate].
  destruct (nth_error b n) as [line|] eqn:Eline; [| discriminate]. cbn [rbind].
  destruct (py_norm (length line) c) as [m|]; [| discriminate]. cbn [rbind].
  intros H. injection H as <-. split.
  - rewrite length_update. assumption.
  - apply Forall_update; [assumption |]. rewrite length_update.
    rewrite Forall_forall in Hall. apply Hall. apply (nth_error_In _ _ Eline).
Qed.

Lemma wf_drop_disc (g g' : ConnectFour) (c : Z) (player_ : option Z)
    (r : result MoveResult) :
  wf g -> drop_disc g c player_ = (r, g') -> wf g'.
Proof.
  intros Hwf H.
  destruct ((0 <=? c) && (c <? cols g) && (cell_at (board g) 0 c =? 0)) eqn:E.
  - destruct (drop_disc_legal g Hwf c player_) as (r' & Hland & Hdrop); try lia.
    rewrite Hdrop in H. injection H as _ <-.
    apply wf_dropped; [assumption |]. apply (landing_row_spec g Hwf c r' Hland).
  - destruct (drop_disc_illegal g Hwf c player_) as (msg & Hdrop); [lia |].
    rewrite Hdrop in H. injection H as _ <-. assumption.
Qed.

Lemma wf_undo_disc (g g' : ConnectFour) (mv : MoveResult) (r : result unit) :
  wf g -> undo_disc g mv = (r, g') -> wf g'.
Proof.
  intros Hwf H. unfold undo_disc in H.
  destruct (get_cell (board g) (row mv) (col mv)) as [v|e];
    [| injection H as _ <-; assumption].
  destruct (negb (v =? player mv)); [injection H as _ <-; assumption |].
  destruct (set_cell (board g) (row mv) (col mv) 0) as [b'|e] eqn:Eset;
    [| injection H as _ <-; assumption].
  injection H as _ <-. destruct Hwf as (Hr & Hc & Hs).
  unfold wf. cbn [rows cols board with_current_player with_last_move with_board].
  split; [assumption |]. split; [assumption |].
  apply (set_cell_shape _ _ _ _ _ _ _ Hs Eset).
Qed.

Lemma top_row_taken_spec (g : ConnectFour) :
  top_row_taken g = true <->
  forall c, 0 <= c < cols g -> cell_at (board g) 0 c <> 0.
Proof.
  unfold top_row_taken. rewrite forallb_forall. split.
  - intros H c Hc. specialize (H c (proj2 (in_range _ _) Hc)).
    apply negb_true_iff, Z.eqb_neq in H. assumption.
  - intros H c Hc. apply in_range in Hc. apply negb_true_iff, Z.eqb_neq. auto.
Qed.

(** ** The evaluator on well-formed states *)

Lemma for_acc_total {A} (l : list A) (acc : Z) (body : A -> Z -> result Z) (f : A -> Z) :
  (forall x acc, In x l -> body x acc = Ok (acc + f x)) ->
  for_acc l acc body = Ok (acc + sum_over l f).
Proof.
  revert acc. induction l as [|x l IH]; intros acc H; simpl.
  - f_equal. lia.
  - rewrite H by (left; reflexivity). simpl.
    rewrite IH by (intros; apply H; right; assumption). f_equal. lia.
Qed.

Lemma sum_over_app {A} (l1 l2 : list A) (f : A -> Z) :
  sum_over (l1 ++ l2) f = sum_over l1 f + sum_over l2 f.
Proof. induction l1 as [|x l1 IH]; simpl; [reflexivity | rewrite IH; lia]. Qed.

Lemma sum_over_map {A B} (h : A -> B) (l : list A) (f : B -> Z) :
  sum_over (map h l) f = sum_over l (fun x => f (h x)).
Proof. induction l as [|x l IH]; simpl; [reflexivity | rewrite IH; reflexivity]. Qed.

Lemma sum_over_flat_map {A B} (h : A -> list B) (l : list A) (f : B -> Z) :
  sum_over (flat_map h l) f = sum_over l (fun x => sum_over (h x) f).
Proof.
  induction l as [|x l IH]; simpl; [reflexivity |]. rewrite sum_over_app, IH. reflexivity.
Qed.

Lemma sum_over_ext {A} (l : list A) (f f' : A -> Z) :
  (forall x, In x l -> f x = f' x) -> sum_over l f = sum_over l f'.
Proof.
  induction l as [|x l IH]; intros H; simpl; [reflexivity |].
  rewrite H by (left; reflexivity). rewrite IH by (intros; apply H; right; assumption).
  reflexivity.
Qed.

Lemma sum_over_bound {A} (l : list A) (f : A -> Z) (k : Z) :
  (forall x, In x l -> Z.abs (f x) <= k) ->
  Z.abs (sum_over l f) <= k * Z.of_nat (length l).
Proof.
  induction l as [|x l IH]; intros H; simpl length; simpl sum_over; [lia |].
  specialize (IH (fun y Hy => H y (or_intror Hy))).
  specialize (H x (or_introl eq_refl)). lia.
Qed.

Section Evaluator.
Variable g : ConnectFour.
Hypothesis Hwf : wf g.
Variable player : Z.

Lemma center_loop_total :
  for_acc (range (rows g)) 0 (center_step (board g) (cols g / 2) player)
  = Ok (center_delta g player).
Proof.
  unfold center_delta.
  rewrite (for_acc_total _ 0 _
             (fun r => center_vote player (cell_at (board g) r (cols g / 2)))).
  - reflexivity.
  - intros r acc Hin. apply in_range in Hin. unfold center_step.
    assert (0 <= cols g / 2 < cols g) as Hc.
    { destruct Hwf as (_ & Hc & _). split; [apply Z.div_pos; lia |].
      apply Z.div_lt_upper_bound; lia. }
    rewrite (cell_total g Hwf) by assumption. simpl. unfold center_vote.
    destruct (cell_at (board g) r (cols g / 2) =? player); [f_equal; lia |].
    destruct (cell_at (board g) r (cols g / 2) =? - player); f_equal; lia.
Qed.

Lemma sweep_total (outer inner : list Z) (at_ : Z -> Z -> Z -> Z * Z) (score : Z) :
  (forall x y i, In x outer -> In y inner -> 0 <= i < 4 ->
     0 <= fst (at_ x y i) < rows g /\ 0 <= snd (at_ x y i) < cols g) ->
  sweep (board g) player outer inner at_ score
  = Ok (score + sum_over (swept (board g) outer inner at_) (score_window player)).
Proof.
  intros Hin. unfold sweep, swept.
  rewrite (for_acc_total _ score _
             (fun x => sum_over (map (fun y => window_cells (board g) at_ x y) inner)
                         (score_window player))).
  - rewrite sum_over_flat_map. reflexivity.
  - intros x acc Hx.
    rewrite (for_acc_total _ acc _
               (fun y => score_window player (window_cells (board g) at_ x y))).
    + rewrite sum_over_map. reflexivity.
    + intros y acc' Hy. unfold window_at, window_cells.
      rewrite (comprehension_total _
                 (fun i => cell_at (board g) (fst (at_ x y i)) (snd (at_ x y i)))).
      * reflexivity.
      * intros i Hi. apply in_range in Hi.
        destruct (Hin x y i Hx Hy Hi) as [Hr Hc].
        apply (cell_total g Hwf); assumption.
Qed.

(** The heuristic part of [evaluate] never fails. *)
Lemma sweeps_total :
  (let? center_delta :=
     for_acc (range (rows g)) 0 (center_step (board g) (cols g / 2) player) in
   let score := 0 + 6 * center_delta in
   let? score := sweep (board g) player (range (rows g)) (range (cols g - 3))
                   horizontal score in
   let? score := sweep (board g) player (range (cols g)) (range (rows g - 3))
                   vertical score in
   let? score := sweep (board g) player (range (rows g - 3)) (range (cols g - 3))
                   diag_down_right score in
   let? score := sweep (board g) player (range_from 3 (rows g)) (range (cols g - 3))
                   diag_up_right score in
   Ok score)
  = Ok (heuristic_score g player).
Proof.
  rewrite center_loop_total. cbn [rbind]. cbv zeta.
  rewrite sweep_total; cycle 1.
  { intros x y i Hx Hy Hi. apply in_range in Hx, Hy. unfold horizontal. simpl. lia. }
  cbn [rbind]. rewrite sweep_total; cycle 1.
  { intros x y i Hx Hy Hi. apply in_range in Hx, Hy. unfold vertical. simpl. lia. }
  cbn [rbind]. rewrite sweep_total; cycle 1.
  { intros x y i Hx Hy Hi. apply in_range in Hx, Hy. unfold diag_down_right. simpl. lia. }
  cbn [rbind]. rewrite sweep_total; cycle 1.
  { intros x y i Hx Hy Hi. apply in_range_from in Hx. apply in_range in Hy.
    unfold diag_up_right. simpl. lia. }
  cbn [rbind]. unfold heuristic_score, scored_windows.
  rewrite !sum_over_app. f_equal. lia.
Qed.

Lemma evaluate_total :
  exists w, winner g = Ok w /\
    evaluate g player
    = Ok (if w =? player then WIN_SCORE
          else if w =? - player then - WIN_SCORE
          else if top_row_taken g then 0
          else heuristic_score g player).
Proof.
  destruct (winner_total g Hwf) as [w Hw]. exists w. split; [assumption |].
  unfold evaluate. rewrite Hw. cbn [rbind].
  destruct (w =? player); [reflexivity |].
  destruct (w =? - player); [reflexivity |].
  rewrite (is_full_total g Hwf). cbn [rbind].
  destruct (top_row_taken g); [reflexivity |].
  cbv zeta. apply sweeps_total.
Qed.
End Evaluator.

(** ** How large a score can be *)

Lemma score_window_bound (player : Z) (window : list Z) :
  Z.abs (score_window player window) <= 100000.
Proof.
  unfold score_window.
  repeat match goal with
         | |- context [if ?c then _ else _] => destruct c
         end; lia.
Qed.

Lemma center_vote_bound (player v : Z) : Z.abs (center_vote player v) <= 1.
Proof.
  unfold center_vote. destruct (v =? player); [lia |]. destruct (v =? - player); lia.
Qed.

Lemma length_swept (b : list (list Z)) (outer inner : list Z)
    (at_ : Z -> Z -> Z -> Z * Z) :
  length (swept b outer inner at_) = (length outer * length inner)%nat.
Proof.
  unfold swept. induction outer as [|x outer IH]; simpl; [reflexivity |].
  rewrite length_app, length_map, IH. reflexivity.
Qed.

Lemma length_scored_windows (g : ConnectFour) :
  0 < rows g -> 0 < cols g ->
  Z.of_nat (length (scored_windows g)) <= 4 * (rows g * cols g).
Proof.
  intros Hr Hc. unfold scored_windows.
  rewrite !length_app, !length_swept, !Nat2Z.inj_add, !Nat2Z.inj_mul.
  rewrite !length_range, length_range_from.
  assert (0 <= Z.max 0 (rows g) <= rows g) by lia.
  assert (0 <= Z.max 0 (cols g) <= cols g) by lia.
  assert (0 <= Z.max 0 (rows g - 3) <= rows g) by lia.
  assert (0 <= Z.max 0 (cols g - 3) <= cols g) by lia.
  assert (0 <= Z.max 0 (rows g - 3 - 0) <= rows g) by lia.
  nia.
Qed.

Lemma heuristic_score_bound (g : ConnectFour) (player : Z) :
  0 < rows g -> 0 < cols g ->
  Z.abs (heuristic_score g player) <= 6 * rows g + 400000 * (rows g * cols g).
Proof.
  intros Hr Hc. unfold heuristic_score.
  pose proof (sum_over_bound (scored_windows g) (score_window player) 100000
                (fun w _ => score_window_bound player w)) as Hwin.
  pose proof (sum_over_bound (range (rows g))
                (fun r => center_vote player (cell_at (board g) r (cols g / 2))) 1
                (fun r _ => center_vote_bound player _)) as Hcen.
  fold (center_delta g player) in Hcen. rewrite length_range in Hcen.
  pose proof (length_scored_windows g Hr Hc) as Hlen. lia.
Qed.

Lemma evaluate_inside (g : ConnectFour) (player v : Z) :
  wf g -> small g -> evaluate g player = Ok v -> - INF < v < INF.
Proof.
  intros Hwf Hsmall Hv.
  destruct (evaluate_total g Hwf player) as (w & _ & E). rewrite E in Hv.
  injection Hv as <-.
  destruct Hwf as (Hr & Hc & _).
  pose proof (heuristic_score_bound g player Hr Hc) as Hb.
  unfold small in Hsmall. rewrite INF_value in *. rewrite WIN_SCORE_value.
  destruct (w =? player); [lia |]. destruct (w =? - player); [lia |].
  destruct (top_row_taken g); lia.
Qed.

(** ** The windows the evaluator scores *)

Lemma length_window_cells (b : list (list Z)) (at_ : Z -> Z -> Z -> Z * Z) (x y : Z) :
  length (window_cells b at_ x y) = 4%nat.
Proof. unfold window_cells. rewrite length_map. reflexivity. Qed.

Lemma swept_lengths (b : list (list Z)) (outer inner : list Z)
    (at_ : Z -> Z -> Z -> Z * Z) :
  Forall (fun w => length w = 4%nat) (swept b outer inner at_).
Proof.
  apply Forall_forall. intros w Hin. unfold swept in Hin.
  apply in_flat_map in Hin. destruct Hin as (x & _ & Hin).
  apply in_map_iff in Hin. destruct Hin as (y & <- & _).
  apply length_window_cells.
Qed.

Lemma scored_windows_lengths (g : ConnectFour) :
  Forall (fun w => length w = 4%nat) (scored_windows g).
Proof.
  unfold scored_windows. repeat (apply Forall_app; split); apply swept_lengths.
Qed.

(** ** The evaluator against the wording of the specification *)

Lemma count_cons (x y : Z) (l : list Z) :
  count x (y :: l) = (if x =? y then 1 else 0) + count x l.
Proof.
  unfold count. simpl. destruct (x =? y); simpl length; lia.
Qed.

Lemma count_nonneg (x : Z) (l : list Z) : 0 <= count x l.
Proof. unfold count. lia. Qed.

(** Own discs, opposing discs and empty cells are three different things. *)
Lemma count_three (player : Z) (l : list Z) :
  player <> 0 ->
  count player l + count (- player) l + count 0 l <= Z.of_nat (length l).
Proof.
  intros Hp. induction l as [|y l IH]; [unfold count; simpl; lia |].
  rewrite !count_cons. simpl length.
  destruct (player =? y) eqn:E1; destruct (- player =? y) eqn:E2;
    destruct (0 =? y) eqn:E3; lia.
Qed.

Lemma window_points_score_window (player : Z) (window : list Z) :
  player <> 0 -> length window = 4%nat ->
  window_points player window = score_window player window.
Proof.
  intros Hp Hlen.
  pose proof (count_three player window Hp) as Hsum. rewrite Hlen in Hsum.
  pose proof (count_nonneg player window) as H1.
  pose proof (count_nonneg (- player) window) as H2.
  pose proof (count_nonneg 0 window) as H3.
  unfold window_points, score_window.
  generalize dependent (count player window).
  generalize dependent (count (- player) window).
  generalize dependent (count 0 window).
  intros e He o Ho p Hsum Hp0.
  assert (p = 0 \/ p = 1 \/ p = 2 \/ p = 3 \/ p = 4) as Hpc by lia.
  assert (o = 0 \/ o = 1 \/ o = 2 \/ o = 3 \/ o = 4) as Hoc by lia.
  assert (e = 0 \/ e = 1 \/ e = 2 \/ e = 3 \/ e = 4) as Hec by lia.
  destruct Hpc as [-> | [-> | [-> | [-> | ->]]]];
    destruct Hoc as [-> | [-> | [-> | [-> | ->]]]];
    destruct Hec as [-> | [-> | [-> | [-> | ->]]]];
    try reflexivity; exfalso; lia.
Qed.

Lemma center_votes (player : Z) (l : list Z) :
  player <> 0 ->
  count player l - count (- player) l = sum_over l (center_vote player).
Proof.
  intros Hp. induction l as [|y l IH]; [reflexivity |].
  rewrite !count_cons. cbn [sum_over]. rewrite <- IH. unfold center_vote.
  rewrite (Z.eqb_sym player y), (Z.eqb_sym (- player) y).
  destruct (y =? player) eqn:E1; destruct (y =? - player) eqn:E2; lia.
Qed.

Lemma sum_over_guard {A} (p : A -> bool) (l : list A) (f : A -> Z) :
  sum_over l (fun x => if p x then f x else 0) = sum_over (filter p l) f.
Proof.
  induction l as [|x l IH]; simpl; [reflexivity |].
  destruct (p x); simpl; rewrite IH; lia.
Qed.

Lemma sum_over_zero {A} (l : list A) : sum_over l (fun _ => 0) = 0.
Proof. induction l as [|x l IH]; simpl; [reflexivity | assumption]. Qed.

Lemma sum_over_plus {A} (l : list A) (f f' : A -> Z) :
  sum_over l (fun x => f x + f' x) = sum_over l f + sum_over l f'.
Proof. induction l as [|x l IH]; simpl; [reflexivity | rewrite IH; lia]. Qed.

Lemma sum_over_swap {A B} (l1 : list A) (l2 : list B) (f : A -> B -> Z) :
  sum_over l1 (fun x => sum_over l2 (fun y => f x y))
  = sum_over l2 (fun y => sum_over l1 (fun x => f x y)).
Proof.
  induction l1 as [|x l1 IH]; simpl.
  - rewrite sum_over_zero. reflexivity.
  - rewrite IH, sum_over_plus. reflexivity.
Qed.

Lemma filter_range_below (k n : Z) :
  k <= n -> filter (fun c => c <? k) (range n) = range k.
Proof.
  intros Hk. destruct (Z.le_gt_cases n 0) as [Hn | Hn].
  - rewrite (range_nonpos n), (range_nonpos k) by lia. reflexivity.
  - revert k Hk. pattern n. apply natlike_ind; [| | lia].
    + intros k Hk. rewrite (range_nonpos k) by lia. reflexivity.
    + intros m Hm IH k Hk. rewrite <- Z.add_1_r, range_succ, filter_app by lia. simpl.
      destruct (m <? k) eqn:E.
      * assert (k = m + 1) by lia. subst k. rewrite range_succ by lia. f_equal.
        rewrite <- (IH m) at 2 by lia. apply filter_ext_in.
        intros c Hc. apply in_range in Hc. lia.
      * rewrite app_nil_r. apply IH. lia.
Qed.

Lemma range_from_empty (a n : Z) : n <= a -> range_from a n = [].
Proof. intros H. unfold range_from. replace (Z.to_nat (n - a)) with O by lia. reflexivity. Qed.

Lemma range_from_succ (a n : Z) : a <= n -> range_from a (n + 1) = range_from a n ++ [n].
Proof.
  intros H. unfold range_from.
  replace (Z.to_nat (n + 1 - a)) with (Z.to_nat (n - a) + 1)%nat by lia.
  rewrite seq_app, map_app. simpl. f_equal. f_equal. lia.
Qed.

Lemma filter_range_from (a n : Z) :
  0 <= a -> filter (fun r => a <=? r) (range n) = range_from a n.
Proof.
  intros Ha. destruct (Z.le_gt_cases n 0) as [Hn | Hn].
  - rewrite (range_nonpos n), range_from_empty by lia. reflexivity.
  - pattern n. apply natlike_ind; [| | lia].
    + rewrite range_from_empty by lia. reflexivity.
    + intros m Hm IH. rewrite <- Z.add_1_r, range_succ, filter_app, IH by lia. simpl.
      destruct (a <=? m) eqn:E.
      * rewrite range_from_succ by lia. reflexivity.
      * rewrite (range_from_empty a (m + 1)), (range_from_empty a m) by lia. reflexivity.
Qed.

Lemma filter_all {A} (l : list A) : filter (fun _ => true) l = l.
Proof. induction l as [|x l IH]; simpl; [reflexivity | rewrite IH; reflexivity]. Qed.

(** A sum over the cells of a grid that keeps the rows passing [pr] and the
    columns passing [pc]. *)
Lemma sum_over_grid (pr pc : Z -> bool) (n m : Z) (f : Z -> Z -> Z) :
  sum_over (range n) (fun r => sum_over (range m) (fun c =>
     if pr r && pc c then f r c else 0))
  = sum_over (filter pr (range n)) (fun r => sum_over (filter pc (range m)) (f r)).
Proof.
  rewrite <- sum_over_guard. apply sum_over_ext. intros r _.
  destruct (pr r); simpl.
  - apply sum_over_guard.
  - apply sum_over_zero.
Qed.

Section Wording.
Variable g : ConnectFour.
Hypothesis Hwf : wf g.
Variable player : Z.
Hypothesis Hplayer : player <> 0.

(** The windows of one direction: the guard on the fourth cell is a guard
    [pr] on the start row and a guard [pc] on the start column. *)
Lemma direction_sum (d : Z * Z) (pr pc : Z -> bool) :
  (forall r c, 0 <= r < rows g -> 0 <= c < cols g ->
     inside g (r + 3 * fst d) (c + 3 * snd d) = pr r && pc c) ->
  sum_over
    (flat_map (fun r =>
       flat_map (fun c =>
         if inside g (r + 3 * fst d) (c + 3 * snd d) then [four_from g d r c] else [])
         (range (cols g)))
       (range (rows g)))
    (window_points player)
  = sum_over (filter pr (range (rows g))) (fun r =>
      sum_over (filter pc (range (cols g))) (fun c =>
        score_window player (four_from g d r c))).
Proof.
  intros Hguard. rewrite sum_over_flat_map. rewrite <- sum_over_grid.
  apply sum_over_ext. intros r Hr. apply in_range in Hr.
  rewrite sum_over_flat_map. apply sum_over_ext. intros c Hc. apply in_range in Hc.
  rewrite Hguard by assumption.
  destruct (pr r && pc c); simpl; [| reflexivity].
  rewrite window_points_score_window; [lia | assumption |].
  unfold four_from. rewrite length_map. reflexivity.
Qed.

Lemma four_from_cells (d : Z * Z) (at_ : Z -> Z -> Z -> Z * Z) (r c x y : Z) :
  (forall i, at_ x y i = (r + i * fst d, c + i * snd d)) ->
  four_from g d r c = window_cells (board g) at_ x y.
Proof.
  intros H. unfold four_from, window_cells. apply map_ext. intros i.
  rewrite H. reflexivity.
Qed.

Lemma swept_sum (outer inner : list Z) (at_ : Z -> Z -> Z -> Z * Z) :
  sum_over (swept (board g) outer inner at_) (score_window player)
  = sum_over outer (fun x => sum_over inner (fun y =>
      score_window player (window_cells (board g) at_ x y))).
Proof.
  unfold swept. rewrite sum_over_flat_map. apply sum_over_ext. intros x _.
  apply sum_over_map.
Qed.

Lemma all_windows_scored :
  sum_over (all_windows g) (window_points player)
  = sum_over (scored_windows g) (score_window player).
Proof.
  destruct Hwf as (Hrows & Hcols & _).
  unfold all_windows, scored_windows, directions. cbn [flat_map].
  rewrite app_nil_r, !sum_over_app, !swept_sum.
  rewrite (direction_sum (0, 1) (fun _ => true) (fun c => c <? cols g - 3))
    by (intros r c Hr Hc; unfold inside; simpl; lia).
  rewrite (direction_sum (1, 0) (fun r => r <? rows g - 3) (fun _ => true))
    by (intros r c Hr Hc; unfold inside; simpl; lia).
  rewrite (direction_sum (1, 1) (fun r => r <? rows g - 3) (fun c => c <? cols g - 3))
    by (intros r c Hr Hc; unfold inside; simpl; lia).
  rewrite (direction_sum (-1, 1) (fun r => 3 <=? r) (fun c => c <? cols g - 3))
    by (intros r c Hr Hc; unfold inside; simpl; lia).
  rewrite !filter_all, !filter_range_below, filter_range_from by lia.
  rewrite (sum_over_swap (range (rows g - 3)) (range (cols g))).
  apply (f_equal2 Z.add); [| apply (f_equal2 Z.add); [| apply (f_equal2 Z.add)]].
  all: apply sum_over_ext; intros x _; apply sum_over_ext; intros y _; f_equal;
    apply four_from_cells; intros i; simpl;
    unfold horizontal, vertical, diag_down_right, diag_up_right; f_equal; lia.
Qed.

Lemma evaluate_spec_heuristic_score :
  evaluate_spec g player = heuristic_score g player.
Proof.
  unfold evaluate_spec, heuristic_score.
  rewrite all_windows_scored. f_equal.
  unfold center_delta, middle_column.
  pose proof (center_votes player
                (map (fun r => cell_at (board g) r (cols g / 2)) (range (rows g)))
                Hplayer) as H.
  rewrite sum_over_map in H. lia.
Qed.
End Wording.

(** ** Alpha-beta against minimax on the game tree *)

Lemma fold_raise_ge (m : Z -> Z) (acts : list Z) (v : Z) :
  v <= fold_left (fun v a => raise_to (m a) v) acts v.
Proof.
  revert v. induction acts as [|a acts IH]; intros v; simpl; [lia |].
  specialize (IH (raise_to (m a) v)). unfold raise_to in *.
  destruct (m a >? v) eqn:E; lia.
Qed.

Lemma fold_lower_le (m : Z -> Z) (acts : list Z) (v : Z) :
  fold_left (fun v a => lower_to (m a) v) acts v <= v.
Proof.
  revert v. induction acts as [|a acts IH]; intros v; simpl; [lia |].
  specialize (IH (lower_to (m a) v)). unfold lower_to in *.
  destruct (m a <? v) eqn:E; lia.
Qed.

Section Loops.
Variables (m : Z -> Z) (f : Z -> Z -> Z).

(** [alpha0] is the bound the node was entered with; [mv] the running
    value of minimax's loop, [v] and [alpha] the running state of
    alpha-beta's. *)
Lemma max_loop_agrees (alpha0 beta : Z) (acts : list Z) :
  (forall a alpha, In a acts -> alpha < beta -> agrees alpha beta (m a) (f a alpha)) ->
  forall mv v alpha,
    alpha < beta ->
    (alpha0 < mv -> v = mv /\ alpha0 <= alpha <= mv) ->
    (mv <= alpha0 -> v <= alpha0 /\ alpha = alpha0) ->
    agrees alpha0 beta
      (fold_left (fun v a => raise_to (m a) v) acts mv)
      (max_loop f beta acts v alpha).
Proof.
  induction acts as [|a acts IH]; intros Hf mv v alpha Hab Hhi Hlo; simpl.
  - unfold agrees. lia.
  - destruct (Hf a alpha (or_introl eq_refl) Hab) as (A1 & A2 & A3).
    pose proof (fold_raise_ge m acts (raise_to (m a) mv)) as Hge.
    assert (forall a' alpha', In a' acts -> alpha' < beta ->
              agrees alpha' beta (m a') (f a' alpha')) as Hf'
      by (intros; apply Hf; [right |]; assumption).
    specialize (IH Hf' (raise_to (m a) mv) (raise_to (f a alpha) v)
                  (raise_to (raise_to (f a alpha) v) alpha)).
    unfold raise_to in *.
    destruct (m a >? mv) eqn:E1; destruct (f a alpha >? v) eqn:E2;
      match goal with
      | |- context [(if ?x >? alpha then _ else _) >=? beta] =>
          destruct (x >? alpha) eqn:E3
      end;
      match goal with
      | |- context [if ?x >=? beta then _ else _] => destruct (x >=? beta) eqn:E4
      end;
      try (apply IH; lia); unfold agrees; lia.
Qed.

Lemma min_loop_agrees (alpha beta0 : Z) (acts : list Z) :
  (forall a beta, In a acts -> alpha < beta -> agrees alpha beta (m a) (f a beta)) ->
  forall mv v beta,
    alpha < beta ->
    (mv < beta0 -> v = mv /\ mv <= beta <= beta0) ->
    (beta0 <= mv -> beta0 <= v /\ beta = beta0) ->
    agrees alpha beta0
      (fold_left (fun v a => lower_to (m a) v) acts mv)
      (min_loop f alpha acts v beta).
Proof.
  induction acts as [|a acts IH]; intros Hf mv v beta Hab Hlo Hhi; simpl.
  - unfold agrees. lia.
  - destruct (Hf a beta (or_introl eq_refl) Hab) as (A1 & A2 & A3).
    pose proof (fold_lower_le m acts (lower_to (m a) mv)) as Hle.
    assert (forall a' beta', In a' acts -> alpha < beta' ->
              agrees alpha beta' (m a') (f a' beta')) as Hf'
      by (intros; apply Hf; [right |]; assumption).
    specialize (IH Hf' (lower_to (m a) mv) (lower_to (f a beta) v)
                  (lower_to (lower_to (f a beta) v) beta)).
    unfold lower_to in *.
    destruct (m a <? mv) eqn:E1; destruct (f a beta <? v) eqn:E2;
      match goal with
      | |- context [alpha >=? (if ?x <? beta then _ else _)] =>
          destruct (x <? beta) eqn:E3
      end;
      match goal with
      | |- context [if alpha >=? ?x then _ else _] => destruct (alpha >=? x) eqn:E4
      end;
      try (apply IH; lia); unfold agrees; lia.
Qed.
End Loops.

Section TreeFacts.
Variable heuristic : ConnectFour -> Z -> result Z.
Variable ai_player : Z.

(** Alpha-beta on a window against the minimax value of the same node. *)
Lemma ab_agrees (left : nat) :
  forall maxing alpha beta g,
    alpha < beta ->
    agrees alpha beta (mm heuristic ai_player left maxing g)
      (ab heuristic ai_player left maxing alpha beta g).
Proof.
  induction left as [|left IH]; intros maxing alpha beta g Hab; cbn [mm ab].
  - destruct (is_terminal g); unfold agrees; lia.
  - destruct (is_terminal g); [unfold agrees; lia |].
    destruct maxing.
    + apply (max_loop_agrees (fun a => mm heuristic ai_player left false (play g a))).
      * intros a alpha' _ Hab'. apply IH. assumption.
      * assumption.
      * intros H. lia.
      * intros H. lia.
    + apply (min_loop_agrees (fun a => mm heuristic ai_player left true (play g a))).
      * intros a beta' _ Hab'. apply IH. assumption.
      * assumption.
      * intros H. lia.
      * intros H. lia.
Qed.
End TreeFacts.

Section RootLoops.
Variables (m : Z -> Z) (f : Z -> Z -> Z).

Lemma root_max_loop_exact (beta : Z) (acts : list Z) :
  (forall a alpha, In a acts -> alpha < beta -> agrees alpha beta (m a) (f a alpha)) ->
  (forall a, In a acts -> m a < beta) ->
  forall best, fst best < beta ->
    root_max_loop f beta acts best (fst best)
    = fold_left (fun best a => pick_max a (m a) best) acts best.
Proof.
  induction acts as [|a acts IH]; intros Hf Hm best Hb; simpl; [reflexivity |].
  destruct (Hf a (fst best) (or_introl eq_refl) Hb) as (A1 & A2 & A3).
  pose proof (Hm a (or_introl eq_refl)) as Hma.
  assert (pick_max a (f a (fst best)) best = pick_max a (m a) best) as E.
  { unfold pick_max. destruct (m a >? fst best) eqn:E1; destruct (f a (fst best) >? fst best) eqn:E2;
      try reflexivity; try lia. rewrite A2 by lia. reflexivity. }
  rewrite E.
  assert (raise_to (fst (pick_max a (m a) best)) (fst best) = fst (pick_max a (m a) best)
          /\ fst (pick_max a (m a) best) < beta) as [E' Hb'].
  { unfold raise_to, pick_max. destruct (m a >? fst best) eqn:E1; simpl.
    - rewrite E1. lia.
    - rewrite Z.gtb_ltb, Z.ltb_irrefl. lia. }
  rewrite E'. replace (fst (pick_max a (m a) best) >=? beta) with false by lia.
  apply IH; try assumption; intros; [apply Hf | apply Hm]; try right; assumption.
Qed.

Lemma root_min_loop_exact (alpha : Z) (acts : list Z) :
  (forall a beta, In a acts -> alpha < beta -> agrees alpha beta (m a) (f a beta)) ->
  (forall a, In a acts -> alpha < m a) ->
  forall best, alpha < fst best ->
    root_min_loop f alpha acts best (fst best)
    = fold_left (fun best a => pick_min a (m a) best) acts best.
Proof.
  induction acts as [|a acts IH]; intros Hf Hm best Hb; simpl; [reflexivity |].
  destruct (Hf a (fst best) (or_introl eq_refl) Hb) as (A1 & A2 & A3).
  pose proof (Hm a (or_introl eq_refl)) as Hma.
  assert (pick_min a (f a (fst best)) best = pick_min a (m a) best) as E.
  { unfold pick_min. destruct (m a <? fst best) eqn:E1; destruct (f a (fst best) <? fst best) eqn:E2;
      try reflexivity; try lia. rewrite A2 by lia. reflexivity. }
  rewrite E.
  assert (lower_to (fst (pick_min a (m a) best)) (fst best) = fst (pick_min a (m a) best)
          /\ alpha < fst (pick_min a (m a) best)) as [E' Hb'].
  { unfold lower_to, pick_min. destruct (m a <? fst best) eqn:E1; simpl.
    - rewrite E1. lia.
    - rewrite Z.ltb_irrefl. lia. }
  rewrite E'. replace (alpha >=? fst (pick_min a (m a) best)) with false by lia.
  apply IH; try assumption; intros; [apply Hf | apply Hm]; try right; assumption.
Qed.

(** What the strict replacement keeps: the first move that attains the
    largest (smallest) value. *)
Lemma fold_pick_max_first (acts : list Z) (v0 : Z) :
  (forall a, In a acts -> v0 < m a) -> acts <> [] ->
  exists pre a post,
    acts = pre ++ a :: post /\
    fold_left (fun best a => pick_max a (m a) best) acts (v0, None) = (m a, Some a) /\
    (forall a', In a' pre -> m a' < m a) /\
    (forall a', In a' post -> m a' <= m a).
Proof.
  intros Hlow Hne.
  assert (forall acts best,
            fold_left (fun best a => pick_max a (m a) best) acts best = best
            /\ (forall a', In a' acts -> m a' <= fst best)
            \/ exists pre a post,
                acts = pre ++ a :: post /\
                fold_left (fun best a => pick_max a (m a) best) acts best = (m a, Some a) /\
                fst best < m a /\
                (forall a', In a' pre -> m a' < m a) /\
                (forall a', In a' post -> m a' <= m a)) as Hgen.
  { clear. induction acts as [|a acts IH]; intros best; simpl.
    - left. split; [reflexivity | intros a' []].
    - destruct (m a >? fst best) eqn:E.
      + replace (pick_max a (m a) best) with (m a, Some a)
          by (unfold pick_max; rewrite E; reflexivity).
        right. destruct (IH (m a, Some a)) as [[E1 H1] | (pre & b & post & E1 & E2 & H1 & H2 & H3)].
        * exists [], a, acts. simpl in *. repeat split; try assumption; try lia.
        * exists (a :: pre), b, post. clear IH. subst acts. simpl in *. repeat split; try assumption; try lia.
          intros a' [<- | Hin]; [lia | apply H2; assumption].
      + replace (pick_max a (m a) best) with best
          by (unfold pick_max; rewrite E; reflexivity).
        destruct (IH best) as [[E1 H1] | (pre & b & post & E1 & E2 & H1 & H2 & H3)].
        * left. split; [assumption |]. intros a' [<- | Hin]; [lia | apply H1; assumption].
        * right. exists (a :: pre), b, post. clear IH. subst acts. simpl.
          repeat split; try assumption.
          intros a' [<- | Hin]; [lia | apply H2; assumption]. }
  destruct (Hgen acts (v0, None)) as [[_ H1] | (pre & a & post & E1 & E2 & _ & H2 & H3)].
  - destruct acts as [|a acts]; [contradiction |]. exfalso.
    specialize (H1 a (or_introl eq_refl)). specialize (Hlow a (or_introl eq_refl)).
    simpl in H1. lia.
  - exists pre, a, post. repeat split; assumption.
Qed.

Lemma fold_pick_min_first (acts : list Z) (v0 : Z) :
  (forall a, In a acts -> m a < v0) -> acts <> [] ->
  exists pre a post,
    acts = pre ++ a :: post /\
    fold_left (fun best a => pick_min a (m a) best) acts (v0, None) = (m a, Some a) /\
    (forall a', In a' pre -> m a < m a') /\
    (forall a', In a' post -> m a <= m a').
Proof.
  intros Hlow Hne.
  assert (forall acts best,
            fold_left (fun best a => pick_min a (m a) best) acts best = best
            /\ (forall a', In a' acts -> fst best <= m a')
            \/ exists pre a post,
                acts = pre ++ a :: post /\
                fold_left (fun best a => pick_min a (m a) best) acts best = (m a, Some a) /\
                m a < fst best /\
                (forall a', In a' pre -> m a < m a') /\
                (forall a', In a' post -> m a <= m a')) as Hgen.
  { clear. induction acts as [|a acts IH]; intros best; simpl.
    - left. split; [reflexivity | intros a' []].
    - destruct (m a <? fst best) eqn:E.
      + replace (pick_min a (m a) best) with (m a, Some a)
          by (unfold pick_min; rewrite E; reflexivity).
        right. destruct (IH (m a, Some a)) as [[E1 H1] | (pre & b & post & E1 & E2 & H1 & H2 & H3)].
        * exists [], a, acts. simpl in *. repeat split; try assumption; try lia.
        * exists (a :: pre), b, post. clear IH. subst acts. simpl in *. repeat split; try assumption; try lia.
          intros a' [<- | Hin]; [lia | apply H2; assumption].
      + replace (pick_min a (m a) best) with best
          by (unfold pick_min; rewrite E; reflexivity).
        destruct (IH best) as [[E1 H1] | (pre & b & post & E1 & E2 & H1 & H2 & H3)].
        * left. split; [assumption |]. intros a' [<- | Hin]; [lia | apply H1; assumption].
        * right. exists (a :: pre), b, post. clear IH. subst acts. simpl.
          repeat split; try assumption.
          intros a' [<- | Hin]; [lia | apply H2; assumption]. }
  destruct (Hgen acts (v0, None)) as [[_ H1] | (pre & a & post & E1 & E2 & _ & H2 & H3)].
  - destruct acts as [|a acts]; [contradiction |]. exfalso.
    specialize (H1 a (or_introl eq_refl)). specialize (Hlow a (or_introl eq_refl)).
    simpl in H1. lia.
  - exists pre, a, post. repeat split; assumption.
Qed.
End RootLoops.

(** ** Steps on the objects *)

Lemma bind_run {A B} (m : M A) (k : A -> M B) (w w' : world) (a : A) :
  m w = (Ok a, w') -> bind m k w = k a w'.
Proof. intros H. unfold bind. rewrite H. reflexivity. Qed.

Ltac step H := rewrite (bind_run _ _ _ _ _ H).

Lemma ask_run {A} (f : ConnectFour -> result A) (w : world) (a : A) :
  f (game w) = Ok a -> ask f w = (Ok a, w).
Proof. intros H. unfold ask. rewrite H. reflexivity. Qed.

Lemma keeps_refl (w : world) : keeps w w.
Proof. unfold keeps. auto. Qed.

Lemma filter_snoc {A} (p : A -> bool) (l : list A) (x : A) :
  filter p (l ++ [x]) = filter p l ++ (if p x then [x] else []).
Proof. rewrite filter_app. reflexivity. Qed.

Lemma pruned_new_node (t : SearchTracer) (parent move : option Z) (depth tp : Z)
    (kind : node_kind) (alpha beta : option Z) (flag : bool) :
  pruned_count (Some (snd (new_node t parent move depth tp kind alpha beta flag)))
  = pruned_count (Some t) + (match kind with PRUNED => 1 | _ => 0 end).
Proof.
  unfold new_node, pruned_count. simpl. rewrite filter_snoc, length_app.
  unfold is_pruned. simpl. destruct kind; simpl; lia.
Qed.

Lemma pruned_set_value_in (ns : list TraceNode) (i v : Z) (alpha beta : option Z) :
  length (filter is_pruned (set_value_in ns i v alpha beta))
  = length (filter is_pruned ns).
Proof.
  induction ns as [|n ns IH]; [reflexivity |].
  cbn [set_value_in]. destruct (n_id n =? i).
  - cbn [filter]. unfold is_pruned. cbn [n_kind]. destruct (n_kind n); reflexivity.
  - cbn [filter]. destruct (is_pruned n); cbn [length]; rewrite IH; reflexivity.
Qed.

Lemma trace_child_run (within : SearchTracer -> bool) (ai : Z) (nid : option Z)
    (a depth : Z) (alpha beta : option Z) (w : world) :
  exists cid w', trace_child within ai nid a depth alpha beta w = (Ok cid, w') /\ keeps w w'.
Proof.
  unfold trace_child. destruct (tracer w) as [t|] eqn:Et.
  - destruct (within t).
    + eexists _, _. split; [reflexivity |]. unfold keeps, pruned_of. simpl.
      repeat split. rewrite Et.
      pose proof (pruned_new_node t nid (Some a) depth (current_player (game w))
                    (kind_of (current_player (game w)) ai) alpha beta false) as H.
      simpl in H. rewrite H. unfold kind_of, pruned_count.
      destruct (current_player (game w) =? ai); lia.
    + eexists _, _. split; [reflexivity | apply keeps_refl].
  - eexists _, _. split; [reflexivity | apply keeps_refl].
Qed.

Lemma trace_root_run (ai : Z) (alpha beta : option Z) (w : world) :
  exists rid w', trace_root ai alpha beta w = (Ok rid, w') /\ keeps w w'.
Proof.
  unfold trace_root. destruct (tracer w) as [t|] eqn:Et.
  - eexists _, _. split; [reflexivity |]. unfold keeps, pruned_of. simpl.
    repeat split. rewrite Et.
    pose proof (pruned_new_node t None None 0 (current_player (game w))
                  (kind_of (current_player (game w)) ai) alpha beta false) as H.
    simpl in H. rewrite H. unfold kind_of, pruned_count.
    destruct (current_player (game w) =? ai); lia.
  - eexists _, _. split; [reflexivity | apply keeps_refl].
Qed.

Lemma trace_value_run (within : SearchTracer -> bool) (nid : option Z) (v : Z)
    (alpha beta : option Z) (w : world) :
  exists w', trace_value within nid v alpha beta w = (Ok tt, w') /\ keeps w w'.
Proof.
  unfold trace_value. destruct (tracer w) as [t|] eqn:Et; destruct nid as [i|];
    try (eexists; split; [reflexivity | apply keeps_refl]).
  destruct (within t); [| eexists; split; [reflexivity | apply keeps_refl]].
  eexists. split; [reflexivity |]. unfold keeps, pruned_of. simpl.
  repeat split. rewrite Et. simpl. rewrite pruned_set_value_in. reflexivity.
Qed.

Lemma pruned_fold_new (nid : option Z) (depth cp alpha beta : Z) (rest : list Z)
    (t : SearchTracer) :
  pruned_count
    (Some (fold_left
             (fun t pruned_a =>
                snd (new_node t nid (Some pruned_a) depth cp PRUNED
                       (Some alpha) (Some beta) true))
             rest t))
  = pruned_count (Some t) + Z.of_nat (length rest).
Proof.
  revert t. induction rest as [|a rest IH]; intros t; [simpl; lia |].
  cbn [fold_left]. rewrite IH, pruned_new_node. cbn [length]. lia.
Qed.

Lemma trace_pruned_run (within : SearchTracer -> bool) (nid : option Z)
    (rest : list Z) (depth alpha beta : Z) (w : world) :
  exists w', trace_pruned within nid rest depth alpha beta w = (Ok tt, w') /\
             game w' = game w /\ metrics w' = metrics w /\
             pruned_of w <= pruned_of w' <= pruned_of w + Z.of_nat (length rest).
Proof.
  unfold trace_pruned, pruned_of. destruct (tracer w) as [t|] eqn:Et.
  - destruct (within t).
    + eexists. split; [reflexivity |]. cbn [game metrics tracer].
      rewrite pruned_fold_new. repeat split; lia.
    + eexists. split; [reflexivity |]. rewrite ?Et. repeat split; lia.
  - eexists. split; [reflexivity |]. rewrite ?Et. repeat split; lia.
Qed.

Lemma do_drop_run (g : ConnectFour) (a : Z) (w : world) :
  wf g -> same_position g (game w) -> In a (open_cols g) ->
  exists r,
    0 <= r < rows g /\ 0 <= a < cols g /\ cell_at (board g) r a = 0 /\
    play g a = dropped g r a (current_player g) /\
    do_drop a w
    = (Ok (mkMove r a (current_player g)), mkWorld (play g a) (metrics w) (tracer w)).
Proof.
  intros Hwf Hsame Hin.
  destruct (drop_from_position g (game w) a Hwf Hsame Hin)
    as (r & Hr & Ha & Hcell & _ & Hdrop & Hplay).
  exists r. repeat split; try assumption; try lia.
  unfold do_drop. rewrite Hdrop, Hplay. reflexivity.
Qed.

Lemma do_undo_run (g : ConnectFour) (r a : Z) (w : world) :
  wf g -> 0 <= r < rows g -> 0 <= a < cols g -> cell_at (board g) r a = 0 ->
  same_position (dropped g r a (current_player g)) (game w) ->
  do_undo (mkMove r a (current_player g)) w
  = (Ok tt, mkWorld (forget g) (metrics w) (tracer w)).
Proof.
  intros Hwf Hr Ha Hcell Hsame. unfold do_undo.
  rewrite (undo_disc_dropped g Hwf r a (current_player g) (game w)) by assumption.
  reflexivity.
Qed.

Lemma same_position_forget (g : ConnectFour) : same_position g (forget g).
Proof. unfold same_position, forget. simpl. auto. Qed.

Lemma sum_over_least {A} (l : list A) (f : A -> Z) :
  (forall x, 1 <= f x) -> Z.of_nat (length l) <= sum_over l f.
Proof.
  intros Hf. induction l as [|x l IH]; simpl; [lia |]. specialize (Hf x). lia.
Qed.

(** ** The loops *)

Section PlainLoop.
Context {A : Type}.
Variables (ai : Z) (within : SearchTracer -> bool) (nid : option Z) (depth : Z).
Variables (child : option Z -> M Z) (combine : Z -> Z -> A -> A).
Variables (cv cc : ConnectFour -> Z).
Hypothesis child_run : plain_child child cv cc.
Variable g : ConnectFour.
Hypothesis Hwf : wf g.

Lemma plain_body_run (a : Z) (acc : A) (w : world) :
  same_position g (game w) -> In a (open_cols g) ->
  exists w',
    plain_body ai within nid depth child combine a acc w
    = (Ok (combine a (cv (play g a)) acc), w') /\
    game w' = forget g /\
    nodes_of w' = nodes_of w + cc (play g a).
Proof.
  intros Hsame Hin. unfold plain_body.
  destruct (do_drop_run g a w Hwf Hsame Hin) as (r & Hr & Ha & Hcell & Hplay & Hdrop).
  step Hdrop.
  destruct (trace_child_run within ai nid a depth None None
              (mkWorld (play g a) (metrics w) (tracer w)))
    as (cid & w2 & Htrace & Hg2 & Hm2 & Hp2).
  step Htrace. simpl in Hg2, Hm2.
  assert (wf (game w2)) as Hwf2
    by (rewrite Hg2, Hplay; apply wf_dropped; assumption).
  destruct (child_run cid w2 Hwf2) as (w3 & Hchild & Hsame3 & Hn3).
  step Hchild.
  assert (do_undo (mkMove r a (current_player g)) w3
          = (Ok tt, mkWorld (forget g) (metrics w3) (tracer w3))) as Hundo.
  { apply do_undo_run; try assumption. rewrite <- Hplay, <- Hg2. assumption. }
  step Hundo.
  eexists. split; [rewrite Hg2; reflexivity |].
  unfold nodes_of in *. simpl. rewrite Hn3, Hm2, Hg2. split; reflexivity.
Qed.

Lemma plain_loop_run (acts : list Z) :
  (forall a, In a acts -> In a (open_cols g)) ->
  forall acc w,
    same_position g (game w) ->
    exists w',
      for_each acts acc (plain_body ai within nid depth child combine) w
      = (Ok (fold_left (fun acc a => combine a (cv (play g a)) acc) acts acc), w') /\
      same_position g (game w') /\
      (acts <> [] -> game w' = forget g) /\
      nodes_of w' = nodes_of w + sum_over acts (fun a => cc (play g a)).
Proof.
  induction acts as [|a acts IH]; intros Hacts acc w Hsame.
  - exists w. split; [reflexivity |]. split; [assumption |].
    split; [intros H; contradiction | simpl; lia].
  - cbn [for_each fold_left sum_over].
    destruct (plain_body_run a acc w Hsame (Hacts a (or_introl eq_refl)))
      as (w1 & Hbody & Hg1 & Hn1).
    step Hbody.
    assert (same_position g (game w1)) as Hsame1
      by (rewrite Hg1; apply same_position_forget).
    destruct (IH (fun a' H => Hacts a' (or_intror H))
                (combine a (cv (play g a)) acc) w1 Hsame1)
      as (w' & Hloop & Hsame' & Hg' & Hn').
    exists w'. split; [assumption |]. split; [assumption |]. split.
    + intros _. destruct acts as [|a' acts'].
      * simpl in Hloop. injection Hloop as <-. assumption.
      * apply Hg'. discriminate.
    + lia.
Qed.
End PlainLoop.

Section CutLoop.
Context {A : Type}.
Variables (ai : Z) (within : SearchTracer -> bool) (nid : option Z) (depth : Z).
Variables (child : Z -> Z -> option Z -> M Z) (window : Z -> Z * Z).
Variables (combine : Z -> Z -> A -> A) (key : A -> Z) (tighten : Z -> Z -> Z).
Variables (cv : Z -> Z -> ConnectFour -> Z) (cc : ConnectFour -> Z).
Hypothesis child_run : cut_child child cv cc.
Hypothesis cc_least : forall g, 1 <= cc g.
Variable g : ConnectFour.
Hypothesis Hwf : wf g.

Lemma cut_body_run (a : Z) (rest : list Z) (st : A * Z) (w : world) :
  same_position g (game w) -> In a (open_cols g) ->
  exists w' stop,
    cut_body ai within nid depth child window combine key tighten a rest st w
    = (Ok ((combine a (on_child window cv g a (snd st)) (fst st),
            tighten (key (combine a (on_child window cv g a (snd st)) (fst st))) (snd st)),
           stop), w') /\
    stop = (fst (window (tighten (key (combine a (on_child window cv g a (snd st)) (fst st)))
                           (snd st)))
            >=? snd (window (tighten (key (combine a (on_child window cv g a (snd st)) (fst st)))
                               (snd st)))) /\
    game w' = forget g /\
    nodes_of w' + pruned_of w'
    <= nodes_of w + pruned_of w + cc (play g a)
       + (if stop then Z.of_nat (length rest) else 0) /\
    pruned_of w <= pruned_of w'.
Proof.
  intros Hsame Hin. unfold cut_body.
  destruct (do_drop_run g a w Hwf Hsame Hin) as (r & Hr & Ha & Hcell & Hplay & Hdrop).
  step Hdrop.
  destruct (trace_child_run within ai nid a depth
              (Some (fst (window (snd st)))) (Some (snd (window (snd st))))
              (mkWorld (play g a) (metrics w) (tracer w)))
    as (cid & w2 & Htrace & Hg2 & Hm2 & Hp2).
  step Htrace. simpl in Hg2, Hm2. unfold pruned_of in Hp2. simpl in Hp2.
  assert (wf (game w2)) as Hwf2
    by (rewrite Hg2, Hplay; apply wf_dropped; assumption).
  destruct (child_run (fst (window (snd st))) (snd (window (snd st))) cid w2 Hwf2)
    as (w3 & Hchild & Hsame3 & Hn3 & Hp3).
  step Hchild.
  assert (do_undo (mkMove r a (current_player g)) w3
          = (Ok tt, mkWorld (forget g) (metrics w3) (tracer w3))) as Hundo.
  { apply do_undo_run; try assumption. rewrite <- Hplay, <- Hg2. assumption. }
  step Hundo. rewrite Hg2. fold (on_child window cv g a (snd st)).
  set (x := combine a (on_child window cv g a (snd st)) (fst st)).
  set (b := tighten (key x) (snd st)). cbv zeta.
  unfold nodes_of, pruned_of in *. rewrite Hg2, Hm2 in Hn3. rewrite Hp2 in Hp3, Hn3.
  destruct (fst (window b) >=? snd (window b)) eqn:Estop.
  - destruct (trace_pruned_run within nid rest depth (fst (window b)) (snd (window b))
                (mkWorld (forget g) (metrics w3) (tracer w3)))
      as (w4 & Hpruned & Hg4 & Hm4 & Hp4).
    step Hpruned. unfold pruned_of in Hp4. simpl in Hg4, Hm4, Hp4.
    exists w4, true. unfold ret. rewrite Hm4.
    repeat split; try assumption; try lia.
  - exists (mkWorld (forget g) (metrics w3) (tracer w3)), false. unfold ret. simpl.
    repeat split; try assumption; try lia.
Qed.

Lemma cut_loop_run (acts : list Z) :
  (forall a, In a acts -> In a (open_cols g)) ->
  forall st w,
    same_position g (game w) ->
    exists w',
      for_break acts st (cut_body ai within nid depth child window combine key tighten) w
      = (Ok (cut_loop (on_child window cv g) window combine key tighten acts (fst st) (snd st)), w') /\
      same_position g (game w') /\
      (acts <> [] -> game w' = forget g) /\
      nodes_of w' + pruned_of w'
      <= nodes_of w + pruned_of w + sum_over acts (fun a => cc (play g a)) /\
      pruned_of w <= pruned_of w'.
Proof.
  induction acts as [|a acts IH]; intros Hacts st w Hsame.
  - exists w. split; [destruct st; reflexivity |]. split; [assumption |].
    split; [intros H; contradiction | simpl; lia].
  - cbn [for_break cut_loop sum_over]. cbv zeta.
    destruct (cut_body_run a acts st w Hsame (Hacts a (or_introl eq_refl)))
      as (w1 & stop & Hbody & Hstop & Hg1 & Hn1 & Hp1).
    step Hbody. cbn [fst snd]. rewrite <- Hstop.
    assert (same_position g (game w1)) as Hsame1
      by (rewrite Hg1; apply same_position_forget).
    pose proof (sum_over_least acts (fun a => cc (play g a))
                  (fun a => cc_least (play g a))) as Hleast.
    destruct stop.
    + exists w1. unfold ret. split; [reflexivity |]. split; [assumption |].
      split; [intros _; assumption |]. lia.
    + destruct (IH (fun a' H => Hacts a' (or_intror H))
                  (combine a (on_child window cv g a (snd st)) (fst st),
                   tighten (key (combine a (on_child window cv g a (snd st)) (fst st))) (snd st))
                  w1 Hsame1)
        as (w' & Hloop & Hsame' & Hg' & Hn' & Hp').
      exists w'. split; [exact Hloop |]. split; [assumption |]. split.
      * intros _. destruct acts as [|a' acts'].
        -- simpl in Hloop. injection Hloop as <-. assumption.
        -- apply Hg'. discriminate.
      * lia.
Qed.
End CutLoop.

(** ** The closures of [minimax_decision] against the game tree *)

Lemma count_node_run (d : Z) (w : world) :
  count_node d w
  = (Ok tt, mkWorld (game w)
              (mkMetrics (nodes_expanded (metrics w) + 1)
                 (Z.max (max_depth_reached (metrics w)) d))
              (tracer w)).
Proof. reflexivity. Qed.

Lemma sum_over_nonneg {A} (l : list A) (f : A -> Z) :
  (forall x, 0 <= f x) -> 0 <= sum_over l f.
Proof. intros Hf. induction l as [|x l IH]; simpl; [lia |]. specialize (Hf x). lia. Qed.

Section Simulation.
Variable heuristic : ConnectFour -> Z -> result Z.
Variable ai : Z.
Variable depth_limit : Z.
Hypothesis heuristic_total : forall g, wf g -> exists v, heuristic g ai = Ok v.

Lemma static_total (g : ConnectFour) :
  wf g -> heuristic g ai = Ok (static heuristic ai g).
Proof. intros Hwf. unfold static. destruct (heuristic_total g Hwf) as [v ->]. reflexivity. Qed.

Lemma mm_count_least (left : nat) (g : ConnectFour) : 1 <= mm_count left g.
Proof.
  revert g. induction left as [|left IH]; intros g; cbn [mm_count].
  - destruct (is_terminal g); lia.
  - destruct (is_terminal g); [lia |].
    pose proof (sum_over_nonneg (open_cols g) (fun a => mm_count left (play g a))) as H.
    assert (forall a, 0 <= mm_count left (play g a)) as Hf
      by (intros a; specialize (IH (play g a)); lia).
    specialize (H Hf). lia.
Qed.

Lemma minimax_max_value_eq (fuel : nat) (d : Z) (node_id : option Z) :
  Minimax.max_value heuristic ai depth_limit fuel d node_id
  = (count_node d ;;;
     t <- ask terminal ;;
     if t then ask (terminal_value ai)
     else if d >=? depth_limit then ask (fun g => heuristic g ai)
     else
       match fuel with
       | O => out_of_fuel
       | S fuel' =>
           acts <- ask actions ;;
           v <- for_each acts (- 10 ^ 18)
                  (plain_body ai (below d) node_id (d + 1)
                     (Minimax.min_value heuristic ai depth_limit fuel' (d + 1))
                     (fun _ => raise_to)) ;;
           trace_value (upto d) node_id v None None ;;;
           ret v
       end).
Proof. destruct fuel; reflexivity. Qed.

Lemma minimax_min_value_eq (fuel : nat) (d : Z) (node_id : option Z) :
  Minimax.min_value heuristic ai depth_limit fuel d node_id
  = (count_node d ;;;
     t <- ask terminal ;;
     if t then ask (terminal_value ai)
     else if d >=? depth_limit then ask (fun g => heuristic g ai)
     else
       match fuel with
       | O => out_of_fuel
       | S fuel' =>
           acts <- ask actions ;;
           v <- for_each acts (10 ^ 18)
                  (plain_body ai (below d) node_id (d + 1)
                     (Minimax.max_value heuristic ai depth_limit fuel' (d + 1))
                     (fun _ => lower_to)) ;;
           trace_value (upto d) node_id v None None ;;;
           ret v
       end).
Proof. destruct fuel; reflexivity. Qed.

(** The depth test against the fuel. *)
Lemma plies_left_spec (d : Z) :
  (plies_left depth_limit d = O <-> d >= depth_limit) /\
  plies_left depth_limit (d + 1) = pred (plies_left depth_limit d).
Proof. unfold plies_left. lia. Qed.

(** With the fuel of its depth a closure of [minimax_decision] returns the
    minimax value of its node, hands the position back and counts one call
    per node of the tree below. *)
Lemma minimax_node_run (fuel : nat) :
  forall d, fuel = plies_left depth_limit d ->
    plain_child (Minimax.max_value heuristic ai depth_limit fuel d)
      (mm heuristic ai fuel true) (mm_count fuel) /\
    plain_child (Minimax.min_value heuristic ai depth_limit fuel d)
      (mm heuristic ai fuel false) (mm_count fuel).
Proof.
  induction fuel as [|fuel IH]; intros d Hfuel; split; intros cid w Hwf;
    (rewrite minimax_max_value_eq || rewrite minimax_min_value_eq);
    step (count_node_run d w);
    match goal with
    | |- context [bind (ask terminal) _ ?w1] =>
        step (ask_run terminal w1 _ (terminal_total (game w) Hwf))
    end;
    cbn [mm_count mm];
    destruct (is_terminal (game w)) eqn:Eterm;
    try (eexists; split;
         [apply ask_run; apply (terminal_value_total (game w) Hwf) |];
         split; [apply same_position_refl | unfold nodes_of; simpl; lia]);
    destruct (d >=? depth_limit) eqn:Ed;
    try (exfalso; unfold plies_left in Hfuel; lia);
    try (eexists; split;
         [apply ask_run; apply (static_total (game w) Hwf) |];
         split; [apply same_position_refl | unfold nodes_of; simpl; lia]).
  all: assert (fuel = plies_left depth_limit (d + 1)) as Hfuel'
    by (unfold plies_left in *; lia).
  all: match goal with
       | |- context [bind (ask actions) _ ?w1] =>
           step (ask_run actions w1 _ (actions_total (game w) Hwf))
       end.
  - destruct (plain_loop_run ai (below d) cid (d + 1)
                (Minimax.min_value heuristic ai depth_limit fuel (d + 1))
                (fun _ => raise_to)
                (mm heuristic ai fuel false) (mm_count fuel)
                (proj2 (IH (d + 1) Hfuel')) (game w) Hwf
                (open_cols (game w)) (fun a H => H) (- 10 ^ 18)
                (mkWorld (game w)
                   (mkMetrics (nodes_expanded (metrics w) + 1)
                      (Z.max (max_depth_reached (metrics w)) d))
                   (tracer w))
                (same_position_refl (game w)))
      as (w2 & Hloop & Hsame2 & _ & Hn2).
    step Hloop.
    match goal with
    | |- context [bind (trace_value ?c ?n ?v ?x ?y) _ ?w0] =>
        destruct (trace_value_run c n v x y w0) as (w3 & Htv & Hg3 & Hm3 & _)
    end.
    step Htv. exists w3. split; [reflexivity |].
    unfold nodes_of in *. rewrite Hg3, Hm3. split; [assumption |].
    cbn [metrics nodes_expanded] in Hn2. lia.
  - destruct (plain_loop_run ai (below d) cid (d + 1)
                (Minimax.max_value heuristic ai depth_limit fuel (d + 1))
                (fun _ => lower_to)
                (mm heuristic ai fuel true) (mm_count fuel)
                (proj1 (IH (d + 1) Hfuel')) (game w) Hwf
                (open_cols (game w)) (fun a H => H) (10 ^ 18)
                (mkWorld (game w)
                   (mkMetrics (nodes_expanded (metrics w) + 1)
                      (Z.max (max_depth_reached (metrics w)) d))
                   (tracer w))
                (same_position_refl (game w)))
      as (w2 & Hloop & Hsame2 & _ & Hn2).
    step Hloop.
    match goal with
    | |- context [bind (trace_value ?c ?n ?v ?x ?y) _ ?w0] =>
        destruct (trace_value_run c n v x y w0) as (w3 & Htv & Hg3 & Hm3 & _)
    end.
    step Htv. exists w3. split; [reflexivity |].
    unfold nodes_of in *. rewrite Hg3, Hm3. split; [assumption |].
    cbn [metrics nodes_expanded] in Hn2. lia.
Qed.

(** ** The closures of [alphabeta_decision] against the game tree *)

Lemma alphabeta_max_value_eq (fuel : nat) (d alpha beta : Z) (node_id : option Z) :
  AlphaBeta.max_value heuristic ai depth_limit fuel d alpha beta node_id
  = (count_node d ;;;
     t <- ask terminal ;;
     if t then ask (terminal_value ai)
     else if d >=? depth_limit then ask (fun g => heuristic g ai)
     else
       match fuel with
       | O => out_of_fuel
       | S fuel' =>
           acts <- ask actions ;;
           va <- for_break acts (- INF, alpha)
                   (cut_body ai (below d) node_id (d + 1)
                      (AlphaBeta.min_value heuristic ai depth_limit fuel' (d + 1))
                      (fun b => (b, beta)) (fun _ => raise_to) (fun v => v) raise_to) ;;
           trace_value (upto d) node_id (fst va) (Some (snd va)) (Some beta) ;;;
           ret (fst va)
       end).
Proof. destruct fuel; reflexivity. Qed.

Lemma alphabeta_min_value_eq (fuel : nat) (d alpha beta : Z) (node_id : option Z) :
  AlphaBeta.min_value heuristic ai depth_limit fuel d alpha beta node_id
  = (count_node d ;;;
     t <- ask terminal ;;
     if t then ask (terminal_value ai)
     else if d >=? depth_limit then ask (fun g => heuristic g ai)
     else
       match fuel with
       | O => out_of_fuel
       | S fuel' =>
           acts <- ask actions ;;
           vb <- for_break acts (INF, beta)
                   (cut_body ai (below d) node_id (d + 1)
                      (AlphaBeta.max_value heuristic ai depth_limit fuel' (d + 1))
                      (fun b => (alpha, b)) (fun _ => lower_to) (fun v => v) lower_to) ;;
           trace_value (upto d) node_id (fst vb) (Some alpha) (Some (snd vb)) ;;;
           ret (fst vb)
       end).
Proof. destruct fuel; reflexivity. Qed.

Lemma cut_loop_max (f : Z -> Z -> Z) (beta : Z) (acts : list Z) (v alpha : Z) :
  fst (cut_loop f (fun b => (b, beta)) (fun _ => raise_to) (fun v => v) raise_to
         acts v alpha)
  = max_loop f beta acts v alpha.
Proof.
  revert v alpha. induction acts as [|a acts IH]; intros v alpha; [reflexivity |].
  cbn [cut_loop max_loop fst snd]. cbv zeta.
  destruct (raise_to (raise_to (f a alpha) v) alpha >=? beta); [reflexivity | apply IH].
Qed.

Lemma cut_loop_min (f : Z -> Z -> Z) (alpha : Z) (acts : list Z) (v beta : Z) :
  fst (cut_loop f (fun b => (alpha, b)) (fun _ => lower_to) (fun v => v) lower_to
         acts v beta)
  = min_loop f alpha acts v beta.
Proof.
  revert v beta. induction acts as [|a acts IH]; intros v beta; [reflexivity |].
  cbn [cut_loop min_loop fst snd]. cbv zeta.
  destruct (alpha >=? lower_to (lower_to (f a beta) v) beta); [reflexivity | apply IH].
Qed.

(** With the fuel of its depth a closure of [alphabeta_decision] returns
    the alpha-beta value of its node for its window, hands the position
    back, and the calls it counts plus the placeholders it records are at
    most the calls minimax counts below the same node. *)
Lemma alphabeta_node_run (fuel : nat) :
  forall d, fuel = plies_left depth_limit d ->
    cut_child (AlphaBeta.max_value heuristic ai depth_limit fuel d)
      (ab heuristic ai fuel true) (mm_count fuel) /\
    cut_child (AlphaBeta.min_value heuristic ai depth_limit fuel d)
      (ab heuristic ai fuel false) (mm_count fuel).
Proof.
  induction fuel as [|fuel IH]; intros d Hfuel; split; intros alpha beta cid w Hwf;
    (rewrite alphabeta_max_value_eq || rewrite alphabeta_min_value_eq);
    step (count_node_run d w);
    match goal with
    | |- context [bind (ask terminal) _ ?w1] =>
        step (ask_run terminal w1 _ (terminal_total (game w) Hwf))
    end;
    cbn [mm_count ab];
    destruct (is_terminal (game w)) eqn:Eterm;
    try (eexists; split;
         [apply ask_run; apply (terminal_value_total (game w) Hwf) |];
         split; [apply same_position_refl |];
         unfold nodes_of, pruned_of; cbn [metrics nodes_expanded tracer]; lia);
    destruct (d >=? depth_limit) eqn:Ed;
    try (exfalso; unfold plies_left in Hfuel; lia);
    try (eexists; split;
         [apply ask_run; apply (static_total (game w) Hwf) |];
         split; [apply same_position_refl |];
         unfold nodes_of, pruned_of; cbn [metrics nodes_expanded tracer]; lia).
  all: assert (fuel = plies_left depth_limit (d + 1)) as Hfuel'
    by (unfold plies_left in *; lia).
  all: match goal with
       | |- context [bind (ask actions) _ ?w1] =>
           step (ask_run actions w1 _ (actions_total (game w) Hwf))
       end.
  - destruct (cut_loop_run ai (below d) cid (d + 1)
                (AlphaBeta.min_value heuristic ai depth_limit fuel (d + 1))
                (fun b => (b, beta)) (fun _ => raise_to) (fun v => v) raise_to
                (ab heuristic ai fuel false) (mm_count fuel)
                (proj2 (IH (d + 1) Hfuel')) (mm_count_least fuel) (game w) Hwf
                (open_cols (game w)) (fun a H => H) (- INF, alpha)
                (mkWorld (game w)
                   (mkMetrics (nodes_expanded (metrics w) + 1)
                      (Z.max (max_depth_reached (metrics w)) d))
                   (tracer w))
                (same_position_refl (game w)))
      as (w2 & Hloop & Hsame2 & _ & Hn2 & Hp2).
    step Hloop.
    match goal with
    | |- context [bind (trace_value ?c ?n ?v ?x ?y) _ ?w0] =>
        destruct (trace_value_run c n v x y w0) as (w3 & Htv & Hg3 & Hm3 & Hp3)
    end.
    step Htv. exists w3. split.
    { unfold ret. rewrite cut_loop_max. reflexivity. }
    unfold nodes_of, pruned_of in *. rewrite Hg3, Hm3, Hp3. split; [assumption |].
    cbn [metrics nodes_expanded tracer] in Hn2, Hp2. lia.
  - destruct (cut_loop_run ai (below d) cid (d + 1)
                (AlphaBeta.max_value heuristic ai depth_limit fuel (d + 1))
                (fun b => (alpha, b)) (fun _ => lower_to) (fun v => v) lower_to
                (ab heuristic ai fuel true) (mm_count fuel)
                (proj1 (IH (d + 1) Hfuel')) (mm_count_least fuel) (game w) Hwf
                (open_cols (game w)) (fun a H => H) (INF, beta)
                (mkWorld (game w)
                   (mkMetrics (nodes_expanded (metrics w) + 1)
                      (Z.max (max_depth_reached (metrics w)) d))
                   (tracer w))
                (same_position_refl (game w)))
      as (w2 & Hloop & Hsame2 & _ & Hn2 & Hp2).
    step Hloop.
    match goal with
    | |- context [bind (trace_value ?c ?n ?v ?x ?y) _ ?w0] =>
        destruct (trace_value_run c n v x y w0) as (w3 & Htv & Hg3 & Hm3 & Hp3)
    end.
    step Htv. exists w3. split.
    { unfold ret. rewrite cut_loop_min. reflexivity. }
    unfold nodes_of, pruned_of in *. rewrite Hg3, Hm3, Hp3. split; [assumption |].
    cbn [metrics nodes_expanded tracer] in Hn2, Hp2. lia.
Qed.
End Simulation.

(** ** The root node stays the first node of the trace *)

Lemma rooted_refl (w : world) : rooted w w.
Proof. intros i H. exact H. Qed.

Lemma rooted_trans (w1 w2 w3 : world) : rooted w1 w2 -> rooted w2 w3 -> rooted w1 w3.
Proof. intros H12 H23 i H. apply H23, H12, H. Qed.

Lemma rooted_same_tracer (w w' : world) : tracer w' = tracer w -> rooted w w'.
Proof. intros E i H. rewrite E. exact H. Qed.

Lemma head_id_new_node (t : SearchTracer) (parent move : option Z) (depth tp : Z)
    (kind : node_kind) (alpha beta : option Z) (flag : bool) (i : Z) :
  head_id (Some t) = Some i ->
  head_id (Some (snd (new_node t parent move depth tp kind alpha beta flag))) = Some i.
Proof.
  unfold head_id, new_node. simpl. destruct (nodes t) as [|n ns]; [discriminate |].
  simpl. auto.
Qed.

Lemma head_id_set_value (t : SearchTracer) (node_id v : Z) (alpha beta : option Z) (i : Z) :
  head_id (Some t) = Some i -> head_id (Some (set_value t node_id v alpha beta)) = Some i.
Proof.
  unfold head_id, set_value. simpl. destruct (nodes t) as [|n ns]; [discriminate |].
  simpl. destruct (n_id n =? node_id); simpl; auto.
Qed.

Lemma head_value_set_value (t : SearchTracer) (node_id v : Z) (alpha beta : option Z) :
  head_id (Some t) = Some node_id ->
  head_value (Some (set_value t node_id v alpha beta)) = Some v.
Proof.
  unfold head_id, head_value, set_value. simpl.
  destruct (nodes t) as [|n ns]; [discriminate |]. intros H. injection H as H.
  simpl. rewrite H, Z.eqb_refl. reflexivity.
Qed.

Lemma steady_ret {A} (a : A) : steady (ret a).
Proof. intros w. apply rooted_refl. Qed.

Lemma steady_bind {A B} (m : M A) (k : A -> M B) :
  steady m -> (forall a, steady (k a)) -> steady (bind m k).
Proof.
  intros Hm Hk w. unfold bind. specialize (Hm w).
  destruct (m w) as [[a|e] w1]; simpl in *.
  - apply (rooted_trans _ w1); [assumption | apply Hk].
  - assumption.
Qed.

Lemma steady_ask {A} (f : ConnectFour -> result A) : steady (ask f).
Proof. intros w. apply rooted_refl. Qed.

Lemma steady_count_node (d : Z) : steady (count_node d).
Proof. intros w. apply rooted_same_tracer. reflexivity. Qed.

Lemma steady_do_drop (a : Z) : steady (do_drop a).
Proof.
  intros w. unfold do_drop. destruct (drop_disc (game w) a None).
  apply rooted_same_tracer. reflexivity.
Qed.

Lemma steady_do_undo (mv : MoveResult) : steady (do_undo mv).
Proof.
  intros w. unfold do_undo. destruct (undo_disc (game w) mv).
  apply rooted_same_tracer. reflexivity.
Qed.

Lemma steady_int_of (best_move : option Z) : steady (int_of best_move).
Proof. intros w. unfold int_of. destruct best_move; apply rooted_refl. Qed.

Lemma steady_out_of_fuel {A} : steady (@out_of_fuel A).
Proof. intros w. apply rooted_refl. Qed.

Lemma steady_trace_child (within : SearchTracer -> bool) (ai : Z) (nid : option Z)
    (a depth : Z) (alpha beta : option Z) :
  steady (trace_child within ai nid a depth alpha beta).
Proof.
  intros w. unfold trace_child. destruct (tracer w) as [t|] eqn:Et;
    [| apply rooted_refl].
  destruct (within t); [| apply rooted_refl].
  intros i H. rewrite Et in H. apply head_id_new_node. assumption.
Qed.

Lemma steady_trace_value (within : SearchTracer -> bool) (nid : option Z) (v : Z)
    (alpha beta : option Z) :
  steady (trace_value within nid v alpha beta).
Proof.
  intros w. unfold trace_value. destruct (tracer w) as [t|] eqn:Et;
    [| apply rooted_refl].
  destruct nid as [j|]; [| apply rooted_refl].
  destruct (within t); [| apply rooted_refl].
  intros i H. rewrite Et in H. apply head_id_set_value. assumption.
Qed.

Lemma steady_trace_pruned (within : SearchTracer -> bool) (nid : option Z)
    (rest : list Z) (depth alpha beta : Z) :
  steady (trace_pruned within nid rest depth alpha beta).
Proof.
  intros w. unfold trace_pruned. destruct (tracer w) as [t|] eqn:Et;
    [| apply rooted_refl].
  destruct (within t); [| apply rooted_refl].
  intros i H. rewrite Et in H. cbn [snd tracer]. clear Et.
  revert t H. induction rest as [|a rest IH]; intros t H; [exact H |].
  cbn [fold_left]. apply IH. apply head_id_new_node. assumption.
Qed.

Lemma steady_for_each {A} (acts : list Z) (body : Z -> A -> M A) :
  (forall a acc, steady (body a acc)) -> forall acc, steady (for_each acts acc body).
Proof.
  intros Hbody. induction acts as [|a acts IH]; intros acc; cbn [for_each].
  - apply steady_ret.
  - apply steady_bind; [apply Hbody | intros acc'; apply IH].
Qed.

Lemma steady_for_break {A} (acts : list Z) (body : Z -> list Z -> A -> M (A * bool)) :
  (forall a rest acc, steady (body a rest acc)) ->
  forall acc, steady (for_break acts acc body).
Proof.
  intros Hbody. induction acts as [|a acts IH]; intros acc; cbn [for_break].
  - apply steady_ret.
  - apply steady_bind; [apply Hbody |]. intros r.
    destruct (snd r); [apply steady_ret | apply IH].
Qed.

Lemma steady_plain_body {A} (ai : Z) (within : SearchTracer -> bool) (nid : option Z)
    (depth : Z) (child : option Z -> M Z) (combine : Z -> Z -> A -> A) (a : Z) (acc : A) :
  (forall cid, steady (child cid)) ->
  steady (plain_body ai within nid depth child combine a acc).
Proof.
  intros Hchild. unfold plain_body.
  apply steady_bind; [apply steady_do_drop | intros mv].
  apply steady_bind; [apply steady_trace_child | intros cid].
  apply steady_bind; [apply Hchild | intros val].
  apply steady_bind; [apply steady_do_undo | intros _]. apply steady_ret.
Qed.

Lemma steady_cut_body {A} (ai : Z) (within : SearchTracer -> bool) (nid : option Z)
    (depth : Z) (child : Z -> Z -> option Z -> M Z) (window : Z -> Z * Z)
    (combine : Z -> Z -> A -> A) (key : A -> Z) (tighten : Z -> Z -> Z)
    (a : Z) (rest : list Z) (st : A * Z) :
  (forall alpha beta cid, steady (child alpha beta cid)) ->
  steady (cut_body ai within nid depth child window combine key tighten a rest st).
Proof.
  intros Hchild. unfold cut_body.
  apply steady_bind; [apply steady_do_drop | intros mv].
  apply steady_bind; [apply steady_trace_child | intros cid].
  apply steady_bind; [apply Hchild | intros val].
  apply steady_bind; [apply steady_do_undo | intros _]. cbv zeta.
  match goal with |- context [if ?c then _ else _] => destruct c end.
  - apply steady_bind; [apply steady_trace_pruned | intros _]. apply steady_ret.
  - apply steady_ret.
Qed.

Section SteadyClosures.
Variable heuristic : ConnectFour -> Z -> result Z.
Variables ai depth_limit : Z.

Lemma steady_minimax (fuel : nat) :
  forall d nid,
    steady (Minimax.max_value heuristic ai depth_limit fuel d nid) /\
    steady (Minimax.min_value heuristic ai depth_limit fuel d nid).
Proof.
  induction fuel as [|fuel IH]; intros d nid; split;
    (rewrite minimax_max_value_eq || rewrite minimax_min_value_eq);
    (apply steady_bind; [apply steady_count_node | intros _]);
    (apply steady_bind; [apply steady_ask | intros t]);
    (destruct t; [apply steady_ask |]);
    (destruct (d >=? depth_limit); [apply steady_ask |]);
    try apply steady_out_of_fuel;
    (apply steady_bind; [apply steady_ask | intros acts]);
    (apply steady_bind;
     [| intros v; apply steady_bind; [apply steady_trace_value | intros _; apply steady_ret]]);
    apply steady_for_each; intros a acc; apply steady_plain_body; intros cid; apply IH.
Qed.

Lemma steady_alphabeta (fuel : nat) :
  forall d alpha beta nid,
    steady (AlphaBeta.max_value heuristic ai depth_limit fuel d alpha beta nid) /\
    steady (AlphaBeta.min_value heuristic ai depth_limit fuel d alpha beta nid).
Proof.
  induction fuel as [|fuel IH]; intros d alpha beta nid; split;
    (rewrite alphabeta_max_value_eq || rewrite alphabeta_min_value_eq);
    (apply steady_bind; [apply steady_count_node | intros _]);
    (apply steady_bind; [apply steady_ask | intros t]);
    (destruct t; [apply steady_ask |]);
    (destruct (d >=? depth_limit); [apply steady_ask |]);
    try apply steady_out_of_fuel;
    (apply steady_bind; [apply steady_ask | intros acts]);
    (apply steady_bind;
     [| intros v; apply steady_bind; [apply steady_trace_value | intros _; apply steady_ret]]);
    apply steady_for_break; intros a rest acc; apply steady_cut_body;
    intros al be cid; apply IH.
Qed.
End SteadyClosures.

(** On a fresh tracer the root node is the first node. *)
Lemma trace_root_fresh (ai : Z) (alpha beta : option Z) (w : world) (t : SearchTracer) :
  tracer w = Some t -> nodes t = [] ->
  exists w', trace_root ai alpha beta w = (Ok (Some (_next_id t)), w') /\
             head_id (tracer w') = Some (_next_id t).
Proof.
  intros Et Hnil. unfold trace_root. rewrite Et. unfold new_node. rewrite Hnil.
  eexists. split; reflexivity.
Qed.

(** Setting the value of the root node when it is the first node. *)
Lemma trace_value_root (i v : Z) (alpha beta : option Z) (w : world) :
  head_id (tracer w) = Some i ->
  head_value (tracer (snd (trace_value always (Some i) v alpha beta w))) = Some v.
Proof.
  intros H. unfold trace_value. destruct (tracer w) as [t|] eqn:Et; [| discriminate H].
  cbn [always snd tracer]. apply head_value_set_value. assumption.
Qed.

(** ** Values stay inside [(-INF, INF)] *)



Lemma wf_play (g : ConnectFour) (a : Z) :
  wf g -> In a (open_cols g) -> wf (play g a) /\ (small g -> small (play g a)).
Proof.
  intros Hwf Hin.
  destruct (drop_from_position g g a Hwf (same_position_refl g) Hin)
    as (r & Hr & _ & _ & _ & _ & ->).
  split; [apply wf_dropped; assumption | apply small_dropped].
Qed.

Lemma fold_raise_among (m : Z -> Z) (acts : list Z) (v : Z) :
  fold_left (fun v a => raise_to (m a) v) acts v = v \/
  exists a, In a acts /\ fold_left (fun v a => raise_to (m a) v) acts v = m a.
Proof.
  revert v. induction acts as [|a acts IH]; intros v; simpl; [auto |].
  destruct (IH (raise_to (m a) v)) as [E | (a' & Hin & E)].
  - rewrite E. unfold raise_to. destruct (m a >? v); eauto.
  - right. eauto.
Qed.

Lemma fold_lower_among (m : Z -> Z) (acts : list Z) (v : Z) :
  fold_left (fun v a => lower_to (m a) v) acts v = v \/
  exists a, In a acts /\ fold_left (fun v a => lower_to (m a) v) acts v = m a.
Proof.
  revert v. induction acts as [|a acts IH]; intros v; simpl; [auto |].
  destruct (IH (lower_to (m a) v)) as [E | (a' & Hin & E)].
  - rewrite E. unfold lower_to. destruct (m a <? v); eauto.
  - right. eauto.
Qed.

Lemma raise_to_max (x y : Z) : raise_to x y = Z.max x y.
Proof. unfold raise_to. destruct (x >? y) eqn:E; lia. Qed.

Lemma lower_to_min (x y : Z) : lower_to x y = Z.min x y.
Proof. unfold lower_to. destruct (x <? y) eqn:E; lia. Qed.

Lemma fold_raise_inside (m : Z -> Z) (acts : list Z) :
  acts <> [] -> (forall a, In a acts -> - INF < m a < INF) ->
  - INF < fold_left (fun v a => raise_to (m a) v) acts (- INF) < INF.
Proof.
  intros Hne Hm. destruct acts as [|a acts]; [contradiction |].
  pose proof (fold_raise_among m (a :: acts) (- INF)) as Hamong.
  pose proof (fold_raise_ge m acts (raise_to (m a) (- INF))) as Hge.
  pose proof (Hm a (or_introl eq_refl)) as Ha.
  cbn [fold_left] in *. rewrite raise_to_max in *.
  rewrite INF_value in *.
  destruct Hamong as [E | (a' & Hin & E)].
  - lia.
  - specialize (Hm a' Hin). lia.
Qed.

Lemma fold_lower_inside (m : Z -> Z) (acts : list Z) :
  acts <> [] -> (forall a, In a acts -> - INF < m a < INF) ->
  - INF < fold_left (fun v a => lower_to (m a) v) acts INF < INF.
Proof.
  intros Hne Hm. destruct acts as [|a acts]; [contradiction |].
  pose proof (fold_lower_among m (a :: acts) INF) as Hamong.
  pose proof (fold_lower_le m acts (lower_to (m a) INF)) as Hle.
  pose proof (Hm a (or_introl eq_refl)) as Ha.
  cbn [fold_left] in *. rewrite lower_to_min in *.
  rewrite INF_value in *.
  destruct Hamong as [E | (a' & Hin & E)].
  - lia.
  - specialize (Hm a' Hin). lia.
Qed.

Section Bounded.
Variable heuristic : ConnectFour -> Z -> result Z.
Variable ai : Z.
Hypothesis heuristic_inside :
  forall g, wf g -> small g -> - INF < static heuristic ai g < INF.

Lemma mm_inside (left : nat) :
  forall maxing g, wf g -> small g -> - INF < mm heuristic ai left maxing g < INF.
Proof.
  induction left as [|left IH]; intros maxing g Hwf Hsmall; cbn [mm];
    destruct (is_terminal g) eqn:Eterm;
    try (pose proof (leaf_value_cases ai g) as Hleaf;
         rewrite WIN_SCORE_value in Hleaf; rewrite INF_value; lia).
  - apply heuristic_inside; assumption.
  - pose proof (not_terminal_open g Hwf Eterm) as Hne.
    assert (forall maxing a, In a (open_cols g) ->
              - INF < mm heuristic ai left maxing (play g a) < INF) as Hm.
    { intros mx a Hin. destruct (wf_play g a Hwf Hin) as [Hwf' Hsmall'].
      apply IH; auto. }
    destruct maxing.
    + apply (fold_raise_inside (fun a => mm heuristic ai left false (play g a)));
        [assumption | apply Hm].
    + apply (fold_lower_inside (fun a => mm heuristic ai left true (play g a)));
        [assumption | apply Hm].
Qed.

(** The root loop of alpha-beta ends with the pair minimax ends with. *)
Lemma ab_root_mm_root (depth_limit : Z) (g : ConnectFour) :
  wf g -> small g ->
  ab_root heuristic ai depth_limit g = mm_root heuristic ai depth_limit g.
Proof.
  intros Hwf Hsmall. unfold ab_root, mm_root.
  assert (forall maxing a, In a (open_cols g) ->
            - INF < mm heuristic ai (plies_left depth_limit 1) maxing (play g a) < INF)
    as Hm.
  { intros mx a Hin. destruct (wf_play g a Hwf Hin) as [Hwf' Hsmall'].
    apply mm_inside; auto. }
  destruct (current_player g =? ai).
  - apply (root_max_loop_exact
             (fun a => mm heuristic ai (plies_left depth_limit 1) false (play g a))
             (fun a alpha => ab heuristic ai (plies_left depth_limit 1) false alpha INF
                               (play g a))
             INF (open_cols g)).
    + intros a alpha _ Hlt. apply ab_agrees. assumption.
    + intros a Hin. apply Hm. assumption.
    + cbn [fst]. rewrite INF_value. lia.
  - apply (root_min_loop_exact
             (fun a => mm heuristic ai (plies_left depth_limit 1) true (play g a))
             (fun a beta => ab heuristic ai (plies_left depth_limit 1) true (- INF) beta
                              (play g a))
             (- INF) (open_cols g)).
    + intros a beta _ Hlt. apply ab_agrees. assumption.
    + intros a Hin. apply Hm. assumption.
    + cbn [fst]. rewrite INF_value. lia.
Qed.

(** With a legal move the root loop picks one: the first of those with the
    best value. *)
Lemma mm_root_first_best (depth_limit : Z) (g : ConnectFour) :
  wf g -> small g -> open_cols g <> [] ->
  let value := fun a =>
    mm heuristic ai (plies_left depth_limit 1)
      (negb (current_player g =? ai)) (play g a) in
  exists pre a post,
    open_cols g = pre ++ a :: post /\
    mm_root heuristic ai depth_limit g = (value a, Some a) /\
    (forall a', In a' pre ->
       if current_player g =? ai then value a' < value a else value a < value a') /\
    (forall a', In a' post ->
       if current_player g =? ai then value a' <= value a else value a <= value a').
Proof.
  intros Hwf Hsmall Hne value. unfold mm_root. subst value.
  assert (forall maxing a, In a (open_cols g) ->
            - INF < mm heuristic ai (plies_left depth_limit 1) maxing (play g a) < INF)
    as Hm.
  { intros mx a Hin. destruct (wf_play g a Hwf Hin) as [Hwf' Hsmall'].
    apply mm_inside; auto. }
  destruct (current_player g =? ai); cbn [negb].
  - apply (fold_pick_max_first
             (fun a => mm heuristic ai (plies_left depth_limit 1) false (play g a)));
      [| assumption].
    intros a Hin. apply Hm. assumption.
  - apply (fold_pick_min_first
             (fun a => mm heuristic ai (plies_left depth_limit 1) true (play g a)));
      [| assumption].
    intros a Hin. apply Hm. assumption.
Qed.
End Bounded.

(** ** The root loops against the game tree *)

Lemma cut_loop_root_max (f : Z -> Z -> Z) (beta : Z) (acts : list Z)
    (best : Z * option Z) (alpha : Z) :
  fst (cut_loop f (fun b => (b, beta)) pick_max fst raise_to acts best alpha)
  = root_max_loop f beta acts best alpha.
Proof.
  revert best alpha. induction acts as [|a acts IH]; intros best alpha; [reflexivity |].
  cbn [cut_loop root_max_loop]. cbv zeta. cbn [fst snd].
  destruct (raise_to (fst (pick_max a (f a alpha) best)) alpha >=? beta);
    [reflexivity | apply IH].
Qed.

Lemma cut_loop_root_min (f : Z -> Z -> Z) (alpha : Z) (acts : list Z)
    (best : Z * option Z) (beta : Z) :
  fst (cut_loop f (fun b => (alpha, b)) pick_min fst lower_to acts best beta)
  = root_min_loop f alpha acts best beta.
Proof.
  revert best beta. induction acts as [|a acts IH]; intros best beta; [reflexivity |].
  cbn [cut_loop root_min_loop]. cbv zeta. cbn [fst snd].
  destruct (alpha >=? lower_to (fst (pick_min a (f a beta) best)) beta);
    [reflexivity | apply IH].
Qed.

Section RootSimulation.
Variable heuristic : ConnectFour -> Z -> result Z.
Variable ai : Z.
Hypothesis heuristic_total : forall g, wf g -> exists v, heuristic g ai = Ok v.

Lemma minimax_search_eq (depth_limit : Z) :
  Minimax.search heuristic ai depth_limit
  = (root_id <- trace_root ai None None ;;
     cp <- ask (fun g => Ok (current_player g)) ;;
     if cp =? ai
     then
       acts <- ask actions ;;
       best <- for_each acts (- INF, None)
                 (plain_body ai at_root root_id 1
                    (Minimax.min_value heuristic ai depth_limit (plies_left depth_limit 1) 1)
                    pick_max) ;;
       trace_value always root_id (fst best) None None ;;;
       ret best
     else
       acts <- ask actions ;;
       best <- for_each acts (INF, None)
                 (plain_body ai at_root root_id 1
                    (Minimax.max_value heuristic ai depth_limit (plies_left depth_limit 1) 1)
                    pick_min) ;;
       trace_value always root_id (fst best) None None ;;;
       ret best).
Proof. reflexivity. Qed.

Lemma alphabeta_search_eq (depth_limit : Z) :
  AlphaBeta.search heuristic ai depth_limit
  = (root_id <- trace_root ai (Some (- INF)) (Some INF) ;;
     cp <- ask (fun g => Ok (current_player g)) ;;
     if cp =? ai
     then
       acts <- ask actions ;;
       st <- for_break acts ((- INF, None), - INF)
               (cut_body ai at_root root_id 1
                  (AlphaBeta.min_value heuristic ai depth_limit (plies_left depth_limit 1) 1)
                  (fun b => (b, INF)) pick_max fst raise_to) ;;
       trace_value always root_id (fst (fst st)) (Some (snd st)) (Some INF) ;;;
       ret (fst st)
     else
       acts <- ask actions ;;
       st <- for_break acts ((INF, None), INF)
               (cut_body ai at_root root_id 1
                  (AlphaBeta.max_value heuristic ai depth_limit (plies_left depth_limit 1) 1)
                  (fun b => (- INF, b)) pick_min fst lower_to) ;;
       trace_value always root_id (fst (fst st)) (Some (- INF)) (Some (snd st)) ;;;
       ret (fst st)).
Proof. reflexivity. Qed.

Lemma minimax_search_run (depth_limit : Z) (w : world) :
  wf (game w) ->
  exists w',
    Minimax.search heuristic ai depth_limit w
    = (Ok (mm_root heuristic ai depth_limit (game w)), w') /\
    same_position (game w) (game w') /\
    (open_cols (game w) <> [] -> game w' = forget (game w)) /\
    nodes_of w' = nodes_of w + below_root depth_limit (game w) /\
    (forall t, tracer w = Some t -> nodes t = [] ->
       head_value (tracer w') = Some (fst (mm_root heuristic ai depth_limit (game w)))).
Proof.
  intros Hwf. rewrite minimax_search_eq.
  destruct (trace_root_run ai None None w) as (rid & w1 & Hroot & Hg1 & Hm1 & _).
  assert (forall t, tracer w = Some t -> nodes t = [] ->
            exists i, rid = Some i /\ head_id (tracer w1) = Some i) as Hfresh.
  { intros t Et Hnil.
    destruct (trace_root_fresh ai None None w t Et Hnil) as (w1' & Hroot' & Hhead).
    rewrite Hroot in Hroot'. injection Hroot' as -> ->. eauto. }
  step Hroot.
  step (ask_run (fun g => Ok (current_player g)) w1 _ eq_refl).
  assert (same_position (game w) (game w1)) as Hsame1
    by (rewrite Hg1; apply same_position_refl).
  assert (actions (game w1) = Ok (open_cols (game w))) as Hacts
    by (rewrite Hg1; apply actions_total; assumption).
  unfold mm_root, below_root. rewrite Hg1.
  destruct (current_player (game w) =? ai).
  - step (ask_run actions w1 _ Hacts).
    destruct (plain_loop_run ai at_root rid 1
                (Minimax.min_value heuristic ai depth_limit (plies_left depth_limit 1) 1) pick_max
                (mm heuristic ai (plies_left depth_limit 1) false)
                (mm_count (plies_left depth_limit 1))
                (proj2 (minimax_node_run heuristic ai depth_limit heuristic_total _ 1 eq_refl))
                (game w) Hwf (open_cols (game w)) (fun a H => H) (- INF, None) w1 Hsame1)
      as (w2 & Hloop & Hsame2 & Hg2 & Hn2).
    step Hloop.
    match goal with
    | |- context [bind (trace_value ?c ?n ?v ?x ?y) _ ?w0] =>
        destruct (trace_value_run c n v x y w0) as (w3 & Htv & Hg3 & Hm3 & _)
    end.
    step Htv. exists w3. split; [reflexivity |].
    unfold nodes_of in *. rewrite Hg3, Hm3, Hn2, Hm1.
    split; [assumption |]. split; [assumption |]. split; [reflexivity |].
    intros t Et Hnil. destruct (Hfresh t Et Hnil) as (i & -> & Hhead).
    replace w3 with (snd (trace_value always (Some i) (fst (fold_left (fun acc a => pick_max a (mm heuristic ai (plies_left depth_limit 1) false (play (game w) a)) acc) (open_cols (game w)) (- INF, None))) None None w2))
      by (rewrite Htv; reflexivity).
    apply trace_value_root.
    replace w2 with (snd (for_each (open_cols (game w)) (- INF, None) (plain_body ai at_root (Some i) 1 (Minimax.min_value heuristic ai depth_limit (plies_left depth_limit 1) 1) pick_max) w1))
      by (rewrite Hloop; reflexivity).
    apply steady_for_each; [| assumption].
    intros a acc. apply steady_plain_body. intros cid. apply steady_minimax.
  - step (ask_run actions w1 _ Hacts).
    destruct (plain_loop_run ai at_root rid 1
                (Minimax.max_value heuristic ai depth_limit (plies_left depth_limit 1) 1) pick_min
                (mm heuristic ai (plies_left depth_limit 1) true)
                (mm_count (plies_left depth_limit 1))
                (proj1 (minimax_node_run heuristic ai depth_limit heuristic_total _ 1 eq_refl))
                (game w) Hwf (open_cols (game w)) (fun a H => H) (INF, None) w1 Hsame1)
      as (w2 & Hloop & Hsame2 & Hg2 & Hn2).
    step Hloop.
    match goal with
    | |- context [bind (trace_value ?c ?n ?v ?x ?y) _ ?w0] =>
        destruct (trace_value_run c n v x y w0) as (w3 & Htv & Hg3 & Hm3 & _)
    end.
    step Htv. exists w3. split; [reflexivity |].
    unfold nodes_of in *. rewrite Hg3, Hm3, Hn2, Hm1.
    split; [assumption |]. split; [assumption |]. split; [reflexivity |].
    intros t Et Hnil. destruct (Hfresh t Et Hnil) as (i & -> & Hhead).
    replace w3 with (snd (trace_value always (Some i) (fst (fold_left (fun acc a => pick_min a (mm heuristic ai (plies_left depth_limit 1) true (play (game w) a)) acc) (open_cols (game w)) (INF, None))) None None w2))
      by (rewrite Htv; reflexivity).
    apply trace_value_root.
    replace w2 with (snd (for_each (open_cols (game w)) (INF, None) (plain_body ai at_root (Some i) 1 (Minimax.max_value heuristic ai depth_limit (plies_left depth_limit 1) 1) pick_min) w1))
      by (rewrite Hloop; reflexivity).
    apply steady_for_each; [| assumption].
    intros a acc. apply steady_plain_body. intros cid. apply steady_minimax.
Qed.

Lemma alphabeta_search_run (depth_limit : Z) (w : world) :
  wf (game w) ->
  exists w',
    AlphaBeta.search heuristic ai depth_limit w
    = (Ok (ab_root heuristic ai depth_limit (game w)), w') /\
    same_position (game w) (game w') /\
    (open_cols (game w) <> [] -> game w' = forget (game w)) /\
    nodes_of w' + pruned_of w'
    <= nodes_of w + pruned_of w + below_root depth_limit (game w) /\
    pruned_of w <= pruned_of w' /\
    (forall t, tracer w = Some t -> nodes t = [] ->
       head_value (tracer w') = Some (fst (ab_root heuristic ai depth_limit (game w)))).
Proof.
  intros Hwf. rewrite alphabeta_search_eq.
  destruct (trace_root_run ai (Some (- INF)) (Some INF) w)
    as (rid & w1 & Hroot & Hg1 & Hm1 & Hp1).
  assert (forall t, tracer w = Some t -> nodes t = [] ->
            exists i, rid = Some i /\ head_id (tracer w1) = Some i) as Hfresh.
  { intros t Et Hnil.
    destruct (trace_root_fresh ai (Some (- INF)) (Some INF) w t Et Hnil)
      as (w1' & Hroot' & Hhead).
    rewrite Hroot in Hroot'. injection Hroot' as -> ->. eauto. }
  step Hroot.
  step (ask_run (fun g => Ok (current_player g)) w1 _ eq_refl).
  assert (same_position (game w) (game w1)) as Hsame1
    by (rewrite Hg1; apply same_position_refl).
  assert (actions (game w1) = Ok (open_cols (game w))) as Hacts
    by (rewrite Hg1; apply actions_total; assumption).
  unfold ab_root, below_root. rewrite Hg1.
  destruct (current_player (game w) =? ai).
  - step (ask_run actions w1 _ Hacts).
    destruct (cut_loop_run ai at_root rid 1
                (AlphaBeta.min_value heuristic ai depth_limit (plies_left depth_limit 1) 1)
                (fun b => (b, INF)) pick_max fst raise_to
                (ab heuristic ai (plies_left depth_limit 1) false)
                (mm_count (plies_left depth_limit 1))
                (proj2 (alphabeta_node_run heuristic ai depth_limit heuristic_total _ 1 eq_refl))
                (mm_count_least (plies_left depth_limit 1))
                (game w) Hwf (open_cols (game w)) (fun a H => H)
                ((- INF, None), - INF) w1 Hsame1)
      as (w2 & Hloop & Hsame2 & Hg2 & Hn2 & Hp2).
    step Hloop.
    match goal with
    | |- context [bind (trace_value ?c ?n ?v ?x ?y) _ ?w0] =>
        destruct (trace_value_run c n v x y w0) as (w3 & Htv & Hg3 & Hm3 & Hp3)
    end.
    step Htv. exists w3. split.
    { unfold ret. rewrite cut_loop_root_max. reflexivity. }
    unfold nodes_of in *. rewrite Hg3, Hm3, Hp3. rewrite Hm1, Hp1 in *.
    split; [assumption |]. split; [assumption |]. split; [assumption |].
    split; [lia |].
    intros t Et Hnil. destruct (Hfresh t Et Hnil) as (i & -> & Hhead).
    rewrite <- cut_loop_root_max.
    match type of Htv with
    | trace_value always (Some i) ?v ?x ?y w2 = _ =>
        replace w3 with (snd (trace_value always (Some i) v x y w2))
          by (rewrite Htv; reflexivity)
    end.
    apply trace_value_root.
    match type of Hloop with
    | ?loop = _ => replace w2 with (snd loop) by (rewrite Hloop; reflexivity)
    end.
    apply steady_for_break; [| assumption].
    intros a rest acc. apply steady_cut_body. intros al be cid. apply steady_alphabeta.
  - step (ask_run actions w1 _ Hacts).
    destruct (cut_loop_run ai at_root rid 1
                (AlphaBeta.max_value heuristic ai depth_limit (plies_left depth_limit 1) 1)
                (fun b => (- INF, b)) pick_min fst lower_to
                (ab heuristic ai (plies_left depth_limit 1) true)
                (mm_count (plies_left depth_limit 1))
                (proj1 (alphabeta_node_run heuristic ai depth_limit heuristic_total _ 1 eq_refl))
                (mm_count_least (plies_left depth_limit 1))
                (game w) Hwf (open_cols (game w)) (fun a H => H)
                ((INF, None), INF) w1 Hsame1)
      as (w2 & Hloop & Hsame2 & Hg2 & Hn2 & Hp2).
    step Hloop.
    match goal with
    | |- context [bind (trace_value ?c ?n ?v ?x ?y) _ ?w0] =>
        destruct (trace_value_run c n v x y w0) as (w3 & Htv & Hg3 & Hm3 & Hp3)
    end.
    step Htv. exists w3. split.
    { unfold ret. rewrite cut_loop_root_min. reflexivity. }
    unfold nodes_of in *. rewrite Hg3, Hm3, Hp3. rewrite Hm1, Hp1 in *.
    split; [assumption |]. split; [assumption |]. split; [assumption |].
    split; [lia |].
    intros t Et Hnil. destruct (Hfresh t Et Hnil) as (i & -> & Hhead).
    rewrite <- cut_loop_root_min.
    match type of Htv with
    | trace_value always (Some i) ?v ?x ?y w2 = _ =>
        replace w3 with (snd (trace_value always (Some i) v x y w2))
          by (rewrite Htv; reflexivity)
    end.
    apply trace_value_root.
    match type of Hloop with
    | ?loop = _ => replace w2 with (snd loop) by (rewrite Hloop; reflexivity)
    end.
    apply steady_for_break; [| assumption].
    intros a rest acc. apply steady_cut_body. intros al be cid. apply steady_alphabeta.
Qed.
End RootSimulation.

(** ** The two entry points *)

Lemma evaluate_never_fails (ai : Z) (g : ConnectFour) :
  wf g -> exists v, evaluate g ai = Ok v.
Proof. intros Hwf. destruct (evaluate_total g Hwf ai) as (w & _ & E). eauto. Qed.

Lemma evaluate_static_inside (ai : Z) (g : ConnectFour) :
  wf g -> small g -> - INF < static evaluate ai g < INF.
Proof.
  intros Hwf Hsmall. unfold static.
  destruct (evaluate_never_fails ai g Hwf) as [v E]. rewrite E.
  apply (evaluate_inside g ai v Hwf Hsmall E).
Qed.

Lemma decision_of_search (search : M (Z * option Z)) (w w' : world)
    (best : Z * option Z) :
  search w = (Ok best, w') ->
  (best <- search ;; int_of (snd best)) w
  = (match snd best with Some a => Ok a | None => Raise TypeError end, w').
Proof.
  intros H. step H. unfold int_of. destruct (snd best); reflexivity.
Qed.

Lemma minimax_search_on (g : ConnectFour) (ai depth_limit : Z) (t : option SearchTracer) :
  wf g ->
  exists w',
    minimax_search g ai depth_limit t = (Ok (mm_root evaluate ai depth_limit g), w') /\
    minimax_decision g ai depth_limit t
    = (match snd (mm_root evaluate ai depth_limit g) with
       | Some a => Ok a
       | None => Raise TypeError
       end, w') /\
    same_position g (game w') /\
    (open_cols g <> [] -> game w' = forget g) /\
    nodes_of w' = below_root depth_limit g /\
    (forall t', t = Some t' -> nodes t' = [] ->
       head_value (tracer w') = Some (fst (mm_root evaluate ai depth_limit g))).
Proof.
  intros Hwf.
  destruct (minimax_search_run evaluate ai (evaluate_never_fails ai) depth_limit
              (start g t) Hwf) as (w' & Hrun & Hsame & Hg & Hn & Hroot).
  exists w'. split; [exact Hrun |]. split.
  - unfold minimax_decision, Minimax.decision.
    apply (decision_of_search _ _ _ _ Hrun).
  - split; [exact Hsame |]. split; [exact Hg |]. split; [| exact Hroot].
    rewrite Hn. unfold nodes_of. simpl. lia.
Qed.

Lemma alphabeta_search_on (g : ConnectFour) (ai depth_limit : Z) (t : option SearchTracer) :
  wf g ->
  exists w',
    alphabeta_search g ai depth_limit t = (Ok (ab_root evaluate ai depth_limit g), w') /\
    alphabeta_decision g ai depth_limit t
    = (match snd (ab_root evaluate ai depth_limit g) with
       | Some a => Ok a
       | None => Raise TypeError
       end, w') /\
    same_position g (game w') /\
    (open_cols g <> [] -> game w' = forget g) /\
    nodes_of w' + pruned_of w' <= pruned_count t + below_root depth_limit g /\
    pruned_count t <= pruned_of w' /\
    (forall t', t = Some t' -> nodes t' = [] ->
       head_value (tracer w') = Some (fst (ab_root evaluate ai depth_limit g))).
Proof.
  intros Hwf.
  destruct (alphabeta_search_run evaluate ai (evaluate_never_fails ai) depth_limit
              (start g t) Hwf) as (w' & Hrun & Hsame & Hg & Hn & Hp & Hroot).
  exists w'. split; [exact Hrun |]. split.
  - unfold alphabeta_decision, AlphaBeta.decision.
    apply (decision_of_search _ _ _ _ Hrun).
  - split; [exact Hsame |]. split; [exact Hg |].
    unfold nodes_of, pruned_of in *. simpl in Hn, Hp.
    split; [lia |]. split; [lia | exact Hroot].
Qed.

(** ** Legal moves come in ascending column order *)

Lemma seq_ascending (s k : nat) : StronglySorted Z.lt (map Z.of_nat (seq s k)).
Proof.
  revert s. induction k as [|k IH]; intros s; simpl; constructor.
  - apply IH.
  - apply Forall_forall. intros y Hy. apply in_map_iff in Hy.
    destruct Hy as (n & <- & Hn). apply in_seq in Hn. lia.
Qed.

Lemma filter_ascending (p : Z -> bool) (l : list Z) :
  StronglySorted Z.lt l -> StronglySorted Z.lt (filter p l).
Proof.
  induction 1 as [|x l Hl IH Hx]; simpl; [constructor |].
  destruct (p x); [| assumption]. constructor; [assumption |].
  apply Forall_forall. intros y Hy. apply filter_In in Hy.
  rewrite Forall_forall in Hx. apply Hx. tauto.
Qed.

Lemma open_cols_ascending (g : ConnectFour) : StronglySorted Z.lt (open_cols g).
Proof. unfold open_cols, range. apply filter_ascending, seq_ascending. Qed.

(** ** Example positions *)

Ltac check_wf := unfold wf, shape; vm_compute; repeat constructor.

Lemma wf_midgame : wf midgame.
Proof. check_wf. Qed.

Lemma wf_won_game : wf won_game.
Proof. check_wf. Qed.

Lemma wf_one_disc : wf one_disc.
Proof. check_wf. Qed.

Lemma wf_connect5 : wf connect5.
Proof. check_wf. Qed.

Lemma small_midgame : small midgame.
Proof. reflexivity. Qed.

(** ** The code on concrete positions *)

Example actions_empty_board : actions empty67 = Ok [0; 1; 2; 3; 4; 5; 6].
Proof. reflexivity. Qed.

(** Six discs fill column 3 from row 5 up to row 0; the seventh drop is
    refused. *)
Example column_fills_bottom_up :
  map (fun k => last_move (play_all empty67 (repeat 3 k))) [1; 2; 3; 4; 5; 6]%nat
  = [Some (mkMove 5 3 1); Some (mkMove 4 3 (-1)); Some (mkMove 3 3 1);
     Some (mkMove 2 3 (-1)); Some (mkMove 1 3 1); Some (mkMove 0 3 (-1))]
  /\ drop_disc (play_all empty67 (repeat 3 6%nat)) 3 None
     = (Raise (ValueError "Column is full."), play_all empty67 (repeat 3 6%nat)).
Proof. split; vm_compute; reflexivity. Qed.

Example midgame_board :
  board midgame
  = [[0; 0; 0; 0; 0; 0; 0];
     [0; 0; 0; 0; 0; 0; 0];
     [0; 0; 0; 0; 0; 0; 0];
     [0; 0; 0; 0; 0; 0; 0];
     [0; 0; 1; -1; -1; 0; 0];
     [0; 1; 1; 1; -1; -1; 0]]
  /\ current_player midgame = 1 /\ evaluate midgame 1 = Ok 150.
Proof. split; [| split]; vm_compute; reflexivity. Qed.

(** Both searches at depth 4 from the mid-game position: the same root pair,
    2100 calls against 96. *)
Example midgame_depth_4 :
  (fst (minimax_search midgame 1 4 None),
   nodes_expanded (metrics (snd (minimax_search midgame 1 4 None))))
  = (Ok (1000000000, Some 0), 2100) /\
  (fst (alphabeta_search midgame 1 4 None),
   nodes_expanded (metrics (snd (alphabeta_search midgame 1 4 None))))
  = (Ok (1000000000, Some 0), 96).
Proof. split; vm_compute; reflexivity. Qed.

(** A traced alpha-beta run at depth 3: 36 placeholders, 55 calls against
    the 343 of minimax. *)
Example midgame_traced_depth_3 :
  (let after := snd (alphabeta_decision midgame 1 3 (Some (mkTracer 3 [] 0))) in
   (pruned_count (tracer after), nodes_expanded (metrics after), head_value (tracer after)))
  = (36, 55, Some 1000000000) /\
  nodes_expanded (metrics (snd (minimax_decision midgame 1 3 None))) = 343.
Proof. split; vm_compute; reflexivity. Qed.

(** A won position is a leaf with the fixed value at every depth limit. *)
Example won_game_leaf :
  winner won_game = Ok 1 /\
  map (fun depth_limit =>
         fst (Minimax.min_value evaluate 1 depth_limit (plies_left depth_limit 1) 1 None
                (start won_game None)))
      [0; 1; 5]
  = [Ok WIN_SCORE; Ok WIN_SCORE; Ok WIN_SCORE].
Proof. split; vm_compute; reflexivity. Qed.
(** ** Python indices on the board *)

Lemma py_norm_wrap (len : nat) (i : Z) :
  - Z.of_nat len <= i < Z.of_nat len ->
  py_norm len i = Some (Z.to_nat (wrap (Z.of_nat len) i)) /\
  0 <= wrap (Z.of_nat len) i < Z.of_nat len.
Proof.
  intros H. unfold py_norm, wrap. destruct (i <? 0) eqn:E.
  - replace ((0 <=? i + Z.of_nat len) && (i + Z.of_nat len <? Z.of_nat len)) with true by lia.
    split; [reflexivity | lia].
  - replace ((0 <=? i) && (i <? Z.of_nat len)) with true by lia.
    split; [reflexivity | lia].
Qed.

Lemma py_norm_outside (len : nat) (i : Z) :
  ~ (- Z.of_nat len <= i < Z.of_nat len) -> py_norm len i = None.
Proof.
  intros H. unfold py_norm. destruct (i <? 0) eqn:E.
  - replace ((0 <=? i + Z.of_nat len) && (i + Z.of_nat len <? Z.of_nat len)) with false by lia.
    reflexivity.
  - replace ((0 <=? i) && (i <? Z.of_nat len)) with false by lia. reflexivity.
Qed.

Section Wrapped.
Variable g : ConnectFour.
Hypothesis Hwf : wf g.

Lemma get_cell_wrapped (r c : Z) :
  - rows g <= r < rows g -> - cols g <= c < cols g ->
  get_cell (board g) r c = Ok (cell_at (board g) (wrap (rows g) r) (wrap (cols g) c)) /\
  0 <= wrap (rows g) r < rows g /\ 0 <= wrap (cols g) c < cols g.
Proof.
  intros Hr Hc. destruct Hwf as (Hrows & Hcols & Hs). pose proof Hs as [Hlen Hall].
  assert (Z.of_nat (length (board g)) = rows g) as Elen by lia.
  destruct (py_norm_wrap (length (board g)) r) as [Er Hr']; [lia |].
  rewrite Elen in Er, Hr'.
  assert (Z.of_nat (length (nth (Z.to_nat (wrap (rows g) r)) (board g) [])) = cols g)
    as Eline by (rewrite (shape_line _ _ _ Hs) by assumption; lia).
  destruct (py_norm_wrap (length (nth (Z.to_nat (wrap (rows g) r)) (board g) [])) c)
    as [Ec Hc']; [lia |].
  rewrite Eline in Ec, Hc'.
  split; [| split; assumption].
  unfold get_cell, py_getitem, cell_at. rewrite Er.
  rewrite (nth_error_nth' _ []) by lia. cbn [rbind]. rewrite Ec.
  rewrite (nth_error_nth' _ 0) by lia. reflexivity.
Qed.

Lemma get_cell_outside (r c : Z) :
  ~ (- rows g <= r < rows g /\ - cols g <= c < cols g) ->
  get_cell (board g) r c = Raise IndexError.
Proof.
  intros Hout. destruct Hwf as (Hrows & Hcols & Hs). pose proof Hs as [Hlen Hall].
  unfold get_cell, py_getitem.
  destruct (Z_le_dec (- rows g) r) as [H1 |]; [| rewrite py_norm_outside by lia; reflexivity].
  destruct (Z_lt_dec r (rows g)) as [H2 |]; [| rewrite py_norm_outside by lia; reflexivity].
  destruct (py_norm_wrap (length (board g)) r) as [Er Hr']; [lia |].
  replace (Z.of_nat (length (board g))) with (rows g) in Er, Hr' by lia.
  rewrite Er. rewrite (nth_error_nth' _ []) by lia. cbn [rbind].
  rewrite py_norm_outside; [reflexivity |].
  rewrite (shape_line _ _ _ Hs) by assumption. lia.
Qed.

Lemma set_cell_wrapped (r c v : Z) :
  - rows g <= r < rows g -> - cols g <= c < cols g ->
  set_cell (board g) r c v = Ok (put (board g) (wrap (rows g) r) (wrap (cols g) c) v).
Proof.
  intros Hr Hc. destruct Hwf as (Hrows & Hcols & Hs). pose proof Hs as [Hlen Hall].
  destruct (py_norm_wrap (length (board g)) r) as [Er Hr']; [lia |].
  replace (Z.of_nat (length (board g))) with (rows g) in Er, Hr' by lia.
  assert (Z.of_nat (length (nth (Z.to_nat (wrap (rows g) r)) (board g) [])) = cols g)
    as Eline by (rewrite (shape_line _ _ _ Hs) by assumption; lia).
  destruct (py_norm_wrap (length (nth (Z.to_nat (wrap (rows g) r)) (board g) [])) c)
    as [Ec Hc']; [lia |].
  rewrite Eline in Ec.
  unfold set_cell, py_getitem, py_setitem, put. rewrite Er.
  rewrite (nth_error_nth' _ []) by lia. cbn [rbind]. rewrite Ec. cbn [rbind].
  reflexivity.
Qed.
End Wrapped.

Lemma undo_disc_ok_inv (g : ConnectFour) (mv : MoveResult) (g' : ConnectFour) :
  wf g -> undo_disc g mv = (Ok tt, g') ->
  let r := wrap (rows g) (row mv) in
  let c := wrap (cols g) (col mv) in
  0 <= r < rows g /\ 0 <= c < cols g /\ cell_at (board g) r c = player mv /\
  rows g' = rows g /\ cols g' = cols g /\ board g' = put (board g) r c 0.
Proof.
  intros Hwf Hundo r c.
  destruct (Z_le_dec (- rows g) (row mv)) as [R1 |];
    [destruct (Z_lt_dec (row mv) (rows g)) as [R2 |];
     [destruct (Z_le_dec (- cols g) (col mv)) as [C1 |];
      [destruct (Z_lt_dec (col mv) (cols g)) as [C2 |] |] |] |].
  2-5: unfold undo_disc in Hundo; rewrite (get_cell_outside g Hwf) in Hundo by lia;
    discriminate Hundo.
  assert (- rows g <= row mv < rows g) as Hr by lia.
  assert (- cols g <= col mv < cols g) as Hc by lia.
  destruct (get_cell_wrapped g Hwf _ _ Hr Hc) as (Eget & Hr' & Hc').
  pose proof (set_cell_wrapped g Hwf _ _ 0 Hr Hc) as Eset.
  fold r in Hr', Eset, Eget. fold c in Hc', Eset, Eget.
  unfold undo_disc in Hundo. rewrite Eget in Hundo.
  destruct (cell_at (board g) r c =? player mv) eqn:E; cbn [negb] in Hundo;
    [| discriminate Hundo].
  rewrite Eset in Hundo. injection Hundo as <-.
  cbn [with_current_player with_last_move with_board board rows cols].
  repeat split; try assumption; try lia.
Qed.

(** ** Boards without floating discs *)

Lemma gravity_check_sound (g : ConnectFour) : gravity_check g = true -> gravity g.
Proof.
  unfold gravity_check, gravity. intros H r c r' Hr Hc Hr' Hne.
  rewrite forallb_forall in H. specialize (H r (proj2 (in_range _ _) Hr)).
  rewrite forallb_forall in H. specialize (H c (proj2 (in_range _ _) Hc)).
  rewrite forallb_forall in H.
  assert (0 <= r' < rows g) as Hin by lia.
  specialize (H r' (proj2 (in_range _ _) Hin)).
  replace (r <? r') with true in H by lia.
  apply Z.eqb_neq in Hne. rewrite Hne in H. cbn in H.
  apply negb_true_iff, Z.eqb_neq in H. assumption.
Qed.

(** On a board without floating discs the top row has no empty cell exactly
    when no cell of the board is empty. *)
Lemma full_without_floating (g : ConnectFour) :
  wf g -> gravity g ->
  (top_row_taken g = true <->
   forall r c, 0 <= r < rows g -> 0 <= c < cols g -> cell_at (board g) r c <> 0).
Proof.
  intros (Hrows & Hcols & _) Hgrav. rewrite top_row_taken_spec. split.
  - intros Htop r c Hr Hc.
    destruct (Z.eq_dec r 0) as [-> | Hne]; [apply Htop; assumption |].
    apply (Hgrav 0 c r); [lia | assumption | lia | apply Htop; assumption].
  - intros Hall c Hc. apply Hall; [lia | assumption].
Qed.

(** * The properties of the specification *)

(** C1: on every well-formed state of a board small enough for the scores to
    stay inside (-10^18, 10^18), for every player, depth limit and tracers,
    [minimax_decision] and [alphabeta_decision] end their root loop with the
    same pair (root value, chosen column), return the same outcome, and
    write the same root value on the root node of a fresh trace.  The legal
    moves are tried in ascending column order and replaced on strict
    improvement only, so with a legal move both choose the first column that
    attains the best value: the columns before it are strictly worse, the
    columns after it are no better. *)
Theorem minimax_alphabeta_same_choice
    (g : ConnectFour) (ai depth_limit : Z) (tm ta : option SearchTracer) :
  wf g -> small g ->
  exists best_val best_move,
    fst (minimax_search g ai depth_limit tm) = Ok (best_val, best_move) /\
    fst (alphabeta_search g ai depth_limit ta) = Ok (best_val, best_move) /\
    fst (minimax_decision g ai depth_limit tm)
    = match best_move with Some a => Ok a | None => Raise TypeError end /\
    fst (alphabeta_decision g ai depth_limit ta)
    = fst (minimax_decision g ai depth_limit tm) /\
    (forall t, tm = Some t -> nodes t = [] ->
       head_value (tracer (snd (minimax_decision g ai depth_limit tm))) = Some best_val) /\
    (forall t, ta = Some t -> nodes t = [] ->
       head_value (tracer (snd (alphabeta_decision g ai depth_limit ta))) = Some best_val) /\
    actions g = Ok (open_cols g) /\
    StronglySorted Z.lt (open_cols g) /\
    (open_cols g <> [] ->
     let value := fun a =>
       mm evaluate ai (plies_left depth_limit 1) (negb (current_player g =? ai))
         (play g a) in
     exists pre a post,
       open_cols g = pre ++ a :: post /\
       best_move = Some a /\ best_val = value a /\
       (forall a', In a' pre ->
          if current_player g =? ai then value a' < value a else value a < value a') /\
       (forall a', In a' post ->
          if current_player g =? ai then value a' <= value a else value a <= value a')).
Proof.
  intros Hwf Hsmall.
  destruct (minimax_search_on g ai depth_limit tm Hwf)
    as (wm & Hms & Hmd & _ & _ & _ & Hmroot).
  destruct (alphabeta_search_on g ai depth_limit ta Hwf)
    as (wa & Has & Had & _ & _ & _ & _ & Haroot).
  pose proof (ab_root_mm_root evaluate ai (evaluate_static_inside ai) depth_limit g
                Hwf Hsmall) as Hroot.
  rewrite Hroot in Has, Had, Haroot.
  exists (fst (mm_root evaluate ai depth_limit g)), (snd (mm_root evaluate ai depth_limit g)).
  rewrite Hms, Hmd, Has, Had. cbn [fst snd]. rewrite <- surjective_pairing.
  split; [reflexivity |]. split; [reflexivity |]. split; [reflexivity |].
  split; [reflexivity |]. split; [exact Hmroot |]. split; [exact Haroot |].
  split; [apply actions_total; assumption |].
  split; [apply open_cols_ascending |].
  intros Hne.
  pose proof (mm_root_first_best evaluate ai (evaluate_static_inside ai) depth_limit g
                Hwf Hsmall Hne) as Hfirst.
  cbv zeta in Hfirst. destruct Hfirst as (pre & a & post & Hsplit & Hbest & Hpre & Hpost).
  exists pre, a, post. rewrite Hbest. cbn [fst snd].
  split; [assumption |]. split; [reflexivity |]. split; [reflexivity |].
  split; assumption.
Qed.

Lemma minimax_alphabeta_same_choice_midgame :
  wf midgame /\ small midgame /\
  fst (alphabeta_decision midgame 1 5 (Some (mkTracer 3 [] 0)))
  = fst (minimax_decision midgame 1 5 (Some (mkTracer 3 [] 0))) /\
  head_value (tracer (snd (alphabeta_decision midgame 1 5 (Some (mkTracer 3 [] 0)))))
  = head_value (tracer (snd (minimax_decision midgame 1 5 (Some (mkTracer 3 [] 0))))).
Proof.
  split; [exact wf_midgame |]. split; [exact small_midgame |].
  destruct (minimax_alphabeta_same_choice midgame 1 5
              (Some (mkTracer 3 [] 0)) (Some (mkTracer 3 [] 0)) wf_midgame small_midgame)
    as (best_val & best_move & _ & _ & _ & Hdecision & Hm & Ha & _).
  split; [assumption |].
  rewrite (Hm _ eq_refl eq_refl), (Ha _ eq_refl eq_refl). reflexivity.
Defined.

(** C2: on every well-formed state that is not terminal and every legal
    column, [drop_disc] with the default player followed by [undo_disc] of
    the returned move both succeed and leave the board, the turn owner and
    the terminal status as they were before the drop. *)
Theorem drop_then_undo_restores (g : ConnectFour) (acts : list Z) (c : Z) :
  wf g -> terminal g = Ok false -> actions g = Ok acts -> In c acts ->
  exists mv g1 g2,
    drop_disc g c None = (Ok mv, g1) /\
    undo_disc g1 mv = (Ok tt, g2) /\
    board g2 = board g /\
    current_player g2 = current_player g /\
    terminal g2 = terminal g /\
    rows g2 = rows g /\ cols g2 = cols g /\ connect g2 = connect g.
Proof.
  intros Hwf Hterm Hacts Hin.
  rewrite (actions_total g Hwf) in Hacts. injection Hacts as <-.
  destruct (drop_from_position g g c Hwf (same_position_refl g) Hin)
    as (r & Hr & Hc & Hcell & _ & Hdrop & _).
  exists (mkMove r c (current_player g)), (dropped g r c (current_player g)),
    (mkGame (rows g) (cols g) (connect g) (board g) (current_player g) None).
  split; [assumption |]. split.
  - apply (undo_disc_dropped g Hwf); try assumption. apply same_position_refl.
  - cbn [board current_player rows cols connect]. repeat split.
    rewrite Hterm. unfold terminal in *. cbn [winner last_move rbind]. cbn [Z.eqb negb].
    destruct (winner g) as [w|e]; [| discriminate Hterm]. cbn [rbind] in Hterm.
    destruct (negb (w =? 0)); [discriminate Hterm |].
    unfold is_full in *. cbn [board cols]. assumption.
Qed.

Lemma drop_then_undo_restores_midgame :
  wf midgame /\ terminal midgame = Ok false /\
  actions midgame = Ok [0; 1; 2; 3; 4; 5; 6] /\ In 3 [0; 1; 2; 3; 4; 5; 6] /\
  exists mv g1 g2,
    drop_disc midgame 3 None = (Ok mv, g1) /\
    undo_disc g1 mv = (Ok tt, g2) /\
    board g2 = board midgame /\
    current_player g2 = current_player midgame /\
    terminal g2 = terminal midgame /\
    rows g2 = rows midgame /\ cols g2 = cols midgame /\ connect g2 = connect midgame.
Proof.
  split; [exact wf_midgame |]. split; [reflexivity |]. split; [reflexivity |].
  split; [simpl; tauto |].
  apply (drop_then_undo_restores midgame [0; 1; 2; 3; 4; 5; 6] 3).
  - exact wf_midgame.
  - reflexivity.
  - reflexivity.
  - simpl. tauto.
Defined.

(** C3: in both searches, [max_value] and [min_value] called on a terminal
    state return the fixed leaf value, [WIN_SCORE] when [ai_player] is the
    winner, [- WIN_SCORE] when the opponent is, 0 when there is no winner
    (full board), whatever the depth limit, the depth, the fuel, the window
    and the trace node; the heuristic is a parameter of the closures and the
    result is the same for every heuristic, so it is not consulted. *)
Theorem terminal_leaf_value
    (heuristic : ConnectFour -> Z -> result Z) (ai depth_limit : Z) (fuel : nat)
    (d alpha beta : Z) (node_id : option Z) (w : world) (winner_ : Z) :
  ai <> 0 ->
  terminal (game w) = Ok true -> winner (game w) = Ok winner_ ->
  exists v,
    fst (Minimax.max_value heuristic ai depth_limit fuel d node_id w) = Ok v /\
    fst (Minimax.min_value heuristic ai depth_limit fuel d node_id w) = Ok v /\
    fst (AlphaBeta.max_value heuristic ai depth_limit fuel d alpha beta node_id w) = Ok v /\
    fst (AlphaBeta.min_value heuristic ai depth_limit fuel d alpha beta node_id w) = Ok v /\
    (winner_ = ai -> v = WIN_SCORE) /\
    (winner_ = - ai -> v = - WIN_SCORE) /\
    (winner_ = 0 -> v = 0).
Proof.
  intros Hai Hterm Hwin.
  exists (if winner_ =? ai then WIN_SCORE else if winner_ =? - ai then - WIN_SCORE else 0).
  assert (forall w1 : world, game w1 = game w ->
            ask (terminal_value ai) w1
            = (Ok (if winner_ =? ai then WIN_SCORE
                   else if winner_ =? - ai then - WIN_SCORE else 0), w1)) as Hleaf.
  { intros w1 E. apply ask_run. unfold terminal_value. rewrite E, Hwin. cbn [rbind].
    destruct (winner_ =? ai); [reflexivity |].
    destruct (winner_ =? - ai); reflexivity. }
  rewrite minimax_max_value_eq, minimax_min_value_eq,
    alphabeta_max_value_eq, alphabeta_min_value_eq.
  repeat (step (count_node_run d w));
    repeat match goal with
      | |- context [bind (ask terminal) _ ?w1] => step (ask_run terminal w1 _ Hterm)
      end.
  rewrite !Hleaf by reflexivity. cbn [fst].
  repeat (split; [reflexivity |]).
  split; [| split]; intros E; subst winner_.
  - rewrite Z.eqb_refl. reflexivity.
  - replace (- ai =? ai) with false by lia. rewrite Z.eqb_refl. reflexivity.
  - replace (0 =? ai) with false by lia. replace (0 =? - ai) with false by lia.
    reflexivity.
Qed.

Lemma terminal_leaf_value_won_game :
  1 <> 0 /\
  terminal (game (start won_game None)) = Ok true /\
  winner (game (start won_game None)) = Ok 1 /\
  exists v,
    fst (Minimax.max_value evaluate 1 5 4 1 None (start won_game None)) = Ok v /\
    fst (Minimax.min_value evaluate 1 5 4 1 None (start won_game None)) = Ok v /\
    fst (AlphaBeta.max_value evaluate 1 5 4 1 (- INF) INF None (start won_game None)) = Ok v /\
    fst (AlphaBeta.min_value evaluate 1 5 4 1 (- INF) INF None (start won_game None)) = Ok v /\
    (1 = 1 -> v = WIN_SCORE) /\
    (1 = - (1) -> v = - WIN_SCORE) /\
    (1 = 0 -> v = 0).
Proof.
  split; [discriminate |]. split; [reflexivity |]. split; [reflexivity |].
  apply (terminal_leaf_value evaluate 1 5 4 1 (- INF) INF None (start won_game None) 1).
  - discriminate.
  - reflexivity.
  - reflexivity.
Defined.

(** C4: on every well-formed state that is not terminal (so not full
    either) and for every perspective player other than 0, [evaluate]
    returns the score the specification words: 6 per own disc minus 6 per
    opposing disc in the middle column, plus, over every window of four
    cells in the four directions, the points of the weighting table
    (100000, 200, 30 for four, three with one empty, two with two empties of
    the perspective player; -100000, -220, -35 for the opponent; 0 for a
    window holding discs of both, and for any other window). *)
Theorem evaluate_is_weighted_sum (g : ConnectFour) (player : Z) :
  wf g -> terminal g = Ok false -> player <> 0 ->
  evaluate g player = Ok (evaluate_spec g player).
Proof.
  intros Hwf Hterm Hplayer.
  destruct (evaluate_total g Hwf player) as (w & Hw & E). rewrite E.
  unfold terminal in Hterm. rewrite Hw in Hterm. cbn [rbind] in Hterm.
  destruct (w =? 0) eqn:E0; [| discriminate Hterm]. cbn [negb] in Hterm.
  rewrite (is_full_total g Hwf) in Hterm. injection Hterm as ->.
  apply Z.eqb_eq in E0. subst w.
  replace (0 =? player) with false by lia. replace (0 =? - player) with false by lia.
  rewrite (evaluate_spec_heuristic_score g Hwf player Hplayer). reflexivity.
Qed.

Lemma evaluate_is_weighted_sum_midgame :
  wf midgame /\ terminal midgame = Ok false /\ 1 <> 0 /\
  evaluate midgame 1 = Ok (evaluate_spec midgame 1).
Proof.
  split; [exact wf_midgame |]. split; [reflexivity |]. split; [discriminate |].
  apply (evaluate_is_weighted_sum midgame 1).
  - exact wf_midgame.
  - reflexivity.
  - discriminate.
Defined.

(** C5, as the specification states it, fails on a board with win length 5:
    every window [evaluate] scores has four cells, not five, and the score
    is not the one windows of five cells give. *)
Lemma evaluate_windows_not_connect :
  wf connect5 /\ connect connect5 = 5 /\
  ~ Forall (fun w => Z.of_nat (length w) = connect connect5) (scored_windows connect5) /\
  evaluate connect5 1 = Ok (-5) /\
  connect_window_score connect5 1 = 0 /\
  evaluate connect5 1 <> Ok (connect_window_score connect5 1).
Proof.
  split; [exact wf_connect5 |]. split; [reflexivity |]. split.
  - intros H. apply Forall_inv in H. vm_compute in H. discriminate H.
  - split; [vm_compute; reflexivity |]. split; [vm_compute; reflexivity |].
    vm_compute. intros H. discriminate H.
Qed.

(** C5, amended: on every well-formed state, whatever its win length
    [connect], the heuristic part of [evaluate] is the middle-column term plus
    the scores of the windows of [scored_windows], and every one of these
    windows has exactly four cells. *)
Theorem evaluate_windows_have_four_cells (g : ConnectFour) (player : Z) :
  wf g ->
  (exists w, winner g = Ok w /\
     evaluate g player
     = Ok (if w =? player then WIN_SCORE
           else if w =? - player then - WIN_SCORE
           else if top_row_taken g then 0
           else 6 * center_delta g player
                + sum_over (scored_windows g) (score_window player))) /\
  Forall (fun w => length w = 4%nat) (scored_windows g).
Proof.
  intros Hwf. split.
  - apply (evaluate_total g Hwf player).
  - apply scored_windows_lengths.
Qed.

Lemma evaluate_windows_have_four_cells_connect5 :
  wf connect5 /\
  (exists w, winner connect5 = Ok w /\
     evaluate connect5 1
     = Ok (if w =? 1 then WIN_SCORE
           else if w =? - (1) then - WIN_SCORE
           else if top_row_taken connect5 then 0
           else 6 * center_delta connect5 1
                + sum_over (scored_windows connect5) (score_window 1))) /\
  Forall (fun w => length w = 4%nat) (scored_windows connect5).
Proof.
  split; [exact wf_connect5 |].
  apply (evaluate_windows_have_four_cells connect5 1 wf_connect5).
Defined.

(** C6: on every well-formed state, for every player, depth limit and
    tracers, alpha-beta counts at most as many calls as minimax, and
    strictly fewer as soon as its run adds a pruning placeholder to its
    trace. *)
Theorem alphabeta_expands_no_more
    (g : ConnectFour) (ai depth_limit : Z) (tm ta : option SearchTracer) :
  wf g ->
  nodes_expanded (metrics (snd (alphabeta_decision g ai depth_limit ta)))
  <= nodes_expanded (metrics (snd (minimax_decision g ai depth_limit tm))) /\
  (pruned_count ta < pruned_count (tracer (snd (alphabeta_decision g ai depth_limit ta))) ->
   nodes_expanded (metrics (snd (alphabeta_decision g ai depth_limit ta)))
   < nodes_expanded (metrics (snd (minimax_decision g ai depth_limit tm)))).
Proof.
  intros Hwf.
  destruct (minimax_search_on g ai depth_limit tm Hwf) as (wm & _ & Hmd & _ & _ & Hnm).
  destruct (alphabeta_search_on g ai depth_limit ta Hwf)
    as (wa & _ & Had & _ & _ & Hna & Hpa).
  rewrite Hmd, Had. cbn [snd]. unfold nodes_of, pruned_of in *. lia.
Qed.

Lemma alphabeta_expands_no_more_midgame :
  wf midgame /\
  nodes_expanded (metrics (snd (alphabeta_decision midgame 1 3 (Some (mkTracer 3 [] 0)))))
  <= nodes_expanded (metrics (snd (minimax_decision midgame 1 3 None))) /\
  (pruned_count (Some (mkTracer 3 [] 0))
   < pruned_count (tracer (snd (alphabeta_decision midgame 1 3 (Some (mkTracer 3 [] 0))))) ->
   nodes_expanded (metrics (snd (alphabeta_decision midgame 1 3 (Some (mkTracer 3 [] 0)))))
   < nodes_expanded (metrics (snd (minimax_decision midgame 1 3 None)))).
Proof.
  split; [exact wf_midgame |].
  apply (alphabeta_expands_no_more midgame 1 3 None (Some (mkTracer 3 [] 0)) wf_midgame).
Defined.

(** C7: on every well-formed state, [drop_disc] fails exactly when the
    column is out of range or its top cell is taken, and then with a
    [ValueError] and the state untouched; otherwise the disc lands on the
    lowest empty row of the column, no other cell changes, the move becomes
    the last-move anchor, and the turn owner flips exactly when the acting
    player is the turn owner of before the call. *)
Theorem drop_disc_spec (g : ConnectFour) (c : Z) (player_ : option Z) :
  wf g ->
  let p := acting g player_ in
  let illegal := ~ (0 <= c < cols g) \/ cell_at (board g) 0 c <> 0 in
  ((exists e, fst (drop_disc g c player_) = Raise e) <-> illegal) /\
  (illegal -> exists msg, drop_disc g c player_ = (Raise (ValueError msg), g)) /\
  (~ illegal ->
   exists r g',
     drop_disc g c player_ = (Ok (mkMove r c p), g') /\
     0 <= r < rows g /\
     cell_at (board g) r c = 0 /\
     (forall r', r < r' < rows g -> cell_at (board g) r' c <> 0) /\
     cell_at (board g') r c = p /\
     (forall r' c', 0 <= r' < rows g -> 0 <= c' < cols g -> (r', c') <> (r, c) ->
        cell_at (board g') r' c' = cell_at (board g) r' c') /\
     last_move g' = Some (mkMove r c p) /\
     current_player g'
     = (if p =? current_player g then - current_player g else current_player g) /\
     rows g' = rows g /\ cols g' = cols g /\ connect g' = connect g).
Proof.
  intros Hwf p illegal.
  assert (illegal -> exists msg, drop_disc g c player_ = (Raise (ValueError msg), g))
    as Hfail.
  { intros Hill. apply (drop_disc_illegal g Hwf). unfold illegal in Hill. tauto. }
  assert (~ illegal ->
          exists r,
            landing_row g c = Some r /\
            drop_disc g c player_ = (Ok (mkMove r c p), dropped g r c p)) as Hok.
  { intros Hleg. apply (drop_disc_legal g Hwf); unfold illegal in Hleg; lia. }
  split; [| split].
  - split.
    + intros [e He]. destruct (Z.eq_dec (cell_at (board g) 0 c) 0) as [E0 | E0];
        [| right; assumption].
      destruct (Z_lt_ge_dec c 0) as [Hlo | Hlo]; [left; lia |].
      destruct (Z_lt_ge_dec c (cols g)) as [Hhi | Hhi]; [| left; lia].
      exfalso. destruct Hok as (r & _ & Hdrop); [unfold illegal; lia |].
      rewrite Hdrop in He. discriminate He.
    + intros Hill. destruct (Hfail Hill) as [msg ->]. exists (ValueError msg). reflexivity.
  - exact Hfail.
  - intros Hleg. destruct (Hok Hleg) as (r & Hland & Hdrop).
    destruct (landing_row_spec g Hwf c r Hland) as (Hr & Hcell & Hlow).
    assert (0 <= c < cols g) as Hc by (unfold illegal in Hleg; lia).
    destruct Hwf as (_ & _ & Hs).
    exists r, (dropped g r c p).
    split; [assumption |]. split; [assumption |]. split; [assumption |].
    split; [assumption |]. cbn [dropped board last_move current_player rows cols connect].
    split; [apply (cell_at_put_same _ _ _ Hs); assumption |].
    split; [| repeat split].
    intros r' c' Hr' Hc' Hne. apply cell_at_put_other; try lia. assumption.
Qed.

Lemma drop_disc_spec_midgame :
  wf midgame /\
  let p := acting midgame None in
  let illegal := ~ (0 <= 3 < cols midgame) \/ cell_at (board midgame) 0 3 <> 0 in
  ((exists e, fst (drop_disc midgame 3 None) = Raise e) <-> illegal) /\
  (illegal -> exists msg, drop_disc midgame 3 None = (Raise (ValueError msg), midgame)) /\
  (~ illegal ->
   exists r g',
     drop_disc midgame 3 None = (Ok (mkMove r 3 p), g') /\
     0 <= r < rows midgame /\
     cell_at (board midgame) r 3 = 0 /\
     (forall r', r < r' < rows midgame -> cell_at (board midgame) r' 3 <> 0) /\
     cell_at (board g') r 3 = p /\
     (forall r' c', 0 <= r' < rows midgame -> 0 <= c' < cols midgame ->
        (r', c') <> (r, 3) ->
        cell_at (board g') r' c' = cell_at (board midgame) r' c') /\
     last_move g' = Some (mkMove r 3 p) /\
     current_player g'
     = (if p =? current_player midgame
        then - current_player midgame else current_player midgame) /\
     rows g' = rows midgame /\ cols g' = cols midgame /\ connect g' = connect midgame).
Proof.
  split; [exact wf_midgame |].
  apply (drop_disc_spec midgame 3 None wf_midgame).
Defined.

(** C8, as the specification states it, fails on a state that has a last
    move: after one disc in column 3, both searches return with the
    last-move anchor cleared, so the state is not the state of before the
    call. *)
Lemma search_clears_last_move :
  actions one_disc = Ok [0; 1; 2; 3; 4; 5; 6] /\
  last_move one_disc = Some (mkMove 5 3 1) /\
  fst (minimax_decision one_disc (-1) 1 None) = Ok 3 /\
  last_move (game (snd (minimax_decision one_disc (-1) 1 None))) = None /\
  game (snd (minimax_decision one_disc (-1) 1 None)) <> one_disc /\
  fst (alphabeta_decision one_disc (-1) 1 None) = Ok 3 /\
  last_move (game (snd (alphabeta_decision one_disc (-1) 1 None))) = None /\
  game (snd (alphabeta_decision one_disc (-1) 1 None)) <> one_disc.
Proof.
  repeat split; try reflexivity; vm_compute; intros H; discriminate H.
Qed.

(** C8, amended: on every well-formed state with a legal move, when
    [minimax_decision] or [alphabeta_decision] has run, the board, the turn
    owner and the dimensions are what they were before the call, and the
    last-move anchor is cleared. *)
Theorem search_restores_position
    (g : ConnectFour) (ai depth_limit : Z) (t : option SearchTracer) (acts : list Z) :
  wf g -> actions g = Ok acts -> acts <> [] ->
  let after_minimax := game (snd (minimax_decision g ai depth_limit t)) in
  let after_alphabeta := game (snd (alphabeta_decision g ai depth_limit t)) in
  after_minimax = with_last_move g None /\
  after_alphabeta = with_last_move g None /\
  board after_minimax = board g /\ current_player after_minimax = current_player g /\
  last_move after_minimax = None /\
  board after_alphabeta = board g /\ current_player after_alphabeta = current_player g /\
  last_move after_alphabeta = None.
Proof.
  intros Hwf Hacts Hne.
  rewrite (actions_total g Hwf) in Hacts. injection Hacts as <-.
  destruct (minimax_search_on g ai depth_limit t Hwf) as (wm & _ & Hmd & _ & Hgm & _).
  destruct (alphabeta_search_on g ai depth_limit t Hwf) as (wa & _ & Had & _ & Hga & _).
  cbv zeta. rewrite Hmd, Had. cbn [snd]. rewrite (Hgm Hne), (Hga Hne).
  unfold forget. repeat split.
Qed.

Lemma search_restores_position_one_disc :
  wf one_disc /\ actions one_disc = Ok [0; 1; 2; 3; 4; 5; 6] /\
  [0; 1; 2; 3; 4; 5; 6] <> [] /\
  game (snd (minimax_decision one_disc (-1) 2 None)) = with_last_move one_disc None /\
  game (snd (alphabeta_decision one_disc (-1) 2 None)) = with_last_move one_disc None.
Proof.
  split; [exact wf_one_disc |]. split; [reflexivity |]. split; [discriminate |].
  destruct (search_restores_position one_disc (-1) 2 None [0; 1; 2; 3; 4; 5; 6]
              wf_one_disc eq_refl) as (Hm & Ha & _).
  - discriminate.
  - split; assumption.
Defined.

(** C9: on every well-formed state of a board small enough for the scores to
    stay inside (-10^18, 10^18) whose list of legal moves is not empty, for
    every player, depth limit and tracers, [minimax_decision] and
    [alphabeta_decision] return a column of that list, and the top cell of
    the column is empty. *)
Theorem decision_is_legal
    (g : ConnectFour) (ai depth_limit : Z) (tm ta : option SearchTracer) (acts : list Z) :
  wf g -> small g -> actions g = Ok acts -> acts <> [] ->
  exists c,
    fst (minimax_decision g ai depth_limit tm) = Ok c /\
    fst (alphabeta_decision g ai depth_limit ta) = Ok c /\
    In c acts /\
    0 <= c < cols g /\
    get_cell (board g) 0 c = Ok 0.
Proof.
  intros Hwf Hsmall Hacts Hne.
  rewrite (actions_total g Hwf) in Hacts. injection Hacts as <-.
  destruct (minimax_search_on g ai depth_limit tm Hwf) as (wm & _ & Hmd & _).
  destruct (alphabeta_search_on g ai depth_limit ta Hwf) as (wa & _ & Had & _).
  pose proof (ab_root_mm_root evaluate ai (evaluate_static_inside ai) depth_limit g
                Hwf Hsmall) as Hroot.
  pose proof (mm_root_first_best evaluate ai (evaluate_static_inside ai) depth_limit g
                Hwf Hsmall Hne) as Hfirst.
  cbv zeta in Hfirst. destruct Hfirst as (pre & a & post & Hsplit & Hbest & _).
  exists a. rewrite Hmd, Had, Hroot, Hbest. cbn [fst snd].
  split; [reflexivity |]. split; [reflexivity |].
  assert (In a (open_cols g)) as Hin by (rewrite Hsplit; apply in_elt).
  split; [assumption |].
  apply (in_open_cols g) in Hin. destruct Hin as [Ha Htop].
  split; [assumption |].
  rewrite (cell_total g Hwf) by (destruct Hwf; lia). rewrite Htop. reflexivity.
Qed.

Lemma decision_is_legal_midgame :
  wf midgame /\ small midgame /\ actions midgame = Ok [0; 1; 2; 3; 4; 5; 6] /\
  [0; 1; 2; 3; 4; 5; 6] <> [] /\
  exists c,
    fst (minimax_decision midgame 1 5 None) = Ok c /\
    fst (alphabeta_decision midgame 1 5 None) = Ok c /\
    In c [0; 1; 2; 3; 4; 5; 6] /\
    0 <= c < cols midgame /\
    get_cell (board midgame) 0 c = Ok 0.
Proof.
  split; [exact wf_midgame |]. split; [exact small_midgame |].
  split; [reflexivity |]. split; [discriminate |].
  apply (decision_is_legal midgame 1 5 None None [0; 1; 2; 3; 4; 5; 6]
           wf_midgame small_midgame eq_refl).
  discriminate.
Defined.

(** C10, as the specification states it, fails when the disc taken back is
    not the top disc of its column, which [undo_disc] does not ask for.  On
    the 2 by 2 board filled by the drops 0, 1, 0, 1,
    [undo_disc(MoveResult(1, 0, 1))] returns and empties the bottom cell of
    column 0; [terminal] then answers [True] with no winner, although the
    board is not completely full. *)
Lemma undo_below_full_top_row :
  wf drawn_board /\ gravity drawn_board /\
  board drawn_board = [[1; -1]; [1; -1]] /\
  undo_disc drawn_board (mkMove 1 0 1) = (Ok tt, undermined_board) /\
  board undermined_board = [[1; -1]; [0; -1]] /\
  last_move undermined_board = None /\
  winner undermined_board = Ok 0 /\
  terminal undermined_board = Ok true /\
  cell_at (board undermined_board) 1 0 = 0 /\
  ~ (forall r c, 0 <= r < rows undermined_board -> 0 <= c < cols undermined_board ->
       cell_at (board undermined_board) r c <> 0).
Proof.
  split; [check_wf |].
  split; [apply gravity_check_sound; vm_compute; reflexivity |].
  split; [vm_compute; reflexivity |]. split; [vm_compute; reflexivity |].
  split; [vm_compute; reflexivity |]. split; [vm_compute; reflexivity |].
  split; [vm_compute; reflexivity |]. split; [vm_compute; reflexivity |].
  split; [vm_compute; reflexivity |].
  intros H.
  apply (H 1 0); [vm_compute; split; [discriminate | reflexivity] ..
                 | vm_compute; reflexivity].
Qed.

(** C10, amended: whenever [undo_disc] returns, the last-move anchor of the
    state is cleared, not set back to the move before: [winner] answers 0
    whatever discs are on the board, and [terminal] answers what [is_full]
    answers, which on a well-formed state is whether the top row has no
    empty cell.  The cell of the move is empty afterwards.  When the undo
    leaves no disc floating over an empty cell, a top row without an empty
    cell is a board without an empty cell, so [terminal] is true only on a
    completely full board, and right after the undo it is false. *)
Theorem undo_clears_last_move (g g' : ConnectFour) (mv : MoveResult) :
  undo_disc g mv = (Ok tt, g') ->
  last_move g' = None /\ winner g' = Ok 0 /\ terminal g' = is_full g' /\
  (wf g ->
   wf g' /\
   (terminal g' = Ok true <-> forall c, 0 <= c < cols g' -> cell_at (board g') 0 c <> 0) /\
   cell_at (board g') (wrap (rows g) (row mv)) (wrap (cols g) (col mv)) = 0 /\
   (gravity g' ->
    (terminal g' = Ok true <->
     forall r c, 0 <= r < rows g' -> 0 <= c < cols g' -> cell_at (board g') r c <> 0) /\
    terminal g' = Ok false)).
Proof.
  intros H.
  assert (last_move g' = None) as Hlast.
  { unfold undo_disc in H.
    destruct (get_cell (board g) (row mv) (col mv)) as [v|e]; [| discriminate H].
    destruct (negb (v =? player mv)); [discriminate H |].
    destruct (set_cell (board g) (row mv) (col mv) 0) as [b'|e]; [| discriminate H].
    injection H as <-. reflexivity. }
  assert (terminal g' = is_full g') as Hterm
    by (unfold terminal, winner; rewrite Hlast; reflexivity).
  split; [assumption |]. split; [unfold winner; rewrite Hlast; reflexivity |].
  split; [assumption |].
  intros Hwf. pose proof (wf_undo_disc g g' mv (Ok tt) Hwf H) as Hwf'.
  split; [assumption |].
  rewrite Hterm, (is_full_total g' Hwf').
  assert (forall b : bool, Ok b = Ok true <-> b = true) as Hok.
  { intros b. split; intros E; [injection E as E; assumption | rewrite E; reflexivity]. }
  split; [rewrite Hok; apply top_row_taken_spec |].
  destruct (undo_disc_ok_inv g mv g' Hwf H) as (Hr & Hc & _ & Erows & Ecols & Eboard).
  assert (cell_at (board g') (wrap (rows g) (row mv)) (wrap (cols g) (col mv)) = 0) as Hcell.
  { destruct Hwf as (_ & _ & Hs). rewrite Eboard.
    apply (cell_at_put_same _ _ _ Hs); assumption. }
  split; [assumption |].
  intros Hgrav. pose proof (full_without_floating g' Hwf' Hgrav) as Hall.
  split; [rewrite Hok; assumption |].
  destruct (top_row_taken g') eqn:E; [| reflexivity].
  exfalso. apply (proj1 Hall eq_refl (wrap (rows g) (row mv)) (wrap (cols g) (col mv)));
    [rewrite Erows | rewrite Ecols |]; assumption.
Qed.

(** After the win of player 1 and one more disc, that disc is taken back:
    the four discs of player 1 stay on the bottom row, no disc floats, there
    is no winner any more and the position is not terminal. *)
Lemma undo_clears_last_move_past_win :
  undo_disc past_win (mkMove 4 3 (-1)) = (Ok tt, snd (undo_disc past_win (mkMove 4 3 (-1)))) /\
  wf past_win /\
  gravity (snd (undo_disc past_win (mkMove 4 3 (-1)))) /\
  map (fun c => cell_at (board (snd (undo_disc past_win (mkMove 4 3 (-1))))) 5 c) [0; 1; 2; 3]
  = [1; 1; 1; 1] /\
  last_move (snd (undo_disc past_win (mkMove 4 3 (-1)))) = None /\
  winner (snd (undo_disc past_win (mkMove 4 3 (-1)))) = Ok 0 /\
  terminal (snd (undo_disc past_win (mkMove 4 3 (-1))))
  = is_full (snd (undo_disc past_win (mkMove 4 3 (-1)))) /\
  cell_at (board (snd (undo_disc past_win (mkMove 4 3 (-1))))) 4 3 = 0 /\
  terminal (snd (undo_disc past_win (mkMove 4 3 (-1)))) = Ok false.
Proof.
  assert (undo_disc past_win (mkMove 4 3 (-1))
          = (Ok tt, snd (undo_disc past_win (mkMove 4 3 (-1))))) as Hundo
    by (vm_compute; reflexivity).
  assert (wf past_win) as Hwf by check_wf.
  assert (gravity (snd (undo_disc past_win (mkMove 4 3 (-1))))) as Hgrav
    by (apply gravity_check_sound; vm_compute; reflexivity).
  split; [exact Hundo |]. split; [exact Hwf |]. split; [exact Hgrav |].
  split; [vm_compute; reflexivity |].
  destruct (undo_clears_last_move past_win _ (mkMove 4 3 (-1)) Hundo)
    as (Hlast & Hwin & Hterm & Hmore).
  destruct (Hmore Hwf) as (_ & _ & Hcell & Hfull).
  destruct (Hfull Hgrav) as (_ & Hfalse).
  split; [assumption |]. split; [assumption |]. split; [assumption |].
  split; [exact Hcell | exact Hfalse].
Defined.

(** * Further properties of the state model *)

Lemma nth_map_inside {A B} (f : A -> B) (l : list A) (n : nat) (d : A) (d' : B) :
  (n < length l)%nat -> nth n (map f l) d' = f (nth n l d).
Proof.
  revert n. induction l as [|x l IH]; intros [|n] H; simpl in *; try lia; auto.
  apply IH. lia.
Qed.

Lemma cell_at_new_board (nr nc r c : Z) :
  0 <= r < nr -> 0 <= c < nc ->
  cell_at (map (fun _ => map (fun _ => 0) (range nc)) (range nr)) r c = 0.
Proof.
  intros Hr Hc. unfold cell_at.
  rewrite (nth_map_inside _ _ _ 0) by (pose proof (length_range nr); lia).
  rewrite (nth_map_inside _ _ _ 0) by (pose proof (length_range nc); lia).
  reflexivity.
Qed.



(** X2: no method of the state model changes the shape of the board:
    whatever [drop_disc], [undo_disc] and [reset] are called with and however
    they end, a well-formed state stays well-formed. *)
Theorem methods_keep_shape (g : ConnectFour) :
  wf g ->
  (forall c player_, wf (snd (drop_disc g c player_))) /\
  (forall mv, wf (snd (undo_disc g mv))) /\
  wf (snd (reset g)).
Proof.
  intros Hwf. split; [| split].
  - intros c p. destruct (drop_disc g c p) as [r g'] eqn:E.
    apply (wf_drop_disc g g' c p r Hwf E).
  - intros mv. destruct (undo_disc g mv) as [r g'] eqn:E.
    apply (wf_undo_disc g g' mv r Hwf E).
  - destruct Hwf as (Hr & Hc & Hs). unfold reset.
    assert (forall cells b, shape (rows g) (cols g) b ->
              shape (rows g) (cols g) (snd (clear_cells b cells))) as Hclear.
    { induction cells as [|[r c] cells IH]; intros b Hb; cbn [clear_cells]; [exact Hb |].
      destruct (set_cell b r c 0) as [b'|e] eqn:Eset; [| exact Hb].
      apply IH. apply (set_cell_shape _ _ _ _ _ _ _ Hb Eset). }
    specialize (Hclear (grid_cells (rows g) (cols g)) (board g) Hs).
    destruct (clear_cells (board g) (grid_cells (rows g) (cols g))) as [[u|e] b'];
      cbn [snd] in *; unfold wf; cbn [rows cols board with_board]; auto.
Qed.

Lemma methods_keep_shape_midgame :
  wf midgame /\ wf (snd (drop_disc midgame 9 None)) /\
  wf (snd (undo_disc midgame (mkMove (-1) 3 1))) /\ wf (snd (reset midgame)).
Proof.
  split; [exact wf_midgame |].
  destruct (methods_keep_shape midgame wf_midgame) as (Hdrop & Hundo & Hreset).
  split; [apply Hdrop |]. split; [apply Hundo | exact Hreset].
Defined.

(** X3: on a well-formed state [actions] returns exactly the columns whose
    top cell is empty, each once and in ascending order, and the list is
    empty exactly when [is_full] answers true. *)
Theorem actions_spec (g : ConnectFour) :
  wf g ->
  exists acts,
    actions g = Ok acts /\
    (forall c, In c acts <-> 0 <= c < cols g /\ get_cell (board g) 0 c = Ok 0) /\
    StronglySorted Z.lt acts /\
    (is_full g = Ok true <-> acts = []) /\
    (is_full g = Ok false <-> acts <> []).
Proof.
  intros Hwf. exists (open_cols g).
  split; [apply actions_total; assumption |]. split.
  - intros c. rewrite (in_open_cols g). split.
    + intros [Hc Htop]. split; [assumption |].
      rewrite (cell_total g Hwf) by (destruct Hwf; lia). rewrite Htop. reflexivity.
    + intros [Hc Htop]. split; [assumption |].
      rewrite (cell_total g Hwf) in Htop by (destruct Hwf; lia).
      injection Htop as Htop. assumption.
  - split; [apply open_cols_ascending |].
    rewrite (is_full_total g Hwf).
    assert (top_row_taken g = true <-> open_cols g = []) as Hfull.
    { split.
      - intros Htaken. destruct (open_cols g) as [|c l] eqn:E; [reflexivity |].
        assert (In c (open_cols g)) as Hin by (rewrite E; left; reflexivity).
        apply (in_open_cols g) in Hin. destruct Hin as [Hc Htop].
        apply (top_row_taken_spec g) in Hc; [contradiction | assumption].
      - intros Hnil. destruct (top_row_taken g) eqn:E; [reflexivity |].
        apply (top_row_taken_false g) in E. contradiction. }
    split.
    + rewrite <- Hfull. split; intros H; [injection H as H; assumption | rewrite H; reflexivity].
    + split.
      * intros H Hnil. apply Hfull in Hnil. rewrite Hnil in H. discriminate H.
      * intros Hne. destruct (top_row_taken g) eqn:E; [| reflexivity].
        exfalso. apply Hne, Hfull. reflexivity.
Qed.

Lemma actions_spec_midgame :
  wf midgame /\
  exists acts,
    actions midgame = Ok acts /\
    (forall c, In c acts <-> 0 <= c < cols midgame /\ get_cell (board midgame) 0 c = Ok 0) /\
    StronglySorted Z.lt acts /\
    (is_full midgame = Ok true <-> acts = []) /\
    (is_full midgame = Ok false <-> acts <> []).
Proof.
  split; [exact wf_midgame |]. apply (actions_spec midgame wf_midgame).
Defined.

(** X4: [undo_disc] on a well-formed state reads its coordinates the way
    Python indexes a list, a negative one counting from the end.  Outside
    [-rows, rows) x [-cols, cols) it raises [IndexError]; on a cell that does
    not hold the player of the record it raises [ValueError]; both leave the
    state untouched.  Otherwise it empties that cell and no other, makes the
    player of the record the turn owner and clears the last-move anchor. *)
Theorem undo_disc_spec (g : ConnectFour) (mv : MoveResult) :
  wf g ->
  let on_board := - rows g <= row mv < rows g /\ - cols g <= col mv < cols g in
  let r := wrap (rows g) (row mv) in
  let c := wrap (cols g) (col mv) in
  (~ on_board -> undo_disc g mv = (Raise IndexError, g)) /\
  (on_board -> cell_at (board g) r c <> player mv ->
   exists msg, undo_disc g mv = (Raise (ValueError msg), g)) /\
  (on_board -> cell_at (board g) r c = player mv ->
   exists g',
     undo_disc g mv = (Ok tt, g') /\
     cell_at (board g') r c = 0 /\
     (forall r' c', 0 <= r' < rows g -> 0 <= c' < cols g -> (r', c') <> (r, c) ->
        cell_at (board g') r' c' = cell_at (board g) r' c') /\
     current_player g' = player mv /\ last_move g' = None /\
     rows g' = rows g /\ cols g' = cols g /\ connect g' = connect g).
Proof.
  intros Hwf on_board r c. split; [| split].
  - intros Hout. unfold undo_disc. rewrite (get_cell_outside g Hwf) by exact Hout.
    reflexivity.
  - intros [Hr Hc] Hne.
    destruct (get_cell_wrapped g Hwf _ _ Hr Hc) as (Eget & _).
    unfold undo_disc. rewrite Eget. fold r c.
    replace (cell_at (board g) r c =? player mv) with false by lia. cbn [negb]. eauto.
  - intros [Hr Hc] Heq.
    destruct (get_cell_wrapped g Hwf _ _ Hr Hc) as (Eget & Hr' & Hc').
    pose proof (set_cell_wrapped g Hwf _ _ 0 Hr Hc) as Eset.
    fold r in Hr', Eset. fold c in Hc', Eset. destruct Hwf as (_ & _ & Hs).
    exists (with_current_player
              (with_last_move (with_board g (put (board g) r c 0)) None) (player mv)).
    split.
    + unfold undo_disc. rewrite Eget. fold r c. rewrite Heq, Z.eqb_refl. cbn [negb].
      rewrite Eset. reflexivity.
    + cbn [with_current_player with_last_move with_board board current_player
             last_move rows cols connect].
      split; [apply (cell_at_put_same _ _ _ Hs); assumption |].
      split; [| repeat split].
      intros r' c' Hr'' Hc'' Hne. apply cell_at_put_other; try lia. assumption.
Qed.

Lemma undo_disc_spec_midgame :
  wf midgame /\
  undo_disc midgame (mkMove 6 0 1) = (Raise IndexError, midgame) /\
  (exists msg, undo_disc midgame (mkMove (-1) 1 (-1)) = (Raise (ValueError msg), midgame)) /\
  exists g',
    undo_disc midgame (mkMove (-1) (-2) (-1)) = (Ok tt, g') /\
    cell_at (board g') 5 5 = 0 /\ current_player g' = -1 /\ last_move g' = None.
Proof.
  split; [exact wf_midgame |].
  split; [| split].
  - apply (undo_disc_spec midgame (mkMove 6 0 1) wf_midgame). vm_compute. intuition discriminate.
  - apply (undo_disc_spec midgame (mkMove (-1) 1 (-1)) wf_midgame).
    + vm_compute. intuition discriminate.
    + vm_compute. discriminate.
  - destruct (undo_disc_spec midgame (mkMove (-1) (-2) (-1)) wf_midgame) as (_ & _ & H).
    destruct H as (g' & Hundo & Hcell & _ & Hcp & Hlast & _).
    + vm_compute. intuition discriminate.
    + vm_compute. reflexivity.
    + exists g'. repeat split; assumption.
Defined.

(** X5: a drop with an explicit player followed by the undo of its move
    gives the board back, but hands the turn to the player of the move: the
    turn owner of before comes back only when it was that player who
    moved. *)
Theorem drop_then_undo_forced (g : ConnectFour) (c q : Z) :
  wf g -> 0 <= c < cols g -> cell_at (board g) 0 c = 0 ->
  exists mv g1 g2,
    drop_disc g c (Some q) = (Ok mv, g1) /\
    player mv = q /\
    current_player g1 = (if q =? current_player g then - current_player g
                         else current_player g) /\
    undo_disc g1 mv = (Ok tt, g2) /\
    board g2 = board g /\ current_player g2 = q /\ last_move g2 = None /\
    (current_player g2 = current_player g <-> q = current_player g).
Proof.
  intros Hwf Hc Htop.
  destruct (drop_disc_legal g Hwf c (Some q) Hc Htop) as (r & Hland & Hdrop).
  destruct (landing_row_spec g Hwf c r Hland) as (Hr & Hcell & _).
  cbn [acting] in Hdrop.
  exists (mkMove r c q), (dropped g r c q),
    (mkGame (rows g) (cols g) (connect g) (board g) q None).
  split; [exact Hdrop |]. split; [reflexivity |]. split; [reflexivity |].
  split.
  - apply (undo_disc_dropped g Hwf); try assumption. apply same_position_refl.
  - cbn [board current_player last_move]. repeat split; auto.
Qed.

Lemma drop_then_undo_forced_midgame :
  wf midgame /\ 0 <= 0 < cols midgame /\ cell_at (board midgame) 0 0 = 0 /\
  exists mv g1 g2,
    drop_disc midgame 0 (Some (-1)) = (Ok mv, g1) /\
    undo_disc g1 mv = (Ok tt, g2) /\
    board g2 = board midgame /\ current_player g2 = -1 /\ current_player midgame = 1.
Proof.
  split; [exact wf_midgame |]. split; [vm_compute; intuition discriminate |].
  split; [vm_compute; reflexivity |].
  destruct (drop_then_undo_forced midgame 0 (-1) wf_midgame) as
    (mv & g1 & g2 & Hdrop & _ & _ & Hundo & Hboard & Hcp & _).
  - vm_compute. intuition discriminate.
  - vm_compute. reflexivity.
  - exists mv, g1, g2. repeat split; assumption.
Defined.

(** ** Gravity *)

Lemma gravity_after_drop (g : ConnectFour) (c : Z) (player_ : option Z) :
  wf g -> gravity g -> gravity (snd (drop_disc g c player_)).
Proof.
  intros Hwf Hgrav.
  destruct ((0 <=? c) && (c <? cols g) && (cell_at (board g) 0 c =? 0)) eqn:Elegal.
  - apply andb_prop in Elegal. destruct Elegal as (Ecol & Etop).
    apply Z.eqb_eq in Etop.
    assert (0 <= c < cols g) as Hc by lia.
    destruct (drop_disc_legal g Hwf c player_ Hc Etop) as (r & Hland & Hdrop).
    destruct (landing_row_spec g Hwf c r Hland) as (Hr & Hcell & Hlow).
    rewrite Hdrop. cbn [snd]. destruct Hwf as (_ & _ & Hs).
    intros r1 c1 r2 Hr1 Hc1 Hr2. cbn [dropped board rows cols] in *.
    assert (forall r' c', 0 <= r' < rows g -> 0 <= c' < cols g ->
              (r', c') <> (r, c) ->
              cell_at (put (board g) r c (acting g player_)) r' c'
              = cell_at (board g) r' c') as Hold.
    { intros r' c' Hr' Hc' Hne. apply cell_at_put_other; try lia; assumption. }
    intros Hne.
    destruct (Z.eq_dec r1 r) as [-> | Nr1]; [destruct (Z.eq_dec c1 c) as [-> | Nc1] |].
    + rewrite Hold; [apply Hlow; lia | lia | lia | intros Ep; injection Ep; lia].
    + rewrite Hold in Hne; [| lia | lia | intros Ep; injection Ep; lia].
      rewrite Hold; [| lia | lia | intros Ep; injection Ep; lia].
      apply (Hgrav r c1 r2); assumption.
    + rewrite Hold in Hne; [| lia | lia | intros Ep; injection Ep; lia].
      pose proof (Hgrav r1 c1 r2 Hr1 Hc1 Hr2 Hne) as Hne2.
      destruct (Z.eq_dec r2 r) as [-> | Nr2]; [destruct (Z.eq_dec c1 c) as [-> | Nc1] |].
      * contradiction.
      * rewrite Hold; [assumption | lia | lia | intros Ep; injection Ep; lia].
      * rewrite Hold; [assumption | lia | lia | intros Ep; injection Ep; lia].
  - destruct (drop_disc_illegal g Hwf c player_) as (msg & Hdrop).
    { intros (Hc & Htop). rewrite Htop in Elegal.
      replace ((0 <=? c) && (c <? cols g)) with true in Elegal by lia.
      discriminate. }
    rewrite Hdrop. exact Hgrav.
Qed.

(** X6: [drop_disc] keeps the board free of floating discs, whoever the
    acting player is and however the call ends; and on a board without
    floating discs [is_full] answers true exactly when no cell is empty. *)
Theorem drop_disc_keeps_gravity (g : ConnectFour) (c : Z) (player_ : option Z) :
  wf g -> gravity g ->
  gravity (snd (drop_disc g c player_)) /\
  (is_full g = Ok true <->
   forall r c', 0 <= r < rows g -> 0 <= c' < cols g -> cell_at (board g) r c' <> 0).
Proof.
  intros Hwf Hgrav. split; [apply gravity_after_drop; assumption |].
  rewrite (is_full_total g Hwf). split.
  - intros H. injection H as H. rewrite top_row_taken_spec in H.
    intros r c' Hr Hc'. destruct (Z.eq_dec r 0) as [-> | Hr0]; [apply H; assumption |].
    apply (Hgrav 0 c' r); try lia. apply H. assumption.
  - intros H. f_equal. apply top_row_taken_spec. intros c' Hc'. apply H; [| assumption].
    destruct Hwf. lia.
Qed.

Lemma drop_disc_keeps_gravity_midgame :
  wf midgame /\ gravity midgame /\
  gravity (snd (drop_disc midgame 3 None)) /\ is_full midgame = Ok false.
Proof.
  assert (gravity midgame) as Hgrav by (apply gravity_check_sound; vm_compute; reflexivity).
  split; [exact wf_midgame |]. split; [exact Hgrav |].
  split; [| vm_compute; reflexivity].
  apply (drop_disc_keeps_gravity midgame 3 None wf_midgame Hgrav).
Defined.

(** X7: [undo_disc] does not ask for the top disc of a column.  After a
    successful undo on a well-formed board without floating discs, the board
    is still without floating discs exactly when nothing lay on the cell
    that was emptied: it was empty already, or it is in the top row, or the
    cell above it is empty. *)
Theorem undo_disc_keeps_gravity (g : ConnectFour) (mv : MoveResult) (g' : ConnectFour) :
  wf g -> gravity g -> undo_disc g mv = (Ok tt, g') ->
  let r := wrap (rows g) (row mv) in
  let c := wrap (cols g) (col mv) in
  gravity g' <->
  cell_at (board g) r c = 0 \/ r = 0 \/ cell_at (board g) (r - 1) c = 0.
Proof.
  intros Hwf Hgrav Hundo r c.
  destruct (undo_disc_ok_inv g mv g' Hwf Hundo) as (Hr & Hc & _ & Er & Ec & Eb).
  fold r in Hr, Eb. fold c in Hc, Eb. destruct Hwf as (_ & _ & Hs).
  assert (forall r' c', 0 <= r' < rows g -> 0 <= c' < cols g -> (r', c') <> (r, c) ->
            cell_at (board g') r' c' = cell_at (board g) r' c') as Hother.
  { intros r' c' Hr' Hc' Hne. rewrite Eb. apply cell_at_put_other; try lia. assumption. }
  assert (cell_at (board g') r c = 0) as Hhere
    by (rewrite Eb; apply (cell_at_put_same _ _ _ Hs); assumption).
  unfold gravity. rewrite Er, Ec. split.
  - intros Hgrav'.
    destruct (Z.eq_dec (cell_at (board g) r c) 0) as [| Hfull]; [left; assumption |].
    destruct (Z.eq_dec r 0) as [| Hr0]; [right; left; assumption |].
    destruct (Z.eq_dec (cell_at (board g) (r - 1) c) 0) as [| Habove];
      [right; right; assumption |].
    exfalso. apply (Hgrav' (r - 1) c r); try lia.
    rewrite Hother; [assumption | lia | lia |].
    intros E. injection E as E. lia.
  - intros Hfree r1 c1 r2 Hr1 Hc1 Hr2 Hne.
    destruct (Z.eq_dec (cell_at (board g) r c) 0) as [Hempty | Hfull].
    + assert (board g' = board g) as Esame
        by (rewrite Eb, <- Hempty; apply put_back).
      rewrite Esame in Hne |- *. apply (Hgrav r1 c1 r2); assumption.
    + assert ((r1, c1) <> (r, c)) as Hne1
        by (intros E; injection E as -> ->; contradiction).
      rewrite Hother in Hne by assumption.
      pose proof (Hgrav r1 c1 r2 Hr1 Hc1 Hr2 Hne) as Hbelow.
      destruct (Z.eq_dec r2 r) as [-> | Nr]; [destruct (Z.eq_dec c1 c) as [-> | Nc] |].
      * exfalso. destruct Hfree as [H | [H | H]]; [contradiction | lia |].
        destruct (Z.eq_dec r1 (r - 1)) as [-> | Hlow]; [contradiction |].
        apply (Hgrav r1 c (r - 1)); try assumption; lia.
      * rewrite Hother; [assumption | lia | lia |]. intros E. injection E as E. contradiction.
      * rewrite Hother; [assumption | lia | lia |]. intros E. injection E as E _.
        contradiction.
Qed.

Lemma undo_disc_keeps_gravity_midgame :
  wf midgame /\ gravity midgame /\
  exists g', undo_disc midgame (mkMove 4 3 (-1)) = (Ok tt, g') /\ gravity g'.
Proof.
  assert (gravity midgame) as Hgrav by (apply gravity_check_sound; vm_compute; reflexivity).
  split; [exact wf_midgame |]. split; [exact Hgrav |].
  eexists. split; [vm_compute; reflexivity |].
  match goal with
  | |- gravity ?g1 =>
      assert (undo_disc midgame (mkMove 4 3 (-1)) = (Ok tt, g1)) as Hundo
        by (vm_compute; reflexivity)
  end.
  apply (undo_disc_keeps_gravity midgame (mkMove 4 3 (-1)) _ wf_midgame Hgrav Hundo).
  right. right. vm_compute. reflexivity.
Defined.

(** ** Lines of discs *)

Section Lines.
Variable g : ConnectFour.
Hypothesis Hwf : wf g.

Lemma steps_left_next (rr cc dr dc : Z) :
  scanned dr dc -> 0 <= rr < rows g -> 0 <= cc < cols g ->
  steps_left g (rr + dr) (cc + dc) dr dc = steps_left g rr cc dr dc - 1 /\
  1 <= steps_left g rr cc dr dc.
Proof.
  intros Hdir Hr Hc. unfold steps_left, scanned in *.
  destruct Hdir as (Hdc & Hdr & Hne).
  destruct (dc =? 1) eqn:E1; [lia |].
  destruct (dc =? -1) eqn:E2; [lia |].
  destruct (dr =? 1) eqn:E3; [lia |].
  assert (dc = 0) by lia. subst dc.
  assert (dr = -1) by (destruct Hdr as [? | [? | ?]]; try lia; subst dr; congruence).
  lia.
Qed.

Lemma count_dir_loop_spec (p dr dc : Z) (fuel : nat) :
  scanned dr dc ->
  forall rr cc cnt,
    (1 <= fuel)%nat ->
    (0 <= rr < rows g -> 0 <= cc < cols g ->
     steps_left g rr cc dr dc < Z.of_nat fuel) ->
    exists n, count_dir_loop fuel g rr cc p dr dc cnt = Ok (cnt + n) /\ 0 <= n /\
      (forall i, 0 <= i < n -> holds g p rr cc dr dc i) /\
      ~ holds g p rr cc dr dc n.
Proof.
  intros Hdir. induction fuel as [|fuel IH]; intros rr cc cnt Hpos Hfuel; [lia |].
  cbn [count_dir_loop].
  assert (holds g p rr cc dr dc 0
          <-> inside g rr cc = true /\ cell_at (board g) rr cc = p) as H0.
  { unfold holds. replace (rr + 0 * dr) with rr by ring.
    replace (cc + 0 * dc) with cc by ring. tauto. }
  fold (inside g rr cc). destruct (inside g rr cc) eqn:Ein.
  - assert (0 <= rr < rows g /\ 0 <= cc < cols g) as [Hr Hc] by (unfold inside in Ein; lia).
    rewrite (cell_total g Hwf) by assumption. cbn [rbind].
    destruct (cell_at (board g) rr cc =? p) eqn:Ep.
    + apply Z.eqb_eq in Ep. specialize (Hfuel Hr Hc).
      destruct (steps_left_next rr cc dr dc Hdir Hr Hc) as [Hstep Hone].
      destruct (IH (rr + dr) (cc + dc) (cnt + 1)) as (n & Hrun & Hn & Hin & Hout);
        [lia | intros _ _; lia |].
      exists (n + 1). split; [rewrite Hrun; f_equal; ring |]. split; [lia |].
      assert (forall i, holds g p (rr + dr) (cc + dc) dr dc (i - 1)
                        <-> holds g p rr cc dr dc i) as Hshift.
      { intros i. unfold holds.
        replace (rr + dr + (i - 1) * dr) with (rr + i * dr) by ring.
        replace (cc + dc + (i - 1) * dc) with (cc + i * dc) by ring. tauto. }
      split.
      * intros i Hi. destruct (Z.eq_dec i 0) as [-> | Hi0]; [apply H0; auto |].
        apply Hshift. apply Hin. lia.
      * intros H. apply Hout. apply Hshift in H.
        replace (n + 1 - 1) with n in H by ring. assumption.
    + apply Z.eqb_neq in Ep. exists 0.
      split; [f_equal; ring |]. split; [lia |]. split; [intros i Hi; lia |].
      rewrite H0. tauto.
  - exists 0. split; [f_equal; ring |]. split; [lia |]. split; [intros i Hi; lia |].
    rewrite H0. intros [H _]. discriminate.
Qed.

Lemma count_dir_run (r c p dr dc : Z) :
  scanned dr dc ->
  exists n, _count_dir g r c p dr dc = Ok n /\ 0 <= n /\
    (forall i, 1 <= i <= n -> holds g p r c dr dc i) /\
    ~ holds g p r c dr dc (n + 1).
Proof.
  intros Hdir. unfold _count_dir, count_dir_fuel.
  destruct (count_dir_loop_spec p dr dc (S (Z.to_nat (Z.max (rows g) (cols g)))) Hdir
              (r + dr) (c + dc) 0) as (n & Hrun & Hn & Hin & Hout).
  - lia.
  - intros Hr Hc. unfold steps_left.
    destruct (dc =? 1); [lia |]. destruct (dc =? -1); [lia |].
    destruct (dr =? 1); lia.
  - assert (forall i, holds g p (r + dr) (c + dc) dr dc (i - 1)
                      <-> holds g p r c dr dc i) as Hshift.
    { intros i. unfold holds.
      replace (r + dr + (i - 1) * dr) with (r + i * dr) by ring.
      replace (c + dc + (i - 1) * dc) with (c + i * dc) by ring. tauto. }
    exists n. split; [exact Hrun |]. split; [lia |]. split.
    + intros i Hi. apply Hshift. apply Hin. lia.
    + intros H. apply Hout. apply Hshift in H.
      replace (n + 1 - 1) with n in H by ring. assumption.
Qed.

End Lines.

(** X8: on a well-formed board and for a direction with steps in
    [{-1, 0, 1}], not both zero, [_count_dir] returns the length of the
    unbroken line of [p] that starts one step from [(r, c)]: every cell up
    to that distance is on the board and holds [p], the next one is off the
    board or holds something else.  The start cell is never read, and
    [(r, c)] may lie off the board. *)
Theorem count_dir_spec (g : ConnectFour) (r c p dr dc : Z) :
  wf g -> scanned dr dc ->
  exists n, _count_dir g r c p dr dc = Ok n /\ 0 <= n /\
    (forall i, 1 <= i <= n -> holds g p r c dr dc i) /\
    ~ holds g p r c dr dc (n + 1) /\
    n <= Z.max (rows g) (cols g).
Proof.
  intros Hwf Hdir.
  destruct (count_dir_run g Hwf r c p dr dc Hdir) as (n & Hrun & Hn & Hin & Hout).
  exists n. split; [assumption |]. split; [assumption |]. split; [assumption |].
  split; [assumption |].
  destruct (Z_le_gt_dec n (Z.max (rows g) (cols g))) as [| Hbig]; [assumption |].
  exfalso.
  assert (1 <= 1 <= n) as H1 by (destruct Hwf; lia).
  assert (1 <= n <= n) as H2 by lia.
  destruct (Hin 1 H1) as [I1 _]. destruct (Hin n H2) as [I2 _].
  unfold inside in I1, I2. destruct Hdir as (Hdc & Hdr & Hne).
  assert (dr = 0 /\ dc = 0) as [-> ->] by lia.
  apply Hne. reflexivity.
Qed.

Lemma holds_opposite (g : ConnectFour) (p r c dr dc i : Z) :
  holds g p r c (- dr) (- dc) i <-> holds g p r c dr dc (- i).
Proof.
  unfold holds.
  replace (r + i * - dr) with (r + - i * dr) by ring.
  replace (c + i * - dc) with (c + - i * dc) by ring. tauto.
Qed.

Lemma holds_shift (g : ConnectFour) (p r c dr dc k i : Z) :
  holds g p (r - k * dr) (c - k * dc) dr dc i <-> holds g p r c dr dc (i - k).
Proof.
  unfold holds.
  replace (r - k * dr + i * dr) with (r + (i - k) * dr) by ring.
  replace (c - k * dc + i * dc) with (c + (i - k) * dc) by ring. tauto.
Qed.

(** A line of [connect] cells of [p] through [(r, c)] in direction
    [(dr, dc)]. *)
Lemma line_through_counts (g : ConnectFour) (p r c dr dc n1 n2 : Z) :
  1 <= connect g -> 0 <= n1 -> 0 <= n2 ->
  holds g p r c dr dc 0 ->
  (forall i, 1 <= i <= n1 -> holds g p r c dr dc i) ->
  ~ holds g p r c dr dc (n1 + 1) ->
  (forall i, 1 <= i <= n2 -> holds g p r c dr dc (- i)) ->
  ~ holds g p r c dr dc (- (n2 + 1)) ->
  (1 + n1 + n2 >=? connect g) = true <->
  exists k, 0 <= k < connect g /\
            run_at g p (connect g) (r - k * dr) (c - k * dc) dr dc.
Proof.
  intros HK Hn1 Hn2 H0 Hfwd Hstop1 Hbwd Hstop2. split.
  - intros Hge. exists (Z.min n2 (connect g - 1)). split; [lia |].
    intros i Hi. apply holds_shift.
    destruct (Z.lt_trichotomy (i - Z.min n2 (connect g - 1)) 0) as [Hneg | [Hz | Hpos]].
    + replace (i - Z.min n2 (connect g - 1))
        with (- (Z.min n2 (connect g - 1) - i)) by ring.
      apply Hbwd. lia.
    + rewrite Hz. assumption.
    + apply Hfwd. lia.
  - intros (k & Hk & Hrun).
    assert (forall j, - k <= j < connect g - k -> holds g p r c dr dc j) as Hall.
    { intros j Hj. replace j with (j + k - k) by ring.
      apply (holds_shift g p r c dr dc k (j + k)). apply Hrun. lia. }
    destruct (Z_le_gt_dec (connect g - k) (n1 + 1)) as [H1 |];
      [| exfalso; apply Hstop1, Hall; lia].
    destruct (Z_le_gt_dec k n2) as [H2 |];
      [| exfalso; apply Hstop2, Hall; lia].
    lia.
Qed.

Lemma winning_in_lines (g : ConnectFour) (r c p : Z) (ds : list (Z * Z)) :
  wf g -> 1 <= connect g -> holds g p r c 0 0 0 ->
  (forall dr dc, In (dr, dc) ds -> scanned dr dc /\ scanned (- dr) (- dc)) ->
  exists won, winning_in g r c p ds = Ok won /\
    (won = true <->
     exists dr dc k, In (dr, dc) ds /\ 0 <= k < connect g /\
       run_at g p (connect g) (r - k * dr) (c - k * dc) dr dc).
Proof.
  intros Hwf HK Hcell. induction ds as [| [dr dc] ds IH]; intros Hds.
  - exists false. split; [reflexivity |]. split; [discriminate |].
    intros (dr & dc & k & [] & _).
  - cbn [winning_in]. cbv zeta.
    destruct (Hds dr dc (or_introl eq_refl)) as [S1 S2].
    destruct (count_dir_run g Hwf r c p dr dc S1) as (n1 & -> & Hn1 & Hf & Hs1).
    destruct (count_dir_run g Hwf r c p (- dr) (- dc) S2) as (n2 & -> & Hn2 & Hb & Hs2).
    cbn [rbind].
    assert (holds g p r c dr dc 0) as H0.
    { unfold holds in *. replace (r + 0 * dr) with (r + 0 * 0) by ring.
      replace (c + 0 * dc) with (c + 0 * 0) by ring. assumption. }
    pose proof (line_through_counts g p r c dr dc n1 n2 HK Hn1 Hn2 H0 Hf Hs1) as Hline.
    assert ((1 + n1 + n2 >=? connect g) = true <->
            exists k, 0 <= k < connect g /\
                      run_at g p (connect g) (r - k * dr) (c - k * dc) dr dc) as Hhere.
    { apply Hline.
      - intros i Hi. apply holds_opposite. apply Hb. assumption.
      - intros H. apply Hs2. apply holds_opposite. assumption. }
    clear Hline. destruct (1 + n1 + n2 >=? connect g) eqn:Ecount.
    + exists true. split; [reflexivity |]. split; [| reflexivity].
      intros _. destruct (proj1 Hhere eq_refl) as (k & Hk & Hrun).
      exists dr, dc, k. split; [left; reflexivity | split; assumption].
    + destruct IH as (won & Hwon & Hiff).
      { intros dr' dc' Hin. apply Hds. right. assumption. }
      exists won. split; [assumption |]. rewrite Hiff. split.
      * intros (dr' & dc' & k & Hin & Hk & Hrun).
        exists dr', dc', k. split; [right; assumption | split; assumption].
      * intros (dr' & dc' & k & [E | Hin] & Hk & Hrun).
        -- injection E as <- <-.
           assert (false = true) as F by (apply Hhere; exists k; split; assumption).
           discriminate F.
        -- exists dr', dc', k. split; [assumption | split; assumption].
Qed.

(** X9: when cell [(r, c)] is on the board and holds [p], and the win length
    is at least 1, [_is_winning_move] answers true exactly when some line of
    [connect] cells of [p] in one of the four directions passes through
    [(r, c)]. *)
Theorem is_winning_move_spec (g : ConnectFour) (r c p : Z) :
  wf g -> 1 <= connect g ->
  inside g r c = true -> cell_at (board g) r c = p ->
  exists won, _is_winning_move g r c p = Ok won /\
    (won = true <->
     exists dr dc k, In (dr, dc) directions /\ 0 <= k < connect g /\
       run_at g p (connect g) (r - k * dr) (c - k * dc) dr dc).
Proof.
  intros Hwf HK Hin Hcell. unfold _is_winning_move.
  apply winning_in_lines; try assumption.
  - unfold holds. replace (r + 0 * 0) with r by ring.
    replace (c + 0 * 0) with c by ring. split; assumption.
  - apply directions_scanned.
Qed.

Lemma is_winning_move_spec_won_game :
  wf won_game /\ 1 <= connect won_game /\ inside won_game 5 3 = true /\
  cell_at (board won_game) 5 3 = 1 /\
  exists won, _is_winning_move won_game 5 3 1 = Ok won /\
    (won = true <->
     exists dr dc k, In (dr, dc) directions /\ 0 <= k < connect won_game /\
       run_at won_game 1 (connect won_game) (5 - k * dr) (3 - k * dc) dr dc).
Proof.
  split; [exact wf_won_game |]. split; [vm_compute; discriminate |].
  split; [vm_compute; reflexivity |]. split; [vm_compute; reflexivity |].
  apply (is_winning_move_spec won_game 5 3 1 wf_won_game).
  - vm_compute. discriminate.
  - vm_compute. reflexivity.
  - vm_compute. reflexivity.
Defined.

Lemma count_dir_spec_won_game :
  wf won_game /\ scanned 0 (-1) /\
  exists n, _count_dir won_game 5 3 1 0 (-1) = Ok n /\ 0 <= n /\
    (forall i, 1 <= i <= n -> holds won_game 1 5 3 0 (-1) i) /\
    ~ holds won_game 1 5 3 0 (-1) (n + 1) /\
    n <= Z.max (rows won_game) (cols won_game).
Proof.
  assert (scanned 0 (-1)) as Hdir.
  { unfold scanned. split; [lia |]. split; [lia |]. discriminate. }
  split; [exact wf_won_game |]. split; [exact Hdir |].
  apply (count_dir_spec won_game 5 3 1 0 (-1) wf_won_game Hdir).
Defined.

Lemma drop_disc_ok_inv (g : ConnectFour) (c : Z) (player_ : option Z)
      (mv : MoveResult) (g1 : ConnectFour) :
  wf g -> drop_disc g c player_ = (Ok mv, g1) ->
  exists r, 0 <= r < rows g /\ 0 <= c < cols g /\ cell_at (board g) r c = 0 /\
            (forall r', r < r' < rows g -> cell_at (board g) r' c <> 0) /\
            mv = mkMove r c (acting g player_) /\
            g1 = dropped g r c (acting g player_).
Proof.
  intros Hwf Hdrop.
  destruct ((0 <=? c) && (c <? cols g) && (cell_at (board g) 0 c =? 0)) eqn:Elegal.
  - apply andb_prop in Elegal. destruct Elegal as (Ecol & Etop).
    apply Z.eqb_eq in Etop. assert (0 <= c < cols g) as Hc by lia.
    destruct (drop_disc_legal g Hwf c player_ Hc Etop) as (r & Hland & Hrun).
    destruct (landing_row_spec g Hwf c r Hland) as (Hr & Hcell & Hlow).
    rewrite Hrun in Hdrop. injection Hdrop as <- <-.
    exists r. repeat (split; [assumption || reflexivity |]). reflexivity.
  - destruct (drop_disc_illegal g Hwf c player_) as (msg & Hrun).
    { intros (Hc & Htop). rewrite Htop in Elegal.
      replace ((0 <=? c) && (c <? cols g)) with true in Elegal by lia.
      discriminate. }
    rewrite Hrun in Hdrop. discriminate.
Qed.

(** A line of the new board that misses the new disc was on the old board. *)
Lemma run_at_dropped (g : ConnectFour) (r c p q r0 c0 dr dc : Z) :
  wf g -> 0 <= r < rows g -> 0 <= c < cols g ->
  In (dr, dc) directions ->
  run_at (dropped g r c q) p (connect g) r0 c0 dr dc ->
  run_at g p (connect g) r0 c0 dr dc \/
  exists k, 0 <= k < connect g /\ r0 = r - k * dr /\ c0 = c - k * dc.
Proof.
  intros Hwf Hr Hc Hd Hrun.
  set (k := if dc =? 1 then c - c0 else r - r0).
  assert (forall i, r0 + i * dr = r -> c0 + i * dc = c -> i = k) as Honly.
  { intros i E1 E2. subst k. unfold directions in Hd. simpl in Hd.
    destruct Hd as [E | [E | [E | [E | []]]]]; injection E as <- <-; simpl; lia. }
  assert ((0 <= k < connect g /\ r0 + k * dr = r /\ c0 + k * dc = c)
          \/ ~ (0 <= k < connect g /\ r0 + k * dr = r /\ c0 + k * dc = c))
    as [Hthrough | Hmiss] by lia.
  - right. exists k. split; [lia |]. split; lia.
  - left. intros i Hi. destruct (Hrun i Hi) as [Hin Hcell].
    unfold inside in Hin. cbn [dropped rows cols board] in Hin, Hcell.
    split; [exact Hin |].
    rewrite cell_at_put_other in Hcell; try lia; try assumption.
    intros E. injection E as E1 E2. specialize (Honly i E1 E2). subst i. lia.
Qed.

(** The winner after a disc of [p] has landed at [(r, c)], on a board where
    [p] had no line. *)
Lemma winner_dropped (g : ConnectFour) (r c p : Z) :
  wf g -> 1 <= connect g -> 0 <= r < rows g -> 0 <= c < cols g ->
  ~ has_run g p ->
  exists won : bool, winner (dropped g r c p) = Ok (if won then p else 0) /\
              (won = true <-> has_run (dropped g r c p) p).
Proof.
  intros Hwf HK Hr Hc Hnone.
  assert (wf (dropped g r c p)) as Hwf1 by (apply wf_dropped; assumption).
  destruct (winning_in_lines (dropped g r c p) r c p directions Hwf1 HK) as
    (won & Hwon & Hiff).
  { unfold holds. replace (r + 0 * 0) with r by ring.
    replace (c + 0 * 0) with c by ring. split.
    - unfold inside. cbn [dropped rows cols]. lia.
    - cbn [dropped board]. destruct Hwf as (_ & _ & Hs).
      apply (cell_at_put_same _ _ _ Hs); assumption. }
  { apply directions_scanned. }
  exists won. split.
  - unfold winner. cbn [dropped last_move row col player].
    unfold _is_winning_move. rewrite Hwon. reflexivity.
  - rewrite Hiff. split.
    + intros (dr & dc & k & Hd & Hk & Hline).
      exists dr, dc, (r - k * dr), (c - k * dc). split; assumption.
    + intros (dr & dc & r0 & c0 & Hd & Hline).
      destruct (run_at_dropped g r c p p r0 c0 dr dc Hwf Hr Hc Hd Hline)
        as [Hold | (k & Hk & -> & ->)].
      * exfalso. apply Hnone. exists dr, dc, r0, c0. split; assumption.
      * exists dr, dc, k. split; [assumption |]. split; assumption.
Qed.

(** X10: after a successful drop of a disc of [p <> 0] on a board where [p]
    had no line of [connect] cells, [winner] returns [p] exactly when [p] has
    such a line on the new board, and 0 otherwise. *)
Theorem winner_after_drop (g : ConnectFour) (c : Z) (player_ : option Z)
        (mv : MoveResult) (g1 : ConnectFour) :
  wf g -> 1 <= connect g ->
  drop_disc g c player_ = (Ok mv, g1) ->
  player mv <> 0 -> ~ has_run g (player mv) ->
  exists w, winner g1 = Ok w /\
            (w = player mv <-> has_run g1 (player mv)) /\
            (w = 0 <-> ~ has_run g1 (player mv)).
Proof.
  intros Hwf HK Hdrop Hp Hnone.
  destruct (drop_disc_ok_inv g c player_ mv g1 Hwf Hdrop)
    as (r & Hr & Hc & Hcell & _ & -> & ->).
  cbn [player] in *. set (p := acting g player_) in *.
  destruct (winner_dropped g r c p Hwf HK Hr Hc Hnone) as (won & Hwin & Hrun).
  exists (if won then p else 0). split; [exact Hwin |].
  rewrite <- Hrun. destruct won; split; split; intros H;
    try reflexivity; try congruence; try (exfalso; apply H; reflexivity).
Qed.

Lemma has_run_check_complete (g : ConnectFour) (p : Z) :
  0 < connect g -> has_run g p -> has_run_check g p = true.
Proof.
  intros HK (dr & dc & r & c & Hd & Hrun). unfold has_run_check.
  apply existsb_exists. exists (dr, dc). split; [assumption |].
  destruct (Hrun 0) as [Hin _]; [lia |].
  replace (r + 0 * dr) with r in Hin by ring.
  replace (c + 0 * dc) with c in Hin by ring. unfold inside in Hin.
  apply existsb_exists. exists r. split; [apply in_range; lia |].
  apply existsb_exists. exists c. split; [apply in_range; lia |].
  unfold line_check. apply forallb_forall. intros i Hi. apply in_range in Hi.
  destruct (Hrun i Hi) as [Hin' Hcell]. cbn [fst snd].
  rewrite Hin'. apply Z.eqb_eq in Hcell. rewrite Hcell. reflexivity.
Qed.

Lemma winner_after_drop_midgame :
  wf midgame /\ 1 <= connect midgame /\
  ~ has_run midgame 1 /\
  exists w, winner (snd (drop_disc midgame 0 None)) = Ok w /\
            (w = 1 <-> has_run (snd (drop_disc midgame 0 None)) 1).
Proof.
  assert (~ has_run midgame 1) as Hnone.
  { intros H. apply has_run_check_complete in H; [| vm_compute; reflexivity].
    vm_compute in H. discriminate H. }
  split; [exact wf_midgame |]. split; [vm_compute; discriminate |].
  split; [exact Hnone |].
  assert (drop_disc midgame 0 None
          = (Ok (mkMove 5 0 1), snd (drop_disc midgame 0 None))) as Hdrop
    by (vm_compute; reflexivity).
  assert (1 <= connect midgame) as HK by (vm_compute; discriminate).
  assert (player (mkMove 5 0 1) <> 0) as Hp by (cbn [player]; discriminate).
  destruct (winner_after_drop midgame 0 None (mkMove 5 0 1)
              (snd (drop_disc midgame 0 None)) wf_midgame HK Hdrop Hp Hnone)
    as (w & Hw & Hiff & _).
  exists w. split; [exact Hw | exact Hiff].
Defined.

(** ** [reset] and [serialize] *)

(** Two boards of the same shape with the same cells are the same list. *)
Lemma board_ext (nr nc : Z) (b b' : list (list Z)) :
  shape nr nc b -> shape nr nc b' ->
  (forall r c, 0 <= r < nr -> 0 <= c < nc -> cell_at b r c = cell_at b' r c) ->
  b = b'.
Proof.
  intros [Hlen Hall] [Hlen' Hall'] Hcells.
  rewrite Forall_forall in Hall, Hall'.
  apply (nth_ext b b' [] []); [congruence |].
  intros n Hn.
  assert (length (nth n b []) = Z.to_nat nc) as L1 by (apply Hall, nth_In; lia).
  assert (length (nth n b' []) = Z.to_nat nc) as L2 by (apply Hall', nth_In; lia).
  apply (nth_ext _ _ 0 0); [congruence |].
  intros m Hm. specialize (Hcells (Z.of_nat n) (Z.of_nat m)).
  unfold cell_at in Hcells. rewrite !Nat2Z.id in Hcells. apply Hcells; lia.
Qed.

Lemma clear_cells_inside (nr nc : Z) (cells : list (Z * Z)) :
  (forall r c, In (r, c) cells -> 0 <= r < nr /\ 0 <= c < nc) ->
  forall b, shape nr nc b ->
    exists b', clear_cells b cells = (Ok tt, b') /\ shape nr nc b' /\
      forall r c, 0 <= r < nr -> 0 <= c < nc ->
        (In (r, c) cells -> cell_at b' r c = 0) /\
        (~ In (r, c) cells -> cell_at b' r c = cell_at b r c).
Proof.
  assert (forall x y : Z * Z, {x = y} + {x <> y}) as Hdec
    by (decide equality; apply Z.eq_dec).
  induction cells as [| [r0 c0] cells IH]; intros Hin b Hs.
  - exists b. split; [reflexivity |]. split; [assumption |].
    intros r c _ _. split; [intros [] | reflexivity].
  - destruct (Hin r0 c0 (or_introl eq_refl)) as [Hr0 Hc0].
    cbn [clear_cells]. rewrite (set_cell_inside _ _ _ Hs) by assumption.
    destruct (IH (fun r c H => Hin r c (or_intror H)) (put b r0 c0 0)
                 (shape_put _ _ _ Hs r0 c0 0 Hr0)) as (b' & Hrun & Hs' & Hcells).
    exists b'. split; [assumption |]. split; [assumption |].
    intros r c Hr Hc. destruct (Hcells r c Hr Hc) as [Hyes Hno].
    destruct (in_dec Hdec (r, c) cells) as [Hi | Hni].
    + split; [intros _; apply Hyes; assumption |].
      intros Hnj. exfalso. apply Hnj. right. assumption.
    + rewrite (Hno Hni). split.
      * intros [E | Hj]; [| contradiction]. injection E as -> ->.
        apply (cell_at_put_same _ _ _ Hs); assumption.
      * intros Hnj. apply cell_at_put_other; try lia.
        intros E. apply Hnj. left. congruence.
Qed.

Lemma in_grid_cells (nr nc r c : Z) :
  In (r, c) (grid_cells nr nc) <-> 0 <= r < nr /\ 0 <= c < nc.
Proof.
  unfold grid_cells. rewrite in_flat_map. split.
  - intros (r' & Hr' & Hin). apply in_map_iff in Hin.
    destruct Hin as (c' & E & Hc'). injection E as -> ->.
    apply in_range in Hr', Hc'. tauto.
  - intros [Hr Hc]. exists r. split; [apply in_range; assumption |].
    apply in_map_iff. exists c. split; [reflexivity | apply in_range; assumption].
Qed.

Lemma shape_new_board (nr nc : Z) :
  0 <= nr -> shape nr nc (map (fun _ => map (fun _ => 0) (range nc)) (range nr)).
Proof.
  intros Hnr. split.
  - rewrite length_map. pose proof (length_range nr). lia.
  - apply Forall_forall. intros line Hin. apply in_map_iff in Hin.
    destruct Hin as (r & <- & _). rewrite length_map.
    pose proof (length_range nc). lia.
Qed.

(** X11: on a well-formed state [reset] returns normally and leaves the
    state a new game of the same size: every cell 0, player 1 to move, no
    last move, the dimensions and the win length kept.  With a win length of
    at least 3 this is the very state the constructor builds. *)
Theorem reset_spec (g : ConnectFour) :
  wf g ->
  exists g',
    reset g = (Ok tt, g') /\
    rows g' = rows g /\ cols g' = cols g /\ connect g' = connect g /\
    current_player g' = 1 /\ last_move g' = None /\
    board g' = map (fun _ => map (fun _ => 0) (range (cols g))) (range (rows g)) /\
    (3 <= connect g -> new_game (rows g) (cols g) (connect g) = Ok g').
Proof.
  intros (Hr & Hc & Hs). unfold reset.
  destruct (clear_cells_inside (rows g) (cols g) (grid_cells (rows g) (cols g))
              (fun r c H => proj1 (in_grid_cells _ _ r c) H) (board g) Hs)
    as (b' & -> & Hs' & Hcells).
  assert (b' = map (fun _ => map (fun _ => 0) (range (cols g))) (range (rows g))) as ->.
  { apply (board_ext (rows g) (cols g)); [assumption | apply shape_new_board; lia |].
    intros r c Hr' Hc'. rewrite cell_at_new_board by assumption.
    apply (Hcells r c Hr' Hc'). apply in_grid_cells. split; assumption. }
  eexists. split; [reflexivity |]. cbn [rows cols connect current_player last_move board].
  repeat (split; [reflexivity |]).
  intros HK. unfold new_game.
  replace ((rows g <=? 0) || (cols g <=? 0)) with false by lia.
  replace (connect g <? 3) with false by lia. reflexivity.
Qed.

Lemma reset_spec_midgame :
  wf midgame /\
  exists g', reset midgame = (Ok tt, g') /\ new_game 6 7 4 = Ok g'.
Proof.
  split; [exact wf_midgame |].
  destruct (reset_spec midgame wf_midgame)
    as (g' & Hrun & _ & _ & _ & _ & _ & _ & Hnew).
  exists g'. split; [exact Hrun |]. apply Hnew. vm_compute. discriminate.
Defined.

Lemma nth_concat (n : nat) (b : list (list Z)) :
  Forall (fun line => length line = n) b ->
  forall r c, (r < length b)%nat -> (c < n)%nat ->
    nth (r * n + c) (concat b) 0 = nth c (nth r b []) 0.
Proof.
  induction 1 as [| line b Hline Hall IH]; intros r c Hr Hc; [simpl in Hr; lia |].
  cbn [concat]. destruct r as [| r].
  - cbn [nth Nat.mul Nat.add]. apply app_nth1. lia.
  - cbn [nth]. rewrite app_nth2 by (rewrite Hline; simpl; lia).
    replace (S r * n + c - length line)%nat with (r * n + c)%nat
      by (rewrite Hline; simpl; lia).
    apply IH; [simpl in Hr; lia | assumption].
Qed.

Lemma length_concat_shape (n : nat) (b : list (list Z)) :
  Forall (fun line => length line = n) b -> length (concat b) = (length b * n)%nat.
Proof.
  induction 1 as [| line b Hline Hall IH]; [reflexivity |].
  cbn [concat length]. rewrite length_app, IH, Hline. simpl. lia.
Qed.

Lemma serialize_rows (b : list (list Z)) (rs : list Z) (acc : list Z) :
  (forall r, In r rs -> 0 <= r < Z.of_nat (length b)) ->
  for_acc rs acc (fun r flat => let? line := py_getitem b r in Ok (flat ++ line))
  = Ok (acc ++ concat (map (fun r => nth (Z.to_nat r) b []) rs)).
Proof.
  revert acc. induction rs as [| r rs IH]; intros acc Hin.
  - simpl. rewrite app_nil_r. reflexivity.
  - cbn [for_acc]. rewrite (py_getitem_inside b r []) by (apply Hin; left; reflexivity).
    cbn [rbind]. rewrite IH by (intros r' H; apply Hin; right; assumption).
    cbn [map concat]. rewrite app_assoc. reflexivity.
Qed.

Lemma map_nth_range {A} (l : list A) (d : A) :
  map (fun r => nth (Z.to_nat r) l d) (range (Z.of_nat (length l))) = l.
Proof.
  apply (nth_ext _ _ d d).
  - rewrite length_map. pose proof (length_range (Z.of_nat (length l))). lia.
  - intros n Hn. rewrite length_map in Hn.
    pose proof (length_range (Z.of_nat (length l))) as Hlen.
    rewrite (nth_map_inside _ _ _ 0) by assumption.
    unfold range. rewrite (nth_map_inside _ _ _ O) by (rewrite length_seq; lia).
    rewrite seq_nth by lia. rewrite Nat2Z.id. reflexivity.
Qed.

Lemma serialize_total (g : ConnectFour) :
  wf g -> serialize g = Ok (concat (board g), current_player g).
Proof.
  intros (Hr & Hc & Hlen & Hall). unfold serialize.
  rewrite serialize_rows by (intros r H; apply in_range in H; lia).
  cbn [rbind app]. replace (rows g) with (Z.of_nat (length (board g))) by lia.
  rewrite map_nth_range. reflexivity.
Qed.

Lemma nth_serialized (g : ConnectFour) (r c : Z) :
  wf g -> 0 <= r < rows g -> 0 <= c < cols g ->
  nth (Z.to_nat (r * cols g + c)) (concat (board g)) 0 = cell_at (board g) r c.
Proof.
  intros (_ & _ & Hlen & Hall) Hr Hc. unfold cell_at.
  rewrite <- (nth_concat (Z.to_nat (cols g))) by (assumption || lia).
  f_equal. nia.
Qed.

(** X12: on a well-formed state [serialize] returns the rows of the board
    one after the other, top row first, and the player to move: the flat
    tuple has [rows * cols] entries and cell [(r, c)] is entry
    [r * cols + c]. *)
Theorem serialize_spec (g : ConnectFour) :
  wf g ->
  exists flat,
    serialize g = Ok (flat, current_player g) /\
    Z.of_nat (length flat) = rows g * cols g /\
    forall r c, 0 <= r < rows g -> 0 <= c < cols g ->
      nth (Z.to_nat (r * cols g + c)) flat 0 = cell_at (board g) r c.
Proof.
  intros Hwf. exists (concat (board g)).
  split; [apply serialize_total; assumption |]. split.
  - destruct Hwf as (Hr & Hc & Hlen & Hall).
    rewrite (length_concat_shape (Z.to_nat (cols g))) by assumption. nia.
  - intros r c Hr Hc. apply nth_serialized; assumption.
Qed.

Lemma serialize_spec_midgame :
  wf midgame /\
  exists flat, serialize midgame = Ok (flat, 1) /\ Z.of_nat (length flat) = 42 /\
               nth 38 flat 0 = cell_at (board midgame) 5 3.
Proof.
  split; [exact wf_midgame |].
  destruct (serialize_spec midgame wf_midgame) as (flat & Hrun & Hlen & Hnth).
  exists flat. split; [exact Hrun |]. split; [exact Hlen |].
  apply (Hnth 5 3); vm_compute; intuition discriminate.
Defined.

(** X13: the serialisation tells positions of one size apart: two
    well-formed states with the same dimensions and the same serialisation
    have the same board and the same player to move. *)
Theorem serialize_injective (g g' : ConnectFour) :
  wf g -> wf g' -> rows g' = rows g -> cols g' = cols g ->
  serialize g = serialize g' ->
  board g = board g' /\ current_player g = current_player g'.
Proof.
  intros Hwf Hwf' Er Ec Heq.
  rewrite (serialize_total g Hwf), (serialize_total g' Hwf') in Heq.
  injection Heq as Hflat Hcp. split; [| assumption].
  pose proof Hwf as (_ & _ & Hs). pose proof Hwf' as (_ & _ & Hs').
  rewrite Er, Ec in Hs'.
  apply (board_ext (rows g) (cols g)); try assumption.
  intros r c Hr Hc.
  rewrite <- (nth_serialized g r c Hwf Hr Hc).
  rewrite <- (nth_serialized g' r c Hwf') by lia.
  rewrite Hflat, Ec. reflexivity.
Qed.

Lemma serialize_injective_midgame :
  wf midgame /\ wf (forget midgame) /\
  board midgame = board (forget midgame) /\
  current_player midgame = current_player (forget midgame).
Proof.
  split; [exact wf_midgame |].
  assert (wf (forget midgame)) as Hwf by check_wf.
  split; [exact Hwf |].
  apply (serialize_injective midgame (forget midgame) wf_midgame Hwf).
  - reflexivity.
  - reflexivity.
  - vm_compute. reflexivity.
Defined.

(** ** A game in play *)

Lemma sum_over_range_change (n : Z) (h h' : Z -> Z) (i : Z) :
  0 <= i < n -> (forall j, 0 <= j < n -> j <> i -> h' j = h j) ->
  sum_over (range n) h' = sum_over (range n) h + (h' i - h i).
Proof.
  intros Hi. assert (0 <= n) as Hn by lia. revert Hi.
  pattern n. apply natlike_ind; [lia | | assumption].
  clear n Hn. intros n Hn IH Hi Hsame.
  rewrite <- Z.add_1_r, range_succ, !sum_over_app by assumption. cbn [sum_over].
  destruct (Z.eq_dec i n) as [-> | Hne].
  - rewrite (sum_over_ext (range n) h' h); [lia |].
    intros j Hj. apply in_range in Hj. apply Hsame; lia.
  - rewrite IH; [| lia | intros j Hj Hji; apply Hsame; lia].
    rewrite (Hsame n) by lia. lia.
Qed.

Lemma discs_dropped (g : ConnectFour) (r c p q : Z) :
  wf g -> 0 <= r < rows g -> 0 <= c < cols g ->
  cell_at (board g) r c = 0 -> q <> 0 ->
  discs (dropped g r c p) q = discs g q + (if p =? q then 1 else 0).
Proof.
  intros (_ & _ & Hs) Hr Hc Hcell Hq. unfold discs. cbn [dropped rows cols board].
  rewrite (sum_over_range_change (rows g)
             (fun r' => sum_over (range (cols g))
                          (fun c' => if cell_at (board g) r' c' =? q then 1 else 0))
             _ r Hr).
  - rewrite (sum_over_range_change (cols g)
               (fun c' => if cell_at (board g) r c' =? q then 1 else 0) _ c Hc).
    + rewrite (cell_at_put_same _ _ _ Hs) by assumption. rewrite Hcell.
      replace (0 =? q) with false by lia. lia.
    + intros j Hj Hne. rewrite cell_at_put_other; try lia.
      intros E. injection E as E. contradiction.
  - intros j Hj Hne. apply sum_over_ext. intros c' Hc'. apply in_range in Hc'.
    rewrite cell_at_put_other; try lia.
    intros E. injection E as E _. contradiction.
Qed.

Lemma in_play_new_game (nr nc k : Z) (g : ConnectFour) :
  new_game nr nc k = Ok g -> in_play g.
Proof.
  intros Hnew. pose proof (wf_new_game nr nc k g Hnew) as Hwf.
  unfold new_game in Hnew. destruct ((nr <=? 0) || (nc <=? 0)); [discriminate |].
  destruct (k <? 3); [discriminate |]. injection Hnew as <-.
  assert (forall r c, 0 <= r < nr -> 0 <= c < nc ->
            cell_at (map (fun _ => map (fun _ => 0) (range nc)) (range nr)) r c = 0)
    as Hzero by (intros r c; apply cell_at_new_board).
  split; [assumption |]. cbn [rows cols board current_player] in *.
  split; [| split; [left; reflexivity | split]].
  - intros r c r' Hr Hc Hr' Hne. cbn [board rows cols] in *.
    exfalso. apply Hne. apply Hzero; assumption.
  - intros r c Hr Hc. left. apply Hzero; assumption.
  - assert (forall q, q <> 0 ->
              discs (mkGame nr nc k
                       (map (fun _ => map (fun _ => 0) (range nc)) (range nr)) 1 None) q
              = 0) as Hnone.
    { intros q Hq. unfold discs. cbn [rows cols board].
      rewrite (sum_over_ext (range nr) _ (fun _ => 0)); [apply sum_over_zero |].
      intros r Hr. apply in_range in Hr.
      rewrite (sum_over_ext (range nc) _ (fun _ => 0)); [apply sum_over_zero |].
      intros c Hc. apply in_range in Hc. rewrite Hzero by assumption.
      replace (0 =? q) with false by lia. reflexivity. }
    rewrite !Hnone by lia. reflexivity.
Qed.

Lemma in_play_drop (g : ConnectFour) (c : Z) :
  in_play g -> in_play (snd (drop_disc g c None)).
Proof.
  intros (Hwf & Hgrav & Hcp & Hcells & Hbal).
  pose proof (gravity_after_drop g c None Hwf Hgrav) as Hgrav'.
  destruct (drop_disc g c None) as [[mv | e] g1] eqn:Hdrop.
  - destruct (drop_disc_ok_inv g c None mv g1 Hwf Hdrop)
      as (r & Hr & Hc & Hcell & _ & -> & ->).
    cbn [snd acting] in *.
    split; [apply wf_dropped; assumption |]. split; [assumption |].
    assert (current_player g <> 0) as Hne by lia.
    pose proof (discs_dropped g r c (current_player g) 1 Hwf Hr Hc Hcell) as D1.
    pose proof (discs_dropped g r c (current_player g) (-1) Hwf Hr Hc Hcell) as D2.
    cbn [dropped current_player rows cols board] in *.
    rewrite Z.eqb_refl. split; [lia |]. split.
    + intros r' c' Hr' Hc'. destruct Hwf as (_ & _ & Hs).
      destruct (Z.eq_dec r' r) as [-> | Nr]; [destruct (Z.eq_dec c' c) as [-> | Nc] |].
      * rewrite (cell_at_put_same _ _ _ Hs) by assumption. lia.
      * rewrite cell_at_put_other; try lia; [apply Hcells; assumption |].
        intros E. injection E as E. contradiction.
      * rewrite cell_at_put_other; try lia; [apply Hcells; assumption |].
        intros E. injection E as E _. contradiction.
    + rewrite D1, D2 by lia.
      destruct Hcp as [E | E]; rewrite E in *; cbn [Z.eqb Z.opp Pos.eqb] in *; lia.
  - destruct (Z_lt_dec c 0) as [Hneg | Hpos].
    + destruct (drop_disc_illegal g Hwf c None) as (msg & Hrun); [lia |].
      rewrite Hrun in Hdrop. injection Hdrop as _ <-.
      exact (conj Hwf (conj Hgrav (conj Hcp (conj Hcells Hbal)))).
    + destruct (drop_disc_illegal g Hwf c None) as (msg & Hrun).
      { intros (Hc & Htop).
        destruct (drop_disc_legal g Hwf c None Hc Htop) as (r & _ & Hok).
        rewrite Hok in Hdrop. discriminate Hdrop. }
      rewrite Hrun in Hdrop. injection Hdrop as _ <-.
      exact (conj Hwf (conj Hgrav (conj Hcp (conj Hcells Hbal)))).
Qed.

(** X14: what a game keeps through play.  From a new game, after any
    sequence of [drop_disc] calls with the default player, the failed ones
    included: the board is rectangular, no disc floats, every cell is 0, 1
    or -1, the player to move is 1 or -1, and player 1 has as many discs as
    player -1 when it is to move and one more when it is not. *)
Theorem play_keeps_balance (nr nc k : Z) (g0 : ConnectFour) (cs : list Z) :
  new_game nr nc k = Ok g0 ->
  let g := play_all g0 cs in
  wf g /\ gravity g /\
  (current_player g = 1 \/ current_player g = -1) /\
  (forall r c, 0 <= r < rows g -> 0 <= c < cols g ->
     cell_at (board g) r c = 0 \/ cell_at (board g) r c = 1 \/
     cell_at (board g) r c = -1) /\
  discs g 1 = discs g (-1) + (if current_player g =? 1 then 0 else 1).
Proof.
  intros Hnew. cbv zeta. apply in_play_new_game in Hnew.
  unfold play_all. revert g0 Hnew.
  induction cs as [| c cs IH]; intros g0 Hplay; cbn [fold_left]; [exact Hplay |].
  apply IH. apply in_play_drop. assumption.
Qed.

Lemma play_keeps_balance_midgame :
  new_game 6 7 4 = Ok empty67 /\
  gravity midgame /\
  discs midgame 1
  = discs midgame (-1) + (if current_player midgame =? 1 then 0 else 1).
Proof.
  assert (new_game 6 7 4 = Ok empty67) as Hnew by (vm_compute; reflexivity).
  split; [exact Hnew |].
  destruct (play_keeps_balance 6 7 4 empty67 [3; 3; 2; 4; 2; 4; 1; 5] Hnew)
    as (_ & Hgrav & _ & _ & Hbal).
  split; [exact Hgrav | exact Hbal].
Defined.

(** *** The first line is found *)

Lemma has_run_cell (g : ConnectFour) (p : Z) :
  1 <= connect g -> has_run g p ->
  exists r c, inside g r c = true /\ cell_at (board g) r c = p.
Proof.
  intros HK (dr & dc & r & c & _ & Hrun). destruct (Hrun 0) as [Hin Hcell]; [lia |].
  replace (r + 0 * dr) with r in * by ring. replace (c + 0 * dc) with c in * by ring.
  eauto.
Qed.

Lemma no_line_new_game (nr nc k : Z) (g : ConnectFour) :
  new_game nr nc k = Ok g -> no_line g /\ winner g = Ok 0 /\ 1 <= connect g.
Proof.
  unfold new_game. destruct ((nr <=? 0) || (nc <=? 0)); [discriminate |].
  destruct (k <? 3) eqn:Ek; [discriminate |]. intros H. injection H as <-.
  cbn [connect]. split; [| split; [reflexivity | lia]].
  intros p Hp Hrun. apply has_run_cell in Hrun; [| cbn [connect]; lia].
  destruct Hrun as (r & c & Hin & Hcell). unfold inside in Hin.
  cbn [rows cols board] in *. rewrite cell_at_new_board in Hcell by lia. auto.
Qed.

Lemma checked_step (g : ConnectFour) (c : Z) :
  in_play g -> 1 <= connect g -> no_line g -> winner g = Ok 0 ->
  connect (snd (drop_disc g c None)) = connect g /\
  exists w, winner (snd (drop_disc g c None)) = Ok w /\
            (w = 0 -> no_line (snd (drop_disc g c None))) /\
            (w <> 0 -> has_run (snd (drop_disc g c None)) w).
Proof.
  intros (Hwf & _ & Hcp & _) HK Hnone Hwin.
  destruct (drop_disc g c None) as [[mv | e] g1] eqn:Hdrop.
  - destruct (drop_disc_ok_inv g c None mv g1 Hwf Hdrop)
      as (r & Hr & Hc & Hcell & _ & -> & ->).
    cbn [snd acting]. set (p := current_player g) in *.
    assert (p <> 0) as Hp by lia.
    destruct (winner_dropped g r c p Hwf HK Hr Hc (Hnone p Hp)) as (won & Hw & Hrun).
    split; [reflexivity |]. exists (if won then p else 0). split; [exact Hw |].
    destruct won.
    + split; [intros E; contradiction | intros _; apply Hrun; reflexivity].
    + split; [| intros E; contradiction]. intros _ q Hq Hline.
      destruct (Z.eq_dec q p) as [-> | Hqp].
      * apply Hrun in Hline. discriminate Hline.
      * destruct Hline as (dr & dc & r0 & c0 & Hd & Hline).
        cbn [dropped connect] in Hline.
        destruct (run_at_dropped g r c q p r0 c0 dr dc Hwf Hr Hc Hd Hline)
          as [Hold | (i & Hi & -> & ->)].
        -- apply (Hnone q Hq). exists dr, dc, r0, c0. split; assumption.
        -- destruct (Hline i Hi) as [_ Hhere].
           replace (r - i * dr + i * dr) with r in Hhere by ring.
           replace (c - i * dc + i * dc) with c in Hhere by ring.
           cbn [dropped board] in Hhere. destruct Hwf as (_ & _ & Hs).
           rewrite (cell_at_put_same _ _ _ Hs) in Hhere by assumption. auto.
  - assert (g1 = g) as ->.
    { destruct (drop_disc_illegal g Hwf c None) as (msg & Hrun).
      - intros (Hc & Htop).
        destruct (drop_disc_legal g Hwf c None Hc Htop) as (r & _ & Hok).
        rewrite Hok in Hdrop. discriminate Hdrop.
      - rewrite Hrun in Hdrop. injection Hdrop as _ <-. reflexivity. }
    cbn [snd]. split; [reflexivity |]. exists 0. split; [exact Hwin |].
    split; [intros _; exact Hnone | intros E; contradiction].
Qed.

Lemma checked_play (cs : list Z) :
  forall g,
    in_play g -> 1 <= connect g -> no_line g -> winner g = Ok 0 ->
    (forall n, (0 < n < length cs)%nat -> winner (play_all g (firstn n cs)) = Ok 0) ->
    exists w, winner (play_all g cs) = Ok w /\
              (w = 0 -> no_line (play_all g cs)) /\
              (w <> 0 -> has_run (play_all g cs) w).
Proof.
  induction cs as [| c cs IH]; intros g Hplay HK Hnone Hwin Hchecked.
  - exists 0. split; [exact Hwin |]. split; [intros _; exact Hnone | intros E; contradiction].
  - destruct (checked_step g c Hplay HK Hnone Hwin) as (Hk1 & w1 & Hw1 & Hz1 & Hn1).
    unfold play_all in *. cbn [fold_left].
    destruct cs as [| c' cs]; [cbn [fold_left]; exists w1; auto |].
    assert (winner (snd (drop_disc g c None)) = Ok 0) as Hwin1.
    { apply (Hchecked 1%nat). cbn [length]. lia. }
    rewrite Hw1 in Hwin1. injection Hwin1 as ->.
    apply IH.
    + apply in_play_drop. assumption.
    + lia.
    + apply Hz1. reflexivity.
    + assumption.
    + intros n Hn. apply (Hchecked (S n)). cbn [length] in *. lia.
Qed.

(** X15: win detection through a game.  From a new game, through any
    sequence of default-player drops during which [winner] answered 0 after
    every drop but the last, [winner] is right about the board: it returns 0
    only when no player has a line of [connect] cells anywhere, and a player
    only when that player has one. *)
Theorem winner_finds_first_line (nr nc k : Z) (g0 : ConnectFour) (cs : list Z) :
  new_game nr nc k = Ok g0 ->
  (forall n, (0 < n < length cs)%nat -> winner (play_all g0 (firstn n cs)) = Ok 0) ->
  exists w, winner (play_all g0 cs) = Ok w /\
            (w = 0 -> forall p, p <> 0 -> ~ has_run (play_all g0 cs) p) /\
            (w <> 0 -> has_run (play_all g0 cs) w).
Proof.
  intros Hnew Hchecked.
  destruct (no_line_new_game nr nc k g0 Hnew) as (Hnone & Hwin & HK).
  apply checked_play; try assumption. apply (in_play_new_game nr nc k). assumption.
Qed.

Lemma winner_finds_first_line_won_game :
  new_game 6 7 4 = Ok empty67 /\
  (forall n, (0 < n < length [0; 0; 1; 1; 2; 2; 3])%nat ->
     winner (play_all empty67 (firstn n [0; 0; 1; 1; 2; 2; 3])) = Ok 0) /\
  exists w, winner (play_all empty67 [0; 0; 1; 1; 2; 2; 3]) = Ok w /\
            (w <> 0 -> has_run (play_all empty67 [0; 0; 1; 1; 2; 2; 3]) w).
Proof.
  assert (new_game 6 7 4 = Ok empty67) as Hnew by (vm_compute; reflexivity).
  assert (forall n, (0 < n < length [0; 0; 1; 1; 2; 2; 3])%nat ->
            winner (play_all empty67 (firstn n [0; 0; 1; 1; 2; 2; 3])) = Ok 0) as Hchecked.
  { intros n Hn. cbn [length] in Hn.
    do 7 (destruct n as [| n]; [try lia; vm_compute; reflexivity |]). lia. }
  split; [exact Hnew |]. split; [exact Hchecked |].
  destruct (winner_finds_first_line 6 7 4 empty67 [0; 0; 1; 1; 2; 2; 3] Hnew Hchecked)
    as (w & Hw & _ & Hrun).
  exists w. split; [exact Hw | exact Hrun].
Defined.

(** * Further properties of the evaluator *)

(** X16: on a well-formed state of a board small enough for the heuristic
    to stay below [WIN_SCORE] (the standard 6 by 7 board is), and for a
    player other than 0, [evaluate] returns [WIN_SCORE] exactly when
    [winner] is the player, [- WIN_SCORE] exactly when it is the opponent,
    and a score strictly between the two otherwise. *)
Theorem evaluate_range (g : ConnectFour) (player : Z) :
  wf g -> player <> 0 ->
  6 * rows g + 400000 * (rows g * cols g) < WIN_SCORE ->
  exists w v,
    winner g = Ok w /\ evaluate g player = Ok v /\
    (v = WIN_SCORE <-> w = player) /\
    (v = - WIN_SCORE <-> w = - player) /\
    - WIN_SCORE <= v <= WIN_SCORE.
Proof.
  intros Hwf Hp Hsmall.
  destruct (evaluate_total g Hwf player) as (w & Hw & E).
  pose proof Hwf as (Hr & Hc & _).
  pose proof (heuristic_score_bound g player Hr Hc) as Hb.
  rewrite WIN_SCORE_value in *.
  eexists w, _. split; [exact Hw |]. split; [exact E |].
  destruct (w =? player) eqn:E1; [lia |].
  destruct (w =? - player) eqn:E2; [lia |].
  destruct (top_row_taken g); lia.
Qed.

Lemma evaluate_range_midgame :
  wf midgame /\ 1 <> 0 /\
  6 * rows midgame + 400000 * (rows midgame * cols midgame) < WIN_SCORE /\
  exists w v,
    winner midgame = Ok w /\ evaluate midgame 1 = Ok v /\
    (v = WIN_SCORE <-> w = 1) /\ (v = - WIN_SCORE <-> w = - (1)) /\
    - WIN_SCORE <= v <= WIN_SCORE.
Proof.
  split; [exact wf_midgame |]. split; [discriminate |].
  split; [vm_compute; reflexivity |].
  apply (evaluate_range midgame 1 wf_midgame).
  - discriminate.
  - vm_compute. reflexivity.
Defined.







(** * Further properties of the searches *)

(** ** A position without a legal move *)

Section NoMove.
Variable heuristic : ConnectFour -> Z -> result Z.
Variables ai depth_limit : Z.

Lemma minimax_search_no_move (w : world) :
  actions (game w) = Ok [] ->
  exists best w',
    Minimax.search heuristic ai depth_limit w = (Ok (best, None), w') /\
    game w' = game w /\ metrics w' = metrics w.
Proof.
  intros Hacts. rewrite minimax_search_eq.
  destruct (trace_root_run ai None None w) as (rid & w1 & Hroot & Hg1 & Hm1 & _).
  step Hroot. step (ask_run (fun g => Ok (current_player g)) w1 _ eq_refl).
  rewrite <- Hg1 in Hacts.
  destruct (current_player (game w1) =? ai).
  - step (ask_run actions w1 _ Hacts). cbn [for_each].
    step (eq_refl : ret (- INF, @None Z) w1 = (Ok (- INF, None), w1)).
    destruct (trace_value_run always rid (fst (- INF, @None Z)) None None w1)
      as (w2 & Hval & Hg2 & Hm2 & _).
    step Hval. eexists _, w2. split; [reflexivity |]. split; congruence.
  - step (ask_run actions w1 _ Hacts). cbn [for_each].
    step (eq_refl : ret (INF, @None Z) w1 = (Ok (INF, None), w1)).
    destruct (trace_value_run always rid (fst (INF, @None Z)) None None w1)
      as (w2 & Hval & Hg2 & Hm2 & _).
    step Hval. eexists _, w2. split; [reflexivity |]. split; congruence.
Qed.

Lemma alphabeta_search_no_move (w : world) :
  actions (game w) = Ok [] ->
  exists best w',
    AlphaBeta.search heuristic ai depth_limit w = (Ok (best, None), w') /\
    game w' = game w /\ metrics w' = metrics w.
Proof.
  intros Hacts. rewrite alphabeta_search_eq.
  destruct (trace_root_run ai (Some (- INF)) (Some INF) w)
    as (rid & w1 & Hroot & Hg1 & Hm1 & _).
  step Hroot. step (ask_run (fun g => Ok (current_player g)) w1 _ eq_refl).
  rewrite <- Hg1 in Hacts.
  destruct (current_player (game w1) =? ai).
  - step (ask_run actions w1 _ Hacts). cbn [for_break].
    step (eq_refl : ret (- INF, @None Z, - INF) w1 = (Ok (- INF, None, - INF), w1)).
    destruct (trace_value_run always rid (fst (fst (- INF, @None Z, - INF)))
                (Some (snd (- INF, @None Z, - INF))) (Some INF) w1)
      as (w2 & Hval & Hg2 & Hm2 & _).
    step Hval. eexists _, w2. split; [reflexivity |]. split; congruence.
  - step (ask_run actions w1 _ Hacts). cbn [for_break].
    step (eq_refl : ret (INF, @None Z, INF) w1 = (Ok (INF, None, INF), w1)).
    destruct (trace_value_run always rid (fst (fst (INF, @None Z, INF)))
                (Some (- INF)) (Some (snd (INF, @None Z, INF))) w1)
      as (w2 & Hval & Hg2 & Hm2 & _).
    step Hval. eexists _, w2. split; [reflexivity |]. split; congruence.
Qed.
End NoMove.

Lemma top_row_taken_true (g : ConnectFour) :
  top_row_taken g = true -> open_cols g = [].
Proof.
  unfold top_row_taken, open_cols. intros H. rewrite forallb_forall in H.
  induction (range (cols g)) as [| c l IH]; [reflexivity |].
  cbn [filter]. pose proof (H c (or_introl eq_refl)) as Hc.
  apply negb_true_iff in Hc. rewrite Hc.
  apply IH. intros x Hx. apply H. right. assumption.
Qed.

(** X18: on a state without a legal move (a full board) neither decision
    returns a column: [int(best_move)] is [int(None)], a [TypeError].  No
    node was expanded, and the game object is as it was, last move
    included. *)
Theorem decision_without_moves
    (g : ConnectFour) (ai depth_limit : Z) (t : option SearchTracer) :
  wf g -> is_full g = Ok true ->
  let minimax := minimax_decision g ai depth_limit t in
  let alphabeta := alphabeta_decision g ai depth_limit t in
  fst minimax = Raise TypeError /\ fst alphabeta = Raise TypeError /\
  game (snd minimax) = g /\ game (snd alphabeta) = g /\
  metrics (snd minimax) = mkMetrics 0 0 /\ metrics (snd alphabeta) = mkMetrics 0 0.
Proof.
  intros Hwf Hfull.
  assert (actions (game (start g t)) = Ok []) as Hacts.
  { cbn [start game]. rewrite (actions_total g Hwf).
    rewrite (is_full_total g Hwf) in Hfull. injection Hfull as Hfull.
    f_equal. apply top_row_taken_true. assumption. }
  destruct (minimax_search_no_move evaluate ai depth_limit _ Hacts)
    as (bm & wm & Hm & Hgm & Hmm).
  destruct (alphabeta_search_no_move evaluate ai depth_limit _ Hacts)
    as (ba & wa & Ha & Hga & Hma).
  cbv zeta. unfold minimax_decision, alphabeta_decision, Minimax.decision,
    AlphaBeta.decision.
  rewrite (decision_of_search _ _ _ _ Hm), (decision_of_search _ _ _ _ Ha).
  cbn [fst snd]. repeat split; assumption.
Qed.

Lemma wf_drawn_board : wf drawn_board.
Proof. check_wf. Qed.

Lemma decision_without_moves_drawn_board :
  wf drawn_board /\ is_full drawn_board = Ok true /\
  fst (minimax_decision drawn_board 1 3 None) = Raise TypeError /\
  fst (alphabeta_decision drawn_board 1 3 (Some (new_tracer 3))) = Raise TypeError /\
  game (snd (minimax_decision drawn_board 1 3 None)) = drawn_board.
Proof.
  split; [exact wf_drawn_board |].
  assert (is_full drawn_board = Ok true) as Hfull by (vm_compute; reflexivity).
  split; [exact Hfull |].
  pose proof (decision_without_moves drawn_board 1 3 None wf_drawn_board Hfull) as Hm.
  pose proof (decision_without_moves drawn_board 1 3 (Some (new_tracer 3))
                wf_drawn_board Hfull) as Ha.
  cbv zeta in Hm, Ha.
  destruct Hm as (Hm1 & _ & Hm2 & _). destruct Ha as (_ & Ha1 & _).
  split; [exact Hm1 |]. split; [exact Ha1 | exact Hm2].
Defined.

(** ** Searches of one ply *)

Lemma leaf_of_total (ai : Z) (maxing : bool) (g : ConnectFour) :
  wf g -> leaf_of ai g = Ok (mm evaluate ai 0 maxing g).
Proof.
  intros Hwf. unfold leaf_of. rewrite (terminal_total g Hwf). cbn [rbind mm].
  destruct (is_terminal g).
  - apply (terminal_value_total g Hwf).
  - apply (static_total evaluate ai (evaluate_never_fails ai) g Hwf).
Qed.

Lemma below_root_one_ply (depth_limit : Z) (g : ConnectFour) :
  depth_limit <= 1 -> below_root depth_limit g = Z.of_nat (length (open_cols g)).
Proof.
  intros Hd. unfold below_root.
  replace (plies_left depth_limit 1) with O by (unfold plies_left; lia).
  induction (open_cols g) as [| a l IH]; [reflexivity |].
  cbn [sum_over length]. rewrite IH. cbn [mm_count].
  destruct (is_terminal (play g a)); lia.
Qed.

(** X19: with a depth limit of 1 or less (0 and negative limits included)
    both searches look one ply ahead: on a well-formed state with a legal
    move they return the first legal column whose position, scored by
    [terminal_value] when it is terminal and by [evaluate] otherwise, is the
    best for [ai_player], the highest when [ai_player] is to move and the
    lowest when it is not; minimax expands one node per legal move. *)
Theorem one_ply_decision
    (g : ConnectFour) (ai depth_limit : Z) (tm ta : option SearchTracer)
    (acts : list Z) :
  wf g -> small g -> depth_limit <= 1 -> actions g = Ok acts -> acts <> [] ->
  exists pre a post v,
    acts = pre ++ a :: post /\
    fst (minimax_decision g ai depth_limit tm) = Ok a /\
    fst (alphabeta_decision g ai depth_limit ta) = Ok a /\
    leaf_of ai (snd (drop_disc g a None)) = Ok v /\
    (forall a', In a' pre -> exists v',
       leaf_of ai (snd (drop_disc g a' None)) = Ok v' /\
       if current_player g =? ai then v' < v else v < v') /\
    (forall a', In a' post -> exists v',
       leaf_of ai (snd (drop_disc g a' None)) = Ok v' /\
       if current_player g =? ai then v' <= v else v <= v') /\
    nodes_expanded (metrics (snd (minimax_decision g ai depth_limit tm)))
    = Z.of_nat (length acts).
Proof.
  intros Hwf Hsmall Hd Hacts Hne.
  rewrite (actions_total g Hwf) in Hacts. injection Hacts as <-.
  destruct (minimax_search_on g ai depth_limit tm Hwf) as (wm & _ & Hmd & _ & _ & Hnm & _).
  destruct (alphabeta_search_on g ai depth_limit ta Hwf) as (wa & _ & Had & _).
  pose proof (ab_root_mm_root evaluate ai (evaluate_static_inside ai) depth_limit g
                Hwf Hsmall) as Hroot.
  pose proof (mm_root_first_best evaluate ai (evaluate_static_inside ai) depth_limit g
                Hwf Hsmall Hne) as Hfirst.
  cbv zeta in Hfirst. destruct Hfirst as (pre & a & post & Hsplit & Hbest & Hpre & Hpost).
  replace (plies_left depth_limit 1) with O in * by (unfold plies_left; lia).
  assert (forall a', In a' (open_cols g) ->
            leaf_of ai (snd (drop_disc g a' None))
            = Ok (mm evaluate ai 0 (negb (current_player g =? ai)) (play g a'))) as Hleaf.
  { intros a' Hin. apply leaf_of_total. apply (wf_play g a' Hwf Hin). }
  exists pre, a, post, (mm evaluate ai 0 (negb (current_player g =? ai)) (play g a)).
  split; [exact Hsplit |].
  rewrite Hmd, Had, Hroot, Hbest. cbn [fst snd].
  split; [reflexivity |]. split; [reflexivity |].
  split; [apply Hleaf; rewrite Hsplit; apply in_elt |].
  split; [| split].
  - intros a' Hin. eexists. split; [| apply (Hpre a' Hin)].
    apply Hleaf. rewrite Hsplit. apply in_or_app. left. assumption.
  - intros a' Hin. eexists. split; [| apply (Hpost a' Hin)].
    apply Hleaf. rewrite Hsplit. apply in_or_app. right. right. assumption.
  - unfold nodes_of in Hnm. rewrite Hnm. apply below_root_one_ply. assumption.
Qed.

Lemma one_ply_decision_midgame :
  wf midgame /\ small midgame /\ 0 <= 1 /\
  actions midgame = Ok [0; 1; 2; 3; 4; 5; 6] /\
  exists a, fst (minimax_decision midgame 1 0 None) = Ok a /\
            fst (alphabeta_decision midgame 1 0 None) = Ok a /\
            nodes_expanded (metrics (snd (minimax_decision midgame 1 0 None))) = 7.
Proof.
  split; [exact wf_midgame |]. split; [exact small_midgame |]. split; [lia |].
  assert (actions midgame = Ok [0; 1; 2; 3; 4; 5; 6]) as Hacts by (vm_compute; reflexivity).
  split; [exact Hacts |].
  destruct (one_ply_decision midgame 1 0 None None [0; 1; 2; 3; 4; 5; 6]
              wf_midgame small_midgame)
    as (pre & a & post & v & _ & Hm & Ha & _ & _ & _ & Hn).
  - lia.
  - exact Hacts.
  - discriminate.
  - exists a. split; [exact Hm |]. split; [exact Ha | exact Hn].
Defined.

Lemma one_ply_value_win (ai : Z) (maxing : bool) (g : ConnectFour) :
  wf g -> ai <> 0 -> 6 * rows g + 400000 * (rows g * cols g) < WIN_SCORE ->
  mm evaluate ai 0 maxing g <= WIN_SCORE /\
  (mm evaluate ai 0 maxing g = WIN_SCORE <-> winner g = Ok ai).
Proof.
  intros Hwf Hai Hb. cbn [mm].
  pose proof (terminal_total g Hwf) as Hterm. unfold terminal in Hterm.
  pose proof (terminal_value_total g Hwf ai) as Hleaf. unfold terminal_value in Hleaf.
  destruct (evaluate_total g Hwf ai) as (w & Hw & E).
  rewrite Hw in Hterm, Hleaf. cbn [rbind] in Hterm, Hleaf.
  pose proof Hwf as (Hr & Hc & _).
  pose proof (heuristic_score_bound g ai Hr Hc) as Hh.
  rewrite WIN_SCORE_value in *. rewrite Hw.
  destruct (is_terminal g) eqn:Et.
  - destruct (w =? ai) eqn:E1.
    + injection Hleaf as <-. split; [lia |]. split; intros _; [f_equal; lia | reflexivity].
    + destruct (w =? - ai) eqn:E2; injection Hleaf as <-; (split; [lia |]);
        split; intros H; try lia; injection H as H; lia.
  - unfold static. rewrite E.
    destruct (w =? ai) eqn:E1.
    + split; [lia |]. split; intros _; [f_equal; lia | reflexivity].
    + destruct (w =? - ai) eqn:E2; [| destruct (top_row_taken g)]; (split; [lia |]);
        split; intros H; try lia; injection H as H; lia.
Qed.

Lemma ascending_split (pre post : list Z) (a b : Z) :
  StronglySorted Z.lt (pre ++ a :: post) -> In b (a :: post) -> a <= b.
Proof.
  induction pre as [| x pre IH]; cbn [app]; intros Hs Hin.
  - apply StronglySorted_inv in Hs. destruct Hs as [_ Hall].
    destruct Hin as [-> | Hin]; [lia |].
    rewrite Forall_forall in Hall. specialize (Hall b Hin). lia.
  - apply StronglySorted_inv in Hs. destruct Hs as [Hs _]. apply IH; assumption.
Qed.

(** X20: with a depth limit of 1 or less, on a board small enough for the
    heuristic to stay below [WIN_SCORE], a search for the player to move
    never passes an immediate win: when some legal column wins at once, both
    decisions return the lowest such column. *)
Theorem one_ply_takes_win
    (g : ConnectFour) (depth_limit : Z) (tm ta : option SearchTracer)
    (acts : list Z) (win : Z) :
  wf g -> 6 * rows g + 400000 * (rows g * cols g) < WIN_SCORE ->
  depth_limit <= 1 -> current_player g <> 0 ->
  actions g = Ok acts -> In win acts ->
  winner (snd (drop_disc g win None)) = Ok (current_player g) ->
  exists a,
    fst (minimax_decision g (current_player g) depth_limit tm) = Ok a /\
    fst (alphabeta_decision g (current_player g) depth_limit ta) = Ok a /\
    In a acts /\
    winner (snd (drop_disc g a None)) = Ok (current_player g) /\
    (forall a', In a' acts ->
       winner (snd (drop_disc g a' None)) = Ok (current_player g) -> a <= a').
Proof.
  intros Hwf Hb Hd Hcp Hacts Hin Hwin.
  rewrite (actions_total g Hwf) in Hacts. injection Hacts as <-.
  assert (small g) as Hsmall
    by (unfold small; rewrite INF_value; rewrite WIN_SCORE_value in Hb; lia).
  assert (open_cols g <> []) as Hne by (intros E; rewrite E in Hin; destruct Hin).
  set (ai := current_player g) in *.
  destruct (minimax_search_on g ai depth_limit tm Hwf) as (wm & _ & Hmd & _).
  destruct (alphabeta_search_on g ai depth_limit ta Hwf) as (wa & _ & Had & _).
  pose proof (ab_root_mm_root evaluate ai (evaluate_static_inside ai) depth_limit g
                Hwf Hsmall) as Hroot.
  pose proof (mm_root_first_best evaluate ai (evaluate_static_inside ai) depth_limit g
                Hwf Hsmall Hne) as Hfirst.
  cbv zeta in Hfirst. destruct Hfirst as (pre & a & post & Hsplit & Hbest & Hpre & Hpost).
  replace (plies_left depth_limit 1) with O in * by (unfold plies_left; lia).
  replace (current_player g =? ai) with true in * by (subst ai; lia).
  cbn [negb] in *.
  assert (forall a', In a' (open_cols g) ->
            mm evaluate ai 0 false (play g a') <= WIN_SCORE /\
            (mm evaluate ai 0 false (play g a') = WIN_SCORE
             <-> winner (play g a') = Ok ai)) as Hval.
  { intros a' Hin'. destruct (wf_play g a' Hwf Hin') as [Hwf' _].
    apply one_ply_value_win; try assumption.
    destruct (drop_from_position g g a' Hwf (same_position_refl g) Hin')
      as (r & _ & _ & _ & _ & _ & ->). exact Hb. }
  fold (play g win) in Hwin.
  assert (In a (open_cols g)) as Hina by (rewrite Hsplit; apply in_elt).
  assert (mm evaluate ai 0 false (play g a) = WIN_SCORE) as Hbestval.
  { pose proof (proj2 (proj2 (Hval win Hin)) Hwin) as Hw.
    pose proof (proj1 (Hval a Hina)) as Hle.
    rewrite Hsplit in Hin. apply in_app_or in Hin. destruct Hin as [Hin | [<- | Hin]].
    - specialize (Hpre win Hin). lia.
    - assumption.
    - specialize (Hpost win Hin). lia. }
  exists a. rewrite Hmd, Had, Hroot, Hbest. cbn [fst snd].
  split; [reflexivity |]. split; [reflexivity |]. split; [assumption |].
  split; [apply (Hval a Hina); assumption |].
  intros a' Hin' Hwin'. fold (play g a') in Hwin'.
  pose proof (proj2 (proj2 (Hval a' Hin')) Hwin') as Hw'.
  pose proof (open_cols_ascending g) as Hsorted. rewrite Hsplit in Hsorted, Hin'.
  apply in_app_or in Hin'. destruct Hin' as [Hin' | Hin'].
  - specialize (Hpre a' Hin'). lia.
  - apply (ascending_split pre post a a' Hsorted Hin').
Qed.

Lemma wf_open_three : wf open_three.
Proof. check_wf. Qed.

Lemma one_ply_takes_win_open_three :
  wf open_three /\
  6 * rows open_three + 400000 * (rows open_three * cols open_three) < WIN_SCORE /\
  current_player open_three = 1 /\
  winner (snd (drop_disc open_three 3 None)) = Ok 1 /\
  exists a,
    fst (minimax_decision open_three 1 1 None) = Ok a /\
    fst (alphabeta_decision open_three 1 1 None) = Ok a /\
    winner (snd (drop_disc open_three a None)) = Ok 1 /\ a <= 3.
Proof.
  split; [exact wf_open_three |]. split; [vm_compute; reflexivity |].
  split; [vm_compute; reflexivity |].
  assert (winner (snd (drop_disc open_three 3 None)) = Ok (current_player open_three))
    as Hwin by (vm_compute; reflexivity).
  split; [exact Hwin |].
  assert (actions open_three = Ok [0; 1; 2; 3; 4; 5; 6]) as Hacts
    by (vm_compute; reflexivity).
  assert (In 3 [0; 1; 2; 3; 4; 5; 6]) as Hin by (cbn [In]; auto).
  destruct (one_ply_takes_win open_three 1 None None [0; 1; 2; 3; 4; 5; 6] 3
              wf_open_three) as (a & Hm & Ha & _ & Hw & Hlow); try assumption.
  - vm_compute. reflexivity.
  - lia.
  - vm_compute. discriminate.
  - exists a. split; [exact Hm |]. split; [exact Ha |]. split; [exact Hw |].
    apply (Hlow 3 Hin Hwin).
Defined.

(** ** The size of a search *)

Lemma tree_size_least (b : Z) (n : nat) : 0 <= b -> 1 <= tree_size b n.
Proof. intros Hb. induction n as [| n IH]; cbn [tree_size]; nia. Qed.

Lemma sum_over_at_most {A} (l : list A) (f : A -> Z) (k : Z) :
  (forall x, In x l -> f x <= k) -> sum_over l f <= Z.of_nat (length l) * k.
Proof.
  induction l as [| x l IH]; intros H; [simpl; lia |].
  cbn [sum_over length].
  specialize (IH (fun y Hy => H y (or_intror Hy))).
  specialize (H x (or_introl eq_refl)). nia.
Qed.

Lemma length_filter_le {A} (p : A -> bool) (l : list A) :
  (length (filter p l) <= length l)%nat.
Proof.
  induction l as [| x l IH]; [simpl; lia |].
  cbn [filter]. destruct (p x); simpl; lia.
Qed.

Lemma length_open_cols (g : ConnectFour) :
  0 < cols g -> Z.of_nat (length (open_cols g)) <= cols g.
Proof.
  intros Hc. unfold open_cols.
  pose proof (length_filter_le (fun c => cell_at (board g) 0 c =? 0) (range (cols g))).
  pose proof (length_range (cols g)). lia.
Qed.

Lemma cols_play (g : ConnectFour) (a : Z) :
  wf g -> In a (open_cols g) -> wf (play g a) /\ cols (play g a) = cols g.
Proof.
  intros Hwf Hin. split; [apply (wf_play g a Hwf Hin) |].
  destruct (drop_from_position g g a Hwf (same_position_refl g) Hin)
    as (r & _ & _ & _ & _ & _ & ->). reflexivity.
Qed.

Lemma mm_count_at_most (left : nat) :
  forall g, wf g -> mm_count left g <= tree_size (cols g) left.
Proof.
  induction left as [| left IH]; intros g Hwf; cbn [mm_count tree_size].
  - destruct (is_terminal g); lia.
  - pose proof Hwf as (_ & Hc & _).
    pose proof (tree_size_least (cols g) left) as Hleast.
    destruct (is_terminal g); [nia |].
    pose proof (sum_over_at_most (open_cols g) (fun a => mm_count left (play g a))
                  (tree_size (cols g) left)) as Hsum.
    pose proof (length_open_cols g Hc) as Hlen.
    assert (forall a, In a (open_cols g) ->
              mm_count left (play g a) <= tree_size (cols g) left) as Hall.
    { intros a Hin. destruct (cols_play g a Hwf Hin) as [Hwf' <-]. apply IH. assumption. }
    specialize (Hsum Hall). nia.
Qed.

(** X21: the searches stay within the full tree of the board's width: on a
    well-formed state minimax expands at least one node per legal move and
    at most [cols + cols^2 + ... + cols^depth] nodes, [depth] being the
    depth limit or 1 if that is larger, and alpha-beta stays within the same
    bound. *)
Theorem search_size_bound
    (g : ConnectFour) (ai depth_limit : Z) (tm ta : option SearchTracer)
    (acts : list Z) :
  wf g -> actions g = Ok acts ->
  let full := cols g * tree_size (cols g) (Z.to_nat (depth_limit - 1)) in
  Z.of_nat (length acts)
  <= nodes_expanded (metrics (snd (minimax_decision g ai depth_limit tm))) <= full /\
  nodes_expanded (metrics (snd (alphabeta_decision g ai depth_limit ta))) <= full.
Proof.
  intros Hwf Hacts. rewrite (actions_total g Hwf) in Hacts. injection Hacts as <-.
  destruct (minimax_search_on g ai depth_limit tm Hwf) as (wm & _ & Hmd & _ & _ & Hnm & _).
  destruct (alphabeta_search_on g ai depth_limit ta Hwf)
    as (wa & _ & Had & _ & _ & Hna & Hpa & _).
  cbv zeta. rewrite Hmd, Had. cbn [snd]. unfold nodes_of, pruned_of in *.
  pose proof Hwf as (_ & Hc & _).
  assert (Z.of_nat (length (open_cols g)) <= below_root depth_limit g
          <= cols g * tree_size (cols g) (Z.to_nat (depth_limit - 1))) as Hbound.
  { unfold below_root, plies_left. split.
    - apply sum_over_least. intros a. apply mm_count_least.
    - pose proof (sum_over_at_most (open_cols g)
                    (fun a => mm_count (Z.to_nat (depth_limit - 1)) (play g a))
                    (tree_size (cols g) (Z.to_nat (depth_limit - 1)))) as Hsum.
      pose proof (length_open_cols g Hc) as Hlen.
      pose proof (tree_size_least (cols g) (Z.to_nat (depth_limit - 1))) as Hleast.
      assert (forall a, In a (open_cols g) ->
                mm_count (Z.to_nat (depth_limit - 1)) (play g a)
                <= tree_size (cols g) (Z.to_nat (depth_limit - 1))) as Hall.
      { intros a Hin. destruct (cols_play g a Hwf Hin) as [Hwf' <-].
        apply mm_count_at_most. assumption. }
      specialize (Hsum Hall). nia. }
  lia.
Qed.

Lemma search_size_bound_midgame :
  wf midgame /\ actions midgame = Ok [0; 1; 2; 3; 4; 5; 6] /\
  7 <= nodes_expanded (metrics (snd (minimax_decision midgame 1 3 None))) <= 399 /\
  nodes_expanded (metrics (snd (alphabeta_decision midgame 1 3 None))) <= 399.
Proof.
  split; [exact wf_midgame |].
  assert (actions midgame = Ok [0; 1; 2; 3; 4; 5; 6]) as Hacts by (vm_compute; reflexivity).
  split; [exact Hacts |].
  apply (search_size_bound midgame 1 3 None None [0; 1; 2; 3; 4; 5; 6] wf_midgame Hacts).
Defined.

(** ** Alpha-beta against minimax, node by node *)

(** X22: at every node the two searches agree up to the window.  Called at
    depth [d] on the same well-formed position with a window
    [alpha < beta], alpha-beta's [max_value] returns the value of minimax's
    [max_value] when that value lies inside the window, a value at or below
    [alpha] when it is at or below [alpha], and a value at or above [beta]
    when it is at or above [beta]; the same holds for [min_value].  Both
    calls return, and both leave the board and the turn as they were. *)
Theorem alphabeta_brackets_minimax
    (ai depth_limit d alpha beta : Z) (nid nid' : option Z) (w : world) :
  wf (game w) -> alpha < beta ->
  let fuel := plies_left depth_limit d in
  let bracket (cut plain : result Z * world) :=
    exists v m,
      fst cut = Ok v /\ fst plain = Ok m /\
      (m <= alpha -> v <= alpha) /\ (alpha < m < beta -> v = m) /\
      (beta <= m -> beta <= v) /\
      same_position (game w) (game (snd cut)) /\
      same_position (game w) (game (snd plain)) in
  bracket (AlphaBeta.max_value evaluate ai depth_limit fuel d alpha beta nid w)
          (Minimax.max_value evaluate ai depth_limit fuel d nid' w) /\
  bracket (AlphaBeta.min_value evaluate ai depth_limit fuel d alpha beta nid w)
          (Minimax.min_value evaluate ai depth_limit fuel d nid' w).
Proof.
  intros Hwf Hab. cbv zeta.
  destruct (minimax_node_run evaluate ai depth_limit (evaluate_never_fails ai)
              (plies_left depth_limit d) d eq_refl) as [Hmax Hmin].
  destruct (alphabeta_node_run evaluate ai depth_limit (evaluate_never_fails ai)
              (plies_left depth_limit d) d eq_refl) as [Hcmax Hcmin].
  destruct (Hmax nid' w Hwf) as (w1 & E1 & S1 & _).
  destruct (Hmin nid' w Hwf) as (w2 & E2 & S2 & _).
  destruct (Hcmax alpha beta nid w Hwf) as (w3 & E3 & S3 & _).
  destruct (Hcmin alpha beta nid w Hwf) as (w4 & E4 & S4 & _).
  rewrite E1, E2, E3, E4. cbn [fst snd].
  pose proof (ab_agrees evaluate ai (plies_left depth_limit d) true alpha beta (game w) Hab)
    as (A1 & A2 & A3).
  pose proof (ab_agrees evaluate ai (plies_left depth_limit d) false alpha beta (game w) Hab)
    as (B1 & B2 & B3).
  split; eexists _, _; (split; [reflexivity |]); (split; [reflexivity |]); auto 10.
Qed.

Lemma alphabeta_brackets_minimax_midgame :
  wf (game (start midgame None)) /\ 0 < 50 /\
  exists v m,
    fst (AlphaBeta.max_value evaluate 1 3 (plies_left 3 1) 1 0 50 None (start midgame None))
    = Ok v /\
    fst (Minimax.max_value evaluate 1 3 (plies_left 3 1) 1 None (start midgame None))
    = Ok m /\
    (m <= 0 -> v <= 0) /\ (0 < m < 50 -> v = m) /\ (50 <= m -> 50 <= v).
Proof.
  split; [exact wf_midgame |]. split; [lia |].
  destruct (alphabeta_brackets_minimax 1 3 1 0 50 None None (start midgame None)
              wf_midgame) as [(v & m & Hv & Hm & H1 & H2 & H3 & _) _]; [lia |].
  exists v, m. repeat split; assumption.
Defined.

(** ** The searches and the game tree *)

(** X23: the searches work on one game object, dropping and undoing discs,
    and yet compute what the recursion on positions computes.  On a
    well-formed state the pair [(best_val, best_move)] minimax ends with is
    [mm_root], the fold of [mm] (the minimax value by recursion on the
    positions [play g a]) over the legal moves; alpha-beta ends with
    [ab_root], the same for the windowed recursion [ab]; and minimax counts
    one call per node of that tree, [below_root]. *)
Theorem searches_follow_the_tree
    (g : ConnectFour) (ai depth_limit : Z) (t : option SearchTracer) :
  wf g ->
  fst (minimax_search g ai depth_limit t) = Ok (mm_root evaluate ai depth_limit g) /\
  fst (alphabeta_search g ai depth_limit t) = Ok (ab_root evaluate ai depth_limit g) /\
  nodes_expanded (metrics (snd (minimax_search g ai depth_limit t)))
  = below_root depth_limit g.
Proof.
  intros Hwf.
  destruct (minimax_search_on g ai depth_limit t Hwf) as (wm & Hm & _ & _ & _ & Hn & _).
  destruct (alphabeta_search_on g ai depth_limit t Hwf) as (wa & Ha & _).
  rewrite Hm, Ha. cbn [fst snd]. auto.
Qed.

Lemma searches_follow_the_tree_midgame :
  wf midgame /\
  fst (minimax_search midgame 1 2 None) = Ok (mm_root evaluate 1 2 midgame) /\
  fst (alphabeta_search midgame 1 2 None) = Ok (ab_root evaluate 1 2 midgame) /\
  nodes_expanded (metrics (snd (minimax_search midgame 1 2 None)))
  = below_root 2 midgame.
Proof.
  split; [exact wf_midgame |].
  apply (searches_follow_the_tree midgame 1 2 None wf_midgame).
Defined.

(** * The tracer *)

(** ** Tracing does not change a search *)

Lemma alike_ret {A B} (rel : A -> B -> Prop) (a : A) (b : B) :
  rel a b -> alike rel (ret a) (ret b).
Proof. intros H w1 w2 Hw. split; [exact H | exact Hw]. Qed.

Lemma alike_bind {A B C D} (rel : A -> B -> Prop) (rel' : C -> D -> Prop)
    (m1 : M A) (m2 : M B) (k1 : A -> M C) (k2 : B -> M D) :
  alike rel m1 m2 -> (forall a b, rel a b -> alike rel' (k1 a) (k2 b)) ->
  alike rel' (bind m1 k1) (bind m2 k2).
Proof.
  intros Hm Hk w1 w2 Hw. unfold bind. destruct (Hm w1 w2 Hw) as [Hout Hrun].
  destruct (m1 w1) as [[a | e1] w1']; destruct (m2 w2) as [[b | e2] w2'];
    cbn [fst snd same_outcome] in *; try contradiction.
  - apply Hk; assumption.
  - split; assumption.
Qed.

Lemma alike_ask {A} (f : ConnectFour -> result A) : alike eq (ask f) (ask f).
Proof.
  intros w1 w2 [Hg Hm]. unfold ask. cbn [fst snd]. rewrite Hg.
  split; [| split; assumption]. destruct (f (game w2)); reflexivity.
Qed.

Lemma alike_count_node (d : Z) : alike eq (count_node d) (count_node d).
Proof.
  intros w1 w2 [Hg Hm]. unfold count_node, same_run. cbn [fst snd game metrics].
  rewrite Hg, Hm. repeat split.
Qed.

Lemma alike_do_drop (a : Z) : alike eq (do_drop a) (do_drop a).
Proof.
  intros w1 w2 [Hg Hm]. unfold do_drop. rewrite Hg.
  destruct (drop_disc (game w2) a None) as [[mv | e] g']; cbn [fst snd];
    (split; [reflexivity | split; [reflexivity | exact Hm]]).
Qed.

Lemma alike_do_undo (mv : MoveResult) : alike eq (do_undo mv) (do_undo mv).
Proof.
  intros w1 w2 [Hg Hm]. unfold do_undo. rewrite Hg.
  destruct (undo_disc (game w2) mv) as [[u | e] g']; cbn [fst snd];
    (split; [reflexivity | split; [reflexivity | exact Hm]]).
Qed.

Lemma alike_int_of (best_move : option Z) : alike eq (int_of best_move) (int_of best_move).
Proof.
  intros w1 w2 Hw. unfold int_of. destruct best_move; (split; [reflexivity | exact Hw]).
Qed.

Lemma alike_out_of_fuel {A} : alike (@eq A) out_of_fuel out_of_fuel.
Proof. intros w1 w2 Hw. split; [reflexivity | exact Hw]. Qed.

Lemma trace_child_quiet (within : SearchTracer -> bool) (ai : Z) (nid : option Z)
    (a depth : Z) (alpha beta : option Z) (w : world) :
  exists cid w', trace_child within ai nid a depth alpha beta w = (Ok cid, w') /\
                 game w' = game w /\ metrics w' = metrics w.
Proof.
  destruct (trace_child_run within ai nid a depth alpha beta w)
    as (cid & w' & H & Hg & Hm & _). eauto.
Qed.

Lemma alike_trace_child (within within' : SearchTracer -> bool) (ai : Z)
    (nid nid' : option Z) (a depth depth' : Z) (alpha beta alpha' beta' : option Z) :
  alike any (trace_child within ai nid a depth alpha beta)
            (trace_child within' ai nid' a depth' alpha' beta').
Proof.
  intros w1 w2 [Hg Hm].
  destruct (trace_child_quiet within ai nid a depth alpha beta w1)
    as (c1 & w1' & -> & Hg1 & Hm1).
  destruct (trace_child_quiet within' ai nid' a depth' alpha' beta' w2)
    as (c2 & w2' & -> & Hg2 & Hm2).
  cbn [fst snd]. split; [exact I | split; congruence].
Qed.

Lemma alike_trace_root (ai : Z) (alpha beta : option Z) :
  alike any (trace_root ai alpha beta) (trace_root ai alpha beta).
Proof.
  intros w1 w2 [Hg Hm].
  destruct (trace_root_run ai alpha beta w1) as (c1 & w1' & -> & Hg1 & Hm1 & _).
  destruct (trace_root_run ai alpha beta w2) as (c2 & w2' & -> & Hg2 & Hm2 & _).
  cbn [fst snd]. split; [exact I | split; congruence].
Qed.

Lemma alike_trace_value (within : SearchTracer -> bool) (nid nid' : option Z) (v : Z)
    (alpha beta : option Z) :
  alike eq (trace_value within nid v alpha beta) (trace_value within nid' v alpha beta).
Proof.
  intros w1 w2 [Hg Hm].
  destruct (trace_value_run within nid v alpha beta w1) as (w1' & -> & Hg1 & Hm1 & _).
  destruct (trace_value_run within nid' v alpha beta w2) as (w2' & -> & Hg2 & Hm2 & _).
  cbn [fst snd]. split; [reflexivity | split; congruence].
Qed.

Lemma alike_trace_pruned (within : SearchTracer -> bool) (nid nid' : option Z)
    (rest : list Z) (depth alpha beta : Z) :
  alike eq (trace_pruned within nid rest depth alpha beta)
           (trace_pruned within nid' rest depth alpha beta).
Proof.
  intros w1 w2 [Hg Hm].
  destruct (trace_pruned_run within nid rest depth alpha beta w1)
    as (w1' & -> & Hg1 & Hm1 & _).
  destruct (trace_pruned_run within nid' rest depth alpha beta w2)
    as (w2' & -> & Hg2 & Hm2 & _).
  cbn [fst snd]. split; [reflexivity | split; congruence].
Qed.

Lemma alike_for_each {A} (acts : list Z) (body body' : Z -> A -> M A) :
  (forall a acc, alike eq (body a acc) (body' a acc)) ->
  forall acc, alike eq (for_each acts acc body) (for_each acts acc body').
Proof.
  intros Hbody. induction acts as [| a acts IH]; intros acc; cbn [for_each].
  - apply alike_ret. reflexivity.
  - apply (alike_bind eq); [apply Hbody |]. intros acc1 acc2 <-. apply IH.
Qed.

Lemma alike_for_break {A} (acts : list Z) (body body' : Z -> list Z -> A -> M (A * bool)) :
  (forall a rest acc, alike eq (body a rest acc) (body' a rest acc)) ->
  forall acc, alike eq (for_break acts acc body) (for_break acts acc body').
Proof.
  intros Hbody. induction acts as [| a acts IH]; intros acc; cbn [for_break].
  - apply alike_ret. reflexivity.
  - apply (alike_bind eq); [apply Hbody |]. intros r1 r2 <-.
    destruct (snd r1); [apply alike_ret; reflexivity | apply IH].
Qed.

Lemma alike_plain_body {A} (ai : Z) (within : SearchTracer -> bool) (nid nid' : option Z)
    (depth : Z) (child : option Z -> M Z) (combine : Z -> Z -> A -> A) (a : Z) (acc : A) :
  (forall cid cid', alike eq (child cid) (child cid')) ->
  alike eq (plain_body ai within nid depth child combine a acc)
           (plain_body ai within nid' depth child combine a acc).
Proof.
  intros Hchild. unfold plain_body.
  apply (alike_bind eq); [apply alike_do_drop | intros mv mv' <-].
  apply (alike_bind any); [apply alike_trace_child | intros cid cid' _].
  apply (alike_bind eq); [apply Hchild | intros val val' <-].
  apply (alike_bind eq); [apply alike_do_undo | intros u u' _].
  apply alike_ret. reflexivity.
Qed.

Lemma alike_cut_body {A} (ai : Z) (within : SearchTracer -> bool) (nid nid' : option Z)
    (depth : Z) (child : Z -> Z -> option Z -> M Z) (window : Z -> Z * Z)
    (combine : Z -> Z -> A -> A) (key : A -> Z) (tighten : Z -> Z -> Z)
    (a : Z) (rest : list Z) (st : A * Z) :
  (forall alpha beta cid cid', alike eq (child alpha beta cid) (child alpha beta cid')) ->
  alike eq (cut_body ai within nid depth child window combine key tighten a rest st)
           (cut_body ai within nid' depth child window combine key tighten a rest st).
Proof.
  intros Hchild. unfold cut_body.
  apply (alike_bind eq); [apply alike_do_drop | intros mv mv' <-].
  apply (alike_bind any); [apply alike_trace_child | intros cid cid' _].
  apply (alike_bind eq); [apply Hchild | intros val val' <-].
  apply (alike_bind eq); [apply alike_do_undo | intros u u' _]. cbv zeta.
  match goal with |- context [if ?c then _ else _] => destruct c end.
  - apply (alike_bind eq); [apply alike_trace_pruned | intros u1 u2 _].
    apply alike_ret. reflexivity.
  - apply alike_ret. reflexivity.
Qed.

Section AlikeClosures.
Variable heuristic : ConnectFour -> Z -> result Z.
Variables ai depth_limit : Z.

Lemma alike_minimax (fuel : nat) :
  forall d nid nid',
    alike eq (Minimax.max_value heuristic ai depth_limit fuel d nid)
             (Minimax.max_value heuristic ai depth_limit fuel d nid') /\
    alike eq (Minimax.min_value heuristic ai depth_limit fuel d nid)
             (Minimax.min_value heuristic ai depth_limit fuel d nid').
Proof.
  induction fuel as [| fuel IH]; intros d nid nid'; split;
    rewrite ?minimax_max_value_eq, ?minimax_min_value_eq;
    (apply (alike_bind eq); [apply alike_count_node | intros u u' _]);
    (apply (alike_bind eq); [apply alike_ask | intros t t' <-]);
    (destruct t; [apply alike_ask |]);
    (destruct (d >=? depth_limit); [apply alike_ask |]);
    try apply alike_out_of_fuel;
    (apply (alike_bind eq); [apply alike_ask | intros acts acts' <-]);
    (apply (alike_bind eq);
     [| intros v v' <-; apply (alike_bind eq);
        [apply alike_trace_value | intros u1 u2 _; apply alike_ret; reflexivity]]);
    apply alike_for_each; intros a acc; apply alike_plain_body;
    intros cid cid'; apply IH.
Qed.

Lemma alike_alphabeta (fuel : nat) :
  forall d alpha beta nid nid',
    alike eq (AlphaBeta.max_value heuristic ai depth_limit fuel d alpha beta nid)
             (AlphaBeta.max_value heuristic ai depth_limit fuel d alpha beta nid') /\
    alike eq (AlphaBeta.min_value heuristic ai depth_limit fuel d alpha beta nid)
             (AlphaBeta.min_value heuristic ai depth_limit fuel d alpha beta nid').
Proof.
  induction fuel as [| fuel IH]; intros d alpha beta nid nid'; split;
    rewrite ?alphabeta_max_value_eq, ?alphabeta_min_value_eq;
    (apply (alike_bind eq); [apply alike_count_node | intros u u' _]);
    (apply (alike_bind eq); [apply alike_ask | intros t t' <-]);
    (destruct t; [apply alike_ask |]);
    (destruct (d >=? depth_limit); [apply alike_ask |]);
    try apply alike_out_of_fuel;
    (apply (alike_bind eq); [apply alike_ask | intros acts acts' <-]);
    (apply (alike_bind eq);
     [| intros v v' <-; apply (alike_bind eq);
        [apply alike_trace_value | intros u1 u2 _; apply alike_ret; reflexivity]]);
    apply alike_for_break; intros a rest acc; apply alike_cut_body;
    intros al be cid cid'; apply IH.
Qed.

Lemma alike_minimax_decision :
  alike eq (Minimax.decision heuristic ai depth_limit)
           (Minimax.decision heuristic ai depth_limit).
Proof.
  unfold Minimax.decision. rewrite minimax_search_eq.
  apply (alike_bind eq); [| intros best best' <-; apply alike_int_of].
  apply (alike_bind any); [apply alike_trace_root | intros rid rid' _].
  apply (alike_bind eq); [apply alike_ask | intros cp cp' <-].
  destruct (cp =? ai);
    (apply (alike_bind eq); [apply alike_ask | intros acts acts' <-]);
    (apply (alike_bind eq);
     [| intros v v' <-; apply (alike_bind eq);
        [apply alike_trace_value | intros u1 u2 _; apply alike_ret; reflexivity]]);
    apply alike_for_each; intros a acc; apply alike_plain_body;
    intros cid cid'; apply alike_minimax.
Qed.

Lemma alike_alphabeta_decision :
  alike eq (AlphaBeta.decision heuristic ai depth_limit)
           (AlphaBeta.decision heuristic ai depth_limit).
Proof.
  unfold AlphaBeta.decision. rewrite alphabeta_search_eq.
  apply (alike_bind eq); [| intros best best' <-; apply alike_int_of].
  apply (alike_bind any); [apply alike_trace_root | intros rid rid' _].
  apply (alike_bind eq); [apply alike_ask | intros cp cp' <-].
  destruct (cp =? ai);
    (apply (alike_bind eq); [apply alike_ask | intros acts acts' <-]);
    (apply (alike_bind eq);
     [| intros v v' <-; apply (alike_bind eq);
        [apply alike_trace_value | intros u1 u2 _; apply alike_ret; reflexivity]]);
    apply alike_for_break; intros a rest acc; apply alike_cut_body;
    intros al be cid cid'; apply alike_alphabeta.
Qed.
End AlikeClosures.

Lemma same_outcome_eq {A} (r1 r2 : result A) : same_outcome eq r1 r2 -> r1 = r2.
Proof.
  destruct r1, r2; cbn [same_outcome]; intros H; try contradiction; congruence.
Qed.

(** X24: tracing is an observer.  For every state, well-formed or not,
    every player and every depth limit, the outcome of [minimax_decision]
    and of [alphabeta_decision] (the column, or the exception), the metrics
    and the game object they leave are the same whatever tracer is passed,
    none included. *)
Theorem tracer_does_not_interfere
    (g : ConnectFour) (ai depth_limit : Z) (t t' : option SearchTracer) :
  let same (run : option SearchTracer -> result Z * world) :=
    fst (run t) = fst (run t') /\
    metrics (snd (run t)) = metrics (snd (run t')) /\
    game (snd (run t)) = game (snd (run t')) in
  same (minimax_decision g ai depth_limit) /\ same (alphabeta_decision g ai depth_limit).
Proof.
  cbv zeta. unfold minimax_decision, alphabeta_decision.
  assert (same_run (start g t) (start g t')) as Hw by (split; reflexivity).
  destruct (alike_minimax_decision evaluate ai depth_limit _ _ Hw) as [Hm1 [Hm2 Hm3]].
  destruct (alike_alphabeta_decision evaluate ai depth_limit _ _ Hw) as [Ha1 [Ha2 Ha3]].
  apply same_outcome_eq in Hm1, Ha1. repeat split; assumption.
Qed.

(** ** The trace is a tree *)

Lemma frozen_fields (n n' : TraceNode) :
  frozen n' = frozen n ->
  n_id n' = n_id n /\ n_parent n' = n_parent n /\ n_move n' = n_move n /\
  n_depth n' = n_depth n /\ n_kind n' = n_kind n /\ n_pruned n' = n_pruned n.
Proof. unfold frozen. intros H. injection H. intros. repeat split; assumption. Qed.

Lemma in_frozen (ns ns' : list TraceNode)
    (more : list (Z * option Z * option Z * Z * Z * node_kind * bool)) (p : TraceNode) :
  map frozen ns' = map frozen ns ++ more -> In p ns ->
  exists p', In p' ns' /\ frozen p' = frozen p.
Proof.
  intros E Hin. assert (In (frozen p) (map frozen ns')) as H.
  { rewrite E. apply in_or_app. left. apply in_map. assumption. }
  apply in_map_iff in H. destruct H as (p' & E' & Hin'). eauto.
Qed.

Lemma extends_refl (t : option SearchTracer) : extends t t.
Proof.
  destruct t as [t |]; [| exact I]. cbn [extends].
  split; [reflexivity |]. split; [reflexivity |]. exists []. rewrite app_nil_r. reflexivity.
Qed.

Lemma extends_trans (t1 t2 t3 : option SearchTracer) :
  extends t1 t2 -> extends t2 t3 -> extends t1 t3.
Proof.
  destruct t1 as [t1 |], t2 as [t2 |], t3 as [t3 |]; cbn [extends]; try tauto.
  intros (E1 & O1 & m1 & M1) (E2 & O2 & m2 & M2).
  split; [congruence |]. split; [congruence |].
  exists (m1 ++ m2). rewrite M2, M1, app_assoc. reflexivity.
Qed.

Lemma stable_linked (d : Z) (nid : option Z) : stable (linked d nid).
Proof.
  intros w w' Hl Hext t' Et'. rewrite Et' in Hext.
  destruct (tracer w) as [t |] eqn:Et; [| contradiction].
  destruct Hext as (Etd & _ & more & Emore).
  destruct (Hl t Et) as [H1 H2]. rewrite Etd. split; [exact H1 |].
  intros i Ei. destruct (H2 i Ei) as (p & Hin & Hid & Hd & Hk).
  destruct (in_frozen _ _ _ p Emore Hin) as (p' & Hin' & Ef).
  apply frozen_fields in Ef. destruct Ef as (F1 & _ & _ & F4 & F5 & _).
  exists p'. split; [assumption |]. split; [congruence |]. split; congruence.
Qed.

Lemma stable_and (pre pre' : world -> Prop) :
  stable pre -> stable pre' -> stable (fun w => pre w /\ pre' w).
Proof. intros H H' w w' [Hp Hp'] Hext. split; [apply (H w) | apply (H' w)]; assumption. Qed.

Lemma stable_anyhow {A} (a : A) : stable (anyhow a).
Proof. intros w w' _ _. exact I. Qed.

Lemma stable_true : stable (fun _ => True).
Proof. intros w w' _ _. exact I. Qed.

Ltac solve_stable :=
  repeat (apply stable_and || apply stable_linked || apply stable_anyhow
          || apply stable_true).

(** *** One node more *)

Lemma hangs_in_more (ns more : list TraceNode) (n : TraceNode) :
  hangs_in ns n -> hangs_in (ns ++ more) n.
Proof.
  unfold hangs_in. destruct (n_parent n); [| tauto].
  intros (Hm & p & Hin & H). split; [assumption |].
  exists p. split; [apply in_or_app; left; assumption | assumption].
Qed.

Lemma ids_below_next (t : SearchTracer) (p : TraceNode) :
  ids_in_order t -> In p (nodes t) -> n_id p < _next_id t.
Proof.
  intros Hids Hin. apply (in_map n_id) in Hin. rewrite Hids in Hin.
  apply in_range_from in Hin. lia.
Qed.

Lemma tree_ok_new_node (t : SearchTracer) (parent move : option Z) (depth tp : Z)
    (kind : node_kind) (alpha beta : option Z) (flag : bool) :
  tree_ok t ->
  0 <= depth <= Z.max 0 (trace_depth t) ->
  (flag = true <-> kind = PRUNED) ->
  match parent with
  | None => depth = 0 /\ move = None
  | Some i => move <> None /\
              exists p, In p (nodes t) /\ n_id p = i /\ depth = n_depth p + 1 /\
                        n_kind p <> PRUNED
  end ->
  tree_ok (snd (new_node t parent move depth tp kind alpha beta flag)).
Proof.
  intros [Hids Hall] Hdepth Hflag Hparent. unfold new_node, tree_ok.
  cbn [snd nodes trace_depth _next_id]. split.
  - unfold ids_in_order. cbn [nodes _next_id].
    rewrite map_app, length_app, Hids. cbn [map length n_id].
    replace (_next_id t + 1 - Z.of_nat (length (nodes t) + 1))
      with (_next_id t - Z.of_nat (length (nodes t))) by lia.
    rewrite range_from_succ by lia. reflexivity.
  - apply Forall_app. split.
    + apply (Forall_impl _ (P := node_ok (trace_depth t) (nodes t))); [| exact Hall].
      intros n (H1 & H2 & H3). split; [apply hangs_in_more; assumption |].
      split; assumption.
    + constructor; [| constructor]. split; [| split; assumption].
      unfold hangs_in. cbn [n_parent n_depth n_move n_id].
      destruct parent as [i |]; [| assumption].
      destruct Hparent as (Hm & p & Hin & Hid & Hd & Hk).
      split; [assumption |]. exists p.
      split; [apply in_or_app; left; assumption |]. split; [assumption |].
      split; [| split; assumption].
      rewrite <- Hid. apply ids_below_next; assumption.
Qed.

Lemma extends_new_node (t : SearchTracer) (parent move : option Z) (depth tp : Z)
    (kind : node_kind) (alpha beta : option Z) (flag : bool) :
  extends (Some t) (Some (snd (new_node t parent move depth tp kind alpha beta flag))).
Proof.
  unfold new_node. cbn [extends snd trace_depth nodes _next_id].
  split; [reflexivity |]. split; [rewrite length_app; simpl; lia |].
  rewrite map_app. eexists. reflexivity.
Qed.

(** *** A value written *)

Lemma frozen_set_value_in (ns : list TraceNode) (i v : Z) (alpha beta : option Z) :
  map frozen (set_value_in ns i v alpha beta) = map frozen ns.
Proof.
  induction ns as [| n ns IH]; [reflexivity |].
  cbn [set_value_in]. destruct (n_id n =? i); cbn [map]; [reflexivity |].
  rewrite IH. reflexivity.
Qed.

Lemma tree_ok_same_frozen (t t' : SearchTracer) :
  trace_depth t' = trace_depth t -> _next_id t' = _next_id t ->
  map frozen (nodes t') = map frozen (nodes t) ->
  tree_ok t -> tree_ok t'.
Proof.
  intros Etd Enext Efrozen [Hids Hall].
  assert (map n_id (nodes t') = map n_id (nodes t)) as Eids.
  { apply (f_equal (map (fun f => fst (fst (fst (fst (fst (fst f)))))))) in Efrozen.
    rewrite !map_map in Efrozen. exact Efrozen. }
  assert (length (nodes t') = length (nodes t)) as Elen.
  { apply (f_equal (@length _)) in Efrozen. rewrite !length_map in Efrozen. exact Efrozen. }
  split.
  - unfold ids_in_order. rewrite Eids, Elen, Enext. exact Hids.
  - rewrite Forall_forall in Hall. apply Forall_forall. intros n' Hin'.
    assert (map frozen (nodes t) = map frozen (nodes t') ++ []) as Eback
      by (rewrite app_nil_r; symmetry; exact Efrozen).
    assert (map frozen (nodes t') = map frozen (nodes t) ++ []) as Eforth
      by (rewrite app_nil_r; exact Efrozen).
    destruct (in_frozen _ _ _ n' Eback Hin') as (n & Hin & Ef).
    apply frozen_fields in Ef. destruct Ef as (F1 & F2 & F3 & F4 & F5 & F6).
    destruct (Hall n Hin) as (Hh & Hd & Hp). rewrite Etd.
    split; [| split].
    + unfold hangs_in in *. rewrite <- F2, <- F3, <- F4, <- F1.
      destruct (n_parent n) as [i |]; [| assumption].
      destruct Hh as (Hm & p & Hinp & Hp1 & Hp2 & Hp3 & Hp4).
      split; [assumption |].
      destruct (in_frozen _ _ _ p Eforth Hinp) as (p' & Hinp' & Efp).
      apply frozen_fields in Efp. destruct Efp as (G1 & _ & _ & G4 & G5 & _).
      exists p'. rewrite G1, G4, G5. repeat split; assumption.
    + rewrite <- F4. assumption.
    + rewrite <- F5, <- F6. assumption.
Qed.

Lemma tree_ok_set_value (t : SearchTracer) (i v : Z) (alpha beta : option Z) :
  tree_ok t -> tree_ok (set_value t i v alpha beta).
Proof.
  apply tree_ok_same_frozen; try reflexivity.
  unfold set_value. cbn [nodes]. apply frozen_set_value_in.
Qed.

Lemma extends_set_value (t : SearchTracer) (i v : Z) (alpha beta : option Z) :
  extends (Some t) (Some (set_value t i v alpha beta)).
Proof.
  unfold set_value. cbn [extends trace_depth nodes _next_id].
  split; [reflexivity |].
  pose proof (frozen_set_value_in (nodes t) i v alpha beta) as E.
  split.
  - apply (f_equal (@length _)) in E. rewrite !length_map in E. rewrite E. reflexivity.
  - exists []. rewrite app_nil_r. exact E.
Qed.

(** *** Rules *)

Section Rules.
Variable bound : Z.

Lemma triple_weaken {A} (pre pre' : world -> Prop) (m : M A)
    (post post' : A -> world -> Prop) :
  (forall w, pre' w -> pre w) -> (forall a w, post a w -> post' a w) ->
  triple bound pre m post -> triple bound pre' m post'.
Proof.
  intros Hpre Hpost Hm w Hs Hp. destruct (Hm w Hs (Hpre w Hp)) as (H1 & H2 & H3).
  split; [assumption |]. split; [assumption |]. intros a Ha. apply Hpost, H3, Ha.
Qed.

Lemma triple_bind {A B} (pre : world -> Prop) (m : M A) (mid : A -> world -> Prop)
    (k : A -> M B) (post : B -> world -> Prop) :
  stable pre ->
  triple bound pre m mid ->
  (forall a, triple bound (fun w => pre w /\ mid a w) (k a) post) ->
  triple bound pre (bind m k) post.
Proof.
  intros Hstable Hm Hk w Hs Hp. unfold bind.
  destruct (Hm w Hs Hp) as (Hs1 & He1 & Hmid).
  destruct (m w) as [[a | e] w1]; cbn [fst snd] in *.
  - destruct (Hk a w1 Hs1) as (Hs2 & He2 & Hpost).
    { split; [apply (Hstable w); assumption | apply Hmid; reflexivity]. }
    split; [assumption |]. split; [| assumption].
    apply (extends_trans _ (tracer w1)); assumption.
  - split; [assumption |]. split; [assumption |]. intros b Hb. discriminate Hb.
Qed.

(** A step that leaves the metrics and the tracer alone. *)
Lemma triple_quiet {A} (pre : world -> Prop) (m : M A) :
  (forall w, metrics (snd (m w)) = metrics w /\ tracer (snd (m w)) = tracer w) ->
  triple bound pre m anyhow.
Proof.
  intros Hq w (Hn & Hd & Ht) _. destruct (Hq w) as [Em Et].
  unfold sound. rewrite Em, Et. split; [auto |].
  split; [apply extends_refl | intros a _; exact I].
Qed.

Lemma triple_ret {A} (pre : world -> Prop) (a : A) : triple bound pre (ret a) anyhow.
Proof. apply triple_quiet. intros w. split; reflexivity. Qed.

Lemma triple_ask {A} (pre : world -> Prop) (f : ConnectFour -> result A) :
  triple bound pre (ask f) anyhow.
Proof. apply triple_quiet. intros w. split; reflexivity. Qed.

Lemma triple_do_drop (pre : world -> Prop) (a : Z) : triple bound pre (do_drop a) anyhow.
Proof.
  apply triple_quiet. intros w. unfold do_drop.
  destruct (drop_disc (game w) a None). split; reflexivity.
Qed.

Lemma triple_do_undo (pre : world -> Prop) (mv : MoveResult) :
  triple bound pre (do_undo mv) anyhow.
Proof.
  apply triple_quiet. intros w. unfold do_undo.
  destruct (undo_disc (game w) mv). split; reflexivity.
Qed.

Lemma triple_int_of (pre : world -> Prop) (best_move : option Z) :
  triple bound pre (int_of best_move) anyhow.
Proof.
  apply triple_quiet. intros w. unfold int_of. destruct best_move; split; reflexivity.
Qed.

Lemma triple_out_of_fuel {A} (pre : world -> Prop) :
  triple bound pre (@out_of_fuel A) anyhow.
Proof. apply triple_quiet. intros w. split; reflexivity. Qed.

Lemma triple_count_node (pre : world -> Prop) (d : Z) :
  d <= bound -> triple bound pre (count_node d) anyhow.
Proof.
  intros Hd w (Hn & Hdepth & Ht) _. unfold count_node, sound.
  cbn [snd metrics tracer nodes_expanded max_depth_reached].
  split; [split; [lia | split; [lia | assumption]] |].
  split; [apply extends_refl | intros a _; exact I].
Qed.

Lemma kind_of_not_pruned (cp ai : Z) : false = true <-> kind_of cp ai = PRUNED.
Proof. unfold kind_of. destruct (cp =? ai); split; discriminate. Qed.

(** The parent a new node at [depth] gets from a call one level up. *)
Lemma linked_parent (depth : Z) (nid : option Z) (a : Z) (w : world) (t : SearchTracer) :
  tracer w = Some t -> tree_ok t -> linked (depth - 1) nid w ->
  depth <= trace_depth t ->
  0 <= depth <= Z.max 0 (trace_depth t) /\
  match nid with
  | None => depth = 0 /\ Some a = None
  | Some i => Some a <> None /\
              exists p, In p (nodes t) /\ n_id p = i /\ depth = n_depth p + 1 /\
                        n_kind p <> PRUNED
  end.
Proof.
  intros Et [_ Hall] Hl Hd. destruct (Hl t Et) as [Hsome Hp].
  destruct nid as [i |]; [| exfalso; apply Hsome; [lia | reflexivity]].
  destruct (Hp i eq_refl) as (p & Hin & Hid & Hdp & Hk).
  rewrite Forall_forall in Hall. destruct (Hall p Hin) as (_ & Hrange & _).
  split; [lia |]. split; [discriminate |].
  exists p. repeat split; try assumption. lia.
Qed.

Lemma triple_trace_child (pre : world -> Prop) (within : SearchTracer -> bool)
    (ai : Z) (nid : option Z) (a depth : Z) (alpha beta : option Z) :
  (forall t, within t = true <-> depth <= trace_depth t) ->
  (forall w, pre w -> linked (depth - 1) nid w) ->
  triple bound pre (trace_child within ai nid a depth alpha beta)
    (fun cid w => linked depth cid w).
Proof.
  intros Hwithin Hlinked w (Hn & Hdepth & Ht) Hp. unfold trace_child.
  destruct (tracer w) as [t |] eqn:Et.
  - destruct (within t) eqn:Ew.
    + apply Hwithin in Ew.
      destruct (linked_parent depth nid a w t Et Ht (Hlinked w Hp) Ew) as [Hrange Hpar].
      pose proof (tree_ok_new_node t nid (Some a) depth (current_player (game w))
                    (kind_of (current_player (game w)) ai) alpha beta false Ht Hrange
                    (kind_of_not_pruned _ _) Hpar) as Hok.
      cbn [fst snd new_node] in *. split; [| split].
      * unfold sound. cbn [metrics tracer]. auto.
      * cbn [tracer].
        apply (extends_new_node t nid (Some a) depth (current_player (game w))
                 (kind_of (current_player (game w)) ai) alpha beta false).
      * intros cid Hcid. injection Hcid as <-. intros t' Et'. cbn [tracer] in Et'.
        injection Et' as <-. cbn [trace_depth nodes].
        split; [intros _; discriminate |].
        intros i Hi. injection Hi as <-.
        eexists. split; [apply in_or_app; right; left; reflexivity |].
        cbn [n_id n_depth n_kind]. split; [reflexivity |]. split; [reflexivity |].
        unfold kind_of. destruct (current_player (game w) =? ai); discriminate.
    + cbn [fst snd]. split; [unfold sound; rewrite Et; auto |].
      split; [rewrite Et; apply extends_refl |].
      intros cid Hcid. injection Hcid as <-. intros t' Et'.
      rewrite Et in Et'. injection Et' as <-.
      split; [| intros i Hi; discriminate Hi].
      intros Hle. apply Hwithin in Hle. congruence.
  - cbn [fst snd]. split; [unfold sound; rewrite Et; auto |].
    split; [rewrite Et; apply extends_refl |].
    intros cid _ t' Et'. rewrite Et in Et'. discriminate Et'.
Qed.

Lemma triple_trace_root (pre : world -> Prop) (ai : Z) (alpha beta : option Z) :
  triple bound pre (trace_root ai alpha beta) (fun rid w => linked 0 rid w).
Proof.
  intros w (Hn & Hdepth & Ht) _. unfold trace_root.
  destruct (tracer w) as [t |] eqn:Et.
  - assert (0 <= 0 <= Z.max 0 (trace_depth t)) as Hrange by lia.
    pose proof (tree_ok_new_node t None None 0 (current_player (game w))
                  (kind_of (current_player (game w)) ai) alpha beta false Ht Hrange
                  (kind_of_not_pruned _ _) (conj eq_refl eq_refl)) as Hok.
    cbn [fst snd new_node] in *. split; [| split].
    + unfold sound. cbn [metrics tracer]. auto.
    + cbn [tracer].
      apply (extends_new_node t None None 0 (current_player (game w))
               (kind_of (current_player (game w)) ai) alpha beta false).
    + intros rid Hrid. injection Hrid as <-. intros t' Et'. cbn [tracer] in Et'.
      injection Et' as <-. cbn [trace_depth nodes].
      split; [intros _; discriminate |].
      intros i Hi. injection Hi as <-.
      eexists. split; [apply in_or_app; right; left; reflexivity |].
      cbn [n_id n_depth n_kind]. split; [reflexivity |]. split; [reflexivity |].
      unfold kind_of. destruct (current_player (game w) =? ai); discriminate.
  - cbn [fst snd]. split; [unfold sound; rewrite Et; auto |].
    split; [rewrite Et; apply extends_refl |].
    intros rid _ t' Et'. rewrite Et in Et'. discriminate Et'.
Qed.

Lemma triple_trace_value (pre : world -> Prop) (within : SearchTracer -> bool)
    (nid : option Z) (v : Z) (alpha beta : option Z) :
  triple bound pre (trace_value within nid v alpha beta) anyhow.
Proof.
  intros w (Hn & Hdepth & Ht) _. unfold trace_value.
  destruct (tracer w) as [t |] eqn:Et; [destruct nid as [i |]; [destruct (within t) |] |];
    cbn [fst snd];
    try (split; [unfold sound; rewrite Et; auto |];
         split; [rewrite Et; apply extends_refl | intros u _; exact I]).
  split; [| split; [| intros u _; exact I]].
  - unfold sound. cbn [metrics tracer].
    split; [assumption |]. split; [assumption |]. apply tree_ok_set_value. assumption.
  - cbn [tracer]. apply extends_set_value.
Qed.

Lemma pruned_nodes_ok (nid : option Z) (depth cp alpha beta : Z) (i : Z) (dp : Z)
    (rest : list Z) :
  forall t,
    tree_ok t -> 0 <= depth <= Z.max 0 (trace_depth t) ->
    nid = Some i ->
    (exists p, In p (nodes t) /\ n_id p = i /\ depth = n_depth p + 1 /\
               n_kind p <> PRUNED) ->
    let t' := fold_left
                (fun t pruned_a =>
                   snd (new_node t nid (Some pruned_a) depth cp PRUNED
                          (Some alpha) (Some beta) true))
                rest t in
    tree_ok t' /\ extends (Some t) (Some t').
Proof.
  induction rest as [| a rest IH]; intros t Hok Hrange Hnid Hpar; cbn [fold_left].
  - split; [assumption | apply extends_refl].
  - set (t1 := snd (new_node t nid (Some a) depth cp PRUNED (Some alpha) (Some beta) true)).
    assert (tree_ok t1) as Hok1.
    { apply tree_ok_new_node; try assumption; [tauto |].
      rewrite Hnid. split; [discriminate | assumption]. }
    pose proof (extends_new_node t nid (Some a) depth cp PRUNED (Some alpha) (Some beta)
                  true) as Hext1.
    fold t1 in Hext1.
    destruct (IH t1 Hok1) as [Hok' Hext'].
    + unfold t1, new_node. cbn [snd trace_depth]. assumption.
    + assumption.
    + destruct Hpar as (p & Hin & Hp). exists p.
      split; [| assumption]. unfold t1, new_node. cbn [snd nodes].
      apply in_or_app. left. assumption.
    + split; [assumption |].
      apply (extends_trans _ (Some t1)); assumption.
Qed.

Lemma triple_trace_pruned (pre : world -> Prop) (within : SearchTracer -> bool)
    (nid : option Z) (rest : list Z) (depth alpha beta : Z) :
  (forall t, within t = true <-> depth <= trace_depth t) ->
  (forall w, pre w -> linked (depth - 1) nid w) ->
  triple bound pre (trace_pruned within nid rest depth alpha beta) anyhow.
Proof.
  intros Hwithin Hlinked w (Hn & Hdepth & Ht) Hp. unfold trace_pruned.
  destruct (tracer w) as [t |] eqn:Et; [destruct (within t) eqn:Ew |];
    cbn [fst snd];
    try (split; [unfold sound; rewrite Et; auto |];
         split; [rewrite Et; apply extends_refl | intros u _; exact I]).
  apply Hwithin in Ew.
  destruct (linked_parent depth nid 0 w t Et Ht (Hlinked w Hp) Ew) as [Hrange Hpar].
  destruct nid as [i |]; [| destruct Hpar as [_ Hpar]; discriminate Hpar].
  destruct Hpar as [_ Hpar].
  destruct (pruned_nodes_ok (Some i) depth (current_player (game w)) alpha beta i 0 rest
              t Ht Hrange eq_refl Hpar) as [Hok Hext].
  split; [| split; [| intros u _; exact I]].
  - unfold sound. cbn [metrics tracer]. auto.
  - cbn [tracer]. exact Hext.
Qed.

(** *** Loops *)

Lemma triple_for_each {A} (pre : world -> Prop) (acts : list Z) (body : Z -> A -> M A) :
  stable pre ->
  (forall a acc, triple bound pre (body a acc) anyhow) ->
  forall acc, triple bound pre (for_each acts acc body) anyhow.
Proof.
  intros Hstable Hbody. induction acts as [| a acts IH]; intros acc; cbn [for_each].
  - apply triple_ret.
  - apply (triple_bind pre _ anyhow); [assumption | apply Hbody |].
    intros acc'. apply (triple_weaken pre _ _ anyhow); [tauto | auto | apply IH].
Qed.

Lemma triple_for_break {A} (pre : world -> Prop) (acts : list Z)
    (body : Z -> list Z -> A -> M (A * bool)) :
  stable pre ->
  (forall a rest acc, triple bound pre (body a rest acc) anyhow) ->
  forall acc, triple bound pre (for_break acts acc body) anyhow.
Proof.
  intros Hstable Hbody. induction acts as [| a acts IH]; intros acc; cbn [for_break].
  - apply triple_ret.
  - apply (triple_bind pre _ anyhow); [assumption | apply Hbody |].
    intros r. destruct (snd r); [apply triple_ret |].
    apply (triple_weaken pre _ _ anyhow); [tauto | auto | apply IH].
Qed.

Lemma triple_plain_body {A} (ai : Z) (within : SearchTracer -> bool) (nid : option Z)
    (d : Z) (child : option Z -> M Z) (combine : Z -> Z -> A -> A) (a : Z) (acc : A) :
  (forall t, within t = true <-> d + 1 <= trace_depth t) ->
  (forall cid, triple bound (linked (d + 1) cid) (child cid) anyhow) ->
  triple bound (linked d nid) (plain_body ai within nid (d + 1) child combine a acc) anyhow.
Proof.
  intros Hwithin Hchild. unfold plain_body.
  apply (triple_bind _ _ anyhow); [solve_stable | apply triple_do_drop | intros mv].
  apply (triple_bind _ _ (fun cid w => linked (d + 1) cid w)); [solve_stable | |].
  { apply triple_trace_child; [assumption |].
    intros w [Hl _]. replace (d + 1 - 1) with d by lia. assumption. }
  intros cid.
  apply (triple_bind _ _ anyhow); [solve_stable | |].
  { apply (triple_weaken (linked (d + 1) cid) _ _ anyhow); [tauto | auto | apply Hchild]. }
  intros val.
  apply (triple_bind _ _ anyhow); [solve_stable | apply triple_do_undo | intros u].
  apply triple_ret.
Qed.

Lemma triple_cut_body {A} (ai : Z) (within : SearchTracer -> bool) (nid : option Z)
    (d : Z) (child : Z -> Z -> option Z -> M Z) (window : Z -> Z * Z)
    (combine : Z -> Z -> A -> A) (key : A -> Z) (tighten : Z -> Z -> Z)
    (a : Z) (rest : list Z) (st : A * Z) :
  (forall t, within t = true <-> d + 1 <= trace_depth t) ->
  (forall alpha beta cid,
     triple bound (linked (d + 1) cid) (child alpha beta cid) anyhow) ->
  triple bound (linked d nid)
    (cut_body ai within nid (d + 1) child window combine key tighten a rest st) anyhow.
Proof.
  intros Hwithin Hchild. unfold cut_body.
  apply (triple_bind _ _ anyhow); [solve_stable | apply triple_do_drop | intros mv].
  apply (triple_bind _ _ (fun cid w => linked (d + 1) cid w)); [solve_stable | |].
  { apply triple_trace_child; [assumption |].
    intros w [Hl _]. replace (d + 1 - 1) with d by lia. assumption. }
  intros cid.
  apply (triple_bind _ _ anyhow); [solve_stable | |].
  { apply (triple_weaken (linked (d + 1) cid) _ _ anyhow); [tauto | auto | apply Hchild]. }
  intros val.
  apply (triple_bind _ _ anyhow); [solve_stable | apply triple_do_undo | intros u].
  cbv zeta.
  match goal with |- context [if ?c then _ else _] => destruct c end.
  - apply (triple_bind _ _ anyhow); [solve_stable | | intros u'; apply triple_ret].
    apply triple_trace_pruned; [assumption |].
    intros w Hpre. replace (d + 1 - 1) with d by lia. tauto.
  - apply triple_ret.
Qed.
End Rules.

Lemma below_within (d : Z) (t : SearchTracer) :
  below d t = true <-> d + 1 <= trace_depth t.
Proof. unfold below. lia. Qed.

Lemma at_root_within (t : SearchTracer) : at_root t = true <-> 0 + 1 <= trace_depth t.
Proof. unfold at_root. lia. Qed.

Ltac from_linked d nid :=
  apply (triple_weaken _ (linked d nid) _ _ anyhow anyhow);
  [intros ? Hpre; cbv beta in Hpre; tauto | auto |].

Section TreeClosures.
Variable heuristic : ConnectFour -> Z -> result Z.
Variables ai depth_limit : Z.

Lemma triple_minimax (fuel : nat) :
  forall d nid, d <= Z.max 1 depth_limit ->
    triple (Z.max 1 depth_limit) (linked d nid)
      (Minimax.max_value heuristic ai depth_limit fuel d nid) anyhow /\
    triple (Z.max 1 depth_limit) (linked d nid)
      (Minimax.min_value heuristic ai depth_limit fuel d nid) anyhow.
Proof.
  induction fuel as [| fuel IH]; intros d nid Hd; split;
    rewrite ?minimax_max_value_eq, ?minimax_min_value_eq;
    (apply (triple_bind _ _ _ anyhow);
     [solve_stable | apply triple_count_node; assumption | intros u]);
    (apply (triple_bind _ _ _ anyhow); [solve_stable | apply triple_ask | intros t]);
    (destruct t; [apply triple_ask |]);
    (destruct (d >=? depth_limit) eqn:Ed; [apply triple_ask |]);
    try apply triple_out_of_fuel;
    (apply (triple_bind _ _ _ anyhow); [solve_stable | apply triple_ask | intros acts]);
    (apply (triple_bind _ _ _ anyhow);
     [solve_stable | |
      intros v; apply (triple_bind _ _ _ anyhow);
      [solve_stable | apply triple_trace_value | intros u'; apply triple_ret]]);
    (apply triple_for_each; [solve_stable |]); intros a acc;
    from_linked d nid;
    (apply triple_plain_body; [apply below_within |]);
    intros cid; apply IH; lia.
Qed.

Lemma triple_alphabeta (fuel : nat) :
  forall d alpha beta nid, d <= Z.max 1 depth_limit ->
    triple (Z.max 1 depth_limit) (linked d nid)
      (AlphaBeta.max_value heuristic ai depth_limit fuel d alpha beta nid) anyhow /\
    triple (Z.max 1 depth_limit) (linked d nid)
      (AlphaBeta.min_value heuristic ai depth_limit fuel d alpha beta nid) anyhow.
Proof.
  induction fuel as [| fuel IH]; intros d alpha beta nid Hd; split;
    rewrite ?alphabeta_max_value_eq, ?alphabeta_min_value_eq;
    (apply (triple_bind _ _ _ anyhow);
     [solve_stable | apply triple_count_node; assumption | intros u]);
    (apply (triple_bind _ _ _ anyhow); [solve_stable | apply triple_ask | intros t]);
    (destruct t; [apply triple_ask |]);
    (destruct (d >=? depth_limit) eqn:Ed; [apply triple_ask |]);
    try apply triple_out_of_fuel;
    (apply (triple_bind _ _ _ anyhow); [solve_stable | apply triple_ask | intros acts]);
    (apply (triple_bind _ _ _ anyhow);
     [solve_stable | |
      intros v; apply (triple_bind _ _ _ anyhow);
      [solve_stable | apply triple_trace_value | intros u'; apply triple_ret]]);
    (apply triple_for_break; [solve_stable |]); intros a rest acc;
    from_linked d nid;
    (apply triple_cut_body; [apply below_within |]);
    intros al be cid; apply IH; lia.
Qed.

Lemma triple_minimax_decision :
  triple (Z.max 1 depth_limit) (fun _ => True)
    (Minimax.decision heuristic ai depth_limit) anyhow.
Proof.
  unfold Minimax.decision. rewrite minimax_search_eq.
  apply (triple_bind _ _ _ anyhow);
    [solve_stable | | intros best; apply triple_int_of].
  apply (triple_bind _ _ _ (fun rid w => linked 0 rid w));
    [solve_stable | apply triple_trace_root | intros rid].
  apply (triple_bind _ _ _ anyhow); [solve_stable | apply triple_ask | intros cp].
  destruct (cp =? ai);
    (apply (triple_bind _ _ _ anyhow); [solve_stable | apply triple_ask | intros acts]);
    (apply (triple_bind _ _ _ anyhow);
     [solve_stable | |
      intros v; apply (triple_bind _ _ _ anyhow);
      [solve_stable | apply triple_trace_value | intros u'; apply triple_ret]]);
    (apply triple_for_each; [solve_stable |]); intros a acc;
    from_linked 0 rid;
    (apply (triple_plain_body _ ai at_root rid 0); [apply at_root_within |]);
    intros cid; apply triple_minimax; lia.
Qed.

Lemma triple_alphabeta_decision :
  triple (Z.max 1 depth_limit) (fun _ => True)
    (AlphaBeta.decision heuristic ai depth_limit) anyhow.
Proof.
  unfold AlphaBeta.decision. rewrite alphabeta_search_eq.
  apply (triple_bind _ _ _ anyhow);
    [solve_stable | | intros best; apply triple_int_of].
  apply (triple_bind _ _ _ (fun rid w => linked 0 rid w));
    [solve_stable | apply triple_trace_root | intros rid].
  apply (triple_bind _ _ _ anyhow); [solve_stable | apply triple_ask | intros cp].
  destruct (cp =? ai);
    (apply (triple_bind _ _ _ anyhow); [solve_stable | apply triple_ask | intros acts]);
    (apply (triple_bind _ _ _ anyhow);
     [solve_stable | |
      intros v; apply (triple_bind _ _ _ anyhow);
      [solve_stable | apply triple_trace_value | intros u'; apply triple_ret]]);
    (apply triple_for_break; [solve_stable |]); intros a rest acc;
    from_linked 0 rid;
    (apply (triple_cut_body _ ai at_root rid 0); [apply at_root_within |]);
    intros al be cid; apply triple_alphabeta; lia.
Qed.
End TreeClosures.

(** X25: whatever the state, the player, the depth limit and the tracer,
    the depth either search reports in [max_depth_reached] lies between 0
    and the depth limit, or 1 when the limit is below 1, and
    [nodes_expanded] is not negative. *)
Theorem max_depth_within_limit
    (g : ConnectFour) (ai depth_limit : Z) (t : option SearchTracer) :
  let in_range (m : SearchMetrics) :=
    0 <= max_depth_reached m <= Z.max 1 depth_limit /\ 0 <= nodes_expanded m in
  in_range (metrics (snd (minimax_decision g ai depth_limit t))) /\
  in_range (metrics (snd (alphabeta_decision g ai depth_limit t))).
Proof.
  cbv zeta. unfold minimax_decision, alphabeta_decision.
  assert (same_run (start g t) (start g None)) as Hw by (split; reflexivity).
  destruct (alike_minimax_decision evaluate ai depth_limit _ _ Hw) as [_ [_ ->]].
  destruct (alike_alphabeta_decision evaluate ai depth_limit _ _ Hw) as [_ [_ ->]].
  assert (sound (Z.max 1 depth_limit) (start g None)) as Hs.
  { unfold sound, start. cbn [metrics tracer nodes_expanded max_depth_reached]. lia. }
  destruct (triple_minimax_decision evaluate ai depth_limit _ Hs I) as ((Hn & Hd & _) & _).
  destruct (triple_alphabeta_decision evaluate ai depth_limit _ Hs I)
    as ((Hn' & Hd' & _) & _).
  repeat split; lia.
Qed.




(** *** Nodes by id *)

Lemma range_from_cons (a b : Z) : a < b -> range_from a b = a :: range_from (a + 1) b.
Proof.
  intros H. unfold range_from.
  replace (Z.to_nat (b - a)) with (S (Z.to_nat (b - (a + 1)))) by lia.
  cbn [seq map]. f_equal; [lia |].
  rewrite <- seq_shift, map_map. apply map_ext. intros k. lia.
Qed.

Lemma set_value_in_by_id (i v : Z) (alpha beta : option Z) (ns : list TraceNode) :
  forall a b, map n_id ns = range_from a b ->
    set_value_in ns i v alpha beta
    = map (fun n => if n_id n =? i then valued n v alpha beta else n) ns.
Proof.
  induction ns as [| n ns IH]; intros a b Hids; [reflexivity |].
  assert (a < b) as Hab.
  { destruct (Z_lt_dec a b) as [| Hge]; [assumption |].
    rewrite range_from_empty in Hids by lia. discriminate Hids. }
  rewrite (range_from_cons a b Hab) in Hids. cbn [map] in Hids.
  injection Hids as Hid Hrest.
  cbn [set_value_in map]. destruct (n_id n =? i) eqn:E.
  - unfold valued. f_equal.
    assert (forall m, In m ns -> (n_id m =? i) = false) as Hlater.
    { intros m Hm. apply (in_map n_id) in Hm. rewrite Hrest in Hm.
      apply in_range_from in Hm. lia. }
    clear - Hlater. induction ns as [| m ns IH]; [reflexivity |].
    cbn [map]. rewrite (Hlater m) by (left; reflexivity).
    f_equal. apply IH. intros m' Hm'. apply Hlater. right. assumption.
  - f_equal. apply (IH (a + 1) b). assumption.
Qed.

(** X27: ids address the nodes.  In a tracer whose ids count up in list
    order (every tracer a search has worked on is such), [set_value] changes
    the node with the given id and no other: it stores the value, overwrites
    [alpha] and [beta] only when they are given, and leaves the other fields
    and the other nodes alone; with an id that was never handed out it
    changes nothing.  [new_node] returns an id that no node has yet and
    keeps the ids in order. *)
Theorem nodes_by_id (t : SearchTracer) (i v : Z) (alpha beta : option Z) :
  ids_in_order t ->
  set_value t i v alpha beta
  = mkTracer (trace_depth t)
      (map (fun n => if n_id n =? i then valued n v alpha beta else n) (nodes t))
      (_next_id t) /\
  (~ (_next_id t - Z.of_nat (length (nodes t)) <= i < _next_id t) ->
   set_value t i v alpha beta = t) /\
  (forall n, In n (nodes t) -> n_id n = i ->
     In (valued n v alpha beta) (nodes (set_value t i v alpha beta))) /\
  (forall parent move depth turn_player kind a b flag,
     let made := new_node t parent move depth turn_player kind a b flag in
     fst made = _next_id t /\
     (forall n, In n (nodes t) -> n_id n <> fst made) /\
     ids_in_order (snd made)).
Proof.
  intros Hids.
  pose proof (set_value_in_by_id i v alpha beta (nodes t) _ _ Hids) as Hmap.
  assert (set_value t i v alpha beta
          = mkTracer (trace_depth t)
              (map (fun n => if n_id n =? i then valued n v alpha beta else n) (nodes t))
              (_next_id t)) as Hset
    by (unfold set_value; rewrite Hmap; reflexivity).
  split; [exact Hset |]. split; [| split].
  - intros Hout. rewrite Hset. destruct t as [td ns next]. cbn [trace_depth nodes _next_id] in *.
    f_equal. rewrite <- (map_id ns) at 2. apply map_ext_in. intros n Hn.
    apply (in_map n_id) in Hn. rewrite Hids in Hn. apply in_range_from in Hn.
    cbn [trace_depth nodes _next_id] in Hn.
    replace (n_id n =? i) with false by lia. reflexivity.
  - intros n Hin Hid. rewrite Hset. cbn [nodes].
    apply in_map_iff. exists n. split; [| assumption].
    replace (n_id n =? i) with true by lia. reflexivity.
  - intros parent move depth turn_player kind a b flag made.
    split; [reflexivity |]. split.
    + intros n Hin. pose proof (ids_below_next t n Hids Hin). cbn [made new_node fst]. lia.
    + subst made. unfold ids_in_order, new_node. cbn [snd nodes _next_id].
      rewrite map_app, length_app, Hids. cbn [map length n_id].
      replace (_next_id t + 1 - Z.of_nat (length (nodes t) + 1))
        with (_next_id t - Z.of_nat (length (nodes t))) by lia.
      rewrite range_from_succ by lia. reflexivity.
Qed.

Lemma nodes_by_id_fresh :
  ids_in_order (snd (new_node (new_tracer 3) None None 0 1 MAX None None false)) /\
  nodes (set_value (snd (new_node (new_tracer 3) None None 0 1 MAX None None false))
           0 7 None None)
  = [mkNode 0 None None 0 1 MAX None None (Some 7) false].
Proof.
  assert (ids_in_order (snd (new_node (new_tracer 3) None None 0 1 MAX None None false)))
    as Hids by reflexivity.
  split; [exact Hids |].
  destruct (nodes_by_id (snd (new_node (new_tracer 3) None None 0 1 MAX None None false))
              0 7 None None Hids) as (Hset & _).
  rewrite Hset. reflexivity.
Defined.

(** ** The trace records the calls *)

Section Tally.
Variable depth : Z.

Lemma shifts_bind_after {A B} (k : Z) (m : M A) (f : A -> M B) :
  shifts depth k m -> (forall a, shifts depth 0 (f a)) -> shifts depth k (bind m f).
Proof.
  intros Hm Hf w. unfold bind. destruct (Hm w) as [Hle Heq].
  destruct (m w) as [[a | e] w1]; cbn [fst snd] in *; [| split; assumption].
  destruct (Hf a w1) as [Hle' Heq']. split; [lia |].
  intros Hdeep. destruct (Heq Hdeep) as [Hd1 E1]. destruct (Heq' Hd1) as [Hd2 E2].
  split; [assumption | lia].
Qed.

Lemma shifts_bind_total {A B} (k k' : Z) (m : M A) (f : A -> M B) :
  never_raises m -> shifts depth k m -> (forall a, shifts depth k' (f a)) ->
  shifts depth (k + k') (bind m f).
Proof.
  intros Htotal Hm Hf w. unfold bind. destruct (Hm w) as [Hle Heq].
  destruct (Htotal w) as [a Ha].
  destruct (m w) as [[a' | e] w1]; cbn [fst snd] in *; [| discriminate Ha].
  destruct (Hf a' w1) as [Hle' Heq']. split; [lia |].
  intros Hdeep. destruct (Heq Hdeep) as [Hd1 E1]. destruct (Heq' Hd1) as [Hd2 E2].
  split; [assumption | lia].
Qed.

(** A step that leaves the metrics and the tracer alone. *)
Lemma shifts_quiet {A} (m : M A) :
  (forall w, metrics (snd (m w)) = metrics w /\ tracer (snd (m w)) = tracer w) ->
  shifts depth 0 m.
Proof.
  intros Hq w. destruct (Hq w) as [Em Et]. unfold tally, deep. rewrite Em, Et.
  split; [lia |]. intros H. split; [assumption | lia].
Qed.

Lemma shifts_ret {A} (a : A) : shifts depth 0 (ret a).
Proof. apply shifts_quiet. intros w. split; reflexivity. Qed.

Lemma shifts_ask {A} (f : ConnectFour -> result A) : shifts depth 0 (ask f).
Proof. apply shifts_quiet. intros w. split; reflexivity. Qed.

Lemma shifts_do_drop (a : Z) : shifts depth 0 (do_drop a).
Proof.
  apply shifts_quiet. intros w. unfold do_drop.
  destruct (drop_disc (game w) a None). split; reflexivity.
Qed.

Lemma shifts_do_undo (mv : MoveResult) : shifts depth 0 (do_undo mv).
Proof.
  apply shifts_quiet. intros w. unfold do_undo.
  destruct (undo_disc (game w) mv). split; reflexivity.
Qed.

Lemma shifts_int_of (best_move : option Z) : shifts depth 0 (int_of best_move).
Proof.
  apply shifts_quiet. intros w. unfold int_of. destruct best_move; split; reflexivity.
Qed.

Lemma shifts_out_of_fuel {A} : shifts depth 0 (@out_of_fuel A).
Proof. apply shifts_quiet. intros w. split; reflexivity. Qed.

Lemma shifts_count_node (d : Z) : shifts depth (-1) (count_node d).
Proof.
  intros w. unfold count_node, tally, deep.
  cbn [snd metrics tracer nodes_expanded]. split; [lia |].
  intros H. split; [assumption | lia].
Qed.

Lemma count_node_total (d : Z) : never_raises (count_node d).
Proof. intros w. exists tt. reflexivity. Qed.

Lemma traced_new_node (t : SearchTracer) (parent move : option Z) (dp tp : Z)
    (kind : node_kind) (alpha beta : option Z) (flag : bool) :
  traced_calls (Some (snd (new_node t parent move dp tp kind alpha beta flag)))
  = traced_calls (Some t) + (match kind with PRUNED => 0 | _ => 1 end).
Proof.
  unfold traced_calls. rewrite pruned_new_node.
  unfold new_node. cbn [snd nodes]. rewrite length_app. cbn [length].
  destruct kind; lia.
Qed.

Lemma traced_kind_of (t : SearchTracer) (parent move : option Z) (dp cp ai : Z)
    (alpha beta : option Z) :
  traced_calls (Some (snd (new_node t parent move dp cp (kind_of cp ai) alpha beta false)))
  = traced_calls (Some t) + 1.
Proof. rewrite traced_new_node. unfold kind_of. destruct (cp =? ai); reflexivity. Qed.

Lemma shifts_trace_child (within : SearchTracer -> bool) (ai : Z) (nid : option Z)
    (a dp : Z) (alpha beta : option Z) :
  (forall t, within t = true <-> dp <= trace_depth t) -> dp <= depth ->
  shifts depth 1 (trace_child within ai nid a dp alpha beta).
Proof.
  intros Hwithin Hdp w. unfold trace_child, tally, deep.
  destruct (tracer w) as [t |] eqn:Et.
  - destruct (within t) eqn:Ew.
    + pose proof (traced_kind_of t nid (Some a) dp (current_player (game w)) ai
                    alpha beta) as Hone.
      cbn [new_node snd] in *. cbn [snd metrics tracer]. split; [lia |].
      intros (t0 & E0 & Hd0). injection E0 as <-.
      split; [eexists; split; [reflexivity | exact Hd0] | lia].
    + cbn [snd]. rewrite Et. split; [lia |].
      intros (t0 & E0 & Hd0). injection E0 as <-.
      assert (within t = true) as Hyes by (apply Hwithin; lia). congruence.
  - cbn [snd]. rewrite Et. split; [lia |]. intros (t0 & E0 & _). discriminate E0.
Qed.

Lemma trace_child_total (within : SearchTracer -> bool) (ai : Z) (nid : option Z)
    (a dp : Z) (alpha beta : option Z) :
  never_raises (trace_child within ai nid a dp alpha beta).
Proof.
  intros w. destruct (trace_child_run within ai nid a dp alpha beta w)
    as (cid & w' & E & _). rewrite E. exists cid. reflexivity.
Qed.

Lemma shifts_trace_root (ai : Z) (alpha beta : option Z) :
  shifts depth 1 (trace_root ai alpha beta).
Proof.
  intros w. unfold trace_root, tally, deep.
  destruct (tracer w) as [t |] eqn:Et.
  - pose proof (traced_kind_of t None None 0 (current_player (game w)) ai alpha beta)
      as Hone.
    cbn [new_node snd] in *. cbn [snd metrics tracer]. split; [lia |].
    intros (t0 & E0 & Hd0). injection E0 as <-.
    split; [eexists; split; [reflexivity | exact Hd0] | lia].
  - cbn [snd]. rewrite Et. split; [lia |]. intros (t0 & E0 & _). discriminate E0.
Qed.

Lemma trace_root_total (ai : Z) (alpha beta : option Z) :
  never_raises (trace_root ai alpha beta).
Proof.
  intros w. destruct (trace_root_run ai alpha beta w) as (rid & w' & E & _).
  rewrite E. exists rid. reflexivity.
Qed.

Lemma traced_set_value (t : SearchTracer) (i v : Z) (alpha beta : option Z) :
  traced_calls (Some (set_value t i v alpha beta)) = traced_calls (Some t).
Proof.
  unfold traced_calls, pruned_count, set_value. cbn [nodes].
  rewrite pruned_set_value_in.
  pose proof (frozen_set_value_in (nodes t) i v alpha beta) as E.
  apply (f_equal (@length _)) in E. rewrite !length_map in E. rewrite E. reflexivity.
Qed.

Lemma shifts_trace_value (within : SearchTracer -> bool) (nid : option Z) (v : Z)
    (alpha beta : option Z) :
  shifts depth 0 (trace_value within nid v alpha beta).
Proof.
  intros w. unfold trace_value, tally, deep.
  destruct (tracer w) as [t |] eqn:Et; [destruct nid as [i |]; [destruct (within t) |] |];
    cbn [snd]; rewrite ?Et;
    try (split; [lia |]; intros H; split; [assumption | lia]).
  cbn [metrics tracer]. rewrite traced_set_value. split; [lia |].
  intros (t0 & E0 & Hd0). injection E0 as <-.
  split; [eexists; split; [reflexivity | exact Hd0] | lia].
Qed.

Lemma traced_fold_pruned (nid : option Z) (dp cp alpha beta : Z) (rest : list Z) :
  forall t,
    let t' := fold_left
                (fun t pruned_a =>
                   snd (new_node t nid (Some pruned_a) dp cp PRUNED
                          (Some alpha) (Some beta) true))
                rest t in
    traced_calls (Some t') = traced_calls (Some t) /\ trace_depth t' = trace_depth t.
Proof.
  induction rest as [| a rest IH]; intros t; cbn [fold_left]; [split; reflexivity |].
  cbv zeta in IH. destruct (IH (snd (new_node t nid (Some a) dp cp PRUNED
                                       (Some alpha) (Some beta) true))) as [E1 E2].
  cbv zeta. rewrite E1, E2, traced_new_node. split; [lia | reflexivity].
Qed.

Lemma shifts_trace_pruned (within : SearchTracer -> bool) (nid : option Z)
    (rest : list Z) (dp alpha beta : Z) :
  shifts depth 0 (trace_pruned within nid rest dp alpha beta).
Proof.
  intros w. unfold trace_pruned, tally, deep.
  destruct (tracer w) as [t |] eqn:Et; [destruct (within t) |];
    cbn [snd]; rewrite ?Et;
    try (split; [lia |]; intros H; split; [assumption | lia]).
  cbn [metrics tracer].
  destruct (traced_fold_pruned nid dp (current_player (game w)) alpha beta rest t)
    as [E1 E2].
  cbv zeta in E1, E2. rewrite E1. split; [lia |].
  intros (t0 & E0 & Hd0). injection E0 as <-.
  split; [eexists; split; [reflexivity | rewrite E2; exact Hd0] | lia].
Qed.

Lemma shifts_for_each {A} (acts : list Z) (body : Z -> A -> M A) :
  (forall a acc, shifts depth 0 (body a acc)) ->
  forall acc, shifts depth 0 (for_each acts acc body).
Proof.
  intros Hbody. induction acts as [| a acts IH]; intros acc; cbn [for_each].
  - apply shifts_ret.
  - apply shifts_bind_after; [apply Hbody | intros acc'; apply IH].
Qed.

Lemma shifts_for_break {A} (acts : list Z) (body : Z -> list Z -> A -> M (A * bool)) :
  (forall a rest acc, shifts depth 0 (body a rest acc)) ->
  forall acc, shifts depth 0 (for_break acts acc body).
Proof.
  intros Hbody. induction acts as [| a acts IH]; intros acc; cbn [for_break].
  - apply shifts_ret.
  - apply shifts_bind_after; [apply Hbody |]. intros r.
    destruct (snd r); [apply shifts_ret | apply IH].
Qed.

Lemma shifts_plain_body {A} (ai : Z) (within : SearchTracer -> bool) (nid : option Z)
    (dp : Z) (child : option Z -> M Z) (combine : Z -> Z -> A -> A) (a : Z) (acc : A) :
  (forall t, within t = true <-> dp <= trace_depth t) -> dp <= depth ->
  (forall cid, shifts depth (-1) (child cid)) ->
  shifts depth 0 (plain_body ai within nid dp child combine a acc).
Proof.
  intros Hwithin Hdp Hchild. unfold plain_body.
  apply shifts_bind_after; [apply shifts_do_drop | intros mv].
  apply (shifts_bind_total 1 (-1));
    [apply trace_child_total | apply shifts_trace_child; assumption | intros cid].
  apply shifts_bind_after; [apply Hchild | intros val].
  apply shifts_bind_after; [apply shifts_do_undo | intros u]. apply shifts_ret.
Qed.

Lemma shifts_cut_body {A} (ai : Z) (within : SearchTracer -> bool) (nid : option Z)
    (dp : Z) (child : Z -> Z -> option Z -> M Z) (window : Z -> Z * Z)
    (combine : Z -> Z -> A -> A) (key : A -> Z) (tighten : Z -> Z -> Z)
    (a : Z) (rest : list Z) (st : A * Z) :
  (forall t, within t = true <-> dp <= trace_depth t) -> dp <= depth ->
  (forall alpha beta cid, shifts depth (-1) (child alpha beta cid)) ->
  shifts depth 0 (cut_body ai within nid dp child window combine key tighten a rest st).
Proof.
  intros Hwithin Hdp Hchild. unfold cut_body.
  apply shifts_bind_after; [apply shifts_do_drop | intros mv].
  apply (shifts_bind_total 1 (-1));
    [apply trace_child_total | apply shifts_trace_child; assumption | intros cid].
  apply shifts_bind_after; [apply Hchild | intros val].
  apply shifts_bind_after; [apply shifts_do_undo | intros u]. cbv zeta.
  match goal with |- context [if ?c then _ else _] => destruct c end.
  - apply shifts_bind_after; [apply shifts_trace_pruned | intros u']. apply shifts_ret.
  - apply shifts_ret.
Qed.
End Tally.

Section TallyClosures.
Variable heuristic : ConnectFour -> Z -> result Z.
Variables ai depth_limit : Z.

Lemma shifts_minimax (fuel : nat) :
  forall d nid,
    shifts (Z.max 1 depth_limit) (-1)
      (Minimax.max_value heuristic ai depth_limit fuel d nid) /\
    shifts (Z.max 1 depth_limit) (-1)
      (Minimax.min_value heuristic ai depth_limit fuel d nid).
Proof.
  induction fuel as [| fuel IH]; intros d nid; split;
    rewrite ?minimax_max_value_eq, ?minimax_min_value_eq;
    (apply (shifts_bind_total _ (-1) 0);
     [apply count_node_total | apply shifts_count_node | intros u]);
    (apply shifts_bind_after; [apply shifts_ask | intros t]);
    (destruct t; [apply shifts_ask |]);
    (destruct (d >=? depth_limit) eqn:Ed; [apply shifts_ask |]);
    try apply shifts_out_of_fuel;
    (apply shifts_bind_after; [apply shifts_ask | intros acts]);
    (apply shifts_bind_after;
     [| intros v; apply shifts_bind_after;
        [apply shifts_trace_value | intros u'; apply shifts_ret]]);
    apply shifts_for_each; intros a acc;
    (apply shifts_plain_body; [apply below_within | lia |]);
    intros cid; apply IH.
Qed.

Lemma shifts_alphabeta (fuel : nat) :
  forall d alpha beta nid,
    shifts (Z.max 1 depth_limit) (-1)
      (AlphaBeta.max_value heuristic ai depth_limit fuel d alpha beta nid) /\
    shifts (Z.max 1 depth_limit) (-1)
      (AlphaBeta.min_value heuristic ai depth_limit fuel d alpha beta nid).
Proof.
  induction fuel as [| fuel IH]; intros d alpha beta nid; split;
    rewrite ?alphabeta_max_value_eq, ?alphabeta_min_value_eq;
    (apply (shifts_bind_total _ (-1) 0);
     [apply count_node_total | apply shifts_count_node | intros u]);
    (apply shifts_bind_after; [apply shifts_ask | intros t]);
    (destruct t; [apply shifts_ask |]);
    (destruct (d >=? depth_limit) eqn:Ed; [apply shifts_ask |]);
    try apply shifts_out_of_fuel;
    (apply shifts_bind_after; [apply shifts_ask | intros acts]);
    (apply shifts_bind_after;
     [| intros v; apply shifts_bind_after;
        [apply shifts_trace_value | intros u'; apply shifts_ret]]);
    apply shifts_for_break; intros a rest acc;
    (apply shifts_cut_body; [apply below_within | lia |]);
    intros al be cid; apply IH.
Qed.

Lemma shifts_minimax_decision :
  shifts (Z.max 1 depth_limit) 1 (Minimax.decision heuristic ai depth_limit).
Proof.
  unfold Minimax.decision. rewrite minimax_search_eq.
  apply shifts_bind_after; [| intros best; apply shifts_int_of].
  apply (shifts_bind_total _ 1 0);
    [apply trace_root_total | apply shifts_trace_root | intros rid].
  apply shifts_bind_after; [apply shifts_ask | intros cp].
  destruct (cp =? ai);
    (apply shifts_bind_after; [apply shifts_ask | intros acts]);
    (apply shifts_bind_after;
     [| intros v; apply shifts_bind_after;
        [apply shifts_trace_value | intros u'; apply shifts_ret]]);
    apply shifts_for_each; intros a acc;
    (apply shifts_plain_body; [apply at_root_within | lia |]);
    intros cid; apply shifts_minimax.
Qed.

Lemma shifts_alphabeta_decision :
  shifts (Z.max 1 depth_limit) 1 (AlphaBeta.decision heuristic ai depth_limit).
Proof.
  unfold AlphaBeta.decision. rewrite alphabeta_search_eq.
  apply shifts_bind_after; [| intros best; apply shifts_int_of].
  apply (shifts_bind_total _ 1 0);
    [apply trace_root_total | apply shifts_trace_root | intros rid].
  apply shifts_bind_after; [apply shifts_ask | intros cp].
  destruct (cp =? ai);
    (apply shifts_bind_after; [apply shifts_ask | intros acts]);
    (apply shifts_bind_after;
     [| intros v; apply shifts_bind_after;
        [apply shifts_trace_value | intros u'; apply shifts_ret]]);
    apply shifts_for_break; intros a rest acc;
    (apply shifts_cut_body; [apply at_root_within | lia |]);
    intros al be cid; apply shifts_alphabeta.
Qed.
End TallyClosures.

(** X28: the trace against the call counter.  After either search the
    nodes of the trace that are no pruning placeholders are at most the
    nodes that were there before, one root and one node per call counted in
    [nodes_expanded]; with a tracer whose [trace_depth] reaches the depth
    limit (and 1) they are exactly as many, every call has its node,
    however the search ends. *)
Theorem trace_counts_calls
    (g : ConnectFour) (ai depth_limit : Z) (t : SearchTracer) :
  let counted (w : world) :=
    traced_calls (tracer w) <= traced_calls (Some t) + 1 + nodes_expanded (metrics w) /\
    (Z.max 1 depth_limit <= trace_depth t ->
     traced_calls (tracer w) = traced_calls (Some t) + 1 + nodes_expanded (metrics w)) in
  counted (snd (minimax_decision g ai depth_limit (Some t))) /\
  counted (snd (alphabeta_decision g ai depth_limit (Some t))).
Proof.
  cbv zeta. unfold minimax_decision, alphabeta_decision.
  destruct (shifts_minimax_decision evaluate ai depth_limit (start g (Some t)))
    as [Hm Hme].
  destruct (shifts_alphabeta_decision evaluate ai depth_limit (start g (Some t)))
    as [Ha Hae].
  unfold tally, deep in *. cbn [start tracer metrics nodes_expanded] in *.
  split; (split; [lia |]); intros Hdeep.
  - destruct Hme as [_ E]; [exists t; split; [reflexivity | assumption] |]. lia.
  - destruct Hae as [_ E]; [exists t; split; [reflexivity | assumption] |]. lia.
Qed.

Lemma trace_counts_calls_midgame :
  Z.max 1 2 <= trace_depth (new_tracer 2) /\
  traced_calls (tracer (snd (minimax_decision midgame 1 2 (Some (new_tracer 2)))))
  = traced_calls (Some (new_tracer 2)) + 1
    + nodes_expanded (metrics (snd (minimax_decision midgame 1 2 (Some (new_tracer 2))))) /\
  traced_calls (tracer (snd (alphabeta_decision midgame 1 2 (Some (new_tracer 2)))))
  = traced_calls (Some (new_tracer 2)) + 1
    + nodes_expanded (metrics (snd (alphabeta_decision midgame 1 2 (Some (new_tracer 2))))).
Proof.
  assert (Z.max 1 2 <= trace_depth (new_tracer 2)) as Hdeep by (vm_compute; discriminate).
  split; [exact Hdeep |].
  pose proof (trace_counts_calls midgame 1 2 (new_tracer 2)) as H. cbv zeta in H.
  destruct H as [[_ Hm] [_ Ha]]. split; [apply Hm | apply Ha]; exact Hdeep.
Defined.
